(** * neurocombat_sklearn: the ComBat harmonization transformer

    A shallow embedding of [neurocombat_sklearn/neurocombat_sklearn.py]
    (class [CombatTransformer], and the handling of columns and sites of the
    wrapper [CombatHarmonizer]) and the properties its specification states.

    - Numbers are kept behind the interface [Scalar], with two instances:
      IEEE binary64 (the [float64] arrays the program computes on, through
      the kernel's primitive floats) and the real numbers (the arithmetic the
      algebraic properties are meant in).
    - A numpy 2-D array is an [ndarray]: its shape and its rows.  Every
      operation that NumPy refuses (shapes that do not align or broadcast, an
      index out of bounds, a singular matrix) returns [Raise].
    - The estimator object is the record [self] of its attributes, each
      present or absent as [hasattr] sees it; methods run in the monad [M],
      which threads the object and keeps whatever was written before an
      exception. *)

From Stdlib Require Import String Ascii DecimalString.
From Stdlib Require Import ZArith List Bool Arith Lia.
From Stdlib Require Import Floats.
From Stdlib Require Import Reals Lra.
Import ListNotations.

Set Implicit Arguments.

(* ================================================================== *)
(** * Exceptions and outcomes *)

(** The exceptions the program or the library calls it makes can raise. *)
Inductive exn : Type :=
| ValueError (msg : string)
| AttributeError (msg : string)
| NotFittedError (msg : string)
| LinAlgError (msg : string)
| IndexError (msg : string)
| UnboundLocalError (msg : string).

(** What a call results in: a value, an exception, or (for the [while] loop
    of the solver, which the program does not bound) a run that is still
    going when the fuel given to the model is spent. *)
Inductive outcome (A : Type) : Type :=
| Ok (a : A)
| Raise (e : exn)
| OutOfFuel.

Arguments Ok {A} a.
Arguments Raise {A} e.
Arguments OutOfFuel {A}.

Definition obind {A B : Type} (m : outcome A) (k : A -> outcome B) : outcome B :=
  match m with
  | Ok a => k a
  | Raise e => Raise e
  | OutOfFuel => OutOfFuel
  end.

Definition omap {A B : Type} (f : A -> B) (m : outcome A) : outcome B :=
  obind m (fun a => Ok (f a)).

Declare Scope outcome_scope.
Delimit Scope outcome_scope with outcome.
Notation "'let*' x ':=' m 'in' k" := (obind m (fun x => k))
  (at level 10, x name, m at level 100, k at level 200) : outcome_scope.
Notation "'let*' ' pat ':=' m 'in' k" := (obind m (fun x => match x with pat => k end))
  (at level 10, pat pattern, m at level 100, k at level 200) : outcome_scope.
Open Scope outcome_scope.

(** [for x in xs: ys.append(f x)], stopping at the first exception. *)
Fixpoint omapM {A B : Type} (f : A -> outcome B) (xs : list A) : outcome (list B) :=
  match xs with
  | [] => Ok []
  | x :: xs' => let* y := f x in let* ys := omapM f xs' in Ok (y :: ys)
  end.

(* ================================================================== *)
(** * The arithmetic interface *)

(** The scalar operations the program uses on [float64] values.  [f32]
    rounds to [float32] (the [dtype=np.float32] of [_find_priors]); [of_nat]
    converts an integer count.  The one law is the exactness of a product
    with [1.0], which is what makes [np.dot(v, np.ones(...))] a broadcast. *)
Class Scalar (F : Type) : Type := {
  zero : F;
  one : F;
  two : F;
  half : F;
  default_convergence : F;
  fadd : F -> F -> F;
  fsub : F -> F -> F;
  fmul : F -> F -> F;
  fdiv : F -> F -> F;
  fsqrt : F -> F;
  fabs : F -> F;
  fgt : F -> F -> bool;
  fisnan : F -> bool;
  fisfinite : F -> bool;
  of_nat : nat -> F;
  f32 : F -> F;
  fmul_one_r : forall x : F, fmul x one = x;
  one_gt_default_convergence : fgt one default_convergence = true
}.

Declare Scope scalar_scope.
Delimit Scope scalar_scope with sc.
Infix "+" := fadd : scalar_scope.
Infix "-" := fsub : scalar_scope.
Infix "*" := fmul : scalar_scope.
Infix "/" := fdiv : scalar_scope.
Infix ">?" := fgt (at level 70, no associativity) : scalar_scope.

(* ================================================================== *)
(** * Integer helpers: [np.unique], [np.where], membership *)

Fixpoint insert_sorted (x : Z) (l : list Z) : list Z :=
  match l with
  | [] => [x]
  | y :: l' =>
      if (x <? y)%Z then x :: l
      else if (x =? y)%Z then l
      else y :: insert_sorted x l'
  end.

(** [np.unique(a)]: the sorted distinct values. *)
Definition np_unique (a : list Z) : list Z := fold_right insert_sorted [] a.

(** [x in a] for a numpy array [a]. *)
Definition np_in (x : Z) (a : list Z) : bool := existsb (Z.eqb x) a.

(** [np.sum(a == x)]. *)
Definition count_eq (a : list Z) (x : Z) : nat := length (filter (Z.eqb x) a).

(** [np.unique(a, return_counts=True)]. *)
Definition np_unique_counts (a : list Z) : list Z * list nat :=
  let names := np_unique a in (names, map (count_eq a) names).

(** [list(np.where(a == x)[0])] for a column [a]. *)
Definition np_where_eq (a : list Z) (x : Z) : list nat :=
  filter (fun i => (nth i a 0%Z =? x)%Z) (seq 0 (length a)).

(** Decimal rendering of an integer, as [str] prints it. *)
Definition string_of_Z (z : Z) : string := NilZero.string_of_int (Z.to_int z).

Fixpoint string_of_Zs (l : list Z) : string :=
  match l with
  | [] => EmptyString
  | [z] => string_of_Z z
  | z :: l' => (string_of_Z z ++ ", " ++ string_of_Zs l')%string
  end.

(** [needle in haystack] for strings. *)
Fixpoint prefixb (p s : string) : bool :=
  match p, s with
  | EmptyString, _ => true
  | String a p', String b s' => Ascii.eqb a b && prefixb p' s'
  | String _ _, EmptyString => false
  end.

Fixpoint str_contains (needle s : string) : bool :=
  prefixb needle s ||
  match s with
  | EmptyString => false
  | String _ s' => str_contains needle s'
  end.

(* ================================================================== *)
(** * Arrays *)

(** A 2-D array: its shape and its rows.  [elems] is read through [get], so
    the shape is authoritative; every operation builds its result with
    [tab], which makes the rows agree with the shape. *)
Record ndarray (A : Type) : Type := NDArray {
  nrows : nat;
  ncols : nat;
  elems : list (list A)
}.

Definition get {A : Type} (d : A) (M : ndarray A) (i j : nat) : A :=
  nth j (nth i (elems M) []) d.

Definition tab {A : Type} (r c : nat) (f : nat -> nat -> A) : ndarray A :=
  NDArray r c (map (fun i => map (fun j => f i j) (seq 0 c)) (seq 0 r)).

(** [np.asarray] of a nested list, when it is rectangular. *)
Definition rectangular {A : Type} (X : list (list A)) : bool :=
  forallb (fun row => length row =? length (hd [] X)) X.

Definition asarray {A : Type} (d : A) (X : list (list A)) : ndarray A :=
  tab (length X) (length (hd [] X)) (fun i j => nth j (nth i X []) d).

(** Row [i] and column [j] as 1-D arrays. *)
Definition row_of {A : Type} (d : A) (M : ndarray A) (i : nat) : list A :=
  map (fun j => get d M i j) (seq 0 (ncols M)).

Definition col_of {A : Type} (d : A) (M : ndarray A) (j : nat) : list A :=
  map (fun i => get d M i j) (seq 0 (nrows M)).

Definition rows_of {A : Type} (d : A) (M : ndarray A) : list (list A) :=
  map (row_of d M) (seq 0 (nrows M)).

(** [M.T] *)
Definition transpose {A : Type} (d : A) (M : ndarray A) : ndarray A :=
  tab (ncols M) (nrows M) (fun i j => get d M j i).

(** Broadcasting of one dimension: equal extents, or one of them is 1. *)
Definition bcast_dim (a b : nat) : option nat :=
  if a =? b then Some a
  else if a =? 1 then Some b
  else if b =? 1 then Some a
  else None.

(** The index read in an operand of extent [a] for position [i] of the result. *)
Definition bidx (a i : nat) : nat := if a =? 1 then 0 else i.

Definition broadcast_error : exn :=
  ValueError "operands could not be broadcast together".

Section Arrays.
Context {F : Type} {SF : Scalar F}.
Local Open Scope scalar_scope.

Local Abbreviation vec := (list F).
Local Abbreviation mat := (ndarray F).

Definition at_ (M : mat) (i j : nat) : F := get zero M i j.
Definition vnth (v : vec) (i : nat) : F := nth i v zero.

(** [np.sum] of a 1-D array: the reduction with [+], from left to right.
    NumPy adds pairwise from eight elements on: in binary64 the last digits
    of a long sum can differ; in exact arithmetic the order does not
    matter. *)
Definition np_sum (v : vec) : F :=
  match v with
  | [] => zero
  | x :: v' => fold_left fadd v' x
  end.

(** [sum(f(k) for k in range(n))] *)
Definition sum_n (n : nat) (f : nat -> F) : F := np_sum (map f (seq 0 n)).

(** [x ** 2] *)
Definition square (x : F) : F := x * x.

(** Elementwise binary operation on 2-D arrays, with broadcasting. *)
Definition ew2 (op : F -> F -> F) (A B : mat) : outcome mat :=
  match bcast_dim (nrows A) (nrows B), bcast_dim (ncols A) (ncols B) with
  | Some r, Some c =>
      Ok (tab r c (fun i j =>
            op (at_ A (bidx (nrows A) i) (bidx (ncols A) j))
               (at_ B (bidx (nrows B) i) (bidx (ncols B) j))))
  | _, _ => Raise broadcast_error
  end.

(** Elementwise unary operation. *)
Definition ew1 (f : F -> F) (A : mat) : mat :=
  tab (nrows A) (ncols A) (fun i j => f (at_ A i j)).

(** Elementwise binary operation on 1-D arrays, with broadcasting. *)
Definition vew2 (op : F -> F -> F) (a b : vec) : outcome vec :=
  match bcast_dim (length a) (length b) with
  | Some n =>
      Ok (map (fun i => op (vnth a (bidx (length a) i)) (vnth b (bidx (length b) i)))
              (seq 0 n))
  | None => Raise broadcast_error
  end.

Definition dot_error : exn := ValueError "shapes not aligned".

(** [np.dot(A, B)] for 2-D arrays: each entry is the sum of the products,
    from left to right, every operation rounded.  BLAS may fuse or reorder
    them: in binary64 the last digits can differ; shapes, errors and the
    exact-arithmetic values are those of NumPy. *)
Definition dot (A B : mat) : outcome mat :=
  if ncols A =? nrows B then
    Ok (tab (nrows A) (ncols B)
          (fun i j => sum_n (ncols A) (fun k => at_ A i k * at_ B k j)))
  else Raise dot_error.

(** [np.dot(v, B)] for a 1-D [v] and a 2-D [B]: a 1-D array. *)
Definition vdot (v : vec) (B : mat) : outcome vec :=
  if length v =? nrows B then
    Ok (map (fun j => sum_n (length v) (fun k => vnth v k * at_ B k j))
            (seq 0 (ncols B)))
  else Raise dot_error.

(** [np.ones((r, c))] *)
Definition ones (r c : nat) : mat := tab r c (fun _ _ => one).

(** [v[:, np.newaxis]] *)
Definition column (v : vec) : mat := tab (length v) 1 (fun i _ => vnth v i).

(** [M[:k, :]], [M[:, :k]] and [M[:, 1:]]: slices clip, they never raise. *)
Definition first_rows (k : nat) (M : mat) : mat :=
  tab (Nat.min k (nrows M)) (ncols M) (fun i j => at_ M i j).

Definition first_cols (k : nat) (M : mat) : mat :=
  tab (nrows M) (Nat.min k (ncols M)) (fun i j => at_ M i j).

Definition drop_first_col (M : mat) : mat :=
  tab (nrows M) (ncols M - 1) (fun i j => at_ M i (S j)).

Definition index_error : exn := IndexError "index is out of bounds".

(** [M[:, idx]] and [M[idx, :]] for a list of indices. *)
Definition take_cols (M : mat) (idx : list nat) : outcome mat :=
  if forallb (fun k => k <? ncols M) idx then
    Ok (tab (nrows M) (length idx) (fun i j => at_ M i (nth j idx 0)))
  else Raise index_error.

Definition take_rows (M : mat) (idx : list nat) : outcome mat :=
  if forallb (fun k => k <? nrows M) idx then
    Ok (tab (length idx) (ncols M) (fun i j => at_ M (nth i idx 0) j))
  else Raise index_error.

(** The last position of [j] in [idx], if any. *)
Fixpoint last_pos (j : nat) (idx : list nat) (k : nat) : option nat :=
  match idx with
  | [] => None
  | x :: idx' =>
      match last_pos j idx' (S k) with
      | Some p => Some p
      | None => if x =? j then Some k else None
      end
  end.

(** [M[:, idx] = V]: [V] must broadcast to the shape of [M[:, idx]]. *)
Definition set_cols (M : mat) (idx : list nat) (V : mat) : outcome mat :=
  if negb (forallb (fun k => k <? ncols M) idx) then Raise index_error
  else if ((nrows V =? nrows M) || (nrows V =? 1))
       && ((ncols V =? length idx) || (ncols V =? 1)) then
    Ok (tab (nrows M) (ncols M) (fun i j =>
          match last_pos j idx 0 with
          | Some k => at_ V (bidx (nrows V) i) (bidx (ncols V) k)
          | None => at_ M i j
          end))
  else Raise broadcast_error.

(** [M[:, :k] = 0] *)
Definition zero_first_cols (k : nat) (M : mat) : mat :=
  tab (nrows M) (ncols M) (fun i j => if j <? k then zero else at_ M i j).

(** [np.hstack] of a non-empty list of 2-D arrays. *)
Definition hstack2 (A B : mat) : outcome mat :=
  if nrows A =? nrows B then
    Ok (tab (nrows A) (ncols A + ncols B)
          (fun i j => if j <? ncols A then at_ A i j else at_ B i (j - ncols A)))
  else Raise (ValueError "all the input array dimensions except for the concatenation axis must match exactly").

Fixpoint hstack_from (A : mat) (l : list mat) : outcome mat :=
  match l with
  | [] => Ok A
  | B :: l' => let* AB := hstack2 A B in hstack_from AB l'
  end.

Definition hstack (l : list mat) : outcome mat :=
  match l with
  | [] => Raise (ValueError "need at least one array to concatenate")
  | A :: l' => hstack_from A l'
  end.

(** [M.sum(axis=1)] *)
Definition sum_axis1 (M : mat) : vec :=
  map (fun i => sum_n (ncols M) (fun j => at_ M i j)) (seq 0 (nrows M)).

(** [np.mean(v)] *)
Definition np_mean (v : vec) : F := np_sum v / of_nat (length v).

(** [np.var(v, ddof=1)]: the squared deviations from the mean, summed and
    divided by [max(n - ddof, 0)]. *)
Definition np_var_ddof1 (v : vec) : F :=
  let arrmean := np_sum v / of_nat (length v) in
  let x := map (fun a => a - arrmean) v in
  np_sum (map (fun a => a * a) x) / of_nat (length v - 1).

(** [np.var(v, ddof=1, dtype=np.float32)]: the two sums accumulate in
    [float32]. *)
Definition np_sum32 (v : vec) : F :=
  match v with
  | [] => zero
  | x :: v' => fold_left (fun acc a => f32 (acc + f32 a)) v' (f32 x)
  end.

Definition np_var_ddof1_f32 (v : vec) : F :=
  let arrmean := f32 (np_sum32 v / of_nat (length v)) in
  let x := map (fun a => a - arrmean) v in
  f32 (np_sum32 (map (fun a => a * a) x) / of_nat (length v - 1)).

(** [a.max()] for a 1-D array: NaN wins; an empty array is an error. *)
Definition np_max2 (x y : F) : F :=
  if fisnan x then x else if fisnan y then y else if y >? x then y else x.

Definition np_max (v : vec) : outcome F :=
  match v with
  | [] => Raise (ValueError "zero-size array to reduction operation maximum which has no identity")
  | x :: v' => Ok (fold_left np_max2 v' x)
  end.

(** Python's builtin [max(a, b)]: [b] when [b > a], else [a]. *)
Definition py_max (a b : F) : F := if b >? a then b else a.

End Arrays.

(* ================================================================== *)
(** * [numpy.linalg.inv] *)

(** LAPACK's inverse (an LU factorisation with partial pivoting, then the
    solve against the identity) is modelled as Gauss-Jordan elimination with
    partial pivoting on the augmented matrix; it raises [LinAlgError] on a
    zero pivot, as NumPy does.  In binary64 the digits of the result can
    differ from LAPACK's.  The proofs below look inside it only for the
    inverse of a diagonal matrix, in exact arithmetic. *)
Section LinAlg.
Context {F : Type} {SF : Scalar F}.
Local Open Scope scalar_scope.
Local Abbreviation mat := (ndarray F).

Definition is_zero (x : F) : bool :=
  negb (x >? zero) && negb (zero >? x) && negb (fisnan x).

Definition swap_rows (rows : list (list F)) (i j : nat) : list (list F) :=
  map (fun k => if k =? i then nth j rows []
                else if k =? j then nth i rows []
                else nth k rows [])
      (seq 0 (length rows)).

Fixpoint pivot_row (rows : list (list F)) (col : nat) (cands : list nat) (best : nat) : nat :=
  match cands with
  | [] => best
  | i :: cands' =>
      if fabs (vnth (nth i rows []) col) >? fabs (vnth (nth best rows []) col)
      then pivot_row rows col cands' i
      else pivot_row rows col cands' best
  end.

Definition eliminate (rows : list (list F)) (k : nat) : outcome (list (list F)) :=
  let n := length rows in
  let p := pivot_row rows k (seq (S k) (n - S k)) k in
  let rows := swap_rows rows k p in
  let piv := vnth (nth k rows []) k in
  if is_zero piv then Raise (LinAlgError "Singular matrix")
  else
    let prow := map (fun x => x / piv) (nth k rows []) in
    Ok (map (fun i =>
               if i =? k then prow
               else
                 let f := vnth (nth i rows []) k in
                 map (fun xy => fst xy - f * snd xy) (combine (nth i rows []) prow))
            (seq 0 n)).

Fixpoint gauss_jordan (rows : list (list F)) (ks : list nat) : outcome (list (list F)) :=
  match ks with
  | [] => Ok rows
  | k :: ks' => let* rows' := eliminate rows k in gauss_jordan rows' ks'
  end.

Definition inv (A : mat) : outcome mat :=
  if negb (nrows A =? ncols A)
  then Raise (LinAlgError "Last 2 dimensions of the array must be square")
  else
    let n := nrows A in
    let aug := map (fun i =>
                 map (fun j => if j <? n then at_ A i j
                               else if j - n =? i then one else zero)
                     (seq 0 (2 * n)))
                 (seq 0 n) in
    let* R := gauss_jordan aug (seq 0 n) in
    Ok (tab n n (fun i j => vnth (nth i R []) (n + j))).

End LinAlg.

(* ================================================================== *)
(** * scikit-learn helpers: validation and the one-hot encoder *)

(** A fitted [OneHotEncoder] on one column: its sorted categories. *)
Record OneHotEncoder : Type := { categories_ : list Z }.

Definition encoder_fit (col : list Z) : OneHotEncoder :=
  {| categories_ := np_unique col |}.

Definition unknown_categories_message (unknown : list Z) : string :=
  ("Found unknown categories [" ++ string_of_Zs unknown ++ "] in column 0 during transform")%string.

Section Sklearn.
Context {F : Type} {SF : Scalar F}.

(** [OneHotEncoder(sparse=False).transform(col)], with the default
    [handle_unknown='error']. *)
Definition encoder_transform (enc : OneHotEncoder) (col : list Z) : outcome (ndarray F) :=
  let cats := categories_ enc in
  match filter (fun v => negb (np_in v cats)) (np_unique col) with
  | [] =>
      Ok (tab (length col) (length cats)
            (fun i j => if (nth i col 0%Z =? nth j cats 0%Z)%Z then one else zero))
  | unknown => Raise (ValueError (unknown_categories_message unknown))
  end.

(** [check_array(X, dtype=FLOAT_DTYPES)]: a rectangular 2-D array of finite
    numbers with at least one sample and one feature. *)
Definition check_array (X : list (list F)) : outcome (ndarray F) :=
  if negb (rectangular X) then
    Raise (ValueError "setting an array element with a sequence.")
  else if negb (forallb (forallb fisfinite) X) then
    Raise (ValueError "Input contains NaN, infinity or a value too large for dtype('float64').")
  else if length X =? 0 then
    Raise (ValueError "Found array with 0 sample(s) while a minimum of 1 is required.")
  else if length (hd [] X) =? 0 then
    Raise (ValueError "Found array with 0 feature(s) while a minimum of 1 is required.")
  else Ok (asarray zero X).

(** [check_array(X, dtype=None)] for the categorical covariates. *)
Definition check_array_categorical (X : list (list Z)) : outcome (ndarray Z) :=
  if negb (rectangular X) then
    Raise (ValueError "setting an array element with a sequence.")
  else if length X =? 0 then
    Raise (ValueError "Found array with 0 sample(s) while a minimum of 1 is required.")
  else if length (hd [] X) =? 0 then
    Raise (ValueError "Found array with 0 feature(s) while a minimum of 1 is required.")
  else Ok (asarray 0%Z X).

(** [check_array(sites)] for the [n_samples, 1] column of site labels, kept
    as the list of its entries. *)
Definition check_array_sites (sites : list Z) : outcome (list Z) :=
  if length sites =? 0 then
    Raise (ValueError "Found array with 0 sample(s) while a minimum of 1 is required.")
  else Ok sites.

(** [check_array(None, ...)] *)
Definition check_array_none {A : Type} : outcome A :=
  Raise (ValueError "Expected 2D array, got scalar array instead").

Definition check_consistent_length (n m : nat) : outcome unit :=
  if n =? m then Ok tt
  else Raise (ValueError "Found input variables with inconsistent numbers of samples").

End Sklearn.

(* ================================================================== *)
(** * The estimator object *)

(** The attributes of a [CombatTransformer] instance.  [copy] is the
    constructor parameter; every other attribute exists only once it has been
    assigned, and [del] removes it again. *)
Record self (F : Type) : Type := Self {
  copy : bool;
  n_sites : option nat;
  sites_names : option (list Z);
  discrete_covariates_used : option bool;
  continuous_covariates_used : option bool;
  site_encoder : option OneHotEncoder;
  discrete_encoders : option (list OneHotEncoder);
  beta_hat : option (ndarray F);
  grand_mean : option (list F);
  var_pooled : option (ndarray F);
  gamma_star : option (ndarray F);
  delta_star : option (ndarray F)
}.

(** [CombatTransformer(copy=True)] *)
Definition __init__ (F : Type) (copy : bool) : self F :=
  Self copy None None None None None None None None None None None.

Section Attributes.
Context {F : Type}.
Implicit Type s : self F.

Definition set_n_sites (v : option nat) s : self F :=
  Self (copy s) v (sites_names s) (discrete_covariates_used s)
    (continuous_covariates_used s) (site_encoder s) (discrete_encoders s)
    (beta_hat s) (grand_mean s) (var_pooled s) (gamma_star s) (delta_star s).

Definition set_sites_names (v : option (list Z)) s : self F :=
  Self (copy s) (n_sites s) v (discrete_covariates_used s)
    (continuous_covariates_used s) (site_encoder s) (discrete_encoders s)
    (beta_hat s) (grand_mean s) (var_pooled s) (gamma_star s) (delta_star s).

Definition set_discrete_covariates_used (v : option bool) s : self F :=
  Self (copy s) (n_sites s) (sites_names s) v
    (continuous_covariates_used s) (site_encoder s) (discrete_encoders s)
    (beta_hat s) (grand_mean s) (var_pooled s) (gamma_star s) (delta_star s).

Definition set_continuous_covariates_used (v : option bool) s : self F :=
  Self (copy s) (n_sites s) (sites_names s) (discrete_covariates_used s)
    v (site_encoder s) (discrete_encoders s)
    (beta_hat s) (grand_mean s) (var_pooled s) (gamma_star s) (delta_star s).

Definition set_site_encoder (v : option OneHotEncoder) s : self F :=
  Self (copy s) (n_sites s) (sites_names s) (discrete_covariates_used s)
    (continuous_covariates_used s) v (discrete_encoders s)
    (beta_hat s) (grand_mean s) (var_pooled s) (gamma_star s) (delta_star s).

Definition set_discrete_encoders (v : option (list OneHotEncoder)) s : self F :=
  Self (copy s) (n_sites s) (sites_names s) (discrete_covariates_used s)
    (continuous_covariates_used s) (site_encoder s) v
    (beta_hat s) (grand_mean s) (var_pooled s) (gamma_star s) (delta_star s).

Definition set_beta_hat (v : option (ndarray F)) s : self F :=
  Self (copy s) (n_sites s) (sites_names s) (discrete_covariates_used s)
    (continuous_covariates_used s) (site_encoder s) (discrete_encoders s)
    v (grand_mean s) (var_pooled s) (gamma_star s) (delta_star s).

Definition set_grand_mean (v : option (list F)) s : self F :=
  Self (copy s) (n_sites s) (sites_names s) (discrete_covariates_used s)
    (continuous_covariates_used s) (site_encoder s) (discrete_encoders s)
    (beta_hat s) v (var_pooled s) (gamma_star s) (delta_star s).

Definition set_var_pooled (v : option (ndarray F)) s : self F :=
  Self (copy s) (n_sites s) (sites_names s) (discrete_covariates_used s)
    (continuous_covariates_used s) (site_encoder s) (discrete_encoders s)
    (beta_hat s) (grand_mean s) v (gamma_star s) (delta_star s).

Definition set_gamma_star (v : option (ndarray F)) s : self F :=
  Self (copy s) (n_sites s) (sites_names s) (discrete_covariates_used s)
    (continuous_covariates_used s) (site_encoder s) (discrete_encoders s)
    (beta_hat s) (grand_mean s) (var_pooled s) v (delta_star s).

Definition set_delta_star (v : option (ndarray F)) s : self F :=
  Self (copy s) (n_sites s) (sites_names s) (discrete_covariates_used s)
    (continuous_covariates_used s) (site_encoder s) (discrete_encoders s)
    (beta_hat s) (grand_mean s) (var_pooled s) (gamma_star s) v.

(** A method body: it may read and write the object, and ends in an outcome.
    The object it returns is the one left behind, also under an exception. *)
Definition M (A : Type) : Type := self F -> self F * outcome A.

Definition ret {A : Type} (a : A) : M A := fun s => (s, Ok a).

Definition bind {A B : Type} (m : M A) (k : A -> M B) : M B :=
  fun s =>
    match m s with
    | (s', Ok a) => k a s'
    | (s', Raise e) => (s', Raise e)
    | (s', OutOfFuel) => (s', OutOfFuel)
    end.

(** A computation that does not touch the object. *)
Definition lift {A : Type} (o : outcome A) : M A := fun s => (s, o).

Definition raise {A : Type} (e : exn) : M A := lift (Raise e).

(** [self.name] *)
Definition getattr {A : Type} (name : string) (proj : self F -> option A) : M A :=
  fun s =>
    match proj s with
    | Some v => (s, Ok v)
    | None => (s, Raise (AttributeError name))
    end.

(** [hasattr(self, name)] *)
Definition hasattr {A : Type} (proj : self F -> option A) : M bool :=
  fun s => (s, Ok (match proj s with Some _ => true | None => false end)).

(** [self.name = v] *)
Definition setattr {A : Type} (upd : option A -> self F -> self F) (v : A) : M unit :=
  fun s => (upd (Some v) s, Ok tt).

(** [del self.name] *)
Definition delattr {A : Type} (name : string) (proj : self F -> option A)
    (upd : option A -> self F -> self F) : M unit :=
  fun s =>
    match proj s with
    | Some _ => (upd None s, Ok tt)
    | None => (s, Raise (AttributeError name))
    end.

End Attributes.

Declare Scope method_scope.
Delimit Scope method_scope with method.
Notation "x <- m ;; k" := (bind m (fun x => k))
  (at level 61, m at next level, right associativity) : method_scope.
Notation "' pat <- m ;; k" := (bind m (fun x => match x with pat => k end))
  (at level 61, pat pattern, m at next level, right associativity) : method_scope.
Notation "m ;; k" := (bind m (fun _ => k))
  (at level 61, right associativity) : method_scope.
Open Scope method_scope.

(** [for x in xs: body(x)] *)
Fixpoint for_each {F A : Type} (xs : list A) (body : A -> M (F:=F) unit) : M (F:=F) unit :=
  match xs with
  | [] => ret tt
  | x :: xs' => body x ;; for_each xs' body
  end.

(** [for x in xs: acc = body(acc, x)] *)
Fixpoint for_fold {F A B : Type} (xs : list A) (acc : B) (body : B -> A -> M (F:=F) B)
  : M (F:=F) B :=
  match xs with
  | [] => ret acc
  | x :: xs' => acc' <- body acc x ;; for_fold xs' acc' body
  end.

(** [enumerate(xs)] *)
Definition enumerate {A : Type} (xs : list A) : list (nat * A) :=
  combine (seq 0 (length xs)) xs.

(** [xs[i]] on a Python list or the first axis of an array. *)
Definition index {A : Type} (xs : list A) (i : nat) : outcome A :=
  match nth_error xs i with
  | Some x => Ok x
  | None => Raise (IndexError "index out of range")
  end.

(* ================================================================== *)
(** * [CombatTransformer] *)

Section CombatTransformer.
Context {F : Type} {SF : Scalar F}.
Local Open Scope scalar_scope.

Local Abbreviation vec := (list F).
Local Abbreviation mat := (ndarray F).
Local Abbreviation Method := (M (F:=F)).

(** ** [_reset] *)

Definition _reset : Method unit :=
  fitted <- hasattr (@n_sites F) ;;
  if (fitted : bool) then
    delattr "n_sites" (@n_sites F) set_n_sites ;;
    delattr "sites_names" (@sites_names F) set_sites_names ;;
    delattr "discrete_covariates_used" (@discrete_covariates_used F) set_discrete_covariates_used ;;
    delattr "continuous_covariates_used" (@continuous_covariates_used F) set_continuous_covariates_used ;;
    delattr "site_encoder" (@site_encoder F) set_site_encoder ;;
    delattr "discrete_encoders" (@discrete_encoders F) set_discrete_encoders ;;
    delattr "beta_hat" (@beta_hat F) set_beta_hat ;;
    delattr "grand_mean" (@grand_mean F) set_grand_mean ;;
    delattr "var_pooled" (@var_pooled F) set_var_pooled ;;
    delattr "gamma_star" (@gamma_star F) set_gamma_star ;;
    delattr "delta_star" (@delta_star F) set_delta_star
  else ret tt.

(** ** [_make_design_matrix] *)

Definition _make_design_matrix (sites : list Z)
    (discrete_covariates : option (ndarray Z))
    (continuous_covariates : option mat) (fitting : bool) : Method mat :=
  (if fitting then setattr set_site_encoder (encoder_fit sites) else ret tt) ;;
  enc <- getattr "site_encoder" (@site_encoder F) ;;
  sites_design <- lift (encoder_transform enc sites) ;;
  let design_list := [sites_design] in
  design_list <-
    match discrete_covariates with
    | Some discrete_covariates =>
        let n_discrete_covariates := ncols discrete_covariates in
        (if fitting then
           setattr set_discrete_encoders [] ;;
           for_each (seq 0 n_discrete_covariates) (fun i =>
             let discrete_encoder := encoder_fit (col_of 0%Z discrete_covariates i) in
             encs <- getattr "discrete_encoders" (@discrete_encoders F) ;;
             setattr set_discrete_encoders (encs ++ [discrete_encoder]))
         else ret tt) ;;
        for_fold (seq 0 n_discrete_covariates) design_list (fun design_list i =>
          encs <- getattr "discrete_encoders" (@discrete_encoders F) ;;
          discrete_encoder <- lift (index encs i) ;;
          discrete_covariate_one_hot <-
            lift (encoder_transform discrete_encoder (col_of 0%Z discrete_covariates i)) ;;
          let discrete_covariate_design := drop_first_col discrete_covariate_one_hot in
          ret (design_list ++ [discrete_covariate_design]))
    | None => ret design_list
    end ;;
  let design_list :=
    match continuous_covariates with
    | Some continuous_covariates => design_list ++ [continuous_covariates]
    | None => design_list
    end in
  lift (hstack design_list).

(** ** [_standardize_across_features] *)

(** [A += B]: [B] must broadcast to the shape of [A]. *)
Definition iadd (A B : mat) : outcome mat :=
  if ((nrows B =? nrows A) || (nrows B =? 1)) && ((ncols B =? ncols A) || (ncols B =? 1))
  then Ok (tab (nrows A) (ncols A) (fun i j =>
             at_ A i j + at_ B (bidx (nrows B) i) (bidx (ncols B) j)))
  else Raise broadcast_error.

(** The body of [if fitting:], which stores [beta_hat], [grand_mean] and
    [var_pooled]. *)
Definition standardization_model (data design : mat) (n_samples : nat)
    (n_samples_per_site : list nat) : Method unit :=
  DtD <- lift (dot (transpose zero design) design) ;;
  DtD_inv <- lift (inv DtD) ;;
  P <- lift (dot DtD_inv (transpose zero design)) ;;
  B <- lift (dot P (transpose zero data)) ;;
  setattr set_beta_hat B ;;
  (* Standardization Model *)
  let weights := map (fun c => of_nat c / of_nat n_samples) n_samples_per_site in
  beta <- getattr "beta_hat" (@beta_hat F) ;;
  k <- getattr "n_sites" (@n_sites F) ;;
  gm <- lift (vdot weights (first_rows k beta)) ;;
  setattr set_grand_mean gm ;;
  beta <- getattr "beta_hat" (@beta_hat F) ;;
  fitted <- lift (dot design beta) ;;
  resid <- lift (ew2 fsub data (transpose zero fitted)) ;;
  vp <- lift (dot (ew1 square resid)
                  (ew1 (fun x => x / of_nat n_samples) (ones n_samples 1))) ;;
  setattr set_var_pooled vp.

Definition _standardize_across_features (data design : mat) (n_samples : nat)
    (n_samples_per_site : list nat) (fitting : bool) : Method (mat * mat) :=
  (if fitting then standardization_model data design n_samples n_samples_per_site
   else ret tt) ;;
  gm <- getattr "grand_mean" (@grand_mean F) ;;
  standardized_mean <- lift (dot (column gm) (ones 1 n_samples)) ;;
  let tmp := design in
  k <- getattr "n_sites" (@n_sites F) ;;
  let tmp := zero_first_cols k tmp in
  beta <- getattr "beta_hat" (@beta_hat F) ;;
  covariate_part <- lift (dot tmp beta) ;;
  standardized_mean <- lift (iadd standardized_mean (transpose zero covariate_part)) ;;
  centered <- lift (ew2 fsub data standardized_mean) ;;
  vp <- getattr "var_pooled" (@var_pooled F) ;;
  scale <- lift (dot (ew1 fsqrt vp) (ones 1 n_samples)) ;;
  standardized_data <- lift (ew2 fdiv centered scale) ;;
  ret (standardized_data, standardized_mean).

(** ** [_fit_ls_model] *)

(** [np.var(X, axis=1, ddof=1)] *)
Definition np_var_axis1_ddof1 (X : mat) : vec := map np_var_ddof1 (rows_of zero X).

(** The loop that fills [delta_hat]. *)
Definition fit_delta_hat (standardized_data : mat) (idx_per_site : list (list nat))
  : outcome (list vec) :=
  omapM (fun site_idxs =>
           let* X := take_cols standardized_data site_idxs in
           Ok (np_var_axis1_ddof1 X))
        idx_per_site.

Definition _fit_ls_model (standardized_data design : mat)
    (idx_per_site : list (list nat)) : Method (mat * list vec) :=
  k <- getattr "n_sites" (@n_sites F) ;;
  let site_design := first_cols k design in
  StS <- lift (dot (transpose zero site_design) site_design) ;;
  StS_inv <- lift (inv StS) ;;
  P <- lift (dot StS_inv (transpose zero site_design)) ;;
  gamma_hat <- lift (dot P (transpose zero standardized_data)) ;;
  delta_hat <- lift (fit_delta_hat standardized_data idx_per_site) ;;
  ret (gamma_hat, delta_hat).

(** ** [_find_priors] *)

(** [m ** 3] is taken as the product [m * m * m]; NumPy's power can round
    differently in binary64. *)
Definition aprior_fn (gamma_hat : vec) : F :=
  let m := np_mean gamma_hat in
  let s2 := np_var_ddof1_f32 gamma_hat in
  (f32 (two * s2) + square m) / s2.

Definition bprior_fn (gamma_hat : vec) : F :=
  let m := np_mean gamma_hat in
  let s2 := np_var_ddof1_f32 gamma_hat in
  (m * s2 + m * m * m) / s2.

Definition _find_priors (gamma_hat : mat) (delta_hat : list vec)
  : vec * vec * list F * list F :=
  let gamma_bar := map np_mean (rows_of zero gamma_hat) in
  let tau_2 := map np_var_ddof1 (rows_of zero gamma_hat) in
  let a_prior := map aprior_fn delta_hat in
  let b_prior := map bprior_fn delta_hat in
  (gamma_bar, tau_2, a_prior, b_prior).

(** ** [_iteration_solver] *)

(** [(1 - np.isnan(X)).sum(axis=1)] *)
Definition count_not_nan (X : mat) : list nat :=
  map (fun i => length (filter (fun x => negb (fisnan x)) (row_of zero X i)))
      (seq 0 (nrows X)).

Definition postmean (gamma_hat : vec) (gamma_bar : F) (n : list nat)
    (delta_star : vec) (tau_2 : F) : outcome vec :=
  let tau_n := map (fun k => tau_2 * of_nat k) n in
  let* a := vew2 fmul tau_n gamma_hat in
  let b := map (fun d => d * gamma_bar) delta_star in
  let* num := vew2 fadd a b in
  let* den := vew2 fadd tau_n delta_star in
  vew2 fdiv num den.

Definition postvar (sum_2 : vec) (n : list nat) (a_prior b_prior : F) : outcome vec :=
  let num := map (fun s => half * s + b_prior) sum_2 in
  let den := map (fun k => of_nat k / two + a_prior - one) n in
  vew2 fdiv num den.

(** The body of the [while] loop: the new estimates and the new [change]. *)
Definition solver_body (standardized_data : mat) (gamma_hat : vec)
    (gamma_bar tau_2 a_prior b_prior : F) (n : list nat)
    (gamma_hat_old delta_hat_old : vec) : outcome (vec * vec * F) :=
  let* gamma_hat_new := postmean gamma_hat gamma_bar n delta_hat_old tau_2 in
  let* G := dot (column gamma_hat_new) (ones 1 (ncols standardized_data)) in
  let* D := ew2 fsub standardized_data G in
  let sum_2 := sum_axis1 (ew1 square D) in
  let* delta_hat_new := postvar sum_2 n a_prior b_prior in
  let* dg := vew2 fsub gamma_hat_new gamma_hat_old in
  let* rg := vew2 fdiv (map fabs dg) gamma_hat_old in
  let* mg := np_max rg in
  let* dd := vew2 fsub delta_hat_new delta_hat_old in
  let* rd := vew2 fdiv (map fabs dd) delta_hat_old in
  let* md := np_max rd in
  Ok (gamma_hat_new, delta_hat_new, py_max mg md).

(** [while change > convergence: ...] followed by the [return].  [count] is
    incremented by the loop and read by nothing. *)
Fixpoint solver_while (fuel : nat) (body : vec -> vec -> outcome (vec * vec * F))
    (convergence change : F) (count : nat) (gamma_hat_old delta_hat_old : vec)
    (new : option (vec * vec)) {struct fuel} : outcome (vec * vec) :=
  if change >? convergence then
    match fuel with
    | O => OutOfFuel
    | S fuel' =>
        let* '(gamma_hat_new, delta_hat_new, change') := body gamma_hat_old delta_hat_old in
        solver_while fuel' body convergence change' (S count)
          gamma_hat_new delta_hat_new (Some (gamma_hat_new, delta_hat_new))
    end
  else
    match new with
    | Some r => Ok r
    | None => Raise (UnboundLocalError "local variable 'gamma_hat_new' referenced before assignment")
    end.

Definition _iteration_solver (fuel : nat) (standardized_data : mat)
    (gamma_hat delta_hat : vec) (gamma_bar tau_2 a_prior b_prior : F)
    (convergence : F) : outcome (vec * vec) :=
  let n := count_not_nan standardized_data in
  let gamma_hat_old := gamma_hat in
  let delta_hat_old := delta_hat in
  let change := one in
  let count := 0 in
  solver_while fuel
    (solver_body standardized_data gamma_hat gamma_bar tau_2 a_prior b_prior n)
    convergence change count gamma_hat_old delta_hat_old None.

(** ** [_find_parametric_adjustments] *)

(** [np.array(rows)] for a list of 1-D arrays. *)
Definition np_array (rows : list vec) : outcome mat :=
  if rectangular rows then Ok (asarray zero rows)
  else Raise (ValueError "setting an array element with a sequence.").

Definition _find_parametric_adjustments (fuel : nat) (standardized_data : mat)
    (idx_per_site : list (list nat)) (gamma_hat : mat) (delta_hat : list vec)
    (gamma_bar tau_2 : vec) (a_prior b_prior : list F) : outcome (mat * mat) :=
  let* stars :=
    omapM (fun (entry : nat * list nat) =>
             let '(i, site_idxs) := entry in
             let* X := take_cols standardized_data site_idxs in
             let* g := index (rows_of zero gamma_hat) i in
             let* d := index delta_hat i in
             let* gb := index gamma_bar i in
             let* t2 := index tau_2 i in
             let* a := index a_prior i in
             let* b := index b_prior i in
             _iteration_solver fuel X g d gb t2 a b default_convergence)
          (enumerate idx_per_site) in
  let* gamma_star := np_array (map fst stars) in
  let* delta_star := np_array (map snd stars) in
  Ok (gamma_star, delta_star).

(** ** [_adjust_data_final] *)

Definition adjust_site (site_design gamma_star delta_star : mat)
    (n_samples_per_site : list nat) (bayes_data : mat) (j : nat) (site_idxs : list nat)
  : outcome mat :=
  let* delta_j := index (rows_of zero delta_star) j in
  let* n_j := index n_samples_per_site j in
  let* denominator := dot (column (map fsqrt delta_j)) (ones 1 n_j) in
  let* X := take_cols bayes_data site_idxs in
  let* S := take_rows site_design site_idxs in
  let* SG := dot S gamma_star in
  let* numerator := ew2 fsub X (transpose zero SG) in
  let* V := ew2 fdiv numerator denominator in
  set_cols bayes_data site_idxs V.

Fixpoint adjust_sites (site_design gamma_star delta_star : mat)
    (n_samples_per_site : list nat) (bayes_data : mat) (l : list (nat * list nat))
  : outcome mat :=
  match l with
  | [] => Ok bayes_data
  | (j, site_idxs) :: l' =>
      let* bayes_data' :=
        adjust_site site_design gamma_star delta_star n_samples_per_site
          bayes_data j site_idxs in
      adjust_sites site_design gamma_star delta_star n_samples_per_site bayes_data' l'
  end.

Definition _adjust_data_final (standardized_data design standardized_mean : mat)
    (n_samples_per_site : list nat) (n_samples : nat) (idx_per_site : list (list nat))
  : Method mat :=
  k <- getattr "n_sites" (@n_sites F) ;;
  var_pooled <- getattr "var_pooled" (@var_pooled F) ;;
  gamma_star <- getattr "gamma_star" (@gamma_star F) ;;
  delta_star <- getattr "delta_star" (@delta_star F) ;;
  let site_design := first_cols k design in
  let bayes_data := standardized_data in
  bayes_data <- lift (adjust_sites site_design gamma_star delta_star n_samples_per_site
                        bayes_data (enumerate idx_per_site)) ;;
  scale <- lift (dot (ew1 fsqrt var_pooled) (ones 1 n_samples)) ;;
  scaled <- lift (ew2 fmul bayes_data scale) ;;
  bayes_data <- lift (ew2 fadd scaled standardized_mean) ;;
  ret bayes_data.

(** ** [fit] *)

Definition unseen_site_error : exn :=
  ValueError "There is a site unseen during the fit method in the data.".

Definition fit (fuel : nat) (data : list (list F)) (sites : list Z)
    (discrete_covariates : option (list (list Z)))
    (continuous_covariates : option (list (list F))) : Method unit :=
  (* Reset internal state before fitting *)
  _reset ;;
  data <- lift (check_array data) ;;
  sites <- lift (check_array_sites sites) ;;
  lift (check_consistent_length (nrows data) (length sites)) ;;
  discrete_covariates <-
    match discrete_covariates with
    | Some d =>
        setattr set_discrete_covariates_used true ;;
        d <- lift (check_array_categorical d) ;;
        ret (Some d)
    | None => ret None
    end ;;
  continuous_covariates <-
    match continuous_covariates with
    | Some c =>
        setattr set_continuous_covariates_used true ;;
        c <- lift (check_array c) ;;
        ret (Some c)
    | None => ret None
    end ;;
  let data := transpose zero data in
  let '(sites_names, n_samples_per_site) := np_unique_counts sites in
  setattr set_sites_names sites_names ;;
  setattr set_n_sites (length sites_names) ;;
  let n_samples := length sites in
  let idx_per_site := map (np_where_eq sites) sites_names in
  design <- _make_design_matrix sites discrete_covariates continuous_covariates true ;;
  '(standardized_data, _) <-
    _standardize_across_features data design n_samples n_samples_per_site true ;;
  '(gamma_hat, delta_hat) <- _fit_ls_model standardized_data design idx_per_site ;;
  let '(gamma_bar, tau_2, a_prior, b_prior) := _find_priors gamma_hat delta_hat in
  '(gamma_star, delta_star) <-
    lift (_find_parametric_adjustments fuel standardized_data idx_per_site
            gamma_hat delta_hat gamma_bar tau_2 a_prior b_prior) ;;
  setattr set_gamma_star gamma_star ;;
  setattr set_delta_star delta_star ;;
  ret tt.

(** ** [transform] *)

(** [check_is_fitted(self, 'n_sites')] *)
Definition check_is_fitted : Method unit :=
  fitted <- hasattr (@n_sites F) ;;
  if (fitted : bool) then ret tt
  else raise (NotFittedError "This CombatTransformer instance is not fitted yet.").

Definition transform (data : list (list F)) (sites : list Z)
    (discrete_covariates : option (list (list Z)))
    (continuous_covariates : option (list (list F))) : Method mat :=
  check_is_fitted ;;
  data <- lift (check_array data) ;;
  sites <- lift (check_array_sites sites) ;;
  lift (check_consistent_length (nrows data) (length sites)) ;;
  used <- hasattr (@discrete_covariates_used F) ;;
  discrete_covariates <-
    (if (used : bool) then
       match discrete_covariates with
       | Some d => d <- lift (check_array_categorical d) ;; ret (Some d)
       | None => lift check_array_none
       end
     else ret (option_map (asarray 0%Z) discrete_covariates)) ;;
  used <- hasattr (@continuous_covariates_used F) ;;
  continuous_covariates <-
    (if (used : bool) then
       match continuous_covariates with
       | Some c => c <- lift (check_array c) ;; ret (Some c)
       | None => lift check_array_none
       end
     else ret (option_map (asarray zero) continuous_covariates)) ;;
  let data := transpose zero data in
  let new_data_sites_name := np_unique sites in
  (* Check all sites from new_data were seen *)
  names <- getattr "sites_names" (@sites_names F) ;;
  if negb (forallb (fun site_name => np_in site_name names) new_data_sites_name) then
    raise unseen_site_error
  else
    let n_samples := length sites in
    names <- getattr "sites_names" (@sites_names F) ;;
    let n_samples_per_site := map (count_eq sites) names in
    let idx_per_site := map (np_where_eq sites) names in
    design <- _make_design_matrix sites discrete_covariates continuous_covariates false ;;
    '(standardized_data, standardized_mean) <-
      _standardize_across_features data design n_samples n_samples_per_site false ;;
    bayes_data <- _adjust_data_final standardized_data design standardized_mean
                    n_samples_per_site n_samples idx_per_site ;;
    ret (transpose zero bayes_data).

(** ** [fit_transform] *)

Definition fit_transform (fuel : nat) (data : list (list F)) (sites : list Z)
    (discrete_covariates : option (list (list Z)))
    (continuous_covariates : option (list (list F))) : Method mat :=
  fit fuel data sites discrete_covariates continuous_covariates ;;
  transform data sites discrete_covariates continuous_covariates.

End CombatTransformer.

(* ================================================================== *)
(** * [CombatHarmonizer]: the columns set aside *)

(** The wrapper takes a [pandas.DataFrame].  [_recombine] handles it through
    its column labels: [X.columns], [X.columns.get_loc], [X.pop], [X.insert]
    and [X[:] = output]; [_get_args] reads columns by their label.  A frame is
    modelled as its columns in their order, each a label and a [Series]; the
    labels are strings, and the theorems speak of frames whose labels are
    distinct.  What a cell holds, the arrays, the wrapped transformer and the
    order in which Python iterates a set are parameters.  The [isinstance]
    test of [_get_args] is settled by the type of [X], and the [data]
    argument of [__init__] is left out: the map from sites to indices starts
    unset, or as the theorems take it. *)
Module Harmonizer.

(** The exceptions of the wrapper: [KeyError] and [TypeError], and those of
    the part above. *)
Inductive error : Type :=
| KeyError (msg : string)
| TypeError (msg : string)
| Other (e : exn).

Inductive result (A : Type) : Type :=
| Returns (a : A)
| Raises (e : error)
| Unfinished.

Arguments Returns {A} a.
Arguments Raises {A} e.
Arguments Unfinished {A}.

(** The names of covariates as [__init__] takes them: [None], a [str] or a
    list. *)
Inductive names : Type :=
| NoNames
| OneName (s : string)
| Names (l : list string).

(** [retain]: [True], a list, or anything else ([False] by default). *)
Inductive retain_t : Type :=
| RetainTrue
| RetainList (l : list string)
| RetainOther.

(** The attributes that [__init__] sets and no method changes. *)
Record CombatHarmonizer : Type := {
  ex : list string;
  sites : string;
  dc : list string;
  cc : list string;
  warn : bool;
  retain : retain_t
}.

Definition as_list (n : names) : list string :=
  match n with
  | NoNames => []
  | OneName s => [s]
  | Names l => l
  end.

(** [__init__], for the attributes above.  It also creates [transformer]
    and leaves [site2idx_map] unset (no [data] given); these two are fields
    of the world below. *)
Definition __init__ (sites : string) (discrete_covariates continuous_covariates : names)
    (excluded_covariates : option (list string)) (retain : retain_t) (warn : bool)
  : CombatHarmonizer :=
  let excluded_covariates :=
    match excluded_covariates with None => [] | Some l => l end in
  let continuous_covariates := as_list continuous_covariates in
  let discrete_covariates := as_list discrete_covariates in
  {| ex := [sites] ++ discrete_covariates ++ continuous_covariates ++ excluded_covariates;
     sites := sites;
     dc := discrete_covariates;
     cc := continuous_covariates;
     warn := warn;
     retain := retain |}.

(** What the wrapped method returns, as [_recombine] tells it apart:
    a [BaseEstimator], a [numpy.ndarray], or anything else. *)
Inductive output (Array : Type) : Type :=
| IsEstimator
| IsArray (a : Array)
| IsOther.

Arguments IsEstimator {Array}.
Arguments IsArray {Array} a.
Arguments IsOther {Array}.

(** What [_recombine] returns: [self], or [X] itself. *)
Inductive returned : Type :=
| TheHarmonizer
| TheFrame.

Section Recombine.
Variables Series Value Array Estimator : Type.

Definition DataFrame : Type := list (string * Series).

(** The order in which Python iterates the set built from a list. *)
Variable set_iter : list string -> list string.

(** [X[:] = output] *)
Variable setitem_all : DataFrame -> Array -> result DataFrame.

(** The objects a call touches: the caller's frame [X], the attributes
    [site2idx_map] (a dict from site values to indices) and [transformer] of
    the harmonizer, and what [print] has written. *)
Record world : Type := World {
  frame : DataFrame;
  site2idx_map : option (list (Value * nat));
  transformer : Estimator;
  stdout : list string
}.

Definition H (A : Type) : Type := world -> world * result A.

Definition hret {A : Type} (a : A) : H A := fun w => (w, Returns a).

Definition hbind {A B : Type} (m : H A) (k : A -> H B) : H B :=
  fun w =>
    match m w with
    | (w', Returns a) => k a w'
    | (w', Raises e) => (w', Raises e)
    | (w', Unfinished) => (w', Unfinished)
    end.

Definition hraise {A : Type} (e : error) : H A := fun w => (w, Raises e).

Definition hlift {A : Type} (r : result A) : H A := fun w => (w, r).

Definition get_frame : H DataFrame := fun w => (w, Returns (frame w)).

Definition set_frame (X : DataFrame) : H unit :=
  fun w => (World X (site2idx_map w) (transformer w) (stdout w), Returns tt).

Definition print (msg : string) : H unit :=
  fun w => (World (frame w) (site2idx_map w) (transformer w) (stdout w ++ [msg]),
            Returns tt).

Fixpoint hfor_each {A : Type} (xs : list A) (body : A -> H unit) : H unit :=
  match xs with
  | [] => hret tt
  | x :: xs' => hbind (body x) (fun _ => hfor_each xs' body)
  end.

(** [X.columns] *)
Definition columns (X : DataFrame) : list string := map fst X.

(** [c in labels] *)
Definition mem (c : string) (labels : list string) : bool :=
  existsb (String.eqb c) labels.

(** [X.columns.get_loc(c)] *)
Fixpoint get_loc (labels : list string) (c : string) : option nat :=
  match labels with
  | [] => None
  | c' :: labels' =>
      if String.eqb c' c then Some 0 else option_map S (get_loc labels' c)
  end.

(** [X.pop(c)]: the column and the frame without it. *)
Fixpoint pop (X : DataFrame) (c : string) : option (Series * DataFrame) :=
  match X with
  | [] => None
  | (c', v) :: X' =>
      if String.eqb c' c then Some (v, X')
      else match pop X' c with
           | Some (u, X'') => Some (u, (c', v) :: X'')
           | None => None
           end
  end.

(** [X.insert(loc, c, v)] *)
Definition insert (X : DataFrame) (loc : nat) (c : string) (v : Series)
  : result DataFrame :=
  if mem c (columns X) then
    Raises (Other (ValueError ("cannot insert " ++ c ++ ", already exists")%string))
  else if length X <? loc then
    Raises (Other (IndexError "index is out of bounds"))
  else Returns (firstn loc X ++ (c, v) :: skipn loc X).

(** The loop that checks that the columns asked for are in [X].  Its last
    statement is [raise KeyError(msg) if not self.warn else print(msg)]: the
    conditional expression is the operand of [raise], so with [warn] set the
    message is printed and [raise] is given the [None] that [print] returns,
    which is a [TypeError]. *)
Definition check_columns (self : CombatHarmonizer) : H unit :=
  hfor_each [("discrete"%string, dc self); ("continuous"%string, dc self);
             ("excluded"%string, ex self)]
    (fun '(name, check) =>
       hbind get_frame (fun X =>
       if negb (forallb (fun c => mem c (columns X)) check) then
         let missing := set_iter (filter (fun c => negb (mem c (columns X))) check) in
         let msg := ("A " ++ name ++ "_covariate was not found in X: "
                     ++ hd EmptyString missing)%string in
         if negb (warn self) then hraise (KeyError msg)
         else hbind (print msg) (fun _ =>
              hraise (TypeError "exceptions must derive from BaseException"))
       else hret tt)).

(** [[(X.columns.get_loc(c), c, X.pop(c)) for c in self.ex]] *)
Fixpoint set_aside (ex : list string) : H (list (nat * string * Series)) :=
  match ex with
  | [] => hret []
  | c :: ex' =>
      hbind get_frame (fun X =>
      match get_loc (columns X) c, pop X c with
      | Some loc, Some (v, X') =>
          hbind (set_frame X') (fun _ =>
          hbind (set_aside ex') (fun rest =>
          hret ((loc, c, v) :: rest)))
      | _, _ => hraise (KeyError c)
      end)
  end.

(** The list comprehension that calls [X.insert] on each column set aside,
    in the order in which they were set aside. *)
Definition insert_all (excluded_covariates : list (nat * string * Series)) : H unit :=
  hfor_each excluded_covariates (fun '(loc, c, v) =>
    hbind get_frame (fun X =>
    hbind (hlift (insert X loc c v)) (fun X' =>
    set_frame X'))).

(** [_recombine(method, X, *args)].  [method] stands for the call
    [method(X, *args, **kwargs)]: it is given the frame of the world, which
    it may read and change. *)
Definition _recombine (self : CombatHarmonizer) (method : H (output Array)) : H returned :=
  hbind (check_columns self) (fun _ =>
  (* Set the excluded covariates aside *)
  hbind (set_aside (ex self)) (fun excluded_covariates =>
  hbind method (fun output =>
  (* The output of the transform method is an array *)
  hbind (match output with
         | IsArray a =>
             hbind get_frame (fun X =>
             hbind (hlift (setitem_all X a)) (fun X' =>
             set_frame X'))
         | _ => hret tt
         end) (fun _ =>
  (* Return the appropriate method output *)
  match output with
  | IsEstimator =>
      hbind (insert_all excluded_covariates) (fun _ =>
      hret TheHarmonizer)
  | _ =>
      hbind (match retain self with
             | RetainTrue => insert_all excluded_covariates
             | RetainList l =>
                 let retained_covariates :=
                   filter (fun c => mem (snd (fst c)) l) excluded_covariates in
                 insert_all retained_covariates
             | RetainOther => hret tt
             end) (fun _ =>
      hret TheFrame)
  end)))).

End Recombine.

(** ** [_set_set2idx_map] and [_get_args] *)

Section GetArgs.
Variables Value Array Estimator : Type.

(** Whether two site values are the same key of a dict. *)
Variable value_eqb : Value -> Value -> bool.

(** The order in which Python iterates [set(site_series)]. *)
Variable set_order : list Value -> list Value.

(** How an f-string prints a list of site values. *)
Variable str_of_list : list Value -> string.

Local Abbreviation world := (world (list Value) Value Estimator).
Local Abbreviation H := (H (list Value) Value Estimator).

(** [X[c]]: the column of label [c]. *)
Fixpoint getitem (X : DataFrame (list Value)) (c : string) : option (list Value) :=
  match X with
  | [] => None
  | (c', v) :: X' => if String.eqb c' c then Some v else getitem X' c
  end.

(** [d[i]] on a dict. *)
Fixpoint dict_get (d : list (Value * nat)) (i : Value) : option nat :=
  match d with
  | [] => None
  | (k, idx) :: d' => if value_eqb k i then Some idx else dict_get d' i
  end.

Definition set_site2idx_map (m : list (Value * nat)) : H unit :=
  fun w => (World (frame w) (Some m) (transformer w) (stdout w), Returns tt).

(** [{site: idx for idx, site in enumerate(set(site_series))}] *)
Definition _set_set2idx_map (site_series : list Value) : H unit :=
  set_site2idx_map
    (map (fun entry => (snd entry, fst entry)) (enumerate (set_order site_series))).

(** [X[c]] as a statement: pandas raises [KeyError] for a label that is not
    a column. *)
Definition column (c : string) : H (list Value) :=
  hbind (@get_frame (list Value) Value Estimator) (fun X =>
  match getitem X c with
  | Some series => hret series
  | None => hraise (KeyError c)
  end).

(** [[[self.site2idx_map[i]] for i in series]], or the first key that is
    missing. *)
Fixpoint site_indices (m : list (Value * nat)) (series : list Value)
  : option (list (list nat)) :=
  match series with
  | [] => Some []
  | i :: series' =>
      match dict_get m i with
      | Some idx => option_map (cons [idx]) (site_indices m series')
      | None => None
      end
  end.

Definition newline : string := String (Ascii.ascii_of_nat 10) EmptyString.

(** [any(names)]: some name is not the empty string. *)
Definition any (names : list string) : bool :=
  existsb (fun name => negb (String.eqb name EmptyString)) names.

(** The rows of the array whose columns are given: [np.array(cols).T]. *)
Definition array_T (cols : list (list Value)) : list (list Value) :=
  map (fun k => concat (map (fun col => firstn 1 (skipn k col)) cols))
      (seq 0 (length (hd [] cols))).

(** [np.array([X.loc[X.index][c].values.tolist() for c in names]).T if
    any(names) else None], for a frame whose index has no repeated label. *)
Fixpoint columns_of (names : list string) : H (list (list Value)) :=
  match names with
  | [] => hret []
  | c :: names' =>
      hbind (column c) (fun col =>
      hbind (columns_of names') (fun cols =>
      hret (col :: cols)))
  end.

Definition covariates (names : list string) : H (option (list (list Value))) :=
  if any names then hbind (columns_of names) (fun cols => hret (Some (array_T cols)))
  else hret None.

Definition _get_args (self : CombatHarmonizer)
  : H (list (list nat) * option (list (list Value)) * option (list (list Value))) :=
  hbind (fun w => (w, Returns (site2idx_map w))) (fun m =>
  hbind (match m with
         | None => hbind (column (sites self)) _set_set2idx_map
         | Some _ => hret tt
         end) (fun _ =>
  hbind (column (sites self)) (fun series =>
  hbind (fun w => (w, Returns (site2idx_map w))) (fun m =>
  let m := match m with Some m => m | None => [] end in
  hbind (match site_indices m series with
         | Some site_idx => hret site_idx
         | None =>
             let unknown_sites :=
               filter (fun i => match dict_get m i with Some _ => false | None => true end)
                      series in
             hraise (KeyError
                       ("Encountered new site after sites indices were already set."
                        ++ newline ++ "Unknown sites: " ++ str_of_list unknown_sites))
         end) (fun site_idx =>
  (* Return the appropriate discrete and continuous covariates *)
  hbind (covariates (dc self)) (fun disc_cov =>
  hbind (covariates (cc self)) (fun cont_cov =>
  hret (site_idx, disc_cov, cont_cov)))))))).

(** ** [transform], [fit] and [fit_transform] *)

(** [X[:] = output] *)
Variable setitem_all : DataFrame (list Value) -> Array -> result (DataFrame (list Value)).

(** The order in which Python iterates a set of column labels. *)
Variable set_iter : list string -> list string.

(** [self.transformer.transform(X, *args)], which returns an array, and
    [self.transformer.fit(X, *args)], which returns the transformer; [X] is
    the frame of the world. *)
Variable transformer_transform :
  list (list nat) * option (list (list Value)) * option (list (list Value)) -> H Array.
Variable transformer_fit :
  list (list nat) * option (list (list Value)) * option (list (list Value)) -> H unit.

Definition transform (self : CombatHarmonizer) : H returned :=
  hbind (_get_args self) (fun args =>
  _recombine set_iter setitem_all self
    (hbind (transformer_transform args) (fun a => hret (IsArray a)))).

Definition fit (self : CombatHarmonizer) : H returned :=
  hbind (_get_args self) (fun args =>
  _recombine set_iter setitem_all self
    (hbind (transformer_fit args) (fun _ => hret IsEstimator))).

(** [self.fit(X).transform(X)]: [fit] returns the harmonizer itself. *)
Definition fit_transform (self : CombatHarmonizer) : H returned :=
  hbind (fit self) (fun _ => transform self).

End GetArgs.

End Harmonizer.

(* ================================================================== *)
(** * The two arithmetics *)

(** ** IEEE binary64, as the program runs *)

Module Binary64.

Definition float_of_nat (n : nat) : float :=
  PrimFloat.of_uint63 (Uint63.of_Z (Z.of_nat n)).

(** Rounding to binary32 (24-bit significand, [emax = 128]), to nearest even. *)
Definition to_float32 (x : float) : float :=
  SF2Prim (SFmul 24 128 (Prim2SF x) (Prim2SF 1%float)).

Definition gt (x y : float) : bool := PrimFloat.ltb y x.

Lemma digits2_pos_shift52 (m : positive) :
  Zpos (digits2_pos (4503599627370496 * m)) = (Zpos (digits2_pos m) + 52)%Z.
Proof.
  cbn [Pos.mul digits2_pos]. lia.
Qed.

(** Multiplying a valid binary64 number by [1.0] rounds to itself. *)
Lemma SF64mul_one_r (s : spec_float) :
  valid_binary s = true -> SF64mul s (Prim2SF 1%float) = s.
Proof.
  destruct s as [b | b | | b m e]; intros Hv.
  - cbn. now rewrite xorb_false_r.
  - cbn. now rewrite xorb_false_r.
  - reflexivity.
  - change (Prim2SF 1%float) with (S754_finite false 4503599627370496 (-52)).
    unfold SF64mul, SFmul.
    rewrite xorb_false_r.
    cbn [valid_binary] in Hv. unfold bounded, canonical_mantissa in Hv.
    apply andb_true_iff in Hv. destruct Hv as [Hc Hb].
    apply Z.eqb_eq in Hc.
    rewrite Pos.mul_comm.
    unfold binary_round_aux, shr_fexp, Zdigits2.
    rewrite digits2_pos_shift52.
    replace (Z.pos (digits2_pos m) + 52 + (e + -52))%Z
      with (Z.pos (digits2_pos m) + e)%Z by lia.
    rewrite Hc.
    replace (e - (e + -52))%Z with 52%Z by lia.
    cbn [shr shr_record_of_loc Pos.mul SpecFloat.iter_pos shr_1 orb shr_m
         loc_of_shr_record round_nearest_even].
    replace (e + -52 + 52)%Z with e by lia.
    rewrite Hc, Z.sub_diag. cbn [shr shr_m shr_record_of_loc].
    rewrite Hb. reflexivity.
Qed.

Lemma mul_one_r (x : float) : PrimFloat.mul x 1%float = x.
Proof.
  apply Prim2SF_inj. rewrite mul_spec. apply SF64mul_one_r, Prim2SF_valid.
Qed.

#[global] Instance Scalar_float : Scalar float := {|
  zero := 0%float;
  one := 1%float;
  two := 2%float;
  half := 0.5%float;
  default_convergence := 0x1.a36e2eb1c432dp-14%float; (* the binary64 value of 0.0001 *)
  fadd := PrimFloat.add;
  fsub := PrimFloat.sub;
  fmul := PrimFloat.mul;
  fdiv := PrimFloat.div;
  fsqrt := PrimFloat.sqrt;
  fabs := PrimFloat.abs;
  fgt := gt;
  fisnan := PrimFloat.is_nan;
  fisfinite := PrimFloat.is_finite;
  of_nat := float_of_nat;
  f32 := to_float32;
  fmul_one_r := mul_one_r;
  one_gt_default_convergence := eq_refl
|}.

End Binary64.

(** ** The real numbers, as the algebra is meant *)

Module Real.

Definition gt (x y : R) : bool := if Rgt_dec x y then true else false.

Lemma one_gt_convergence : gt 1%R (1 / 10000)%R = true.
Proof.
  unfold gt. destruct (Rgt_dec 1 (1 / 10000)) as [_ | H]; [reflexivity | exfalso; lra].
Qed.

#[global] Instance Scalar_R : Scalar R := {|
  zero := 0%R;
  one := 1%R;
  two := 2%R;
  half := (1 / 2)%R;
  default_convergence := (1 / 10000)%R;
  fadd := Rplus;
  fsub := Rminus;
  fmul := Rmult;
  fdiv := Rdiv;
  fsqrt := R_sqrt.sqrt;
  fabs := Rabs;
  fgt := gt;
  fisnan := fun _ => false;
  fisfinite := fun _ => true;
  of_nat := INR;
  f32 := fun x => x;
  fmul_one_r := Rmult_1_r;
  one_gt_default_convergence := one_gt_convergence
|}.

End Real.

Unset Implicit Arguments.

(* ================================================================== *)
(** * Basic facts about arrays *)

Section ArrayFacts.
Context {A : Type}.

Lemma nrows_tab (r c : nat) (f : nat -> nat -> A) : nrows (tab r c f) = r.
Proof. reflexivity. Qed.

Lemma ncols_tab (r c : nat) (f : nat -> nat -> A) : ncols (tab r c f) = c.
Proof. reflexivity. Qed.

Lemma nth_map_seq (B : Type) (d : B) (f : nat -> B) (n i : nat) :
  i < n -> nth i (map f (seq 0 n)) d = f i.
Proof.
  intros Hi.
  rewrite (nth_indep _ d (f 0)) by (rewrite length_map, length_seq; exact Hi).
  rewrite (map_nth f (seq 0 n) 0 i), seq_nth by exact Hi. reflexivity.
Qed.

Lemma get_tab (d : A) (r c : nat) (f : nat -> nat -> A) (i j : nat) :
  i < r -> j < c -> get d (tab r c f) i j = f i j.
Proof.
  intros Hi Hj. unfold get, tab; cbn [elems].
  rewrite (nth_map_seq _ [] (fun i => map (fun j => f i j) (seq 0 c)) r i Hi).
  apply nth_map_seq, Hj.
Qed.

Lemma map_seq_ext (B : Type) (f g : nat -> B) (n : nat) :
  (forall i, i < n -> f i = g i) -> map f (seq 0 n) = map g (seq 0 n).
Proof.
  intros H. apply map_ext_in. intros i Hi. apply in_seq in Hi. apply H. lia.
Qed.

Lemma tab_ext (r c : nat) (f g : nat -> nat -> A) :
  (forall i j, i < r -> j < c -> f i j = g i j) -> tab r c f = tab r c g.
Proof.
  intros H. unfold tab. f_equal.
  apply map_seq_ext. intros i Hi. apply map_seq_ext. intros j Hj. now apply H.
Qed.

End ArrayFacts.

(* ================================================================== *)
(** * Methods that leave the object alone *)

Section Purity.
Context {F : Type} {SF : Scalar F}.

(** A method body is read-only when the object it leaves behind is the one
    it was given, whatever the outcome. *)
Definition read_only {A : Type} (m : M (F:=F) A) : Prop :=
  forall s, fst (m s) = s.

Lemma read_only_ret (A : Type) (a : A) : read_only (ret a).
Proof. intros s. reflexivity. Qed.

Lemma read_only_lift (A : Type) (o : outcome A) : read_only (lift o).
Proof. intros s. reflexivity. Qed.

Lemma read_only_raise (A : Type) (e : exn) : read_only (raise (A:=A) e).
Proof. intros s. reflexivity. Qed.

Lemma read_only_getattr (A : Type) (name : string) (proj : self F -> option A) :
  read_only (getattr name proj).
Proof. intros s. unfold getattr. now destruct (proj s). Qed.

Lemma read_only_hasattr (A : Type) (proj : self F -> option A) :
  read_only (hasattr proj).
Proof. intros s. reflexivity. Qed.

Lemma read_only_bind (A B : Type) (m : M A) (k : A -> M B) :
  read_only m -> (forall a, read_only (k a)) -> read_only (bind m k).
Proof.
  intros Hm Hk s. unfold bind.
  specialize (Hm s). destruct (m s) as [s' [a | e | ]]; cbn in Hm; subst s'.
  - apply Hk.
  - reflexivity.
  - reflexivity.
Qed.

Lemma read_only_for_fold (A B : Type) (xs : list A) (body : B -> A -> M B) :
  (forall acc x, read_only (body acc x)) ->
  forall acc, read_only (for_fold xs acc body).
Proof.
  intros Hbody. induction xs as [| x xs IH]; intros acc; cbn [for_fold].
  - apply read_only_ret.
  - apply read_only_bind; [apply Hbody | intros acc'; apply IH].
Qed.

End Purity.

Create HintDb read_only.

#[global] Hint Resolve read_only_ret read_only_lift read_only_raise
  read_only_getattr read_only_hasattr : read_only.

(** Walks a method body: binds, branches and tuple patterns apart, leaves
    closed by the facts above. *)
Ltac read_only_step :=
  lazymatch goal with
  | |- read_only (bind _ _) => apply read_only_bind; [ | intros ? ]
  | |- read_only (if ?b then _ else _) => destruct b
  | |- read_only (match ?x with _ => _ end) => destruct x
  | |- read_only (for_fold _ _ _) => apply read_only_for_fold; intros ? ?
  | |- _ => solve [ auto with read_only ]
  end.

Ltac read_only_tac := repeat read_only_step.

Section TransformReadOnly.
Context {F : Type} {SF : Scalar F}.

Lemma read_only_check_is_fitted : read_only (check_is_fitted (F:=F)).
Proof. unfold check_is_fitted. read_only_tac. Qed.

Lemma read_only_make_design_matrix (sites : list Z) (dc : option (ndarray Z))
    (cc : option (ndarray F)) :
  read_only (_make_design_matrix sites dc cc false).
Proof. unfold _make_design_matrix. read_only_tac. Qed.

Lemma read_only_standardize (data design : ndarray F) (n : nat) (nps : list nat) :
  read_only (_standardize_across_features data design n nps false).
Proof. unfold _standardize_across_features. read_only_tac. Qed.

Lemma read_only_adjust_data_final (sd design sm : ndarray F) (nps : list nat)
    (n : nat) (idx : list (list nat)) :
  read_only (_adjust_data_final sd design sm nps n idx).
Proof. unfold _adjust_data_final. read_only_tac. Qed.

End TransformReadOnly.

#[global] Hint Resolve read_only_check_is_fitted read_only_make_design_matrix
  read_only_standardize read_only_adjust_data_final : read_only.

(** C8. [transform] never mutates the fitted model: whatever the object, the
    arguments and the outcome (a harmonized array or an exception), the
    object after the call, with all its stored attributes ([n_sites],
    [sites_names], the encoders, [beta_hat], [grand_mean], [var_pooled],
    [gamma_star], [delta_star]), is the object before it. *)
Theorem transform_leaves_model_unchanged {F : Type} {SF : Scalar F}
    (s : self F) (data : list (list F)) (sites : list Z)
    (discrete_covariates : option (list (list Z)))
    (continuous_covariates : option (list (list F))) :
  fst (transform data sites discrete_covariates continuous_covariates s) = s.
Proof.
  revert s. change (read_only (transform data sites discrete_covariates continuous_covariates)).
  unfold transform. read_only_tac.
Qed.

(* ================================================================== *)
(** * Re-fitting an instance *)

Section Reset.
Context {F : Type} {SF : Scalar F}.

(** On an object that was fitted without discrete covariates, [_reset]
    deletes [n_sites] and [sites_names] and then fails on the attribute that
    was never set; the other attributes stay. *)
Lemma reset_without_discrete_covariates (s : self F) (k : nat) (names : list Z) :
  n_sites s = Some k ->
  sites_names s = Some names ->
  discrete_covariates_used s = None ->
  _reset s = (set_sites_names None (set_n_sites None s),
              Raise (AttributeError "discrete_covariates_used")).
Proof.
  intros Hn Hs Hd. destruct s. cbn in Hn, Hs, Hd. subst. reflexivity.
Qed.

(** [fit] starts with [_reset], so it fails the same way, before looking at
    its arguments. *)
Lemma fit_on_model_without_discrete_covariates (s : self F) (k : nat) (names : list Z)
    (fuel : nat) (data : list (list F)) (sites : list Z)
    (dc : option (list (list Z))) (cc : option (list (list F))) :
  n_sites s = Some k ->
  sites_names s = Some names ->
  discrete_covariates_used s = None ->
  fit fuel data sites dc cc s =
    (set_sites_names None (set_n_sites None s),
     Raise (AttributeError "discrete_covariates_used")).
Proof.
  intros Hn Hs Hd. unfold fit. unfold bind at 1.
  rewrite (reset_without_discrete_covariates s k names Hn Hs Hd). reflexivity.
Qed.

(** On an object with no [n_sites], [_reset] does nothing. *)
Lemma reset_unfitted (s : self F) : n_sites s = None -> _reset s = (s, Ok tt).
Proof.
  intros Hn. destruct s. cbn in Hn. subst. reflexivity.
Qed.

(** [_reset] ends normally or in an exception; it has no loop. *)
Lemma reset_outcome (s : self F) :
  snd (_reset s) = Ok tt \/ exists e, snd (_reset s) = Raise e.
Proof.
  destruct s as [c [k|] [names|] [du|] [cu|] [se|] [de|] [bh|] [gm|] [vp|] [gs|] [ds|]];
    cbn; first [ now left | right; eexists; reflexivity ].
Qed.

End Reset.

(** Whether an attribute is present. *)
Definition present {A : Type} (o : option A) : bool :=
  match o with Some _ => true | None => false end.

(** A small data set: four samples, two features, two sites. *)
Module Example.

Definition data : list (list float) :=
  [[1; 2]; [3; 6]; [5; 7]; [4; 9]]%float.

Definition sites : list Z := [1; 1; 2; 2]%Z.

Definition unfitted : self float := __init__ float true.

(** The object after [CombatTransformer().fit(data, sites)]. *)
Definition fitted : self float := fst (fit 100 data sites None None unfitted).

End Example.

(** C7 (the program breaks it).  [fit(data, sites)] on a fresh instance
    succeeds; the same call on the fitted instance raises [AttributeError]
    from [_reset], which has by then deleted [n_sites] and [sites_names] and
    left [site_encoder], [beta_hat], [grand_mean], [var_pooled], [gamma_star]
    and [delta_star] in place: the second fit does not overwrite the first,
    and the object is left with part of its fitted attributes. *)
Theorem refit_raises_and_leaves_partial_state :
  let first := fit 100 Example.data Example.sites None None Example.unfitted in
  let second := fit 100 Example.data Example.sites None None (fst first) in
  snd first = Ok tt /\
  snd second = Raise (AttributeError "discrete_covariates_used") /\
  present (n_sites (fst second)) = false /\
  present (sites_names (fst second)) = false /\
  present (site_encoder (fst second)) = true /\
  present (beta_hat (fst second)) = true /\
  present (grand_mean (fst second)) = true /\
  present (var_pooled (fst second)) = true /\
  present (gamma_star (fst second)) = true /\
  present (delta_star (fst second)) = true.
Proof.
  vm_compute. repeat split; reflexivity.
Qed.

(* ================================================================== *)
(** * 1-D arrays of equal length *)

Section VectorFacts.
Context {F : Type} {SF : Scalar F}.
Local Open Scope scalar_scope.

Lemma bidx_lt (a i : nat) : i < a -> bidx a i = i.
Proof.
  intros Hi. unfold bidx. destruct (Nat.eqb_spec a 1) as [-> | _]; [lia | reflexivity].
Qed.

Lemma bcast_dim_same (a : nat) : bcast_dim a a = Some a.
Proof. unfold bcast_dim. now rewrite Nat.eqb_refl. Qed.

Lemma vnth_map_seq (f : nat -> F) (n i : nat) :
  i < n -> vnth (map f (seq 0 n)) i = f i.
Proof. apply nth_map_seq. Qed.

Lemma nth_map_lt (A B : Type) (f : A -> B) (l : list A) (da : A) (db : B) (i : nat) :
  i < length l -> nth i (map f l) db = f (nth i l da).
Proof.
  intros Hi. rewrite (nth_indep _ db (f da)) by (now rewrite length_map).
  apply map_nth.
Qed.

Lemma vnth_map (f : F -> F) (l : list F) (i : nat) :
  i < length l -> vnth (map f l) i = f (vnth l i).
Proof. apply nth_map_lt. Qed.

Lemma vnth_map_nat (f : nat -> F) (l : list nat) (i : nat) :
  i < length l -> vnth (map f l) i = f (nth i l 0).
Proof. apply nth_map_lt. Qed.

(** With equal lengths, an elementwise operation is just that. *)
Lemma vew2_same_length (op : F -> F -> F) (a b : list F) :
  length a = length b ->
  vew2 op a b = Ok (map (fun i => op (vnth a i) (vnth b i)) (seq 0 (length a))).
Proof.
  intros H. unfold vew2. rewrite <- H, bcast_dim_same. f_equal.
  apply map_seq_ext. intros i Hi. now rewrite !bidx_lt.
Qed.

Lemma np_max_nonempty (v : list F) : 0 < length v -> exists m, np_max v = Ok m.
Proof.
  destruct v as [| x v]; cbn; intros H; [lia | eexists; reflexivity].
Qed.

Lemma length_count_not_nan (X : ndarray F) : length (count_not_nan X) = nrows X.
Proof. unfold count_not_nan. now rewrite length_map, length_seq. Qed.

(** The update of gamma, entry by entry. *)
Lemma postmean_spec (gamma_hat : list F) (gamma_bar : F) (n : list nat)
    (delta_star : list F) (tau_2 : F) (p : nat) :
  length gamma_hat = p -> length n = p -> length delta_star = p ->
  exists g, postmean gamma_hat gamma_bar n delta_star tau_2 = Ok g /\
    length g = p /\
    forall i, i < p ->
      vnth g i = (tau_2 * of_nat (nth i n 0) * vnth gamma_hat i
                  + vnth delta_star i * gamma_bar)
                 / (tau_2 * of_nat (nth i n 0) + vnth delta_star i).
Proof.
  intros Hg Hn Hd. unfold postmean.
  rewrite vew2_same_length by (rewrite length_map; lia). cbn [obind].
  rewrite vew2_same_length by (rewrite !length_map, length_seq; lia). cbn [obind].
  rewrite vew2_same_length by (rewrite length_map; lia). cbn [obind].
  rewrite vew2_same_length by (rewrite !length_map, !length_seq; lia).
  rewrite !length_map, !length_seq, Hn.
  eexists; split; [reflexivity | split].
  - now rewrite length_map, length_seq.
  - intros i Hi. rewrite !vnth_map_seq by exact Hi.
    rewrite !vnth_map_nat by lia. rewrite vnth_map by lia. reflexivity.
Qed.

(** The update of delta, entry by entry. *)
Lemma postvar_spec (sum_2 : list F) (n : list nat) (a_prior b_prior : F) (p : nat) :
  length sum_2 = p -> length n = p ->
  exists d, postvar sum_2 n a_prior b_prior = Ok d /\
    length d = p /\
    forall i, i < p ->
      vnth d i = (half * vnth sum_2 i + b_prior)
                 / (of_nat (nth i n 0) / two + a_prior - one).
Proof.
  intros Hs Hn. unfold postvar.
  rewrite vew2_same_length by (rewrite !length_map; lia).
  rewrite length_map, Hs.
  eexists; split; [reflexivity | split].
  - now rewrite length_map, length_seq.
  - intros i Hi. rewrite vnth_map_seq by exact Hi.
    rewrite vnth_map_nat by lia. rewrite vnth_map by lia. reflexivity.
Qed.

End VectorFacts.

(* ================================================================== *)
(** * 2-D arrays of matching shape *)

Section MatrixFacts.
Context {F : Type} {SF : Scalar F}.
Local Open Scope scalar_scope.

Lemma at_tab (r c : nat) (f : nat -> nat -> F) (i j : nat) :
  i < r -> j < c -> at_ (tab r c f) i j = f i j.
Proof. apply get_tab. Qed.

Lemma sum_n_ext (n : nat) (f g : nat -> F) :
  (forall k, k < n -> f k = g k) -> sum_n n f = sum_n n g.
Proof. intros H. unfold sum_n. f_equal. now apply map_seq_ext. Qed.

Lemma sum_n_1 (f : nat -> F) : sum_n 1 f = f 0.
Proof. reflexivity. Qed.

Lemma ew2_same_shape (op : F -> F -> F) (A B : ndarray F) :
  nrows A = nrows B -> ncols A = ncols B ->
  ew2 op A B = Ok (tab (nrows A) (ncols A) (fun i j => op (at_ A i j) (at_ B i j))).
Proof.
  intros Hr Hc. unfold ew2. rewrite <- Hr, <- Hc, !bcast_dim_same. f_equal.
  apply tab_ext. intros i j Hi Hj. now rewrite !bidx_lt.
Qed.

(** [np.dot(v[:, np.newaxis], np.ones((1, k)))] repeats [v] in [k] columns. *)
Lemma dot_column_ones (v : list F) (k : nat) :
  dot (column v) (ones 1 k) = Ok (tab (length v) k (fun i _ => vnth v i)).
Proof.
  unfold dot. cbn [ncols nrows column ones tab Nat.eqb]. f_equal.
  apply tab_ext. intros i j Hi Hj.
  rewrite sum_n_1.
  unfold column, ones. rewrite !at_tab by lia. apply fmul_one_r.
Qed.

Lemma length_sum_axis1 (A : ndarray F) : length (sum_axis1 A) = nrows A.
Proof. unfold sum_axis1. now rewrite length_map, length_seq. Qed.

Lemma vnth_sum_axis1 (A : ndarray F) (i : nat) :
  i < nrows A -> vnth (sum_axis1 A) i = sum_n (ncols A) (fun j => at_ A i j).
Proof. intros Hi. unfold sum_axis1. now rewrite vnth_map_seq. Qed.

End MatrixFacts.

(* ================================================================== *)
(** * The update rule of the solver *)

Section UpdateRule.
Context {F : Type} {SF : Scalar F}.
Local Open Scope scalar_scope.

(** The gamma update as the specification words it, for one feature: it
    starts from the gamma of the previous iteration. *)
Definition spec_gamma_update (tau_2 n gamma_old delta_old gamma_bar : F) : F :=
  (tau_2 * n * gamma_old + delta_old * gamma_bar) / (tau_2 * n + delta_old).

End UpdateRule.

Section SolverBody.
Context {F : Type} {SF : Scalar F}.
Local Open Scope scalar_scope.

(** The relative changes the loop test looks at, per feature. *)
Definition relative_changes (new old : list F) : list F :=
  map (fun i => fabs (vnth new i - vnth old i) / vnth old i) (seq 0 (length new)).

(** With one entry per feature in every argument, the loop body raises
    nothing, and each of its results has a closed form. *)
Lemma solver_body_normal_form
    (X : ndarray F) (gamma_hat : list F) (gamma_bar tau_2 a_prior b_prior : F)
    (gamma_hat_old delta_hat_old : list F) :
  0 < nrows X ->
  length gamma_hat = nrows X ->
  length gamma_hat_old = nrows X ->
  length delta_hat_old = nrows X ->
  exists gamma_hat_new delta_hat_new mg md,
    solver_body X gamma_hat gamma_bar tau_2 a_prior b_prior (count_not_nan X)
      gamma_hat_old delta_hat_old
    = Ok (gamma_hat_new, delta_hat_new, py_max mg md) /\
    length gamma_hat_new = nrows X /\
    length delta_hat_new = nrows X /\
    np_max (relative_changes gamma_hat_new gamma_hat_old) = Ok mg /\
    np_max (relative_changes delta_hat_new delta_hat_old) = Ok md /\
    forall i, i < nrows X ->
      let n := of_nat (length (filter (fun x => negb (fisnan x)) (row_of zero X i))) in
      vnth gamma_hat_new i
      = (tau_2 * n * vnth gamma_hat i + vnth delta_hat_old i * gamma_bar)
        / (tau_2 * n + vnth delta_hat_old i) /\
      vnth delta_hat_new i
      = (half * sum_n (ncols X) (fun j => square (at_ X i j - vnth gamma_hat_new i))
         + b_prior)
        / (n / two + a_prior - one).
Proof.
  intros Hp Hg Hgo Hdo.
  destruct (postmean_spec gamma_hat gamma_bar (count_not_nan X) delta_hat_old tau_2
              (nrows X) Hg (length_count_not_nan X) Hdo)
    as (gn & Egn & Lgn & Hgn).
  unfold solver_body. rewrite Egn. cbn [obind].
  rewrite dot_column_ones. cbn [obind].
  rewrite ew2_same_shape by (cbn [nrows ncols tab]; lia). cbn [obind].
  set (D := tab (nrows X) (ncols X) _).
  destruct (postvar_spec (sum_axis1 (ew1 square D)) (count_not_nan X)
              a_prior b_prior (nrows X)) as (dn & Edn & Ldn & Hdn).
  { now rewrite length_sum_axis1. }
  { apply length_count_not_nan. }
  rewrite Edn. cbn [obind].
  rewrite (vew2_same_length fsub gn gamma_hat_old) by lia. cbn [obind].
  rewrite vew2_same_length by (rewrite !length_map, length_seq; lia). cbn [obind].
  rewrite !length_map, !length_seq.
  assert (Rg : map (fun i => vnth (map fabs
                      (map (fun i0 => vnth gn i0 - vnth gamma_hat_old i0)
                         (seq 0 (length gn)))) i / vnth gamma_hat_old i)
                 (seq 0 (length gn))
               = relative_changes gn gamma_hat_old).
  { unfold relative_changes. apply map_seq_ext. intros i Hi.
    rewrite vnth_map by (rewrite length_map, length_seq; exact Hi).
    now rewrite vnth_map_seq. }
  rewrite Rg.
  destruct (np_max_nonempty (relative_changes gn gamma_hat_old)) as (mg & Emg).
  { unfold relative_changes. rewrite length_map, length_seq. lia. }
  rewrite Emg. cbn [obind].
  rewrite (vew2_same_length fsub dn delta_hat_old) by lia. cbn [obind].
  rewrite vew2_same_length by (rewrite !length_map, length_seq; lia). cbn [obind].
  rewrite !length_map, !length_seq.
  assert (Rd : map (fun i => vnth (map fabs
                      (map (fun i0 => vnth dn i0 - vnth delta_hat_old i0)
                         (seq 0 (length dn)))) i / vnth delta_hat_old i)
                 (seq 0 (length dn))
               = relative_changes dn delta_hat_old).
  { unfold relative_changes. apply map_seq_ext. intros i Hi.
    rewrite vnth_map by (rewrite length_map, length_seq; exact Hi).
    now rewrite vnth_map_seq. }
  rewrite Rd.
  destruct (np_max_nonempty (relative_changes dn delta_hat_old)) as (md & Emd).
  { unfold relative_changes. rewrite length_map, length_seq. lia. }
  rewrite Emd. cbn [obind].
  exists gn, dn, mg, md.
  split; [reflexivity | ]. split; [exact Lgn | ]. split; [exact Ldn | ].
  split; [exact Emg | ]. split; [exact Emd | ].
  intros i Hi. cbn zeta. split.
  - rewrite (Hgn i Hi). unfold count_not_nan.
    rewrite (nth_map_seq _ 0 _ _ _ Hi). reflexivity.
  - rewrite (Hdn i Hi). unfold count_not_nan at 1.
    rewrite (nth_map_seq _ 0 _ _ _ Hi).
    rewrite vnth_sum_axis1 by exact Hi.
    cbn [ncols ew1 tab]. f_equal. f_equal. f_equal.
    apply sum_n_ext. intros j Hj.
    unfold ew1. rewrite at_tab by (cbn; lia).
    unfold D. rewrite !at_tab by lia. reflexivity.
Qed.

End SolverBody.

(** C1 (amended).  Every iteration of the solver is one run of the loop body
    on the current [gamma_hat_old], [delta_hat_old].  For every feature [i],
    the new gamma is [(tau_2 * n * gamma_hat + delta_old * gamma_bar) /
    (tau_2 * n + delta_old)] where [gamma_hat] is the estimate the solver was
    called with (not the gamma of the previous iteration) and [n] counts the
    non-NaN observations of the feature at the site; the new delta is
    [(0.5 * sum_j (x_ij - gamma_new_i)^2 + b_prior) / (n / 2 + a_prior - 1)]. *)
Theorem solver_body_update_rule {F : Type} {SF : Scalar F}
    (X : ndarray F) (gamma_hat : list F) (gamma_bar tau_2 a_prior b_prior : F)
    (gamma_hat_old delta_hat_old : list F) :
  0 < nrows X ->
  length gamma_hat = nrows X ->
  length gamma_hat_old = nrows X ->
  length delta_hat_old = nrows X ->
  exists gamma_hat_new delta_hat_new change,
    solver_body X gamma_hat gamma_bar tau_2 a_prior b_prior (count_not_nan X)
      gamma_hat_old delta_hat_old
    = Ok (gamma_hat_new, delta_hat_new, change) /\
    length gamma_hat_new = nrows X /\
    length delta_hat_new = nrows X /\
    forall i, i < nrows X ->
      let n := of_nat (length (filter (fun x => negb (fisnan x)) (row_of zero X i))) in
      vnth gamma_hat_new i
      = fdiv (fadd (fmul (fmul tau_2 n) (vnth gamma_hat i))
                   (fmul (vnth delta_hat_old i) gamma_bar))
             (fadd (fmul tau_2 n) (vnth delta_hat_old i)) /\
      vnth delta_hat_new i
      = fdiv (fadd (fmul half
                      (sum_n (ncols X)
                         (fun j => square (fsub (at_ X i j) (vnth gamma_hat_new i)))))
                   b_prior)
             (fsub (fadd (fdiv n two) a_prior) one).
Proof.
  intros Hp Hg Hgo Hdo.
  destruct (solver_body_normal_form X gamma_hat gamma_bar tau_2 a_prior b_prior
              gamma_hat_old delta_hat_old Hp Hg Hgo Hdo)
    as (gn & dn & mg & md & E & Lg & Ld & _ & _ & H).
  exists gn, dn, (py_max mg md). repeat split; try assumption; apply H; assumption.
Qed.

(** A site with one feature and two samples, for the solver. *)
Module SolverExample.

Definition X : ndarray float := asarray 0%float [[1.5; -0.5]]%float.
Definition gamma_hat : list float := [1]%float.
Definition delta_hat : list float := [2]%float.
Definition gamma_bar : float := 0%float.
Definition tau_2 : float := 1%float.
Definition a_prior : float := 1%float.
Definition b_prior : float := 5%float.

Definition body : list float -> list float -> outcome (list float * list float * float) :=
  solver_body X gamma_hat gamma_bar tau_2 a_prior b_prior (count_not_nan X).

End SolverExample.

(** C1, witness: the update rule on the example, from the initial estimates. *)
Lemma solver_body_update_rule_witness :
  exists gamma_hat_new delta_hat_new change,
    SolverExample.body SolverExample.gamma_hat SolverExample.delta_hat
    = Ok (gamma_hat_new, delta_hat_new, change) /\
    length gamma_hat_new = 1 /\
    length delta_hat_new = 1 /\
    forall i, i < 1 ->
      let n := of_nat (length (filter (fun x => negb (fisnan x))
                                 (row_of zero SolverExample.X i))) in
      vnth gamma_hat_new i
      = fdiv (fadd (fmul (fmul SolverExample.tau_2 n) (vnth SolverExample.gamma_hat i))
                   (fmul (vnth SolverExample.delta_hat i) SolverExample.gamma_bar))
             (fadd (fmul SolverExample.tau_2 n) (vnth SolverExample.delta_hat i)) /\
      vnth delta_hat_new i
      = fdiv (fadd (fmul half
                      (sum_n 2
                         (fun j => square (fsub (at_ SolverExample.X i j)
                                                (vnth gamma_hat_new i)))))
                   SolverExample.b_prior)
             (fsub (fadd (fdiv n two) SolverExample.a_prior) one).
Proof.
  apply (solver_body_update_rule SolverExample.X SolverExample.gamma_hat
           SolverExample.gamma_bar SolverExample.tau_2 SolverExample.a_prior
           SolverExample.b_prior SolverExample.gamma_hat SolverExample.delta_hat).
  - vm_compute. lia.
  - reflexivity.
  - reflexivity.
  - reflexivity.
Defined.

(** C1, counterexample.  On the example the first iteration gives gamma 0.5
    and delta 6 with a change of 2, so the loop goes round again (one
    iteration of fuel is not enough).  The second iteration gives gamma
    [(1*2*1 + 6*0) / (1*2 + 6) = 0.25], from the initial [gamma_hat = 1]; the
    rule with the previous iteration's gamma 0.5 in its place would give
    [(1*2*0.5 + 6*0) / (1*2 + 6) = 0.125]. *)
Lemma second_iteration_uses_initial_gamma_hat :
  SolverExample.body SolverExample.gamma_hat SolverExample.delta_hat
  = Ok ([0.5]%float, [6]%float, 2%float) /\
  _iteration_solver 1 SolverExample.X SolverExample.gamma_hat SolverExample.delta_hat
    SolverExample.gamma_bar SolverExample.tau_2 SolverExample.a_prior
    SolverExample.b_prior default_convergence = OutOfFuel /\
  SolverExample.body [0.5]%float [6]%float
  = Ok ([0.25]%float, [6.0625]%float, 0.5%float) /\
  spec_gamma_update SolverExample.tau_2 (of_nat 2) 0.5%float 6%float
    SolverExample.gamma_bar = 0.125%float /\
  PrimFloat.eqb 0.25%float 0.125%float = false.
Proof.
  vm_compute. repeat split; reflexivity.
Qed.

(* ================================================================== *)
(** * When the solver's loop ends *)

Section LoopExit.
Context {F : Type} {SF : Scalar F}.
Local Open Scope scalar_scope.
Variable body : list F -> list F -> outcome (list F * list F * F).
Variable convergence : F.

(** The loop variables [(gamma_hat_old, delta_hat_old, change)] after [k]
    runs of the body, the loop test left out. *)
Fixpoint state_after (change : F) (k : nat) (gamma_hat_old delta_hat_old : list F)
  : outcome (list F * list F * F) :=
  match k with
  | O => Ok (gamma_hat_old, delta_hat_old, change)
  | S k' =>
      let* '(g, d, _) := state_after change k' gamma_hat_old delta_hat_old in
      body g d
  end.

(** The loop test passes in a state: [change > convergence]. *)
Definition goes_on (st : outcome (list F * list F * F)) : Prop :=
  exists g d change, st = Ok (g, d, change) /\ (change >? convergence) = true.

(** The loop test fails in a state holding the estimates [r]. *)
Definition stops_with (st : outcome (list F * list F * F)) (r : list F * list F) : Prop :=
  exists change, st = Ok (fst r, snd r, change) /\ (change >? convergence) = false.

Lemma state_after_shift (c0 : F) (k : nat) (g d : list F) :
  state_after c0 (S k) g d
  = let* '(g1, d1, c1) := body g d in state_after c1 k g1 d1.
Proof.
  induction k as [| k IH].
  - cbn. destruct (body g d) as [[[g1 d1] c1] | e | ]; reflexivity.
  - change (state_after c0 (S (S k)) g d)
      with (let* '(g', d', _) := state_after c0 (S k) g d in body g' d').
    rewrite IH. destruct (body g d) as [[[g1 d1] c1] | e | ]; reflexivity.
Qed.

Lemma solver_while_unfold (fuel : nat) (c0 : F) (count : nat) (g d : list F)
    (new : option (list F * list F)) :
  solver_while fuel body convergence c0 count g d new
  = if c0 >? convergence then
      match fuel with
      | O => OutOfFuel
      | S fuel' =>
          let* '(g1, d1, c1) := body g d in
          solver_while fuel' body convergence c1 (S count) g1 d1 (Some (g1, d1))
      end
    else
      match new with
      | Some r => Ok r
      | None => Raise (UnboundLocalError "local variable 'gamma_hat_new' referenced before assignment")
      end.
Proof. destruct fuel; reflexivity. Qed.

(** The loop returns [r] with [fuel] iterations allowed exactly when the
    test first fails after some [k <= fuel] iterations: in the state it
    then holds ([k >= 1]) or, had it never run, in [new]. *)
Lemma solver_while_returns (fuel : nat) :
  forall (c0 : F) (count : nat) (g d : list F) (new : option (list F * list F))
         (r : list F * list F),
    solver_while fuel body convergence c0 count g d new = Ok r <->
    exists k, k <= fuel /\
      (forall j, j < k -> goes_on (state_after c0 j g d)) /\
      match k with
      | O => (c0 >? convergence) = false /\ new = Some r
      | S _ => stops_with (state_after c0 k g d) r
      end.
Proof.
  induction fuel as [| fuel IH]; intros c0 count g d new r;
    rewrite solver_while_unfold.
  - destruct (c0 >? convergence) eqn:Ec.
    + split; [discriminate | ].
      intros (k & Hk & Hgo & Hstop). assert (k = 0) by lia. subst k.
      destruct Hstop as [Hc _]. congruence.
    + split.
      * intros H. exists 0. split; [lia | ]. split; [intros j Hj; lia | ].
        destruct new; [ | discriminate]. split; congruence.
      * intros (k & Hk & Hgo & Hstop). assert (k = 0) by lia. subst k.
        destruct Hstop as [_ ->]. reflexivity.
  - destruct (c0 >? convergence) eqn:Ec.
    + destruct (body g d) as [[[g1 d1] c1] | e | ] eqn:Eb; cbn [obind].
      * rewrite IH. split.
        -- intros (k & Hk & Hgo & Hstop). exists (S k). split; [lia | ]. split.
           ++ intros [| j] Hj.
              ** exists g, d, c0. split; [reflexivity | exact Ec].
              ** rewrite state_after_shift, Eb. cbn [obind]. apply Hgo. lia.
           ++ rewrite state_after_shift, Eb. cbn [obind].
              destruct k as [| k]; [ | exact Hstop].
              destruct Hstop as [Hc Hnew]. injection Hnew as <-.
              exists c1. split; [reflexivity | exact Hc].
        -- intros (k & Hk & Hgo & Hstop).
           destruct k as [| k]; [destruct Hstop; congruence | ].
           exists k. split; [lia | ]. split.
           ++ intros j Hj. specialize (Hgo (S j) ltac:(lia)).
              rewrite state_after_shift, Eb in Hgo. exact Hgo.
           ++ rewrite state_after_shift, Eb in Hstop. cbn [obind] in Hstop.
              destruct k as [| k]; [ | exact Hstop].
              destruct Hstop as (ch & Hst & Hc). cbn in Hst.
              injection Hst as Hg1 Hd1 Hch. subst ch. split; [exact Hc | ].
              destruct r; cbn in *; congruence.
      * split; [discriminate | ].
        intros (k & Hk & Hgo & Hstop).
        destruct k as [| k]; [destruct Hstop; congruence | ].
        rewrite state_after_shift, Eb in Hstop. destruct Hstop as (ch & Hst & _).
        discriminate.
      * split; [discriminate | ].
        intros (k & Hk & Hgo & Hstop).
        destruct k as [| k]; [destruct Hstop; congruence | ].
        rewrite state_after_shift, Eb in Hstop. destruct Hstop as (ch & Hst & _).
        discriminate.
    + split.
      * intros H. exists 0. split; [lia | ]. split; [intros j Hj; lia | ].
        destruct new; [ | discriminate]. split; congruence.
      * intros (k & Hk & Hgo & Hstop).
        destruct k as [| k].
        -- destruct Hstop as [_ ->]. reflexivity.
        -- specialize (Hgo 0 ltac:(lia)). destruct Hgo as (g' & d' & ch & Hst & Hc).
           cbn in Hst. congruence.
Qed.

(** The body itself has no loop. *)
Hypothesis body_halts : forall g d, body g d <> OutOfFuel.

(** The loop is still running after [fuel] iterations exactly when the test
    has passed in every state up to then. *)
Lemma solver_while_out_of_fuel (fuel : nat) :
  forall (c0 : F) (count : nat) (g d : list F) (new : option (list F * list F)),
    solver_while fuel body convergence c0 count g d new = OutOfFuel <->
    forall j, j <= fuel -> goes_on (state_after c0 j g d).
Proof.
  induction fuel as [| fuel IH]; intros c0 count g d new;
    rewrite solver_while_unfold.
  - destruct (c0 >? convergence) eqn:Ec.
    + split; [ | reflexivity].
      intros _ j Hj. assert (j = 0) by lia. subst j.
      exists g, d, c0. split; [reflexivity | exact Ec].
    + split.
      * destruct new; discriminate.
      * intros H. destruct (H 0 (le_n 0)) as (g' & d' & ch & Hst & Hc).
        cbn in Hst. congruence.
  - destruct (c0 >? convergence) eqn:Ec.
    + destruct (body g d) as [[[g1 d1] c1] | e | ] eqn:Eb; cbn [obind].
      * rewrite IH. split.
        -- intros H [| j] Hj.
           ++ exists g, d, c0. split; [reflexivity | exact Ec].
           ++ rewrite state_after_shift, Eb. apply H. lia.
        -- intros H j Hj. specialize (H (S j) ltac:(lia)).
           rewrite state_after_shift, Eb in H. exact H.
      * split; [discriminate | ].
        intros H. specialize (H 1 ltac:(lia)).
        rewrite state_after_shift, Eb in H. destruct H as (g' & d' & ch & Hst & _).
        discriminate.
      * exfalso. exact (body_halts g d Eb).
    + split.
      * destruct new; discriminate.
      * intros H. destruct (H 0 ltac:(lia)) as (g' & d' & ch & Hst & Hc).
        cbn in Hst. congruence.
Qed.

End LoopExit.

(* ================================================================== *)
(** * The loop body has no loop of its own *)

Section Halting.
Context {F : Type} {SF : Scalar F}.

Definition halts {A : Type} (o : outcome A) : Prop := o <> OutOfFuel.

Lemma halts_Ok (A : Type) (a : A) : halts (Ok a).
Proof. discriminate. Qed.

Lemma halts_Raise (A : Type) (e : exn) : halts (Raise (A:=A) e).
Proof. discriminate. Qed.

Lemma halts_obind (A B : Type) (m : outcome A) (k : A -> outcome B) :
  halts m -> (forall a, halts (k a)) -> halts (obind m k).
Proof.
  intros Hm Hk. destruct m as [a | e | ]; cbn.
  - apply Hk.
  - discriminate.
  - now elim Hm.
Qed.

Lemma halts_vew2 (op : F -> F -> F) (a b : list F) : halts (vew2 op a b).
Proof. unfold vew2. destruct (bcast_dim (length a) (length b)); discriminate. Qed.

Lemma halts_ew2 (op : F -> F -> F) (A B : ndarray F) : halts (ew2 op A B).
Proof.
  unfold ew2.
  destruct (bcast_dim (nrows A) (nrows B)), (bcast_dim (ncols A) (ncols B)); discriminate.
Qed.

Lemma halts_dot (A B : ndarray F) : halts (dot A B).
Proof. unfold dot. destruct (ncols A =? nrows B); discriminate. Qed.

Lemma halts_np_max (v : list F) : halts (np_max v).
Proof. destruct v; discriminate. Qed.

Lemma halts_postmean (gamma_hat : list F) (gamma_bar : F) (n : list nat)
    (delta_star : list F) (tau_2 : F) :
  halts (postmean gamma_hat gamma_bar n delta_star tau_2).
Proof.
  unfold postmean.
  repeat (apply halts_obind; [apply halts_vew2 | intros ?]). apply halts_vew2.
Qed.

Lemma solver_body_halts (X : ndarray F) (gamma_hat : list F)
    (gamma_bar tau_2 a_prior b_prior : F) (n : list nat) (g d : list F) :
  solver_body X gamma_hat gamma_bar tau_2 a_prior b_prior n g d <> OutOfFuel.
Proof.
  change (halts (solver_body X gamma_hat gamma_bar tau_2 a_prior b_prior n g d)).
  unfold solver_body, postvar.
  repeat first
    [ apply halts_Ok
    | apply halts_vew2
    | apply halts_obind;
      [ first [ apply halts_postmean | apply halts_dot | apply halts_ew2
              | apply halts_vew2 | apply halts_np_max ]
      | intros ? ] ].
Qed.

End Halting.

(** C2 (amended).  With [state k] the loop variables after [k] iterations
    ([state 0] holds the initial estimates and [change = 1]):
    - the solver returns [r] within [fuel] iterations exactly when, for some
      [1 <= k <= fuel], the test [change > 0.0001] passed in every state
      before [k] and fails in [state k], which holds [r]; the test fails
      when [change] is at most the tolerance, and also when it is NaN;
    - nothing else ends the loop: with any number [fuel] of iterations
      allowed, the run is unfinished exactly when the test passed in every
      state up to [fuel];
    - [change] is Python's [max] of the two [np.max] of the relative
      changes [|new - old| / old] of gamma and of delta over the features. *)
Theorem iteration_solver_exit_condition {F : Type} {SF : Scalar F}
    (fuel : nat) (X : ndarray F) (gamma_hat delta_hat : list F)
    (gamma_bar tau_2 a_prior b_prior : F) :
  let body := solver_body X gamma_hat gamma_bar tau_2 a_prior b_prior (count_not_nan X) in
  let state := fun k => state_after body one k gamma_hat delta_hat in
  let run := _iteration_solver fuel X gamma_hat delta_hat gamma_bar tau_2
               a_prior b_prior default_convergence in
  (forall r, run = Ok r <->
     exists k, (1 <= k /\ k <= fuel) /\
       (forall j, j < k -> goes_on default_convergence (state j)) /\
       stops_with default_convergence (state k) r) /\
  (run = OutOfFuel <->
     forall j, j <= fuel -> goes_on default_convergence (state j)) /\
  (forall g d, 0 < nrows X -> length gamma_hat = nrows X ->
     length g = nrows X -> length d = nrows X ->
     exists gn dn mg md,
       body g d = Ok (gn, dn, py_max mg md) /\
       np_max (relative_changes gn g) = Ok mg /\
       np_max (relative_changes dn d) = Ok md).
Proof.
  cbn zeta. split; [ | split].
  - intros r. unfold _iteration_solver. rewrite solver_while_returns. split.
    + intros (k & Hk & Hgo & Hstop). destruct k as [| k].
      * destruct Hstop as [Hc _]. rewrite one_gt_default_convergence in Hc. discriminate.
      * exists (S k). split; [lia | ]. split; assumption.
    + intros (k & [Hk1 Hk] & Hgo & Hstop). exists k. split; [exact Hk | ].
      split; [exact Hgo | ]. destruct k; [lia | exact Hstop].
  - unfold _iteration_solver. apply solver_while_out_of_fuel.
    intros g d. apply solver_body_halts.
  - intros g d Hp Hg Hlg Hld.
    destruct (solver_body_normal_form X gamma_hat gamma_bar tau_2 a_prior b_prior
                g d Hp Hg Hlg Hld)
      as (gn & dn & mg & md & E & _ & _ & Emg & Emd & _).
    exists gn, dn, mg, md. repeat split; assumption.
Qed.

(** A site on which gamma stays at zero. *)
Module NanExample.

Definition X : ndarray float := asarray 0%float [[1; -1]]%float.
Definition gamma_hat : list float := [0]%float.
Definition delta_hat : list float := [2]%float.
Definition gamma_bar : float := 0%float.
Definition tau_2 : float := 1%float.
Definition a_prior : float := 2%float.
Definition b_prior : float := 1%float.

Definition body : list float -> list float -> outcome (list float * list float * float) :=
  solver_body X gamma_hat gamma_bar tau_2 a_prior b_prior (count_not_nan X).

End NanExample.

(** C2, counterexample.  On this input the first iteration leaves gamma at 0
    and takes delta from 2 to 1.  The relative change of gamma is [0/0],
    NaN, and [change] is NaN; the test [change > 0.0001] is then false and
    the solver returns after one iteration, although the relative change of
    delta, 0.5, is far above the tolerance, and NaN is not below it. *)
Lemma loop_ends_on_nan_change :
  NanExample.body NanExample.gamma_hat NanExample.delta_hat
  = Ok ([0]%float, [1]%float, nan) /\
  _iteration_solver 1 NanExample.X NanExample.gamma_hat NanExample.delta_hat
    NanExample.gamma_bar NanExample.tau_2 NanExample.a_prior NanExample.b_prior
    default_convergence
  = Ok ([0]%float, [1]%float) /\
  relative_changes [0]%float NanExample.gamma_hat = [nan] /\
  relative_changes [1]%float NanExample.delta_hat = [0.5]%float /\
  fgt 0.5%float default_convergence = true /\
  PrimFloat.ltb nan default_convergence = false.
Proof.
  vm_compute. repeat split; reflexivity.
Qed.

(** A site on which the estimates fall into a cycle of period two. *)
Module CycleExample.

Definition X : ndarray float := asarray 0%float [[1.125]]%float.
Definition gamma_hat : list float := [0]%float.
Definition delta_hat : list float := [1]%float.
Definition gamma_bar : float := 1%float.
Definition tau_2 : float := 1%float.
Definition a_prior : float := 0.5625%float.
Definition b_prior : float := (-0.0078125)%float.

Definition body : list float -> list float -> outcome (list float * list float * float) :=
  solver_body X gamma_hat gamma_bar tau_2 a_prior b_prior (count_not_nan X).

Lemma body_start :
  body [0]%float [1]%float = Ok ([0.5]%float, [3]%float, infinity).
Proof. vm_compute. reflexivity. Qed.

Lemma body_low :
  body [0.5]%float [3]%float = Ok ([0.75]%float, [1]%float, (2 / 3)%float).
Proof. vm_compute. reflexivity. Qed.

Lemma body_high :
  body [0.75]%float [1]%float = Ok ([0.5]%float, [3]%float, 2%float).
Proof. vm_compute. reflexivity. Qed.

(** From either point of the cycle the loop never ends. *)
Lemma cycle_never_ends (fuel : nat) :
  forall (c : float) (count : nat) (new : option (list float * list float)),
    fgt c default_convergence = true ->
    solver_while fuel body default_convergence c count [0.5]%float [3]%float new
    = OutOfFuel /\
    solver_while fuel body default_convergence c count [0.75]%float [1]%float new
    = OutOfFuel.
Proof.
  induction fuel as [| fuel IH]; intros c count new Hc;
    rewrite !solver_while_unfold, Hc.
  - split; reflexivity.
  - rewrite body_low, body_high. cbn [obind]. split.
    + apply IH. reflexivity.
    + apply IH. reflexivity.
Qed.

(** X3.  The solver does not return on this input, whatever the number of
    iterations it is given: gamma alternates between 0.5 and 0.75 and delta
    between 3 and 1, every change being above the tolerance. *)
Lemma iteration_solver_never_returns (fuel : nat) :
  _iteration_solver fuel X gamma_hat delta_hat gamma_bar tau_2 a_prior b_prior
    default_convergence = OutOfFuel.
Proof.
  unfold _iteration_solver. fold body. rewrite solver_while_unfold.
  rewrite one_gt_default_convergence.
  destruct fuel as [| fuel]; [reflexivity | ].
  unfold gamma_hat, delta_hat. rewrite body_start. cbn [obind].
  apply cycle_never_ends. reflexivity.
Qed.

End CycleExample.

(* ================================================================== *)
(** * Sites unseen at fit time *)

Section Membership.

Lemma In_insert_sorted (x y : Z) (l : list Z) :
  In y (insert_sorted x l) <-> y = x \/ In y l.
Proof.
  induction l as [| z l IH]; cbn.
  - intuition.
  - destruct (Z.ltb_spec x z).
    + cbn. intuition.
    + destruct (Z.eqb_spec x z) as [-> | Hne].
      * cbn. intuition.
      * cbn. rewrite IH. intuition.
Qed.

Lemma In_np_unique (x : Z) (a : list Z) : In x (np_unique a) <-> In x a.
Proof.
  induction a as [| y a IH]; cbn.
  - reflexivity.
  - fold (np_unique a). rewrite In_insert_sorted, IH. intuition.
Qed.

Lemma np_in_true (x : Z) (a : list Z) : np_in x a = true <-> In x a.
Proof.
  unfold np_in. rewrite existsb_exists. split.
  - intros (y & Hy & E). apply Z.eqb_eq in E. now subst.
  - intros H. exists x. split; [exact H | apply Z.eqb_refl].
Qed.

Lemma all_sites_seen_false (sites names : list Z) (x : Z) :
  In x sites -> ~ In x names ->
  forallb (fun site_name => np_in site_name names) (np_unique sites) = false.
Proof.
  intros Hin Hnot.
  destruct (forallb _ _) eqn:E; [ | reflexivity].
  rewrite forallb_forall in E.
  specialize (E x (proj2 (In_np_unique x sites) Hin)).
  apply np_in_true in E. contradiction.
Qed.

Lemma all_sites_seen_true (sites names : list Z) :
  (forall x, In x sites -> In x names) ->
  forallb (fun site_name => np_in site_name names) (np_unique sites) = true.
Proof.
  intros H. apply forallb_forall. intros x Hx.
  apply np_in_true, H, In_np_unique, Hx.
Qed.

End Membership.

Section UnseenSite.
Context {F : Type} {SF : Scalar F}.

(** The validation [transform] runs before it looks at the site values
    lets the arguments through. *)
Definition arguments_accepted (s : self F) (data : list (list F)) (sites : list Z)
    (discrete_covariates : option (list (list Z)))
    (continuous_covariates : option (list (list F))) : Prop :=
  n_sites s <> None /\
  (exists X, check_array data = Ok X /\ nrows X = length sites) /\
  sites <> [] /\
  (discrete_covariates_used s = None \/
   exists d D, discrete_covariates = Some d /\ check_array_categorical d = Ok D) /\
  (continuous_covariates_used s = None \/
   exists c C, continuous_covariates = Some c /\ check_array c = Ok C).

Lemma halts_check_array (X : list (list F)) : halts (check_array X).
Proof.
  unfold check_array.
  repeat match goal with |- halts (if ?b then _ else _) => destruct b end;
    discriminate.
Qed.

Lemma halts_check_array_categorical (X : list (list Z)) :
  halts (check_array_categorical X).
Proof.
  unfold check_array_categorical.
  repeat match goal with |- halts (if ?b then _ else _) => destruct b end;
    discriminate.
Qed.

Lemma check_array_sites_Ok (sites : list Z) :
  sites <> [] -> check_array_sites sites = Ok sites.
Proof. destruct sites; [congruence | reflexivity]. Qed.

End UnseenSite.

(** C3, counterexample.  On the example model, a batch labelled with the
    unseen site 3 and one labelled with the unseen site 7 raise the same
    [ValueError]; its message contains neither "3" nor "7". *)
Lemma unseen_site_message_does_not_name_the_site :
  snd (transform [[1; 2]]%float [3%Z] None None Example.fitted)
  = Raise (ValueError "There is a site unseen during the fit method in the data.") /\
  snd (transform [[1; 2]]%float [7%Z] None None Example.fitted)
  = Raise (ValueError "There is a site unseen during the fit method in the data.") /\
  str_contains (string_of_Z 3)
    "There is a site unseen during the fit method in the data." = false /\
  str_contains (string_of_Z 7)
    "There is a site unseen during the fit method in the data." = false.
Proof.
  vm_compute. repeat split; reflexivity.
Qed.

(* ================================================================== *)
(** * Running a method step by step *)

Section Steps.
Context {F : Type} {SF : Scalar F}.

Lemma bind_outcome (A B : Type) (m : M (F:=F) A) (k : A -> M B) (s : self F) :
  snd (bind m k s)
  = match snd (m s) with
    | Ok a => snd (k a (fst (m s)))
    | Raise e => Raise e
    | OutOfFuel => OutOfFuel
    end.
Proof. unfold bind. destruct (m s) as [s' [a | e | ]]; reflexivity. Qed.

Lemma bind_Ok (A B : Type) (m : M (F:=F) A) (k : A -> M B) (s s' : self F) (a : A) :
  m s = (s', Ok a) -> bind m k s = k a s'.
Proof. intros H. unfold bind. now rewrite H. Qed.

Lemma bind_Ok_inv (A B : Type) (m : M (F:=F) A) (k : A -> M B) (s s' : self F) (b : B) :
  bind m k s = (s', Ok b) ->
  exists s1 a, m s = (s1, Ok a) /\ k a s1 = (s', Ok b).
Proof.
  unfold bind. destruct (m s) as [s1 [a | e | ]]; intros H; try discriminate.
  exists s1, a. split; [reflexivity | exact H].
Qed.

Lemma getattr_Ok_inv (A : Type) (name : string) (proj : self F -> option A)
    (s s' : self F) (v : A) :
  getattr name proj s = (s', Ok v) -> s' = s /\ proj s = Some v.
Proof.
  unfold getattr. destruct (proj s); intros H; inversion H; subst; auto.
Qed.

Lemma lift_Ok_inv (A : Type) (o : outcome A) (s s' : self F) (v : A) :
  lift o s = (s', Ok v) -> s' = s /\ o = Ok v.
Proof. unfold lift. intros H; inversion H; subst; auto. Qed.

Lemma ret_inv (A : Type) (a : A) (s s' : self F) (v : A) :
  ret a s = (s', Ok v) -> s' = s /\ a = v.
Proof. unfold ret. intros H; inversion H; subst; auto. Qed.

Lemma getattr_Some (A : Type) (name : string) (proj : self F -> option A)
    (s : self F) (v : A) :
  proj s = Some v -> getattr name proj s = (s, Ok v).
Proof. intros H. unfold getattr. now rewrite H. Qed.

End Steps.

(* ================================================================== *)
(** * Too few sites *)

Section EmptySites.
Context {F : Type} {SF : Scalar F}.





End EmptySites.



(* ================================================================== *)
(** * A site with one sample *)

Section SingleSample.
Context {F : Type} {SF : Scalar F}.
Local Open Scope scalar_scope.

Lemma omapM_Ok (A B : Type) (f : A -> outcome B) (xs : list A) :
  (forall x, In x xs -> exists y, f x = Ok y) ->
  exists ys, omapM f xs = Ok ys /\
    length ys = length xs /\
    forall j x, nth_error xs j = Some x ->
      exists y, nth_error ys j = Some y /\ f x = Ok y.
Proof.
  induction xs as [| x xs IH]; intros H.
  - exists []. cbn. split; [reflexivity | split; [reflexivity | ]].
    intros [| j] x Hx; discriminate.
  - destruct (H x (or_introl eq_refl)) as (y & Ey).
    destruct IH as (ys & Eys & Lys & Hys).
    { intros x' Hx'. apply H. now right. }
    exists (y :: ys). cbn [omapM]. rewrite Ey. cbn [obind]. rewrite Eys. cbn [obind].
    split; [reflexivity | split; [cbn; lia | ]].
    intros [| j] x' Hx'; cbn in Hx' |- *.
    + injection Hx' as <-. eauto.
    + apply Hys, Hx'.
Qed.

Lemma take_cols_in_range (X : ndarray F) (idx : list nat) :
  (forall k, In k idx -> k < ncols X) ->
  take_cols X idx
  = Ok (tab (nrows X) (length idx) (fun i j => at_ X i (nth j idx 0))).
Proof.
  intros H. unfold take_cols.
  replace (forallb (fun k => k <? ncols X) idx) with true; [reflexivity | ].
  symmetry. apply forallb_forall. intros k Hk. apply Nat.ltb_lt, H, Hk.
Qed.

End SingleSample.

(** C5, counterexample.  Site 1 has one sample and site 2 has two: [fit]
    returns normally; the variance of the lone sample is NaN and so are the
    [gamma_star] and [delta_star] it stores for site 1. *)
Lemma fit_accepts_a_site_of_one_sample :
  let r := fit 100 [[1; 2]; [3; 6]; [5; 7]]%float [1%Z; 2%Z; 2%Z] None None
             Example.unfitted in
  snd r = Ok tt /\
  n_sites (fst r) = Some 2 /\
  option_map (fun M => row_of zero M 0) (gamma_star (fst r)) = Some [nan; nan] /\
  option_map (fun M => row_of zero M 0) (delta_star (fst r)) = Some [nan; nan] /\
  np_var_ddof1 [1%float] = nan.
Proof.
  vm_compute. repeat split; reflexivity.
Qed.

(* ================================================================== *)
(** * A feature of zero pooled variance *)

Section Standardize.
Context {F : Type} {SF : Scalar F}.
Local Open Scope scalar_scope.

Lemma iadd_Ok_inv (A B C : ndarray F) :
  iadd A B = Ok C ->
  C = tab (nrows A) (ncols A) (fun i j =>
        at_ A i j + at_ B (bidx (nrows B) i) (bidx (ncols B) j)).
Proof.
  unfold iadd. destruct (_ && _); intros H; inversion H. reflexivity.
Qed.

Lemma dot_Ok_inv (A B C : ndarray F) :
  dot A B = Ok C ->
  ncols A = nrows B /\
  C = tab (nrows A) (ncols B)
        (fun i j => sum_n (ncols A) (fun k => at_ A i k * at_ B k j)).
Proof.
  unfold dot. destruct (Nat.eqb_spec (ncols A) (nrows B)); intros H; inversion H.
  split; [assumption | reflexivity].
Qed.

(** [np.dot(np.sqrt(v), np.ones((1, n)))] for a one-column [v]. *)
Lemma dot_sqrt_ones (vp : ndarray F) (n : nat) :
  ncols vp = 1 ->
  dot (ew1 fsqrt vp) (ones 1 n)
  = Ok (tab (nrows vp) n (fun i _ => fsqrt (at_ vp i 0))).
Proof.
  intros Hc. unfold dot. cbn [ncols nrows ew1 ones tab]. rewrite Hc. cbn [Nat.eqb].
  f_equal. apply tab_ext. intros i j Hi Hj.
  rewrite sum_n_1. unfold ew1, ones. rewrite !at_tab by lia. apply fmul_one_r.
Qed.

End Standardize.

(** Four samples at two sites; the first feature is constant. *)
Module ConstantFeature.

Definition data : list (list float) := [[1; 5]; [1; 7]; [1; 6]; [1; 8]]%float.
Definition sites : list Z := [1; 1; 2; 2]%Z.

(** The object as [fit] has it when it calls the standardization. *)
Definition before : self float :=
  Self true (Some 2) (Some [1; 2]%Z) None None
    (Some {| categories_ := [1; 2]%Z |}) None None None None None None.

Definition features : ndarray float := transpose 0%float (asarray 0%float data).

Definition design : ndarray float :=
  NDArray 4 2 [[1; 0]; [1; 0]; [0; 1]; [0; 1]]%float.

Definition call : self float * outcome (ndarray float * ndarray float) :=
  _standardize_across_features features design 4 [2; 2] true before.

Definition standardized_data : ndarray float :=
  NDArray 2 4 [[nan; nan; nan; nan]; [-1.5; 0.5; -0.5; 1.5]]%float.

Definition standardized_mean : ndarray float :=
  NDArray 2 4 [[1; 1; 1; 1]; [6.5; 6.5; 6.5; 6.5]]%float.

Definition var_pooled : ndarray float := NDArray 2 1 [[0]; [1]]%float.

End ConstantFeature.

(** C6, counterexample.  With a constant first feature, [fit] returns
    normally and stores a pooled variance of 0 for it; the standardization
    has divided [0] by [sqrt(0)], and the NaN reaches every stored
    [gamma_star] and [delta_star] and every entry of the array that
    [transform] then returns, without any exception. *)
Lemma constant_feature_propagates_nan :
  let r := fit 100 ConstantFeature.data ConstantFeature.sites None None
             Example.unfitted in
  snd r = Ok tt /\
  var_pooled (fst r) = Some (NDArray 2 1 [[0]; [1]]%float) /\
  snd ConstantFeature.call
  = Ok (NDArray 2 4 [[nan; nan; nan; nan]; [-1.5; 0.5; -0.5; 1.5]]%float,
        NDArray 2 4 [[1; 1; 1; 1]; [6.5; 6.5; 6.5; 6.5]]%float) /\
  gamma_star (fst r) = Some (NDArray 2 2 [[nan; nan]; [nan; nan]]) /\
  delta_star (fst r) = Some (NDArray 2 2 [[nan; nan]; [nan; nan]]) /\
  snd (transform ConstantFeature.data ConstantFeature.sites None None (fst r))
  = Ok (NDArray 4 2 [[nan; nan]; [nan; nan]; [nan; nan]; [nan; nan]]).
Proof.
  vm_compute. repeat split; reflexivity.
Qed.

(* ================================================================== *)
(** * Shapes through [transform] *)

Section Shapes.
Context {F : Type} {SF : Scalar F}.

(** An outcome that is an array of the given shape. *)
Definition shaped (o : outcome (ndarray F)) (r c : nat) : Prop :=
  exists M, o = Ok M /\ nrows M = r /\ ncols M = c.

Lemma shaped_Ok (M : ndarray F) : shaped (Ok M) (nrows M) (ncols M).
Proof. exists M. auto. Qed.

Lemma shaped_dot (A B : ndarray F) :
  ncols A = nrows B -> shaped (dot A B) (nrows A) (ncols B).
Proof.
  intros H. unfold dot. rewrite H, Nat.eqb_refl. eexists. split; [reflexivity | auto].
Qed.

Lemma shaped_ew2 (op : F -> F -> F) (A B : ndarray F) :
  nrows A = nrows B -> ncols A = ncols B ->
  shaped (ew2 op A B) (nrows A) (ncols A).
Proof.
  intros Hr Hc. rewrite ew2_same_shape by assumption.
  eexists. split; [reflexivity | auto].
Qed.

Lemma shaped_iadd (A B : ndarray F) :
  nrows B = nrows A -> ncols B = ncols A -> shaped (iadd A B) (nrows A) (ncols A).
Proof.
  intros Hr Hc. unfold iadd. rewrite Hr, Hc, !Nat.eqb_refl. cbn.
  eexists. split; [reflexivity | auto].
Qed.

Lemma shaped_take_cols (X : ndarray F) (idx : list nat) :
  (forall k, In k idx -> k < ncols X) ->
  shaped (take_cols X idx) (nrows X) (length idx).
Proof.
  intros H. rewrite take_cols_in_range by exact H.
  eexists. split; [reflexivity | auto].
Qed.

Lemma shaped_take_rows (X : ndarray F) (idx : list nat) :
  (forall k, In k idx -> k < nrows X) ->
  shaped (take_rows X idx) (length idx) (ncols X).
Proof.
  intros H. unfold take_rows.
  replace (forallb (fun k => k <? nrows X) idx) with true.
  - eexists. split; [reflexivity | auto].
  - symmetry. apply forallb_forall. intros k Hk. apply Nat.ltb_lt, H, Hk.
Qed.

Lemma shaped_set_cols (M : ndarray F) (idx : list nat) (V : ndarray F) :
  (forall k, In k idx -> k < ncols M) ->
  nrows V = nrows M -> ncols V = length idx ->
  shaped (set_cols M idx V) (nrows M) (ncols M).
Proof.
  intros H Hr Hc. unfold set_cols.
  replace (forallb (fun k => k <? ncols M) idx) with true.
  - rewrite Hr, Hc, !Nat.eqb_refl. cbn. eexists. split; [reflexivity | auto].
  - symmetry. apply forallb_forall. intros k Hk. apply Nat.ltb_lt, H, Hk.
Qed.

Lemma index_lt (A : Type) (xs : list A) (i : nat) (d : A) :
  i < length xs -> index xs i = Ok (nth i xs d).
Proof.
  intros H. unfold index.
  destruct (nth_error xs i) as [x | ] eqn:E.
  - now rewrite (nth_error_nth _ _ d E).
  - apply nth_error_None in E. lia.
Qed.

Lemma length_rows_of (M : ndarray F) : length (rows_of zero M) = nrows M.
Proof. unfold rows_of. now rewrite length_map, length_seq. Qed.

Lemma length_row_of (M : ndarray F) (i : nat) : length (row_of zero M i) = ncols M.
Proof. unfold row_of. now rewrite length_map, length_seq. Qed.

Lemma nth_rows_of (M : ndarray F) (i : nat) :
  i < nrows M -> nth i (rows_of zero M) [] = row_of zero M i.
Proof. intros H. unfold rows_of. now apply nth_map_seq. Qed.

(** The positions of a label are as many as its count, and all in range. *)
Lemma length_filter_ext_seq (f : nat -> bool) (g : Z -> bool) (l : list Z) (a : nat) :
  (forall i, i < length l -> f (a + i) = g (nth i l 0%Z)) ->
  length (filter f (seq a (length l))) = length (filter g l).
Proof.
  revert a. induction l as [| x l IH]; intros a H; cbn [length seq filter].
  - reflexivity.
  - pose proof (H 0 ltac:(cbn; lia)) as H0. rewrite Nat.add_0_r in H0. cbn in H0.
    rewrite H0.
    assert (IH' : length (filter f (seq (S a) (length l))) = length (filter g l)).
    { apply IH. intros i Hi. specialize (H (S i) ltac:(cbn; lia)).
      cbn in H. rewrite <- H. f_equal. lia. }
    destruct (g x); cbn [length]; now rewrite IH'.
Qed.

Lemma length_np_where_eq (sites : list Z) (x : Z) :
  length (np_where_eq sites x) = count_eq sites x.
Proof.
  unfold np_where_eq, count_eq.
  apply length_filter_ext_seq. intros i Hi. cbn. apply Z.eqb_sym.
Qed.

Lemma np_where_eq_in_range (sites : list Z) (x : Z) (k : nat) :
  In k (np_where_eq sites x) -> k < length sites.
Proof.
  unfold np_where_eq. intros H. apply filter_In in H as [H _].
  apply in_seq in H. lia.
Qed.

End Shapes.

Section TransformShape.
Context {F : Type} {SF : Scalar F}.

Lemma bind_ret (A B : Type) (a : A) (k : A -> M (F:=F) B) (s : self F) :
  bind (ret a) k s = k a s.
Proof. reflexivity. Qed.

Lemma bind_lift_Ok (A B : Type) (a : A) (k : A -> M (F:=F) B) (s : self F) :
  bind (lift (Ok a)) k s = k a s.
Proof. reflexivity. Qed.

Lemma bind_getattr (A B : Type) (name : string) (proj : self F -> option A)
    (k : A -> M (F:=F) B) (s : self F) (v : A) :
  proj s = Some v -> bind (getattr name proj) k s = k v s.
Proof. intros H. unfold bind, getattr. now rewrite H. Qed.

Lemma bind_hasattr (A B : Type) (proj : self F -> option A)
    (k : bool -> M (F:=F) B) (s : self F) :
  bind (hasattr proj) k s = k (present (proj s)) s.
Proof. reflexivity. Qed.

(** A fitted object: every parameter present, with the shapes [fit] gives
    them for [p] features and a design matrix of [w] columns, the first
    [length names] of which are the site indicators. *)
Record fitted_model (s : self F) (names : list Z) (p w : nat) : Prop := {
  fm_n_sites : n_sites s = Some (length names);
  fm_sites_names : sites_names s = Some names;
  fm_beta_hat : exists B, beta_hat s = Some B /\ nrows B = w /\ ncols B = p;
  fm_grand_mean : exists gm, grand_mean s = Some gm /\ length gm = p;
  fm_var_pooled : exists vp, var_pooled s = Some vp /\ nrows vp = p /\ ncols vp = 1;
  fm_gamma_star :
    exists G, gamma_star s = Some G /\ nrows G = length names /\ ncols G = p;
  fm_delta_star :
    exists D, delta_star s = Some D /\ nrows D = length names /\ ncols D = p;
  fm_width : length names <= w
}.

(** The standardization of [transform] succeeds on arrays of the fitted
    shapes. *)
Lemma standardize_transform_Ok (s : self F) (names : list Z) (p w n : nat)
    (data design : ndarray F) (nps : list nat) :
  fitted_model s names p w ->
  nrows data = p -> ncols data = n -> nrows design = n -> ncols design = w ->
  exists std mean,
    _standardize_across_features data design n nps false s = (s, Ok (std, mean)) /\
    nrows std = p /\ ncols std = n /\ nrows mean = p /\ ncols mean = n.
Proof.
  intros [Hk _ (B & HB & HBr & HBc) (gm & Hgm & Hlg) (vp & Hvp & Hvr & Hvc) _ _ _]
         Hdr Hdc Hgr Hgc.
  unfold _standardize_across_features.
  rewrite bind_ret.
  rewrite (bind_getattr _ _ _ _ _ _ _ Hgm).
  rewrite dot_column_ones, bind_lift_Ok.
  rewrite (bind_getattr _ _ _ _ _ _ _ Hk).
  rewrite (bind_getattr _ _ _ _ _ _ _ HB).
  destruct (shaped_dot (zero_first_cols (length names) design) B)
    as (cov & Ecov & Hcr & Hcc).
  { cbn [ncols zero_first_cols tab]. lia. }
  rewrite Ecov, bind_lift_Ok.
  destruct (shaped_iadd (tab (length gm) n (fun i _ => vnth gm i)) (transpose zero cov))
    as (mean & Emean & Hmr & Hmc).
  { cbn [nrows ncols transpose tab zero_first_cols] in *. lia. }
  { cbn [nrows ncols transpose tab zero_first_cols] in *. lia. }
  rewrite Emean, bind_lift_Ok. cbn [nrows ncols tab] in Hmr, Hmc.
  destruct (shaped_ew2 fsub data mean) as (cen & Ecen & Hcer & Hcec); [lia | lia | ].
  rewrite Ecen, bind_lift_Ok.
  rewrite (bind_getattr _ _ _ _ _ _ _ Hvp).
  rewrite dot_sqrt_ones by exact Hvc. rewrite bind_lift_Ok.
  destruct (shaped_ew2 fdiv cen (tab (nrows vp) n (fun i _ => fsqrt (at_ vp i 0))))
    as (std & Estd & Hsr & Hsc).
  { cbn [nrows tab]. lia. }
  { cbn [ncols tab]. lia. }
  rewrite Estd, bind_lift_Ok.
  exists std, mean. split; [reflexivity | ]. repeat split; lia.
Qed.

(** One round of the adjustment loop keeps the shape of the data, also for
    a site without samples in the batch ([site_idxs] empty). *)
Lemma adjust_site_shape (site_design G D : ndarray F) (nps : list nat)
    (bayes : ndarray F) (j : nat) (idx : list nat) (p n k : nat) :
  nrows site_design = n -> ncols site_design = k ->
  nrows G = k -> ncols G = p -> nrows D = k -> ncols D = p ->
  nrows bayes = p -> ncols bayes = n ->
  j < k -> j < length nps -> nth j nps 0 = length idx ->
  (forall i, In i idx -> i < n) ->
  shaped (adjust_site site_design G D nps bayes j idx) p n.
Proof.
  intros Hsr Hsc HGr HGc HDr HDc Hbr Hbc Hj Hjn Hnj Hidx.
  unfold adjust_site.
  rewrite (index_lt _ (rows_of zero D) j []) by (rewrite length_rows_of; lia).
  cbn [obind].
  rewrite (index_lt _ nps j 0) by exact Hjn. cbn [obind].
  rewrite dot_column_ones. cbn [obind].
  destruct (shaped_take_cols bayes idx) as (X & EX & HXr & HXc).
  { intros i Hi. rewrite Hbc. now apply Hidx. }
  rewrite EX. cbn [obind].
  destruct (shaped_take_rows site_design idx) as (S & ES & HSr & HSc).
  { intros i Hi. rewrite Hsr. now apply Hidx. }
  rewrite ES. cbn [obind].
  destruct (shaped_dot S G) as (SG & ESG & HSGr & HSGc); [lia | ].
  rewrite ESG. cbn [obind].
  destruct (shaped_ew2 fsub X (transpose zero SG)) as (num & Enum & Hnr & Hnc).
  { cbn [nrows transpose tab]. lia. }
  { cbn [ncols transpose tab]. lia. }
  rewrite Enum. cbn [obind].
  rewrite nth_rows_of by lia.
  destruct (shaped_ew2 fdiv num
              (tab (length (map fsqrt (row_of zero D j))) (nth j nps 0)
                 (fun i _ => vnth (map fsqrt (row_of zero D j)) i)))
    as (V & EV & HVr & HVc).
  { cbn [nrows tab]. rewrite length_map, length_row_of. lia. }
  { cbn [ncols tab]. lia. }
  rewrite EV. cbn [obind].
  destruct (shaped_set_cols bayes idx V) as (R & ER & HRr & HRc).
  { intros i Hi. rewrite Hbc. now apply Hidx. }
  { lia. }
  { lia. }
  exists R. split; [exact ER | ]. split; lia.
Qed.

Lemma adjust_sites_shape (site_design G D : ndarray F) (nps : list nat)
    (p n k : nat) (l : list (nat * list nat)) (bayes : ndarray F) :
  nrows site_design = n -> ncols site_design = k ->
  nrows G = k -> ncols G = p -> nrows D = k -> ncols D = p ->
  nrows bayes = p -> ncols bayes = n ->
  (forall j idx, In (j, idx) l ->
     j < k /\ j < length nps /\ nth j nps 0 = length idx /\
     forall i, In i idx -> i < n) ->
  shaped (adjust_sites site_design G D nps bayes l) p n.
Proof.
  intros Hsr Hsc HGr HGc HDr HDc Hbr Hbc Hl. revert bayes Hbr Hbc.
  induction l as [| [j idx] l IH]; intros bayes Hbr Hbc; cbn [adjust_sites].
  - exists bayes. auto.
  - destruct (Hl j idx (or_introl eq_refl)) as (Hj & Hjn & Hnj & Hidx).
    destruct (adjust_site_shape site_design G D nps bayes j idx p n k)
      as (bayes' & E & Hr & Hc); try assumption.
    rewrite E. cbn [obind]. apply IH; [ | assumption | assumption].
    intros j' idx' Hin. apply Hl. now right.
Qed.

Lemma In_enumerate (A : Type) (xs : list A) (j : nat) (x : A) :
  In (j, x) (enumerate xs) -> j < length xs /\ nth_error xs j = Some x.
Proof.
  unfold enumerate. intros H.
  assert (G : forall (a : nat) (ys : list A),
             In (j, x) (combine (seq a (length ys)) ys) ->
             a <= j /\ j < a + length ys /\ nth_error ys (j - a) = Some x).
  { intros a ys. revert a. induction ys as [| y ys IHy]; intros a Hin; cbn in Hin.
    - contradiction.
    - destruct Hin as [E | Hin].
      + injection E as <- <-. rewrite Nat.sub_diag. cbn. repeat split; lia.
      + apply IHy in Hin as (H1 & H2 & H3). cbn [length].
        replace (j - a) with (S (j - S a)) by lia. cbn. repeat split; try lia.
        exact H3. }
  apply G in H as (_ & H2 & H3). rewrite Nat.sub_0_r in H3. split; [lia | exact H3].
Qed.

(** The adjustment succeeds and keeps the shape when the per-site counts
    and positions are those of the batch's site column. *)
Lemma adjust_data_final_Ok (s : self F) (names : list Z) (p w n : nat)
    (std design mean : ndarray F) (sites : list Z) :
  fitted_model s names p w ->
  nrows std = p -> ncols std = n -> nrows mean = p -> ncols mean = n ->
  nrows design = n -> ncols design = w -> length sites = n ->
  exists Y,
    _adjust_data_final std design mean (map (count_eq sites) names) n
      (map (np_where_eq sites) names) s = (s, Ok Y) /\
    nrows Y = p /\ ncols Y = n.
Proof.
  intros [Hk _ _ _ (vp & Hvp & Hvr & Hvc) (G & HG & HGr & HGc) (D & HD & HDr & HDc) Hw]
         Hsr Hsc Hmr Hmc Hdr Hdc Hls.
  unfold _adjust_data_final.
  rewrite (bind_getattr _ _ _ _ _ _ _ Hk).
  rewrite (bind_getattr _ _ _ _ _ _ _ Hvp).
  rewrite (bind_getattr _ _ _ _ _ _ _ HG).
  rewrite (bind_getattr _ _ _ _ _ _ _ HD).
  destruct (adjust_sites_shape (first_cols (length names) design) G D
              (map (count_eq sites) names) p n (length names)
              (enumerate (map (np_where_eq sites) names)) std)
    as (bayes & Eb & Hbr & Hbc); try assumption.
  { cbn [ncols first_cols tab]. lia. }
  { intros j idx Hin. apply In_enumerate in Hin as (Hj & Hnth).
    rewrite length_map in Hj.
    rewrite nth_error_map in Hnth.
    destruct (nth_error names j) as [x | ] eqn:Ex; [ | discriminate].
    cbn in Hnth. injection Hnth as <-.
    split; [exact Hj | ]. split; [rewrite length_map; exact Hj | ]. split.
    - rewrite (nth_map_lt _ _ (count_eq sites) names 0%Z 0) by exact Hj.
      rewrite (nth_error_nth _ _ 0%Z Ex). symmetry. apply length_np_where_eq.
    - intros i Hi. rewrite <- Hls. eapply np_where_eq_in_range, Hi. }
  rewrite Eb, bind_lift_Ok.
  rewrite dot_sqrt_ones by exact Hvc. rewrite bind_lift_Ok.
  destruct (shaped_ew2 fmul bayes (tab (nrows vp) n (fun i _ => fsqrt (at_ vp i 0))))
    as (scaled & Es & Hscr & Hscc).
  { cbn [nrows tab]. lia. }
  { cbn [ncols tab]. lia. }
  rewrite Es, bind_lift_Ok.
  destruct (shaped_ew2 fadd scaled mean) as (Y & EY & HYr & HYc); [lia | lia | ].
  rewrite EY, bind_lift_Ok.
  exists Y. split; [reflexivity | split; lia].
Qed.

End TransformShape.

Section TransformAssembly.
Context {F : Type} {SF : Scalar F}.

Lemma check_array_Ok_inv (data : list (list F)) (X : ndarray F) :
  check_array data = Ok X ->
  X = asarray zero data /\ 0 < nrows X /\ 0 < ncols X /\ nrows X = length data.
Proof.
  unfold check_array.
  destruct (negb (rectangular data)); [discriminate | ].
  destruct (negb (forallb (forallb fisfinite) data)); [discriminate | ].
  destruct (Nat.eqb_spec (length data) 0); [discriminate | ].
  destruct (Nat.eqb_spec (length (hd [] data)) 0); [discriminate | ].
  intros H. injection H as <-. cbn [nrows ncols asarray tab]. repeat split; lia.
Qed.

(** The covariates as [transform] validates them: checked when the model
    was fitted with covariates of the kind, taken as they are otherwise. *)
Definition discrete_validated (s : self F) (dc : option (list (list Z)))
    (dc' : option (ndarray Z)) : Prop :=
  match discrete_covariates_used s, dc with
  | None, _ => dc' = option_map (asarray 0%Z) dc
  | Some _, Some d => omap Some (check_array_categorical d) = Ok dc'
  | Some _, None => False
  end.

Definition continuous_validated (s : self F) (cc : option (list (list F)))
    (cc' : option (ndarray F)) : Prop :=
  match continuous_covariates_used s, cc with
  | None, _ => cc' = option_map (asarray zero) cc
  | Some _, Some c => omap Some (check_array c) = Ok cc'
  | Some _, None => False
  end.

(** [transform], once its arguments are validated and the design matrix is
    built: the batch may hold any of the fit-time sites, or only some. *)
Lemma transform_given_design (s : self F) (names : list Z) (p w : nat)
    (data : list (list F)) (sites : list Z)
    (dc : option (list (list Z))) (cc : option (list (list F)))
    (X : ndarray F) (dc' : option (ndarray Z)) (cc' : option (ndarray F))
    (design : ndarray F) :
  fitted_model s names p w ->
  check_array data = Ok X ->
  ncols X = p ->
  length sites = nrows X ->
  (forall x, In x sites -> In x names) ->
  discrete_validated s dc dc' ->
  continuous_validated s cc cc' ->
  snd (_make_design_matrix sites dc' cc' false s) = Ok design ->
  nrows design = nrows X ->
  ncols design = w ->
  exists Y,
    transform data sites dc cc s = (s, Ok Y) /\
    nrows Y = nrows X /\ ncols Y = ncols X.
Proof.
  intros Hfm HX Hp Hls Hseen Hdv Hcv Hdesign Hdr Hdc.
  pose proof Hfm as [Hk Hnames _ _ _ _ _ _].
  apply check_array_Ok_inv in HX as HXi. destruct HXi as (_ & HXr & HXc & HXl).
  unfold transform.
  rewrite (bind_Ok _ _ _ _ s s tt) by (unfold check_is_fitted, bind, hasattr; now rewrite Hk).
  rewrite HX, bind_lift_Ok.
  rewrite check_array_sites_Ok by (destruct sites; [cbn in Hls; lia | discriminate]).
  rewrite bind_lift_Ok.
  unfold check_consistent_length. rewrite Hls, Nat.eqb_refl, bind_lift_Ok.
  rewrite bind_hasattr.
  assert (Edc : (if present (discrete_covariates_used s)
                 then match dc with
                      | Some d => bind (lift (check_array_categorical d))
                                    (fun d0 => ret (Some d0))
                      | None => lift check_array_none
                      end
                 else ret (option_map (asarray 0%Z) dc)) s = (s, Ok dc')).
  { unfold discrete_validated in Hdv.
    destruct (discrete_covariates_used s); cbn [present].
    - destruct dc as [d | ]; [ | contradiction].
      destruct (check_array_categorical d); cbn in Hdv; inversion Hdv. reflexivity.
    - now subst. }
  rewrite (bind_Ok _ _ _ _ _ _ _ Edc).
  rewrite bind_hasattr.
  assert (Ecc : (if present (continuous_covariates_used s)
                 then match cc with
                      | Some c => bind (lift (check_array c)) (fun c0 => ret (Some c0))
                      | None => lift check_array_none
                      end
                 else ret (option_map (asarray zero) cc)) s = (s, Ok cc')).
  { unfold continuous_validated in Hcv.
    destruct (continuous_covariates_used s); cbn [present].
    - destruct cc as [c | ]; [ | contradiction].
      destruct (check_array c); cbn in Hcv; inversion Hcv. reflexivity.
    - now subst. }
  rewrite (bind_Ok _ _ _ _ _ _ _ Ecc).
  rewrite (bind_getattr _ _ _ _ _ _ _ Hnames).
  rewrite all_sites_seen_true by exact Hseen. cbn [negb].
  rewrite (bind_getattr _ _ _ _ _ _ _ Hnames).
  assert (Ed : _make_design_matrix sites dc' cc' false s = (s, Ok design)).
  { pose proof (read_only_make_design_matrix sites dc' cc' s) as Hro.
    destruct (_make_design_matrix sites dc' cc' false s) as [s1 o].
    cbn in Hro, Hdesign. now subst. }
  rewrite (bind_Ok _ _ _ _ _ _ _ Ed).
  destruct (standardize_transform_Ok s names p w (nrows X) (transpose zero X) design
              (map (count_eq sites) names) Hfm)
    as (std & mean & Es & Hsr & Hsc & Hmr & Hmc);
    [ cbn [nrows transpose tab]; lia | reflexivity | lia | lia | ].
  rewrite (bind_Ok _ _ _ _ _ _ _ Es).
  destruct (adjust_data_final_Ok s names p w (nrows X) std design mean sites Hfm)
    as (Y & EY & HYr & HYc); try lia.
  rewrite (bind_Ok _ _ _ _ _ _ _ EY).
  eexists. split; [reflexivity | ]. cbn [nrows ncols transpose tab]. lia.
Qed.

End TransformAssembly.

(** C10.  On a fitted model, with the covariate arguments valid for it (they
    pass validation and give a design matrix of the fit-time width),
    [transform] succeeds on every batch whose site values are among the
    fit-time sites, also when some fit-time sites have no sample in the
    batch: such a site contributes an empty list of positions, the
    adjustment loop goes through it without error, and the array returned has
    the shape of the input feature matrix. *)
Theorem transform_on_subset_of_sites {F : Type} {SF : Scalar F}
    (s : self F) (names : list Z) (p w : nat)
    (data : list (list F)) (sites : list Z)
    (dc : option (list (list Z))) (cc : option (list (list F)))
    (X : ndarray F) (dc' : option (ndarray Z)) (cc' : option (ndarray F))
    (design : ndarray F) :
  fitted_model s names p w ->
  check_array data = Ok X ->
  ncols X = p ->
  length sites = nrows X ->
  (forall x, In x sites -> In x names) ->
  discrete_validated s dc dc' ->
  continuous_validated s cc cc' ->
  snd (_make_design_matrix sites dc' cc' false s) = Ok design ->
  nrows design = nrows X ->
  ncols design = w ->
  exists Y,
    snd (transform data sites dc cc s) = Ok Y /\
    nrows Y = nrows X /\ ncols Y = ncols X.
Proof.
  intros Hfm HX Hp Hls Hseen Hdv Hcv Hdesign Hdr Hdc.
  destruct (transform_given_design s names p w data sites dc cc X dc' cc' design
              Hfm HX Hp Hls Hseen Hdv Hcv Hdesign Hdr Hdc) as (Y & E & HY).
  exists Y. rewrite E. split; [reflexivity | exact HY].
Qed.

(** A model fitted with one discrete covariate, and a batch of two samples
    that are both of site 2. *)
Module SubsetExample.

Definition covariate : list (list Z) := [[0]; [1]; [0]; [1]]%Z.

Definition fitted : self float :=
  fst (fit 100 Example.data Example.sites (Some covariate) None Example.unfitted).

Definition batch : list (list float) := [[1; 2]; [3; 4]]%float.
Definition batch_sites : list Z := [2; 2]%Z.
Definition batch_covariate : list (list Z) := [[0]; [1]]%Z.

Definition design : ndarray float := NDArray 2 3 [[0; 1; 0]; [0; 1; 1]]%float.

End SubsetExample.

(** C10, witness: the batch has no sample of site 1. *)
Lemma transform_on_subset_of_sites_witness :
  exists Y,
    snd (transform SubsetExample.batch SubsetExample.batch_sites
           (Some SubsetExample.batch_covariate) None SubsetExample.fitted) = Ok Y /\
    nrows Y = 2 /\ ncols Y = 2.
Proof.
  apply (transform_on_subset_of_sites SubsetExample.fitted [1; 2]%Z 2 3
           SubsetExample.batch SubsetExample.batch_sites
           (Some SubsetExample.batch_covariate) None
           (asarray zero SubsetExample.batch)
           (Some (asarray 0%Z SubsetExample.batch_covariate)) None
           SubsetExample.design).
  - constructor; vm_compute; try reflexivity; try lia;
      eexists; repeat split; reflexivity.
  - vm_compute. reflexivity.
  - reflexivity.
  - reflexivity.
  - intros x [<- | [<- | []]]; cbn; auto.
  - vm_compute. reflexivity.
  - vm_compute. reflexivity.
  - vm_compute. reflexivity.
  - reflexivity.
  - reflexivity.
Defined.

Section WithoutCovariates.
Context {F : Type} {SF : Scalar F}.

Lemma filter_nil (A : Type) (f : A -> bool) (l : list A) :
  (forall x, In x l -> f x = false) -> filter f l = [].
Proof.
  induction l as [| x l IH]; intros H; cbn; [reflexivity | ].
  rewrite (H x (or_introl eq_refl)). apply IH. intros y Hy. apply H. now right.
Qed.

Lemma encoder_transform_known (enc : OneHotEncoder) (col : list Z) :
  (forall x, In x col -> In x (categories_ enc)) ->
  encoder_transform (F:=F) enc col
  = Ok (tab (length col) (length (categories_ enc))
          (fun i j => if (nth i col 0 =? nth j (categories_ enc) 0)%Z
                      then one else zero)).
Proof.
  intros H. unfold encoder_transform. rewrite filter_nil; [reflexivity | ].
  intros x Hx. apply (proj1 (In_np_unique x col)) in Hx.
  apply negb_false_iff, np_in_true, H, Hx.
Qed.

(** Without covariates the design matrix is the block of site indicators. *)
Lemma make_design_matrix_sites_only (s : self F) (enc : OneHotEncoder)
    (sites : list Z) :
  site_encoder s = Some enc ->
  (forall x, In x sites -> In x (categories_ enc)) ->
  _make_design_matrix sites None None false s
  = (s, Ok (tab (length sites) (length (categories_ enc))
              (fun i j => if (nth i sites 0 =? nth j (categories_ enc) 0)%Z
                          then one else zero))).
Proof.
  intros Henc Hknown. unfold _make_design_matrix.
  rewrite bind_ret, (bind_getattr _ _ _ _ _ _ _ Henc).
  rewrite encoder_transform_known by exact Hknown.
  rewrite bind_lift_Ok, bind_ret. reflexivity.
Qed.

(** For a model fitted without covariates nothing is asked of the design
    matrix: a valid batch of the fit-time sites, or of some of them, is
    transformed into an array of its own shape. *)
Lemma transform_without_covariates_on_subset_of_sites
    (s : self F) (names : list Z) (p : nat)
    (data : list (list F)) (sites : list Z) (X : ndarray F) :
  fitted_model s names p (length names) ->
  site_encoder s = Some {| categories_ := names |} ->
  discrete_covariates_used s = None ->
  continuous_covariates_used s = None ->
  check_array data = Ok X ->
  ncols X = p ->
  length sites = nrows X ->
  (forall x, In x sites -> In x names) ->
  exists Y,
    snd (transform data sites None None s) = Ok Y /\
    nrows Y = nrows X /\ ncols Y = ncols X.
Proof.
  intros Hfm Henc Hd Hc HX Hp Hls Hseen.
  destruct (transform_given_design s names p (length names) data sites None None X
              None None
              (tab (length sites) (length names)
                 (fun i j => if (nth i sites 0 =? nth j names 0)%Z then one else zero))
              Hfm HX Hp Hls Hseen) as (Y & E & HY).
  - unfold discrete_validated. now rewrite Hd.
  - unfold continuous_validated. now rewrite Hc.
  - now rewrite (make_design_matrix_sites_only s _ sites Henc Hseen).
  - exact Hls.
  - reflexivity.
  - exists Y. rewrite E. split; [reflexivity | exact HY].
Qed.

End WithoutCovariates.

(** The shape of what the array operations return. *)
Section ResultShapes.
Context {F : Type} {SF : Scalar F}.

Lemma dot_Ok_shape (A B C : ndarray F) :
  dot A B = Ok C -> nrows C = nrows A /\ ncols C = ncols B.
Proof. intros H. apply dot_Ok_inv in H as [_ ->]. auto. Qed.

Lemma vdot_Ok_length (v : list F) (B : ndarray F) (u : list F) :
  vdot v B = Ok u -> length u = ncols B.
Proof.
  unfold vdot. destruct (length v =? nrows B); intros H; inversion H.
  now rewrite length_map, length_seq.
Qed.

Lemma ew2_Ok_nrows (op : F -> F -> F) (A B C : ndarray F) :
  ew2 op A B = Ok C -> nrows A = nrows B -> nrows C = nrows A.
Proof.
  unfold ew2. intros H E. rewrite <- E, bcast_dim_same in H.
  destruct (bcast_dim (ncols A) (ncols B)); inversion H. reflexivity.
Qed.

Lemma iadd_Ok_shape (A B C : ndarray F) :
  iadd A B = Ok C -> nrows C = nrows A /\ ncols C = ncols A.
Proof. intros H. apply iadd_Ok_inv in H as ->. auto. Qed.

Lemma set_cols_Ok_shape (M V C : ndarray F) (idx : list nat) :
  set_cols M idx V = Ok C -> nrows C = nrows M /\ ncols C = ncols M.
Proof.
  unfold set_cols. destruct (negb _); [discriminate | ].
  destruct (_ && _); intros H; inversion H. auto.
Qed.

Lemma adjust_site_Ok_shape (site_design G D : ndarray F) (nps : list nat)
    (bayes C : ndarray F) (i : nat) (idx : list nat) :
  adjust_site site_design G D nps bayes i idx = Ok C ->
  nrows C = nrows bayes /\ ncols C = ncols bayes.
Proof.
  unfold adjust_site.
  repeat match goal with
         | |- obind ?o _ = Ok _ -> _ => destruct o; cbn [obind]; [ | discriminate ..]
         end.
  apply set_cols_Ok_shape.
Qed.

Lemma adjust_sites_Ok_shape (site_design G D : ndarray F) (nps : list nat)
    (l : list (nat * list nat)) (bayes C : ndarray F) :
  adjust_sites site_design G D nps bayes l = Ok C ->
  nrows C = nrows bayes /\ ncols C = ncols bayes.
Proof.
  revert bayes. induction l as [| [i idx] l IH]; intros bayes; cbn [adjust_sites].
  - intros H. inversion H. auto.
  - destruct (adjust_site site_design G D nps bayes i idx) as [b | | ] eqn:E;
      cbn [obind]; try discriminate.
    intros H. apply IH in H as [-> ->]. exact (adjust_site_Ok_shape _ _ _ _ _ _ _ _ E).
Qed.

End ResultShapes.

(* ================================================================== *)
(** * What [fit] leaves behind *)

(** A method body keeps a view [pi] of the object when the object it leaves
    behind has the view it started with, whatever the outcome. *)
Section Frame.
Context {F : Type} {X : Type}.
Variable pi : self F -> X.

Definition keeps {A : Type} (m : M (F:=F) A) : Prop :=
  forall s, pi (fst (m s)) = pi s.

Lemma keeps_read_only (A : Type) (m : M A) : read_only m -> keeps m.
Proof. intros H s. now rewrite H. Qed.

Lemma keeps_bind (A B : Type) (m : M A) (k : A -> M B) :
  keeps m -> (forall a, keeps (k a)) -> keeps (bind m k).
Proof.
  intros Hm Hk s. unfold bind. specialize (Hm s).
  destruct (m s) as [s' [a | e | ]]; cbn in Hm; [ | exact Hm ..].
  now rewrite Hk.
Qed.

Lemma keeps_setattr (A : Type) (upd : option A -> self F -> self F) (v : A) :
  (forall s, pi (upd (Some v) s) = pi s) -> keeps (setattr upd v).
Proof. intros H s. apply H. Qed.

Lemma keeps_for_each (A : Type) (xs : list A) (body : A -> M unit) :
  (forall x, keeps (body x)) -> keeps (for_each xs body).
Proof.
  intros H. induction xs as [| x xs IH]; cbn [for_each].
  - intros s. reflexivity.
  - apply keeps_bind; [apply H | intros _; exact IH].
Qed.

Lemma keeps_for_fold (A B : Type) (xs : list A) (body : B -> A -> M B) :
  (forall acc x, keeps (body acc x)) -> forall acc, keeps (for_fold xs acc body).
Proof.
  intros H. induction xs as [| x xs IH]; intros acc; cbn [for_fold].
  - intros s. reflexivity.
  - apply keeps_bind; [apply H | intros acc'; apply IH].
Qed.

Lemma keeps_Ok (A : Type) (m : M A) (s s' : self F) (a : A) :
  keeps m -> m s = (s', Ok a) -> pi s' = pi s.
Proof. intros H E. specialize (H s). now rewrite E in H. Qed.

End Frame.

Ltac keeps_step :=
  lazymatch goal with
  | |- keeps _ (bind _ _) => apply keeps_bind; [ | intros ? ]
  | |- keeps _ (setattr _ _) => apply keeps_setattr; intros []; reflexivity
  | |- keeps _ (for_each _ _) => apply keeps_for_each; intros ?
  | |- keeps _ (for_fold _ _ _) => apply keeps_for_fold; intros ? ?
  | |- keeps _ (match ?x with _ => _ end) => destruct x
  | |- keeps _ (_make_design_matrix _ _ _ _) => unfold _make_design_matrix
  | |- keeps _ (_standardize_across_features _ _ _ _ _) =>
      unfold _standardize_across_features
  | |- keeps _ (standardization_model _ _ _ _) => unfold standardization_model
  | |- keeps _ (_fit_ls_model _ _ _) => unfold _fit_ls_model
  | |- _ => solve [ apply keeps_read_only; auto with read_only ]
  end.

Ltac keeps_tac := cbv beta iota zeta; repeat (keeps_step; cbv beta iota zeta).

Section FitShapes.
Context {F : Type} {SF : Scalar F}.

Lemma setattr_Ok_inv (A : Type) (upd : option A -> self F -> self F) (v : A)
    (s s' : self F) (u : unit) :
  setattr upd v s = (s', Ok u) -> s' = upd (Some v) s.
Proof. unfold setattr. intros H. now inversion H. Qed.

(** ** The solver *)

(** What holds of the initial estimates and is kept by the loop body holds
    of the estimates the loop returns. *)
Lemma solver_while_keeps (I : list F -> list F -> Prop)
    (body : list F -> list F -> outcome (list F * list F * F)) (convergence : F) :
  (forall g d g' d' c, I g d -> body g d = Ok (g', d', c) -> I g' d') ->
  forall (fuel : nat) (c0 : F) (count : nat) (g d : list F)
         (new : option (list F * list F)) (r : list F * list F),
    I g d ->
    (forall r', new = Some r' -> I (fst r') (snd r')) ->
    solver_while fuel body convergence c0 count g d new = Ok r ->
    I (fst r) (snd r).
Proof.
  intros Hbody. induction fuel as [| fuel IH]; intros c0 count g d new r Hg Hnew;
    rewrite solver_while_unfold; destruct (fgt c0 convergence).
  - discriminate.
  - destruct new as [r' | ]; [ | discriminate]. intros E. inversion E; subst. now apply Hnew.
  - destruct (body g d) as [[[g1 d1] c1] | e | ] eqn:Eb; cbn [obind]; try discriminate.
    apply IH.
    + exact (Hbody g d g1 d1 c1 Hg Eb).
    + intros r' E. inversion E; subst. exact (Hbody g d g1 d1 c1 Hg Eb).
  - destruct new as [r' | ]; [ | discriminate]. intros E. inversion E; subst. now apply Hnew.
Qed.

(** The estimates the solver returns have one entry per feature. *)
Lemma iteration_solver_lengths (fuel : nat) (X : ndarray F) (g d : list F)
    (gamma_bar tau_2 a_prior b_prior convergence : F) (gs ds : list F) :
  0 < nrows X -> length g = nrows X -> length d = nrows X ->
  _iteration_solver fuel X g d gamma_bar tau_2 a_prior b_prior convergence = Ok (gs, ds) ->
  length gs = nrows X /\ length ds = nrows X.
Proof.
  intros Hp Hg Hd E. unfold _iteration_solver in E.
  apply (solver_while_keeps (fun g' d' => length g' = nrows X /\ length d' = nrows X))
    in E; [exact E | | auto | discriminate].
  intros g0 d0 g1 d1 c [Hg0 Hd0] Eb.
  destruct (solver_body_normal_form X g gamma_bar tau_2 a_prior b_prior g0 d0 Hp Hg Hg0 Hd0)
    as (gn & dn & mg & md & E' & Lg & Ld & _).
  rewrite E' in Eb. inversion Eb; subst. auto.
Qed.

(** ** The per-site estimates *)

Lemma omapM_Ok_inv (A B : Type) (f : A -> outcome B) (xs : list A) (ys : list B) :
  omapM f xs = Ok ys -> Forall2 (fun x y => f x = Ok y) xs ys.
Proof.
  revert ys. induction xs as [| x xs IH]; intros ys; cbn [omapM].
  - intros E. inversion E. constructor.
  - destruct (f x) as [y | e | ] eqn:Ey; cbn [obind]; try discriminate.
    destruct (omapM f xs) as [ys' | e | ]; cbn [obind]; try discriminate.
    intros E. inversion E; subst. constructor; [exact Ey | now apply IH].
Qed.

Lemma index_Ok_In (A : Type) (xs : list A) (i : nat) (x : A) :
  index xs i = Ok x -> In x xs.
Proof.
  unfold index. destruct (nth_error xs i) as [y | ] eqn:E; intros H; inversion H; subst.
  exact (nth_error_In _ _ E).
Qed.

Lemma take_cols_Ok_shape (X C : ndarray F) (idx : list nat) :
  take_cols X idx = Ok C -> nrows C = nrows X /\ ncols C = length idx.
Proof.
  unfold take_cols. destruct (forallb _ idx); intros H; inversion H. auto.
Qed.

Lemma length_np_var_axis1 (X : ndarray F) : length (np_var_axis1_ddof1 X) = nrows X.
Proof. unfold np_var_axis1_ddof1. now rewrite length_map, length_rows_of. Qed.

Lemma In_rows_of (M : ndarray F) (r : list F) :
  In r (rows_of zero M) -> length r = ncols M.
Proof.
  unfold rows_of. intros H. apply in_map_iff in H as (i & <- & _). apply length_row_of.
Qed.

(** [delta_hat] has one vector per site, each with one entry per feature. *)
Lemma fit_delta_hat_lengths (X : ndarray F) (idx_per_site : list (list nat))
    (delta_hat : list (list F)) :
  fit_delta_hat X idx_per_site = Ok delta_hat ->
  length delta_hat = length idx_per_site /\
  forall d, In d delta_hat -> length d = nrows X.
Proof.
  unfold fit_delta_hat. intros H. apply omapM_Ok_inv in H.
  split; [symmetry; exact (Forall2_length H) | ].
  induction H as [| idx d idxs ds Hd _ IH]; intros d' Hin; [contradiction | ].
  destruct Hin as [<- | Hin]; [ | now apply IH].
  destruct (take_cols X idx) as [C | e | ] eqn:E; cbn [obind] in Hd; try discriminate.
  inversion Hd. rewrite length_np_var_axis1. now apply take_cols_Ok_shape in E.
Qed.

Lemma np_array_Ok_shape (rows : list (list F)) (M : ndarray F) :
  np_array rows = Ok M -> nrows M = length rows /\ ncols M = length (hd [] rows).
Proof.
  unfold np_array. destruct (rectangular rows); intros H; inversion H. auto.
Qed.

Lemma length_enumerate (A : Type) (xs : list A) : length (enumerate xs) = length xs.
Proof. unfold enumerate. rewrite length_combine, length_seq. lia. Qed.

(** [gamma_star] and [delta_star] have a row per site and a column per
    feature. *)
Lemma find_parametric_adjustments_shapes (fuel : nat) (X : ndarray F)
    (idx_per_site : list (list nat)) (gamma_hat : ndarray F) (delta_hat : list (list F))
    (gamma_bar tau_2 : list F) (a_prior b_prior : list F) (G D : ndarray F) :
  0 < nrows X ->
  idx_per_site <> [] ->
  ncols gamma_hat = nrows X ->
  (forall d, In d delta_hat -> length d = nrows X) ->
  _find_parametric_adjustments fuel X idx_per_site gamma_hat delta_hat
    gamma_bar tau_2 a_prior b_prior = Ok (G, D) ->
  (nrows G = length idx_per_site /\ ncols G = nrows X) /\
  (nrows D = length idx_per_site /\ ncols D = nrows X).
Proof.
  intros Hp Hidx Hg Hd. unfold _find_parametric_adjustments.
  destruct (omapM _ (enumerate idx_per_site)) as [stars | e | ] eqn:E;
    cbn [obind]; try discriminate.
  apply omapM_Ok_inv in E.
  assert (Hlen : length stars = length idx_per_site).
  { rewrite <- (Forall2_length E). apply length_enumerate. }
  assert (Hstars : forall r, In r stars ->
            length (fst r) = nrows X /\ length (snd r) = nrows X).
  { clear Hlen. induction E as [| [i idx] [gs ds] l l' Hx _ IH];
      intros r Hin; [contradiction | ].
    destruct Hin as [<- | Hin]; [ | now apply IH].
    destruct (take_cols X idx) as [C | e | ] eqn:EC; cbn [obind] in Hx; try discriminate.
    destruct (index (rows_of zero gamma_hat) i) as [g | e | ] eqn:Eg;
      cbn [obind] in Hx; try discriminate.
    destruct (index delta_hat i) as [d | e | ] eqn:Ed; cbn [obind] in Hx; try discriminate.
    destruct (index gamma_bar i) as [gb | e | ]; cbn [obind] in Hx; try discriminate.
    destruct (index tau_2 i) as [t2 | e | ]; cbn [obind] in Hx; try discriminate.
    destruct (index a_prior i) as [a | e | ]; cbn [obind] in Hx; try discriminate.
    destruct (index b_prior i) as [b | e | ]; cbn [obind] in Hx; try discriminate.
    apply take_cols_Ok_shape in EC as [EC _].
    apply index_Ok_In, In_rows_of in Eg. apply index_Ok_In, Hd in Ed.
    apply iteration_solver_lengths in Hx; [ | lia ..].
    cbn [fst snd]. rewrite <- EC. exact Hx. }
  destruct (np_array (map fst stars)) as [G' | e | ] eqn:EG; cbn [obind]; try discriminate.
  destruct (np_array (map snd stars)) as [D' | e | ] eqn:ED; cbn [obind]; try discriminate.
  intros H. inversion H; subst G' D'.
  apply np_array_Ok_shape in EG as [EG1 EG2]. apply np_array_Ok_shape in ED as [ED1 ED2].
  rewrite length_map in EG1, ED1.
  destruct stars as [| r stars]; [destruct idx_per_site; [congruence | discriminate] | ].
  cbn [map hd] in EG2, ED2.
  destruct (Hstars r (or_introl eq_refl)) as [H1 H2].
  repeat split; congruence.
Qed.

(** ** The fitted parameters *)

Lemma inv_Ok_shape (A C : ndarray F) :
  inv A = Ok C -> nrows C = nrows A /\ ncols C = nrows A.
Proof.
  unfold inv. destruct (negb _); [discriminate | ].
  destruct (gauss_jordan _ _); cbn [obind]; intros H; inversion H. auto.
Qed.

Lemma ew2_Ok_shape (op : F -> F -> F) (A B C : ndarray F) :
  ew2 op A B = Ok C ->
  bcast_dim (nrows A) (nrows B) = Some (nrows C) /\
  bcast_dim (ncols A) (ncols B) = Some (ncols C).
Proof.
  unfold ew2. destruct (bcast_dim (nrows A) (nrows B)); [ | discriminate].
  destruct (bcast_dim (ncols A) (ncols B)); intros H; inversion H. auto.
Qed.

Tactic Notation "inv_lift" hyp(H) "as" ident(x) ident(E) :=
  let s1 := fresh "s" in
  apply bind_Ok_inv in H; destruct H as (s1 & x & E & H);
  apply lift_Ok_inv in E; destruct E as [-> E]; cbv beta iota zeta in H.

Tactic Notation "inv_getattr" hyp(H) "as" ident(x) ident(E) :=
  let s1 := fresh "s" in
  apply bind_Ok_inv in H; destruct H as (s1 & x & E & H);
  apply getattr_Ok_inv in E; destruct E as [-> E]; cbv beta iota zeta in H.

Tactic Notation "inv_setattr" hyp(H) :=
  let s1 := fresh "s" in let u := fresh "u" in let E := fresh "E" in
  apply bind_Ok_inv in H; destruct H as (s1 & u & E & H);
  apply setattr_Ok_inv in E; subst s1; cbv beta iota zeta in H.

(** The [if fitting:] block writes [beta_hat], [grand_mean] and
    [var_pooled], of these shapes. *)
Lemma standardization_model_Ok (data design : ndarray F) (n : nat) (nps : list nat)
    (s s' : self F) (u : unit) :
  standardization_model data design n nps s = (s', Ok u) ->
  exists B gm vp,
    s' = set_var_pooled (Some vp) (set_grand_mean (Some gm) (set_beta_hat (Some B) s)) /\
    (nrows B = ncols design /\ ncols B = nrows data) /\
    length gm = nrows data /\
    (nrows vp = nrows data /\ ncols vp = 1).
Proof.
  unfold standardization_model. intros H.
  inv_lift H as DtD EDtD. inv_lift H as DtD_inv Einv. inv_lift H as P EP.
  inv_lift H as B EB. inv_setattr H.
  inv_getattr H as beta Ebeta. inv_getattr H as k Ek.
  inv_lift H as gm Egm. inv_setattr H.
  inv_getattr H as beta' Ebeta'.
  inv_lift H as fitted Efitted. inv_lift H as resid Eresid. inv_lift H as vp Evp.
  apply setattr_Ok_inv in H.
  destruct s; cbn in Ebeta, Ebeta', H. inversion Ebeta; inversion Ebeta'; subst beta beta'.
  apply dot_Ok_shape in EDtD as [EDtD _].
  apply inv_Ok_shape in Einv as [Einv _].
  apply dot_Ok_shape in EP as [EP _].
  apply dot_Ok_shape in EB as [EB1 EB2].
  apply vdot_Ok_length in Egm.
  apply dot_Ok_shape in Efitted as [_ Efitted].
  apply ew2_Ok_shape in Eresid as [Eresid _].
  apply dot_Ok_shape in Evp as [Evp1 Evp2].
  cbn [nrows ncols transpose tab first_rows ew1 ones] in *.
  rewrite Efitted, EB2, bcast_dim_same in Eresid. inversion Eresid.
  exists B, gm, vp. split; [exact H | ].
  repeat split; congruence.
Qed.

(** At fit time the standardized data have a row per feature. *)
Lemma standardize_fit_Ok (data design : ndarray F) (n : nat) (nps : list nat)
    (s s' : self F) (sd sm : ndarray F) :
  _standardize_across_features data design n nps true s = (s', Ok (sd, sm)) ->
  exists B gm vp,
    s' = set_var_pooled (Some vp) (set_grand_mean (Some gm) (set_beta_hat (Some B) s)) /\
    (nrows B = ncols design /\ ncols B = nrows data) /\
    length gm = nrows data /\
    (nrows vp = nrows data /\ ncols vp = 1) /\
    nrows sd = nrows data.
Proof.
  unfold _standardize_across_features. intros H.
  apply bind_Ok_inv in H as (s1 & u & E & H).
  apply standardization_model_Ok in E as (B & gm & vp & -> & HB & Hgm & Hvp).
  inv_getattr H as gm' Egm. inv_lift H as sm0 Esm0.
  inv_getattr H as k Ek. inv_getattr H as beta Ebeta.
  inv_lift H as cp Ecp. inv_lift H as sm1 Esm1. inv_lift H as centered Ec.
  inv_getattr H as vp' Evp. inv_lift H as scale Escale. inv_lift H as sd0 Esd.
  apply ret_inv in H as [-> H]. inversion H; subst sd0 sm1.
  destruct s; cbn in Egm, Ebeta, Evp. inversion Egm; inversion Evp; subst gm' vp'.
  apply dot_Ok_shape in Esm0 as [Esm0 _].
  apply iadd_Ok_shape in Esm1 as [Esm1 _].
  apply ew2_Ok_shape in Ec as [Ec _].
  apply dot_Ok_shape in Escale as [Escale _].
  apply ew2_Ok_shape in Esd as [Esd _].
  cbn [nrows ncols column tab ew1] in *.
  rewrite Esm1, Esm0, Hgm, bcast_dim_same in Ec. inversion Ec as [Ec'].
  rewrite Escale, (proj1 Hvp), <- Ec', bcast_dim_same in Esd. inversion Esd as [Esd'].
  exists B, gm, vp. repeat split; try tauto; congruence.
Qed.

Lemma fit_ls_model_Ok (sd design : ndarray F) (idx_per_site : list (list nat))
    (s s' : self F) (gamma_hat : ndarray F) (delta_hat : list (list F)) :
  _fit_ls_model sd design idx_per_site s = (s', Ok (gamma_hat, delta_hat)) ->
  s' = s /\ ncols gamma_hat = nrows sd /\ fit_delta_hat sd idx_per_site = Ok delta_hat.
Proof.
  unfold _fit_ls_model. intros H.
  inv_getattr H as k Ek. inv_lift H as StS EStS. inv_lift H as StS_inv Einv.
  inv_lift H as P EP. inv_lift H as gh Egh. inv_lift H as dh Edh.
  apply ret_inv in H as [-> H]. inversion H; subst gh dh.
  apply dot_Ok_shape in Egh as [_ Egh]. auto.
Qed.

(** ** The design matrix at fit time *)

Lemma hstack_from_Ok_ncols (A M : ndarray F) (l : list (ndarray F)) :
  hstack_from A l = Ok M -> ncols A <= ncols M.
Proof.
  revert A. induction l as [| B l IH]; intros A; cbn [hstack_from].
  - intros H. inversion H. lia.
  - unfold hstack2. destruct (nrows A =? nrows B); cbn [obind]; [ | discriminate].
    intros H. apply IH in H. cbn [ncols tab] in H. lia.
Qed.

Lemma for_fold_Ok_invariant (A B : Type) (I : B -> Prop) (xs : list A)
    (body : B -> A -> M (F:=F) B) :
  (forall acc x s s' acc', I acc -> body acc x s = (s', Ok acc') -> I acc') ->
  forall acc s s' r, I acc -> for_fold xs acc body s = (s', Ok r) -> I r.
Proof.
  intros Hbody. induction xs as [| x xs IH]; intros acc s s' r Hacc; cbn [for_fold].
  - intros H. apply ret_inv in H as [_ <-]. exact Hacc.
  - intros H. apply bind_Ok_inv in H as (s1 & acc' & E & H).
    exact (IH acc' s1 s' r (Hbody acc x s s1 acc' Hacc E) H).
Qed.

Lemma encoder_transform_Ok_ncols (enc : OneHotEncoder) (col : list Z) (M : ndarray F) :
  encoder_transform enc col = Ok M -> ncols M = length (categories_ enc).
Proof.
  unfold encoder_transform. destruct (filter _ _); intros H; inversion H. reflexivity.
Qed.

(** [_make_design_matrix(..., fitting=True)] stores the encoder of the sites,
    leaves [n_sites] and [sites_names] alone, and returns a matrix that has at
    least the columns of the site indicators. *)
Lemma make_design_matrix_fit_Ok (sites : list Z) (dc : option (ndarray Z))
    (cc : option (ndarray F)) (s s' : self F) (design : ndarray F) :
  _make_design_matrix sites dc cc true s = (s', Ok design) ->
  n_sites s' = n_sites s /\
  sites_names s' = sites_names s /\
  site_encoder s' = Some (encoder_fit sites) /\
  length (np_unique sites) <= ncols design /\
  (dc = None -> cc = None -> ncols design = length (np_unique sites)).
Proof.
  intros H.
  assert (Hk : (n_sites s', sites_names s') = (n_sites s, sites_names s)).
  { refine (keeps_Ok (fun s => (n_sites s, sites_names s)) _ _ _ _ _ _ H).
    unfold _make_design_matrix. keeps_tac. }
  injection Hk as Hn Hs. split; [exact Hn | split; [exact Hs | ]].
  unfold _make_design_matrix in H.
  inv_setattr H.
  assert (He : site_encoder s' = Some (encoder_fit sites)).
  { refine (eq_trans (keeps_Ok (@site_encoder F) _ _ _ _ _ _ H) _).
    - keeps_tac.
    - now destruct s. }
  split; [exact He | ].
  inv_getattr H as enc Eenc.
  assert (enc = encoder_fit sites) by (destruct s; cbn in Eenc; congruence). subst enc.
  inv_lift H as sites_design Esd.
  apply encoder_transform_Ok_ncols in Esd. cbn [categories_ encoder_fit] in Esd.
  apply bind_Ok_inv in H as (s1 & design_list & E & H).
  apply lift_Ok_inv in H as [_ H].
  assert (Hl : exists l, design_list = sites_design :: l).
  { destruct dc as [d | ].
    - apply bind_Ok_inv in E as (s2 & u' & _ & E).
      apply (for_fold_Ok_invariant _ _ (fun dl => exists l, dl = sites_design :: l)) in E.
      + exact E.
      + intros acc x s3 s4 acc' (l & ->) Hb.
        inv_getattr Hb as encs Eencs. inv_lift Hb as de Ede. inv_lift Hb as oh Eoh.
        apply ret_inv in Hb as [_ <-]. eexists. reflexivity.
      + exists []. reflexivity.
    - apply ret_inv in E as [_ <-]. exists []. reflexivity. }
  split.
  - destruct Hl as (l & ->).
    destruct cc as [c | ]; cbn [app hstack] in H;
      apply hstack_from_Ok_ncols in H; lia.
  - intros -> ->. apply ret_inv in E as [_ <-]. cbn in H. inversion H; subst design.
    exact Esd.
Qed.

(** ** [fit] *)

Lemma np_unique_nonempty (a : list Z) : a <> [] -> np_unique a <> [].
Proof.
  destruct a as [| x a]; [congruence | ]. intros _ E.
  assert (H : In x (np_unique (x :: a))) by (apply In_np_unique; now left).
  rewrite E in H. contradiction.
Qed.

(** When [fit] returns, the object is a fitted model: every parameter is
    present, with a row or an entry per feature and per site, for the sites
    of the data and the width of the design matrix. *)
Lemma fit_Ok_fitted_model (fuel : nat) (data : list (list F)) (sites : list Z)
    (dc : option (list (list Z))) (cc : option (list (list F)))
    (s s' : self F) (u : unit) :
  fit fuel data sites dc cc s = (s', Ok u) ->
  exists w,
    fitted_model s' (np_unique sites) (length (hd [] data)) w /\
    site_encoder s' = Some (encoder_fit sites) /\
    (dc = None -> cc = None -> w = length (np_unique sites)).
Proof.
  unfold fit. intros H.
  apply bind_Ok_inv in H as (s1 & u1 & _ & H).
  inv_lift H as X EX. inv_lift H as sites' Esites. inv_lift H as u2 Ecl.
  apply bind_Ok_inv in H as (s2 & dc' & Edc & H).
  apply bind_Ok_inv in H as (s3 & cc' & Ecc & H).
  unfold np_unique_counts in H. cbv beta iota zeta in H.
  inv_setattr H. inv_setattr H.
  apply bind_Ok_inv in H as (s4 & design & Ed & H).
  apply make_design_matrix_fit_Ok in Ed as (Hn & Hs & He & Hw & Hw').
  apply bind_Ok_inv in H as (s5 & [sd sm] & Estd & H).
  apply standardize_fit_Ok in Estd as (B & gm & vp & -> & HB & Hgm & Hvp & Hsd).
  apply bind_Ok_inv in H as (s6 & [gamma_hat delta_hat] & Els & H).
  apply fit_ls_model_Ok in Els as (-> & Hgh & Hdh).
  destruct (_find_priors gamma_hat delta_hat) as [[[gamma_bar tau_2] a_prior] b_prior].
  apply bind_Ok_inv in H as (s7 & [G D] & Efp & H).
  apply lift_Ok_inv in Efp as [-> Efp].
  inv_setattr H. inv_setattr H. apply ret_inv in H as [-> _].
  apply check_array_Ok_inv in EX as (-> & _ & Hp & _).
  assert (sites' = sites /\ sites <> []) as [-> Hne].
  { unfold check_array_sites in Esites. destruct sites; cbn in Esites;
      [discriminate | ]. inversion Esites. split; congruence. }
  apply fit_delta_hat_lengths in Hdh as [_ Hdh].
  cbn [nrows ncols transpose asarray tab] in *.
  apply find_parametric_adjustments_shapes in Efp as [[HG1 HG2] [HD1 HD2]];
    [ | lia | | congruence | exact Hdh].
  2:{ intros E. apply map_eq_nil in E. now apply np_unique_nonempty in E. }
  rewrite length_map in HG1, HD1.
  exists (ncols design). split; [ | split].
  - destruct s4; cbn in Hn, Hs |- *.
    constructor; cbn; try assumption;
      eexists; (split; [reflexivity | ]); repeat split; try tauto; congruence.
  - destruct s4; exact He.
  - intros -> ->. apply ret_inv in Edc as [_ <-]. apply ret_inv in Ecc as [_ <-].
    now apply Hw'.
Qed.

End FitShapes.

(** X1.  [fit] populates the model.  When [fit] returns, the object it leaves
    holds every fitted parameter, shaped for the sites of the data (sorted,
    without repeats), the number of features of the data and the width of the
    design matrix: [n_sites] and [sites_names]; [beta_hat], a row per design
    column and a column per feature; [grand_mean], an entry per feature;
    [var_pooled], a one-column row per feature; [gamma_star] and
    [delta_star], a row per site and a column per feature; and the encoder
    of the sites. *)
Theorem fit_populates_the_model {F : Type} {SF : Scalar F}
    (fuel : nat) (data : list (list F)) (sites : list Z)
    (dc : option (list (list Z))) (cc : option (list (list F))) (s : self F) :
  snd (fit fuel data sites dc cc s) = Ok tt ->
  exists w,
    fitted_model (fst (fit fuel data sites dc cc s)) (np_unique sites)
      (length (hd [] data)) w /\
    site_encoder (fst (fit fuel data sites dc cc s)) = Some (encoder_fit sites).
Proof.
  intros H. destruct (fit fuel data sites dc cc s) as [s' o] eqn:E.
  cbn [fst snd] in *. subst o.
  destruct (fit_Ok_fitted_model fuel data sites dc cc s s' tt E) as (w & Hfm & Henc & _).
  exists w. split; assumption.
Qed.

(** X1, witness: the four-sample data set, two sites, no covariates. *)
Lemma fit_populates_the_model_witness :
  exists w,
    fitted_model Example.fitted [1; 2]%Z 2 w /\
    site_encoder Example.fitted = Some (encoder_fit Example.sites).
Proof.
  apply (fit_populates_the_model 100 Example.data Example.sites None None
           Example.unfitted).
  vm_compute. reflexivity.
Defined.

(** X2.  A model fitted without covariates transforms every batch of its sites.
    From an instance that has not been fitted, when [fit(data, sites)]
    returns, [transform(batch, batch_sites)] returns an array of the shape of
    the batch for every valid batch that has the features of the data and
    whose sites all occur in [sites], also when some of the fit-time sites
    have no sample in the batch. *)
Theorem fit_then_transform_on_subset_of_sites {F : Type} {SF : Scalar F}
    (fuel : nat) (s : self F) (data : list (list F)) (sites : list Z)
    (batch : list (list F)) (batch_sites : list Z) (X : ndarray F) :
  n_sites s = None ->
  discrete_covariates_used s = None ->
  continuous_covariates_used s = None ->
  snd (fit fuel data sites None None s) = Ok tt ->
  check_array batch = Ok X ->
  ncols X = length (hd [] data) ->
  length batch_sites = nrows X ->
  (forall x, In x batch_sites -> In x sites) ->
  exists Y,
    snd (transform batch batch_sites None None (fst (fit fuel data sites None None s)))
    = Ok Y /\
    nrows Y = nrows X /\ ncols Y = ncols X.
Proof.
  intros Hn Hd Hc Hfit HX Hp Hls Hsub.
  destruct (fit fuel data sites None None s) as [s' o] eqn:E.
  cbn [fst snd] in *. subst o.
  destruct (fit_Ok_fitted_model fuel data sites None None s s' tt E)
    as (w & Hfm & Henc & Hw).
  specialize (Hw eq_refl eq_refl). subst w.
  assert (Hflags : (discrete_covariates_used s', continuous_covariates_used s')
                   = (discrete_covariates_used s, continuous_covariates_used s)).
  { unfold fit in E. apply bind_Ok_inv in E as (s1 & u & Er & E).
    rewrite (reset_unfitted s Hn) in Er. inversion Er; subst s1.
    refine (keeps_Ok (fun s => (discrete_covariates_used s, continuous_covariates_used s))
              _ _ _ _ _ _ E).
    keeps_tac. }
  injection Hflags as Hd' Hc'. rewrite Hd in Hd'. rewrite Hc in Hc'.
  apply (transform_without_covariates_on_subset_of_sites s' (np_unique sites)
           (length (hd [] data)) batch batch_sites X); try assumption.
  intros x Hx. apply In_np_unique, Hsub, Hx.
Qed.

(** X2, witness: a batch of two samples of site 2 on the model fitted on
    sites 1 and 2. *)
Lemma fit_then_transform_on_subset_of_sites_witness :
  exists Y,
    snd (transform [[1; 2]; [3; 4]]%float [2; 2]%Z None None
           (fst (fit 100 Example.data Example.sites None None Example.unfitted)))
    = Ok Y /\
    nrows Y = nrows (asarray 0%float [[1; 2]; [3; 4]]%float) /\
    ncols Y = ncols (asarray 0%float [[1; 2]; [3; 4]]%float).
Proof.
  apply (fit_then_transform_on_subset_of_sites 100 Example.unfitted Example.data
           Example.sites [[1; 2]; [3; 4]]%float [2; 2]%Z
           (asarray 0%float [[1; 2]; [3; 4]]%float)).
  - reflexivity.
  - reflexivity.
  - reflexivity.
  - vm_compute. reflexivity.
  - vm_compute. reflexivity.
  - reflexivity.
  - reflexivity.
  - intros x [<- | [<- | []]]; cbn; auto.
Defined.

(* ================================================================== *)
(** * Rescaling one feature *)

Section Rescaling.
Context {F : Type} {SF : Scalar F}.
Variable j : nat.

(** Entry [i] of a vector multiplied by [a] when [i] is [j]. *)
Definition scale_at (a : F) (i : nat) (x : F) : F :=
  if i =? j then fmul a x else x.

Definition scale_vec_by (a : F) (v : list F) : list F :=
  map (fun i => scale_at a i (vnth v i)) (seq 0 (length v)).

(** Column [j] of a feature matrix multiplied by [c]: as a nested list (the
    argument of [fit] and [transform]) and as an array (their result). *)
Definition scale_column (c : F) (X : list (list F)) : list (list F) :=
  map (scale_vec_by c) X.

Definition scale_col (c : F) (M : ndarray F) : ndarray F :=
  tab (nrows M) (ncols M) (fun i k => scale_at c k (at_ M i k)).

(** Row [j] (a feature, once the data is transposed) multiplied by [a]. *)
Definition scale_row_by (a : F) (M : ndarray F) : ndarray F :=
  tab (nrows M) (ncols M) (fun i k => scale_at a i (at_ M i k)).

End Rescaling.

(* ================================================================== *)
(** * Two runs side by side *)

(** [rel P m1 m2 Q]: started in objects related by [P], the two method bodies
    end the same way -- both return, and then [Q] relates the results and the
    objects left behind, or both raise the same exception, or both are still
    running. *)
Section Relational.
Context {F : Type}.
Local Abbreviation state := (self F).
Local Abbreviation Method := (M (F:=F)).

Definition rel {A B : Type} (P : state -> state -> Prop) (m1 : Method A) (m2 : Method B)
    (Q : A -> B -> state -> state -> Prop) : Prop :=
  forall s1 s2, P s1 s2 ->
    match snd (m1 s1), snd (m2 s2) with
    | Ok a, Ok b => Q a b (fst (m1 s1)) (fst (m2 s2))
    | Raise e1, Raise e2 => e1 = e2
    | OutOfFuel, OutOfFuel => True
    | _, _ => False
    end.

(** The same body run twice: equal results, and [P] again. *)
Definition same {A : Type} (P : state -> state -> Prop) (m : Method A) : Prop :=
  rel P m m (fun a b s1 s2 => a = b /\ P s1 s2).

Lemma rel_bind (A1 A2 B1 B2 : Type) (P : state -> state -> Prop)
    (Q : A1 -> A2 -> state -> state -> Prop) (S : B1 -> B2 -> state -> state -> Prop)
    (m1 : Method A1) (m2 : Method A2) (k1 : A1 -> Method B1) (k2 : A2 -> Method B2) :
  rel P m1 m2 Q ->
  (forall a b, rel (Q a b) (k1 a) (k2 b) S) ->
  rel P (bind m1 k1) (bind m2 k2) S.
Proof.
  intros Hm Hk s1 s2 HP. specialize (Hm s1 s2 HP). unfold bind.
  destruct (m1 s1) as [s1' [a | e | ]], (m2 s2) as [s2' [b | e' | ]];
    cbn in *; try contradiction; auto.
  apply (Hk a b s1' s2' Hm).
Qed.

Lemma rel_pure (A B : Type) (phi : Prop) (P : state -> state -> Prop)
    (m1 : Method A) (m2 : Method B) (Q : A -> B -> state -> state -> Prop) :
  (phi -> rel P m1 m2 Q) -> rel (fun s1 s2 => phi /\ P s1 s2) m1 m2 Q.
Proof. intros H s1 s2 [Hphi HP]. apply (H Hphi s1 s2 HP). Qed.

Lemma rel_bind_same (A B1 B2 : Type) (P : state -> state -> Prop)
    (S : B1 -> B2 -> state -> state -> Prop)
    (m : Method A) (k1 : A -> Method B1) (k2 : A -> Method B2) :
  same P m ->
  (forall a, rel P (k1 a) (k2 a) S) ->
  rel P (bind m k1) (bind m k2) S.
Proof.
  intros Hm Hk. apply (rel_bind _ _ _ _ _ _ _ _ _ _ _ Hm).
  intros a b. apply rel_pure. intros <-. apply Hk.
Qed.

Lemma rel_ret (A B : Type) (P : state -> state -> Prop)
    (Q : A -> B -> state -> state -> Prop) (a : A) (b : B) :
  (forall s1 s2, P s1 s2 -> Q a b s1 s2) -> rel P (ret a) (ret b) Q.
Proof. intros H s1 s2 HP. cbn. auto. Qed.

Lemma rel_raise (A B : Type) (P : state -> state -> Prop)
    (Q : A -> B -> state -> state -> Prop) (e : exn) :
  rel P (raise e) (raise e) Q.
Proof. intros s1 s2 _. reflexivity. Qed.

Lemma rel_lift (A B : Type) (f : A -> B) (P : state -> state -> Prop)
    (Q : A -> B -> state -> state -> Prop) (o1 : outcome A) (o2 : outcome B) :
  o2 = omap f o1 ->
  (forall a s1 s2, o1 = Ok a -> P s1 s2 -> Q a (f a) s1 s2) ->
  rel P (lift o1) (lift o2) Q.
Proof.
  intros -> H s1 s2 HP. unfold lift. destruct o1; cbn; auto.
Qed.

Lemma rel_bind_ret (A1 A2 B1 B2 : Type) (P : state -> state -> Prop)
    (S : B1 -> B2 -> state -> state -> Prop) (a : A1) (b : A2)
    (k1 : A1 -> Method B1) (k2 : A2 -> Method B2) :
  rel P (k1 a) (k2 b) S -> rel P (bind (ret a) k1) (bind (ret b) k2) S.
Proof. intros H. exact H. Qed.

Lemma rel_bind_lift (A1 A2 B1 B2 : Type) (f : A1 -> A2) (P : state -> state -> Prop)
    (S : B1 -> B2 -> state -> state -> Prop) (o1 : outcome A1) (o2 : outcome A2)
    (k1 : A1 -> Method B1) (k2 : A2 -> Method B2) :
  o2 = omap f o1 ->
  (forall a, o1 = Ok a -> rel P (k1 a) (k2 (f a)) S) ->
  rel P (bind (lift o1) k1) (bind (lift o2) k2) S.
Proof.
  intros -> H s1 s2 HP. unfold bind, lift. destruct o1 as [a | e | ]; cbn; auto.
  apply (H a eq_refl s1 s2 HP).
Qed.

Lemma rel_bind_lift_same (A B1 B2 : Type) (P : state -> state -> Prop)
    (S : B1 -> B2 -> state -> state -> Prop) (o : outcome A)
    (k1 : A -> Method B1) (k2 : A -> Method B2) :
  (forall a, o = Ok a -> rel P (k1 a) (k2 a) S) ->
  rel P (bind (lift o) k1) (bind (lift o) k2) S.
Proof.
  intros H. apply (rel_bind_lift _ _ _ _ (fun a => a)); [ | exact H].
  now destruct o.
Qed.

Lemma rel_bind_getattr (A B1 B2 : Type) (V : A -> A -> Prop) (P : state -> state -> Prop)
    (S : B1 -> B2 -> state -> state -> Prop) (name : string) (proj : state -> option A)
    (k1 : A -> Method B1) (k2 : A -> Method B2) :
  (forall s1 s2, P s1 s2 ->
     match proj s1, proj s2 with
     | Some a, Some b => V a b
     | None, None => True
     | _, _ => False
     end) ->
  (forall a b, V a b -> rel P (k1 a) (k2 b) S) ->
  rel P (bind (getattr name proj) k1) (bind (getattr name proj) k2) S.
Proof.
  intros HV H s1 s2 HP. specialize (HV s1 s2 HP). unfold bind, getattr.
  destruct (proj s1) as [a | ], (proj s2) as [b | ]; cbn; try contradiction; auto.
  apply (H a b HV s1 s2 HP).
Qed.

Lemma rel_bind_getattr_same (A B1 B2 : Type) (P : state -> state -> Prop)
    (S : B1 -> B2 -> state -> state -> Prop) (name : string) (proj : state -> option A)
    (k1 : A -> Method B1) (k2 : A -> Method B2) :
  (forall s1 s2, P s1 s2 -> proj s1 = proj s2) ->
  (forall a, rel P (k1 a) (k2 a) S) ->
  rel P (bind (getattr name proj) k1) (bind (getattr name proj) k2) S.
Proof.
  intros HV H. apply (rel_bind_getattr _ _ _ eq).
  - intros s1 s2 HP. rewrite (HV s1 s2 HP). now destruct (proj s2).
  - intros a b <-. apply H.
Qed.

Lemma rel_bind_hasattr (A B1 B2 : Type) (P : state -> state -> Prop)
    (S : B1 -> B2 -> state -> state -> Prop) (proj : state -> option A)
    (k1 : bool -> Method B1) (k2 : bool -> Method B2) :
  (forall s1 s2, P s1 s2 -> present (proj s1) = present (proj s2)) ->
  (forall b, rel P (k1 b) (k2 b) S) ->
  rel P (bind (hasattr proj) k1) (bind (hasattr proj) k2) S.
Proof.
  intros HV H s1 s2 HP. specialize (HV s1 s2 HP). unfold bind, hasattr.
  change (match proj s1 with Some _ => true | None => false end) with (present (proj s1)).
  change (match proj s2 with Some _ => true | None => false end) with (present (proj s2)).
  rewrite HV. apply (H _ s1 s2 HP).
Qed.

Lemma rel_setattr (A : Type) (P : state -> state -> Prop)
    (Q : unit -> unit -> state -> state -> Prop)
    (upd : option A -> state -> state) (a b : A) :
  (forall s1 s2, P s1 s2 -> Q tt tt (upd (Some a) s1) (upd (Some b) s2)) ->
  rel P (setattr upd a) (setattr upd b) Q.
Proof. intros H s1 s2 HP. cbn. auto. Qed.

Lemma rel_bind_setattr (A B1 B2 : Type) (P P' : state -> state -> Prop)
    (S : B1 -> B2 -> state -> state -> Prop)
    (upd : option A -> state -> state) (a b : A)
    (k1 : unit -> Method B1) (k2 : unit -> Method B2) :
  (forall s1 s2, P s1 s2 -> P' (upd (Some a) s1) (upd (Some b) s2)) ->
  rel P' (k1 tt) (k2 tt) S ->
  rel P (bind (setattr upd a) k1) (bind (setattr upd b) k2) S.
Proof.
  intros HP' H s1 s2 HP. unfold bind, setattr. apply (H _ _ (HP' s1 s2 HP)).
Qed.

Lemma rel_delattr (A : Type) (P : state -> state -> Prop)
    (Q : unit -> unit -> state -> state -> Prop) (name : string)
    (proj : state -> option A) (upd : option A -> state -> state) :
  (forall s1 s2, P s1 s2 -> present (proj s1) = present (proj s2)) ->
  (forall s1 s2, P s1 s2 -> Q tt tt (upd None s1) (upd None s2)) ->
  rel P (delattr name proj upd) (delattr name proj upd) Q.
Proof.
  intros HV HQ s1 s2 HP. specialize (HV s1 s2 HP). unfold delattr.
  destruct (proj s1), (proj s2); cbn in *; try discriminate; auto.
Qed.

Lemma rel_bind_delattr (A B1 B2 : Type) (P P' : state -> state -> Prop)
    (S : B1 -> B2 -> state -> state -> Prop) (name : string)
    (proj : state -> option A) (upd : option A -> state -> state)
    (k1 : unit -> Method B1) (k2 : unit -> Method B2) :
  (forall s1 s2, P s1 s2 -> present (proj s1) = present (proj s2)) ->
  (forall s1 s2, P s1 s2 -> P' (upd None s1) (upd None s2)) ->
  rel P' (k1 tt) (k2 tt) S ->
  rel P (bind (delattr name proj upd) k1) (bind (delattr name proj upd) k2) S.
Proof.
  intros HV HP' H.
  apply (rel_bind _ _ _ _ _ (fun _ _ => P') _ _ _ _ _
           (rel_delattr _ _ _ _ _ _ HV HP')).
  intros [] []. exact H.
Qed.

Lemma same_ret (A : Type) (P : state -> state -> Prop) (a : A) : same P (ret a).
Proof. apply rel_ret. auto. Qed.

Lemma same_lift (A : Type) (P : state -> state -> Prop) (o : outcome A) : same P (lift o).
Proof. apply (rel_lift _ _ (fun a => a)); [now destruct o | auto]. Qed.

Lemma same_bind (A B : Type) (P : state -> state -> Prop) (m : Method A)
    (k : A -> Method B) :
  same P m -> (forall a, same P (k a)) -> same P (bind m k).
Proof. intros Hm Hk. apply rel_bind_same; assumption. Qed.

Lemma same_for_each (A : Type) (P : state -> state -> Prop) (xs : list A)
    (body : A -> Method unit) :
  (forall x, same P (body x)) -> same P (for_each xs body).
Proof.
  intros H. induction xs as [| x xs IH]; cbn [for_each].
  - apply same_ret.
  - apply same_bind; [apply H | intros _; exact IH].
Qed.

Lemma same_for_fold (A B : Type) (P : state -> state -> Prop) (xs : list A)
    (body : B -> A -> Method B) (acc : B) :
  (forall acc x, same P (body acc x)) -> same P (for_fold xs acc body).
Proof.
  intros H. revert acc. induction xs as [| x xs IH]; intros acc; cbn [for_fold].
  - apply same_ret.
  - apply same_bind; [apply H | intros acc'; apply IH].
Qed.

Lemma same_raise (A : Type) (P : state -> state -> Prop) (e : exn) :
  same P (raise (A:=A) e).
Proof. apply rel_raise. Qed.

Lemma same_getattr (A : Type) (P : state -> state -> Prop) (name : string)
    (proj : state -> option A) :
  (forall s1 s2, P s1 s2 -> proj s1 = proj s2) -> same P (getattr name proj).
Proof.
  intros H s1 s2 HP. unfold getattr. rewrite (H s1 s2 HP).
  destruct (proj s2); cbn; auto.
Qed.

Lemma same_hasattr (A : Type) (P : state -> state -> Prop) (proj : state -> option A) :
  (forall s1 s2, P s1 s2 -> present (proj s1) = present (proj s2)) ->
  same P (hasattr proj).
Proof.
  intros H s1 s2 HP. specialize (H s1 s2 HP). unfold hasattr. cbn.
  split; [exact H | exact HP].
Qed.

Lemma same_setattr (A : Type) (P : state -> state -> Prop)
    (upd : option A -> state -> state) (a : A) :
  (forall s1 s2, P s1 s2 -> P (upd (Some a) s1) (upd (Some a) s2)) ->
  same P (setattr upd a).
Proof. intros H. apply rel_setattr. auto. Qed.

Lemma same_delattr (A : Type) (P : state -> state -> Prop) (name : string)
    (proj : state -> option A) (upd : option A -> state -> state) :
  (forall s1 s2, P s1 s2 -> present (proj s1) = present (proj s2)) ->
  (forall s1 s2, P s1 s2 -> P (upd None s1) (upd None s2)) ->
  same P (delattr name proj upd).
Proof. intros HV H. apply rel_delattr; auto. Qed.

End Relational.

(** The interface operations at [R] are the operations of [R]. *)
Ltac real_ops :=
  cbn [fadd fsub fmul fdiv fsqrt fabs zero one two half of_nat fisfinite fisnan
       Real.Scalar_R] in *.

(* ================================================================== *)
(** * Rescaling one feature, in real arithmetic *)

Section Scaling.
Variable j : nat.
Variable c : R.
Hypothesis c_pos : (0 < c)%R.

Lemma fold_left_Rplus (l : list R) (a : R) :
  fold_left Rplus l a = (a + fold_left Rplus l 0)%R.
Proof.
  revert a. induction l as [| x l IH]; intros a; cbn.
  - ring.
  - rewrite (IH (a + x)%R), (IH (0 + x)%R). ring.
Qed.

Lemma np_sum_cons (x : R) (l : list R) : np_sum (x :: l) = (x + np_sum l)%R.
Proof.
  cbn [np_sum]. real_ops. rewrite fold_left_Rplus. f_equal.
  destruct l as [| y l]; cbn [np_sum fold_left]; real_ops; [reflexivity | ].
  rewrite (fold_left_Rplus l (0 + y)%R), (fold_left_Rplus l y). ring.
Qed.

Lemma np_sum_scale (a : R) (f : nat -> R) (l : list nat) :
  np_sum (map (fun k => a * f k)%R l) = (a * np_sum (map f l))%R.
Proof.
  induction l as [| x l IH].
  - cbn. ring.
  - cbn [map]. rewrite !np_sum_cons, IH. ring.
Qed.

Lemma sum_n_scale (a : R) (n : nat) (f : nat -> R) :
  sum_n n (fun k => a * f k)%R = (a * sum_n n f)%R.
Proof. apply np_sum_scale. Qed.

Lemma at_scale_col (M : ndarray R) (i k : nat) :
  i < nrows M -> k < ncols M ->
  at_ (scale_col j c M) i k = scale_at j c k (at_ M i k).
Proof. intros Hi Hk. unfold scale_col. now rewrite at_tab. Qed.

Lemma at_scale_row_by (a : R) (M : ndarray R) (i k : nat) :
  i < nrows M -> k < ncols M ->
  at_ (scale_row_by j a M) i k = scale_at j a i (at_ M i k).
Proof. intros Hi Hk. unfold scale_row_by. now rewrite at_tab. Qed.

Lemma length_scale_vec_by (a : R) (v : list R) : length (scale_vec_by j a v) = length v.
Proof. unfold scale_vec_by. now rewrite length_map, length_seq. Qed.

Lemma vnth_scale_vec_by (a : R) (v : list R) (i : nat) :
  vnth (scale_vec_by j a v) i = scale_at j a i (vnth v i).
Proof.
  destruct (Nat.lt_ge_cases i (length v)) as [Hi | Hi].
  - unfold scale_vec_by. now rewrite vnth_map_seq.
  - unfold vnth. rewrite !nth_overflow by (try rewrite length_scale_vec_by; lia).
    unfold scale_at. real_ops. destruct (i =? j); [cbn; ring | reflexivity].
Qed.

(** ** Validation *)

Lemma forallb_map_compose (A B : Type) (f : B -> bool) (g : A -> B) (l : list A) :
  forallb f (map g l) = forallb (fun x => f (g x)) l.
Proof. induction l as [| x l IH]; cbn; [reflexivity | now rewrite IH]. Qed.

Lemma forallb_pointwise (A : Type) (f g : A -> bool) (l : list A) :
  (forall x, f x = g x) -> forallb f l = forallb g l.
Proof.
  intros H. induction l as [| x l IH]; cbn; [reflexivity | now rewrite H, IH].
Qed.

Lemma rectangular_scale_column (X : list (list R)) :
  rectangular (scale_column j c X) = rectangular X.
Proof.
  unfold rectangular, scale_column.
  rewrite forallb_map_compose.
  assert (H : length (hd [] (map (scale_vec_by j c) X)) = length (hd [] X)).
  { destruct X; cbn [hd map]; [reflexivity | apply length_scale_vec_by]. }
  rewrite H. apply forallb_pointwise. intros row. now rewrite length_scale_vec_by.
Qed.

Lemma asarray_scale_column (X : list (list R)) :
  asarray zero (scale_column j c X) = scale_col j c (asarray zero X).
Proof.
  unfold asarray, scale_col, scale_column. cbn [nrows ncols tab].
  rewrite length_map.
  replace (length (hd [] (map (scale_vec_by j c) X))) with (length (hd [] X))
    by (destruct X; cbn [hd map]; [reflexivity | now rewrite length_scale_vec_by]).
  apply tab_ext. intros i k Hi Hk.
  rewrite at_tab by assumption.
  rewrite (nth_map_lt _ _ (scale_vec_by j c) X [] []) by exact Hi.
  apply vnth_scale_vec_by.
Qed.

Lemma check_array_scale_column (X : list (list R)) :
  check_array (scale_column j c X) = omap (scale_col j c) (check_array X).
Proof.
  unfold check_array. rewrite rectangular_scale_column.
  destruct (negb (rectangular X)); [reflexivity | ].
  replace (forallb (forallb fisfinite) (scale_column j c X)) with true.
  2:{ symmetry. apply forallb_forall. intros r _. now apply forallb_forall. }
  replace (forallb (forallb fisfinite) X) with true.
  2:{ symmetry. apply forallb_forall. intros r _. now apply forallb_forall. }
  cbn [negb]. unfold scale_column at 1. rewrite length_map.
  destruct (length X =? 0); [reflexivity | ].
  replace (length (hd [] (scale_column j c X))) with (length (hd [] X))
    by (unfold scale_column; destruct X; cbn [hd map];
        [reflexivity | now rewrite length_scale_vec_by]).
  destruct (length (hd [] X) =? 0); [reflexivity | ].
  cbn. now rewrite asarray_scale_column.
Qed.

(** ** Linear algebra on a rescaled feature *)

Lemma scale_at_sum (a : R) (k n : nat) (f : nat -> R) :
  sum_n n (fun q => scale_at j a k (f q)) = scale_at j a k (sum_n n f).
Proof.
  unfold scale_at. real_ops. destruct (k =? j); [apply sum_n_scale | reflexivity].
Qed.

Lemma scale_at_mul_r (a : R) (k : nat) (x y : R) :
  (x * scale_at j a k y)%R = scale_at j a k (x * y)%R.
Proof. unfold scale_at. real_ops. destruct (k =? j); [ring | reflexivity]. Qed.

Lemma scale_at_mul_l (a : R) (k : nat) (x y : R) :
  (scale_at j a k x * y)%R = scale_at j a k (x * y)%R.
Proof. unfold scale_at. real_ops. destruct (k =? j); [ring | reflexivity]. Qed.

Lemma scale_at_sub (a : R) (k : nat) (x y : R) :
  (scale_at j a k x - scale_at j a k y)%R = scale_at j a k (x - y)%R.
Proof. unfold scale_at. real_ops. destruct (k =? j); [ring | reflexivity]. Qed.

Lemma scale_at_add (a : R) (k : nat) (x y : R) :
  (scale_at j a k x + scale_at j a k y)%R = scale_at j a k (x + y)%R.
Proof. unfold scale_at. real_ops. destruct (k =? j); [ring | reflexivity]. Qed.

Lemma scale_at_square (k : nat) (x : R) :
  square (scale_at j c k x) = scale_at j (c * c)%R k (square x).
Proof. unfold scale_at, square. real_ops. destruct (k =? j); [ring | reflexivity]. Qed.

Lemma scale_at_sqrt (k : nat) (x : R) :
  R_sqrt.sqrt (scale_at j (c * c)%R k x) = scale_at j c k (R_sqrt.sqrt x).
Proof.
  unfold scale_at. real_ops. destruct (k =? j); [ | reflexivity].
  rewrite Rmult_assoc, sqrt_mult_alt by lra.
  rewrite <- (sqrt_square c) at 3 by lra.
  rewrite <- sqrt_mult_alt by nra. rewrite <- sqrt_mult_alt by nra.
  f_equal. ring.
Qed.

Lemma scale_at_div (k : nat) (x y : R) :
  (scale_at j c k x / scale_at j c k y)%R = (x / y)%R.
Proof.
  unfold scale_at. real_ops. destruct (k =? j); [ | reflexivity].
  destruct (Req_dec y 0) as [-> | Hy].
  - rewrite Rmult_0_r. unfold Rdiv. rewrite Rinv_0. ring.
  - field. split; [exact Hy | lra].
Qed.

Lemma transpose_scale_col (M : ndarray R) :
  transpose zero (scale_col j c M) = scale_row_by j c (transpose zero M).
Proof.
  unfold transpose, scale_row_by. cbn [nrows ncols scale_col tab].
  apply tab_ext. intros i k Hi Hk.
  change (get zero ?A ?x ?y) with (at_ A x y).
  rewrite at_scale_col by assumption. now rewrite at_tab.
Qed.

Lemma transpose_scale_row (M : ndarray R) :
  transpose zero (scale_row_by j c M) = scale_col j c (transpose zero M).
Proof.
  unfold transpose, scale_col. cbn [nrows ncols scale_row_by tab].
  apply tab_ext. intros i k Hi Hk.
  change (get zero ?A ?x ?y) with (at_ A x y).
  rewrite at_scale_row_by by assumption. now rewrite at_tab.
Qed.

(** [np.dot(A, B)] with column [j] of [B] rescaled. *)
Lemma dot_scale_col (A B : ndarray R) :
  dot A (scale_col j c B) = omap (scale_col j c) (dot A B).
Proof.
  unfold dot. cbn [nrows ncols scale_col tab].
  destruct (Nat.eqb_spec (ncols A) (nrows B)) as [E | _]; [ | reflexivity].
  cbn [omap obind]. f_equal. unfold scale_col at 2. cbn [nrows ncols tab].
  apply tab_ext. intros i k Hi Hk. rewrite at_tab by assumption.
  rewrite <- scale_at_sum. apply sum_n_ext. intros q Hq.
  rewrite at_scale_col by lia. real_ops. apply scale_at_mul_r.
Qed.

Lemma vdot_scale_col (w : list R) (k : nat) (B : ndarray R) :
  vdot w (first_rows k (scale_col j c B))
  = omap (scale_vec_by j c) (vdot w (first_rows k B)).
Proof.
  unfold vdot. cbn [nrows ncols first_rows scale_col tab].
  destruct (length w =? Nat.min k (nrows B)) eqn:E; [ | reflexivity].
  apply Nat.eqb_eq in E.
  cbn [omap obind]. f_equal. unfold scale_vec_by. rewrite length_map, length_seq.
  apply map_seq_ext. intros q Hq. rewrite vnth_map_seq by exact Hq.
  rewrite <- scale_at_sum. apply sum_n_ext. intros i Hi.
  unfold first_rows. rewrite !at_tab by (cbn [nrows ncols scale_col tab]; lia).
  rewrite at_scale_col by lia. real_ops. apply scale_at_mul_r.
Qed.

Lemma bidx_bcast_lt (a b n k : nat) :
  bcast_dim a b = Some n -> k < n -> bidx a k < a /\ bidx b k < b.
Proof.
  unfold bcast_dim, bidx. intros H Hk.
  destruct (Nat.eqb_spec a b), (Nat.eqb_spec a 1), (Nat.eqb_spec b 1);
    try discriminate; injection H as <-; lia.
Qed.

(** Elementwise operations on arrays with the same rows, each row [i]
    being sent through [fa i], [fb i]: the result goes through [fr i]. *)
Lemma ew2_related (op : R -> R -> R) (a : R) (A A' B B' : ndarray R) :
  nrows A' = nrows A -> ncols A' = ncols A ->
  nrows B' = nrows B -> ncols B' = ncols B ->
  nrows A = nrows B ->
  (forall i ka kb, i < nrows A -> ka < ncols A -> kb < ncols B ->
     op (at_ A' i ka) (at_ B' i kb) = scale_at j a i (op (at_ A i ka) (at_ B i kb))) ->
  ew2 op A' B' = omap (scale_row_by j a) (ew2 op A B).
Proof.
  intros HAr HAc HBr HBc Hr Hop. unfold ew2.
  rewrite HAr, HAc, HBr, HBc, <- Hr, bcast_dim_same.
  destruct (bcast_dim (ncols A) (ncols B)) as [n | ] eqn:En; [ | reflexivity].
  cbn [omap obind]. f_equal. unfold scale_row_by. cbn [nrows ncols tab].
  apply tab_ext. intros i k Hi Hk.
  destruct (bidx_bcast_lt _ _ _ k En Hk) as [Ha Hb].
  rewrite at_tab by assumption.
  rewrite !(bidx_lt (nrows A) i) by lia. apply Hop; assumption.
Qed.

Lemma ew2_related_eq (op : R -> R -> R) (A A' B B' : ndarray R) :
  nrows A' = nrows A -> ncols A' = ncols A ->
  nrows B' = nrows B -> ncols B' = ncols B ->
  nrows A = nrows B ->
  (forall i ka kb, i < nrows A -> ka < ncols A -> kb < ncols B ->
     op (at_ A' i ka) (at_ B' i kb) = op (at_ A i ka) (at_ B i kb)) ->
  ew2 op A' B' = ew2 op A B.
Proof.
  intros HAr HAc HBr HBc Hr Hop. unfold ew2.
  rewrite HAr, HAc, HBr, HBc, <- Hr, bcast_dim_same.
  destruct (bcast_dim (ncols A) (ncols B)) as [n | ] eqn:En; [ | reflexivity].
  f_equal. apply tab_ext. intros i k Hi Hk.
  destruct (bidx_bcast_lt _ _ _ k En Hk) as [Ha Hb].
  rewrite !(bidx_lt (nrows A) i) by lia. apply Hop; assumption.
Qed.

Lemma iadd_related (a : R) (A A' B B' : ndarray R) :
  nrows A' = nrows A -> ncols A' = ncols A ->
  nrows B' = nrows B -> ncols B' = ncols B ->
  nrows B = nrows A ->
  (forall i k, i < nrows A -> k < ncols A -> at_ A' i k = scale_at j a i (at_ A i k)) ->
  (forall i k, i < nrows B -> k < ncols B -> at_ B' i k = scale_at j a i (at_ B i k)) ->
  iadd A' B' = omap (scale_row_by j a) (iadd A B).
Proof.
  intros HAr HAc HBr HBc Hr HA HB. unfold iadd.
  rewrite HAr, HAc, HBr, HBc, Hr, Nat.eqb_refl. cbn [orb andb].
  destruct ((ncols B =? ncols A) || (ncols B =? 1)) eqn:Ec; [ | reflexivity].
  cbn [omap obind]. f_equal. unfold scale_row_by. cbn [nrows ncols tab].
  apply tab_ext. intros i k Hi Hk.
  rewrite at_tab by assumption.
  rewrite !(bidx_lt (nrows A) i) by lia.
  assert (Hb : bidx (ncols B) k < ncols B).
  { unfold bidx. apply orb_true_iff in Ec as [E | E]; apply Nat.eqb_eq in E;
      destruct (Nat.eqb_spec (ncols B) 1); lia. }
  rewrite HA, HB by lia. real_ops. apply scale_at_add.
Qed.

(** [np.dot(A', B)] where each row [i] of [A'] is row [i] of [A] rescaled. *)
Lemma dot_related_rows (a : R) (A A' B : ndarray R) :
  nrows A' = nrows A -> ncols A' = ncols A ->
  (forall i k, i < nrows A -> k < ncols A -> at_ A' i k = scale_at j a i (at_ A i k)) ->
  dot A' B = omap (scale_row_by j a) (dot A B).
Proof.
  intros Hr Hc HA. unfold dot. rewrite Hr, Hc.
  destruct (ncols A =? nrows B); [ | reflexivity].
  cbn [omap obind]. f_equal. unfold scale_row_by. cbn [nrows ncols tab].
  apply tab_ext. intros i k Hi Hk. rewrite at_tab by assumption.
  rewrite <- scale_at_sum. apply sum_n_ext. intros q Hq.
  rewrite HA by assumption. real_ops. apply scale_at_mul_l.
Qed.

(** ** The two fitted models *)

(** What relates the estimator fitted on the data to the one fitted on the
    rescaled data: [beta_hat] has its column [j] multiplied by [c],
    [grand_mean] its entry [j], [var_pooled] its row [j] by [c * c]; every
    other attribute is the same.  A flag says whether the attribute has been
    written by the current [fit] yet; [p] is the number of features. *)
Definition opt_rel {A : Type} (flag : bool) (V : A -> A -> Prop) (o1 o2 : option A) : Prop :=
  match o1, o2 with
  | Some a, Some b => flag = true -> V a b
  | None, None => True
  | _, _ => False
  end.

Variable p : nat.

Record rescaled (fb fg fv : bool) (s1 s2 : self R) : Prop := {
  rs_copy : copy s1 = copy s2;
  rs_n_sites : n_sites s1 = n_sites s2;
  rs_sites_names : sites_names s1 = sites_names s2;
  rs_discrete_covariates_used : discrete_covariates_used s1 = discrete_covariates_used s2;
  rs_continuous_covariates_used :
    continuous_covariates_used s1 = continuous_covariates_used s2;
  rs_site_encoder : site_encoder s1 = site_encoder s2;
  rs_discrete_encoders : discrete_encoders s1 = discrete_encoders s2;
  rs_beta_hat :
    opt_rel fb (fun a b => b = scale_col j c a /\ ncols a = p)
      (beta_hat s1) (beta_hat s2);
  rs_grand_mean :
    opt_rel fg (fun a b => b = scale_vec_by j c a /\ length a = p)
      (grand_mean s1) (grand_mean s2);
  rs_var_pooled :
    opt_rel fv (fun a b => b = scale_row_by j (c * c)%R a /\ nrows a = p)
      (var_pooled s1) (var_pooled s2);
  rs_gamma_star : gamma_star s1 = gamma_star s2;
  rs_delta_star : delta_star s1 = delta_star s2
}.

Lemma rescaled_refl (s : self R) : rescaled false false false s s.
Proof.
  constructor; try reflexivity; unfold opt_rel;
    match goal with |- match ?o with _ => _ end => destruct o end;
    try exact I; discriminate.
Qed.

(** The side conditions of the rules: an attribute that is the same in both
    objects, one that is present in both or in neither, and an update that
    keeps the objects related. *)
Ltac rs_same := intros ? ? []; assumption.

Ltac rs_present :=
  let H := fresh in
  intros ? ? H; destruct H;
  repeat match goal with
         | H : opt_rel _ _ ?a ?b |- _ =>
             destruct a, b; cbn in H; try contradiction; clear H
         end;
  cbn; congruence.

Ltac rs_keep :=
  intros ? ? []; constructor; unfold opt_rel; cbn;
  first [ assumption | reflexivity | exact I
        | (intros _; split; [reflexivity | assumption]) ].

(** One statement that is the same in both runs. *)
Ltac same_step :=
  first
    [ apply rel_bind_lift_same; intros ? ?
    | apply rel_bind_getattr_same; [rs_same | intros ?]
    | apply rel_bind_hasattr; [rs_present | intros ?]
    | match goal with
      | |- rel ?P _ _ _ => apply (rel_bind_setattr _ _ _ P P); [rs_keep | ]
      end
    | match goal with
      | |- rel ?P _ _ _ => apply (rel_bind_delattr _ _ _ P P); [rs_present | rs_keep | ]
      end
    | apply rel_bind_ret ].

(** A block of statements that is the same in both runs, by its structure. *)
Ltac same_tac :=
  cbv beta iota zeta;
  lazymatch goal with
  | |- same _ (bind _ _) => apply same_bind; [same_tac | intros ?; same_tac]
  | |- same _ (ret _) => apply same_ret
  | |- same _ (raise _) => apply same_raise
  | |- same _ (lift _) => apply same_lift
  | |- same _ (getattr _ _) => apply same_getattr; rs_same
  | |- same _ (hasattr _) => apply same_hasattr; rs_present
  | |- same _ (setattr _ _) => apply same_setattr; rs_keep
  | |- same _ (delattr _ _ _) => apply same_delattr; [rs_present | rs_keep]
  | |- same _ (for_each _ _) => apply same_for_each; intros ?; same_tac
  | |- same _ (for_fold _ _ _) => apply same_for_fold; intros ? ?; same_tac
  | |- same _ (match ?o with _ => _ end) => destruct o; same_tac
  end.

Lemma reset_same (fb fg fv : bool) : same (rescaled fb fg fv) _reset.
Proof. unfold _reset. same_tac. Qed.

Lemma make_design_matrix_same (fb fg fv : bool) (sites : list Z)
    (dc : option (ndarray Z)) (cc : option (ndarray R)) (fitting : bool) :
  same (rescaled fb fg fv) (_make_design_matrix sites dc cc fitting).
Proof. unfold _make_design_matrix. same_tac. Qed.

Lemma fit_ls_model_same (fb fg fv : bool) (X design : ndarray R)
    (idx_per_site : list (list nat)) :
  same (rescaled fb fg fv) (_fit_ls_model X design idx_per_site).
Proof. unfold _fit_ls_model. same_tac. Qed.

(** ** The array operations on rescaled rows *)

Lemma ew2_scale_rows (op : R -> R -> R) (a : R) (A B : ndarray R) :
  (forall k x y, op (scale_at j a k x) (scale_at j a k y) = scale_at j a k (op x y)) ->
  nrows A = nrows B ->
  ew2 op (scale_row_by j a A) (scale_row_by j a B) = omap (scale_row_by j a) (ew2 op A B).
Proof.
  intros Hop Hr. apply ew2_related; try reflexivity; try assumption.
  intros i ka kb Hi Ha Hb. rewrite !at_scale_row_by by lia. apply Hop.
Qed.

Lemma ew2_div_scale_rows (A B : ndarray R) :
  nrows A = nrows B ->
  ew2 fdiv (scale_row_by j c A) (scale_row_by j c B) = ew2 fdiv A B.
Proof.
  intros Hr. apply ew2_related_eq; try reflexivity; try assumption.
  intros i ka kb Hi Ha Hb. rewrite !at_scale_row_by by lia. real_ops. apply scale_at_div.
Qed.

Lemma ew2_mul_scale_rows_r (A B : ndarray R) :
  nrows A = nrows B ->
  ew2 fmul A (scale_row_by j c B) = omap (scale_row_by j c) (ew2 fmul A B).
Proof.
  intros Hr. apply ew2_related; try reflexivity; try assumption.
  intros i ka kb Hi Ha Hb. rewrite at_scale_row_by by lia. real_ops. apply scale_at_mul_r.
Qed.

Lemma iadd_scale_rows (A B : ndarray R) :
  nrows B = nrows A ->
  iadd (scale_row_by j c A) (scale_row_by j c B) = omap (scale_row_by j c) (iadd A B).
Proof.
  intros Hr. apply iadd_related; try reflexivity; try assumption.
  - intros i k Hi Hk. now apply at_scale_row_by.
  - intros i k Hi Hk. now apply at_scale_row_by.
Qed.

Lemma dot_square_scale_rows (A W : ndarray R) :
  dot (ew1 square (scale_row_by j c A)) W
  = omap (scale_row_by j (c * c)%R) (dot (ew1 square A) W).
Proof.
  apply dot_related_rows; try reflexivity.
  intros i k Hi Hk. cbn [nrows ncols ew1 tab] in Hi, Hk. unfold ew1.
  cbn [nrows ncols scale_row_by tab].
  rewrite !at_tab by assumption. rewrite at_scale_row_by by assumption.
  apply scale_at_square.
Qed.

Lemma dot_sqrt_scale_rows (V W : ndarray R) :
  dot (ew1 fsqrt (scale_row_by j (c * c)%R V)) W
  = omap (scale_row_by j c) (dot (ew1 fsqrt V) W).
Proof.
  apply dot_related_rows; try reflexivity.
  intros i k Hi Hk. cbn [nrows ncols ew1 tab] in Hi, Hk. unfold ew1.
  cbn [nrows ncols scale_row_by tab].
  rewrite !at_tab by assumption. rewrite at_scale_row_by by assumption.
  real_ops. apply scale_at_sqrt.
Qed.

Lemma dot_column_scale_vec (v : list R) (W : ndarray R) :
  dot (column (scale_vec_by j c v)) W = omap (scale_row_by j c) (dot (column v) W).
Proof.
  apply dot_related_rows.
  - cbn [nrows column tab]. apply length_scale_vec_by.
  - reflexivity.
  - intros i k Hi Hk. cbn [nrows ncols column tab] in Hi, Hk. unfold column.
    rewrite length_scale_vec_by. rewrite !at_tab by assumption.
    now apply vnth_scale_vec_by.
Qed.

(** ** The methods on rescaled data *)

(** Reading [beta_hat], [grand_mean] or [var_pooled] once [fit] has written
    them: the second run reads the rescaled value. *)
Ltac rs_get :=
  intros ? ? []; unfold opt_rel in *;
  repeat match goal with |- match ?a with _ => _ end => destruct a end;
  auto; contradiction.

Ltac step := cbv beta iota zeta; same_step; cbv beta iota zeta.

Ltac get_beta_hat beta H :=
  cbv beta iota zeta;
  apply (rel_bind_getattr _ _ _ (fun a b => b = scale_col j c a /\ ncols a = p));
  [rs_get | intros beta ? [-> H]]; cbv beta iota zeta.

Ltac get_grand_mean gm H :=
  cbv beta iota zeta;
  apply (rel_bind_getattr _ _ _ (fun a b => b = scale_vec_by j c a /\ length a = p));
  [rs_get | intros gm ? [-> H]]; cbv beta iota zeta.

Ltac get_var_pooled vp H :=
  cbv beta iota zeta;
  apply (rel_bind_getattr _ _ _ (fun a b => b = scale_row_by j (c * c)%R a /\ nrows a = p));
  [rs_get | intros vp ? [-> H]]; cbv beta iota zeta.

Lemma standardization_model_rescaled (fb fg fv : bool) (D design : ndarray R)
    (n : nat) (nps : list nat) :
  nrows D = p ->
  rel (rescaled fb fg fv)
    (standardization_model D design n nps)
    (standardization_model (scale_row_by j c D) design n nps)
    (fun _ _ => rescaled true true true).
Proof.
  intros HD. unfold standardization_model.
  do 3 step.
  apply (rel_bind_lift _ _ _ _ (scale_col j c)).
  { rewrite transpose_scale_row. apply dot_scale_col. }
  intros B HB. apply dot_Ok_shape in HB as [_ HB].
  cbn [nrows ncols transpose tab] in HB. rewrite HD in HB.
  apply (rel_bind_setattr _ _ _ _ (rescaled true fg fv)); [rs_keep | ].
  get_beta_hat beta Hbeta.
  step.
  apply (rel_bind_lift _ _ _ _ (scale_vec_by j c)); [apply vdot_scale_col | ].
  intros gm Hgm. apply vdot_Ok_length in Hgm.
  cbn [nrows ncols first_rows tab] in Hgm. rewrite Hbeta in Hgm.
  apply (rel_bind_setattr _ _ _ _ (rescaled true true fv)); [rs_keep | ].
  get_beta_hat beta' Hbeta'.
  apply (rel_bind_lift _ _ _ _ (scale_col j c)); [apply dot_scale_col | ].
  intros fitted Hf. apply dot_Ok_shape in Hf as [_ Hf]. rewrite Hbeta' in Hf.
  assert (Hrows : nrows D = nrows (transpose zero fitted)).
  { cbn [nrows transpose tab]. congruence. }
  apply (rel_bind_lift _ _ _ _ (scale_row_by j c)).
  { rewrite transpose_scale_col. apply ew2_scale_rows; [ | exact Hrows].
    intros k x y. real_ops. apply scale_at_sub. }
  intros resid Hresid. apply ew2_Ok_nrows in Hresid; [ | exact Hrows].
  apply (rel_bind_lift _ _ _ _ (scale_row_by j (c * c)%R));
    [apply dot_square_scale_rows | ].
  intros vp Hvp. apply dot_Ok_shape in Hvp as [Hvp _].
  cbn [nrows ew1 tab] in Hvp. rewrite Hresid, HD in Hvp.
  apply rel_setattr. rs_keep.
Qed.

(** What [_standardize_across_features] returns on the rescaled data: the
    same standardized data, and the mean with its row [j] rescaled. *)
Definition standardized_alike (r r' : ndarray R * ndarray R) (s1 s2 : self R) : Prop :=
  fst r' = fst r /\ (snd r' = scale_row_by j c (snd r) /\
  (nrows (fst r) = p /\ (nrows (snd r) = p /\ rescaled true true true s1 s2))).

Lemma standardize_across_features_rescaled (fb fg fv fitting : bool)
    (D design : ndarray R) (n : nat) (nps : list nat) :
  nrows D = p ->
  fitting = true \/ (fb = true /\ fg = true /\ fv = true) ->
  rel (rescaled fb fg fv)
    (_standardize_across_features D design n nps fitting)
    (_standardize_across_features (scale_row_by j c D) design n nps fitting)
    standardized_alike.
Proof.
  intros HD Hf. unfold _standardize_across_features.
  apply (rel_bind _ _ _ _ _ (fun _ _ => rescaled true true true)).
  { destruct Hf as [-> | (-> & -> & ->)].
    - apply standardization_model_rescaled; exact HD.
    - destruct fitting; [apply standardization_model_rescaled; exact HD | ].
      apply rel_ret. auto. }
  intros _ _.
  get_grand_mean gm Hgm.
  apply (rel_bind_lift _ _ _ _ (scale_row_by j c)); [apply dot_column_scale_vec | ].
  intros sm0 Hsm0. apply dot_Ok_shape in Hsm0 as [Hsm0 _].
  cbn [nrows column tab] in Hsm0. rewrite Hgm in Hsm0.
  step.
  get_beta_hat beta Hbeta.
  apply (rel_bind_lift _ _ _ _ (scale_col j c)); [apply dot_scale_col | ].
  intros cp Hcp. apply dot_Ok_shape in Hcp as [_ Hcp]. rewrite Hbeta in Hcp.
  apply (rel_bind_lift _ _ _ _ (scale_row_by j c)).
  { rewrite transpose_scale_col. apply iadd_scale_rows.
    cbn [nrows transpose tab]. congruence. }
  intros sm Hsm. apply iadd_Ok_shape in Hsm as [Hsm _]. rewrite Hsm0 in Hsm.
  apply (rel_bind_lift _ _ _ _ (scale_row_by j c)).
  { apply ew2_scale_rows; [ | congruence].
    intros k x y. real_ops. apply scale_at_sub. }
  intros centered Hc. apply ew2_Ok_nrows in Hc; [ | congruence]. rewrite HD in Hc.
  get_var_pooled vp Hvp.
  apply (rel_bind_lift _ _ _ _ (scale_row_by j c)); [apply dot_sqrt_scale_rows | ].
  intros scale Hscale. apply dot_Ok_shape in Hscale as [Hscale _].
  cbn [nrows ew1 tab] in Hscale. rewrite Hvp in Hscale.
  rewrite ew2_div_scale_rows by congruence.
  apply rel_bind_lift_same.
  intros sd Hsd. apply ew2_Ok_nrows in Hsd; [ | congruence]. rewrite Hc in Hsd.
  apply rel_ret. intros s1 s2 H. unfold standardized_alike. cbn [fst snd]. auto.
Qed.

Lemma adjust_data_final_rescaled (sd design sm : ndarray R) (nps : list nat)
    (n : nat) (idx_per_site : list (list nat)) :
  nrows sd = p -> nrows sm = p ->
  rel (rescaled true true true)
    (_adjust_data_final sd design sm nps n idx_per_site)
    (_adjust_data_final sd design (scale_row_by j c sm) nps n idx_per_site)
    (fun Y Y' _ _ => Y' = scale_row_by j c Y).
Proof.
  intros Hsd Hsm. unfold _adjust_data_final.
  step.
  get_var_pooled vp Hvp.
  do 2 step.
  apply rel_bind_lift_same.
  intros bayes Hb. apply adjust_sites_Ok_shape in Hb as [Hb _]. rewrite Hsd in Hb.
  apply (rel_bind_lift _ _ _ _ (scale_row_by j c)); [apply dot_sqrt_scale_rows | ].
  intros scale Hscale. apply dot_Ok_shape in Hscale as [Hscale _].
  cbn [nrows ew1 tab] in Hscale. rewrite Hvp in Hscale.
  apply (rel_bind_lift _ _ _ _ (scale_row_by j c));
    [apply ew2_mul_scale_rows_r; congruence | ].
  intros scaled Hs. apply ew2_Ok_nrows in Hs; [ | congruence]. rewrite Hb in Hs.
  apply (rel_bind_lift _ _ _ _ (scale_row_by j c)).
  { apply ew2_scale_rows; [ | congruence].
    intros k x y. real_ops. apply scale_at_add. }
  intros Y _. apply rel_ret. reflexivity.
Qed.

Lemma check_array_features (X : list (list R)) (A : ndarray R) :
  check_array X = Ok A -> ncols A = length (hd [] X).
Proof. intros H. apply check_array_Ok_inv in H as (-> & _). reflexivity. Qed.

Lemma check_is_fitted_same (fb fg fv : bool) : same (rescaled fb fg fv) check_is_fitted.
Proof. unfold check_is_fitted. same_tac. Qed.

Lemma transform_rescaled (X : list (list R)) (sites : list Z)
    (dc : option (list (list Z))) (cc : option (list (list R))) :
  length (hd [] X) = p ->
  rel (rescaled true true true)
    (transform X sites dc cc)
    (transform (scale_column j c X) sites dc cc)
    (fun Y Y' _ _ => Y' = scale_col j c Y).
Proof.
  intros HX. unfold transform.
  apply rel_bind_same; [apply check_is_fitted_same | intros _].
  apply (rel_bind_lift _ _ _ _ (scale_col j c)); [apply check_array_scale_column | ].
  intros A HA. apply check_array_features in HA. rewrite HX in HA.
  step.
  change (nrows (scale_col j c A)) with (nrows A).
  do 2 step.
  apply rel_bind_same; [same_tac | intros dc'].
  step.
  apply rel_bind_same; [same_tac | intros cc'].
  step.
  match goal with |- context [if ?b then _ else _] => destruct b end;
    [apply rel_raise | ].
  step.
  apply rel_bind_same; [apply make_design_matrix_same | intros design].
  rewrite transpose_scale_col.
  eapply rel_bind.
  { apply standardize_across_features_rescaled; [ | right; auto].
    cbn [nrows transpose tab]. exact HA. }
  intros [sd sm] [sd' sm']. unfold standardized_alike. cbn [fst snd].
  apply rel_pure. intros ->. apply rel_pure. intros ->.
  apply rel_pure. intros Hsd. apply rel_pure. intros Hsm.
  eapply rel_bind; [apply adjust_data_final_rescaled; assumption | ].
  intros Y Y'. cbv beta. apply rel_ret. intros s1 s2 ->. apply transpose_scale_row.
Qed.

Lemma fit_rescaled (fb fg fv : bool) (fuel : nat) (X : list (list R)) (sites : list Z)
    (dc : option (list (list Z))) (cc : option (list (list R))) :
  length (hd [] X) = p ->
  rel (rescaled fb fg fv)
    (fit fuel X sites dc cc)
    (fit fuel (scale_column j c X) sites dc cc)
    (fun _ _ => rescaled true true true).
Proof.
  intros HX. unfold fit.
  apply rel_bind_same; [apply reset_same | intros _].
  apply (rel_bind_lift _ _ _ _ (scale_col j c)); [apply check_array_scale_column | ].
  intros A HA. apply check_array_features in HA. rewrite HX in HA.
  step.
  change (nrows (scale_col j c A)) with (nrows A).
  step.
  apply rel_bind_same; [same_tac | intros dc'].
  apply rel_bind_same; [same_tac | intros cc'].
  unfold np_unique_counts.
  do 2 step.
  apply rel_bind_same; [apply make_design_matrix_same | intros design].
  rewrite transpose_scale_col.
  eapply rel_bind.
  { apply standardize_across_features_rescaled; [ | left; reflexivity].
    cbn [nrows transpose tab]. exact HA. }
  intros [sd sm] [sd' sm']. unfold standardized_alike. cbn [fst snd].
  apply rel_pure. intros ->. apply rel_pure. intros _.
  apply rel_pure. intros _. apply rel_pure. intros _.
  apply rel_bind_same; [apply fit_ls_model_same | intros [gamma_hat delta_hat]].
  destruct (_find_priors gamma_hat delta_hat) as [[[gamma_bar tau_2] a_prior] b_prior].
  cbv beta iota zeta. apply rel_bind_lift_same. intros [gamma_star delta_star] _.
  do 2 step.
  apply rel_ret. auto.
Qed.

End Scaling.

(** C9 (amended).  Harmonization commutes with rescaling a feature, in exact
    arithmetic: fitting on data whose column [j] is multiplied by [c > 0] and
    transforming data rescaled in the same way ends as the run on the original
    data does, and when that one returns the harmonized array, this one returns
    it with column [j] multiplied by [c] and every other column as it was.
    Sites and covariates are the same in both runs; the two feature matrices
    have the same number of features.  With the batch equal to the data this is
    [fit] followed by [transform] on one matrix. *)
Theorem rescaling_a_feature_rescales_its_harmonized_values
    (fuel : nat) (s : self R) (j : nat) (c : R)
    (data : list (list R)) (sites : list Z)
    (dc : option (list (list Z))) (cc : option (list (list R)))
    (batch : list (list R)) (batch_sites : list Z)
    (batch_dc : option (list (list Z))) (batch_cc : option (list (list R))) :
  (0 < c)%R ->
  length (hd [] data) = length (hd [] batch) ->
  snd ((fit fuel (scale_column j c data) sites dc cc ;;
        transform (scale_column j c batch) batch_sites batch_dc batch_cc) s)
  = omap (scale_col j c)
      (snd ((fit fuel data sites dc cc ;; transform batch batch_sites batch_dc batch_cc) s)).
Proof.
  intros Hc HX.
  pose proof (rel_bind _ _ _ _ _ _ _ _ _ _ _
                (fit_rescaled j c Hc (length (hd [] data)) false false false
                   fuel data sites dc cc eq_refl)
                (fun _ _ => transform_rescaled j c Hc (length (hd [] data))
                   batch batch_sites batch_dc batch_cc (eq_sym HX))
                s s (rescaled_refl j c _ s)) as H.
  cbv beta in H.
  destruct (snd ((fit fuel data sites dc cc ;; transform batch batch_sites batch_dc batch_cc) s)),
           (snd ((fit fuel (scale_column j c data) sites dc cc ;;
                  transform (scale_column j c batch) batch_sites batch_dc batch_cc) s));
    cbn [omap obind]; try contradiction; congruence.
Qed.

Module RealExample.

Definition data : list (list R) := [[1; 2]; [3; 6]; [5; 7]; [4; 9]]%R.

Definition sites : list Z := [1; 1; 2; 2]%Z.

End RealExample.

(** C9, witness: feature 0 of the four-sample data set doubled. *)
Lemma rescaling_a_feature_rescales_its_harmonized_values_witness :
  (0 < 2)%R /\
  snd ((fit 100 (scale_column 0 2%R RealExample.data) RealExample.sites None None ;;
        transform (scale_column 0 2%R RealExample.data) RealExample.sites None None)
         (__init__ R true))
  = omap (scale_col 0 2%R)
      (snd ((fit 100 RealExample.data RealExample.sites None None ;;
             transform RealExample.data RealExample.sites None None)
              (__init__ R true))).
Proof.
  split; [lra | ].
  apply (rescaling_a_feature_rescales_its_harmonized_values 100 (__init__ R true) 0 2%R
           RealExample.data RealExample.sites None None
           RealExample.data RealExample.sites None None).
  - lra.
  - reflexivity.
Defined.

(** The four-sample data set again, in binary64: the run of [fit] followed by
    [transform], and a constant large enough for the products to overflow. *)
Module RoundingExample.

Definition huge : float := 0x1p1023%float.

Definition harmonize (X : list (list float)) : outcome (ndarray float) :=
  snd ((fit 100 X Example.sites None None ;; transform X Example.sites None None)
         Example.unfitted).

End RoundingExample.

(** C9, in binary64 the equality is not exact.  With feature 0 of the
    four-sample data set multiplied by 3 (every product is exact), the
    harmonized value of the third sample (11.799728979374807) is one unit in
    the last place away from 3 times the value harmonized from the original
    data (11.799728979374809).  And the
    rescaled data must still be finite: with the feature multiplied by
    [2^1023] three of the products overflow to infinity, and [fit] rejects the
    data at [check_array], while the original data are harmonized. *)
Lemma rescaled_output_differs_in_binary64 :
  (exists Y Y3,
     RoundingExample.harmonize Example.data = Ok Y /\
     RoundingExample.harmonize (scale_column 0 3%float Example.data) = Ok Y3 /\
     at_ (scale_col 0 3%float Y) 2 0 = 0x1.7997613a82812p+3%float /\
     at_ Y3 2 0 = 0x1.7997613a82811p+3%float /\
     PrimFloat.eqb (at_ Y3 2 0) (at_ (scale_col 0 3%float Y) 2 0) = false) /\
  scale_column 0 RoundingExample.huge Example.data
  = [[0x1p1023; 2]; [infinity; 6]; [infinity; 7]; [infinity; 9]]%float /\
  RoundingExample.harmonize (scale_column 0 RoundingExample.huge Example.data)
  = Raise (ValueError
             "Input contains NaN, infinity or a value too large for dtype('float64').").
Proof.
  split; [ | split].
  - eexists. eexists. split; [vm_compute; reflexivity | ].
    split; [vm_compute; reflexivity | ].
    repeat split; vm_compute; reflexivity.
  - vm_compute. reflexivity.
  - vm_compute. reflexivity.
Qed.

(* ================================================================== *)
(** * The harmonized values *)

Section HarmonizedValues.
Context {F : Type} {SF : Scalar F}.

(** Entry [(k, i)] of [np.dot(design, B)]: the effect of row [k] of a design
    matrix on feature [i]. *)
Definition design_effect (design B : ndarray F) (k i : nat) : F :=
  sum_n (ncols design) (fun m => fmul (at_ design k m) (at_ B m i)).

(** ** Writing the columns of one site *)

Lemma last_pos_not_In (j : nat) (idx : list nat) (k0 : nat) :
  ~ In j idx -> last_pos j idx k0 = None.
Proof.
  revert k0. induction idx as [| x idx IH]; intros k0 H; cbn [last_pos].
  - reflexivity.
  - rewrite IH by (intros Hin; apply H; now right).
    destruct (Nat.eqb_spec x j) as [-> | _]; [ | reflexivity].
    exfalso. apply H. now left.
Qed.

Lemma last_pos_In (j : nat) (idx : list nat) (k0 : nat) :
  In j idx ->
  exists q, last_pos j idx k0 = Some (k0 + q) /\ q < length idx /\ nth q idx 0 = j.
Proof.
  revert k0. induction idx as [| x idx IH]; intros k0 H; [contradiction | ].
  cbn [last_pos].
  destruct (in_dec Nat.eq_dec j idx) as [Hin | Hnin].
  - destruct (IH (S k0) Hin) as (q & E & Hq & Hn). rewrite E.
    exists (S q). split; [f_equal; lia | ]. split; [cbn; lia | exact Hn].
  - rewrite (last_pos_not_In j idx (S k0) Hnin).
    destruct H as [-> | H]; [ | contradiction].
    rewrite Nat.eqb_refl. exists 0. split; [f_equal; lia | ]. split; [cbn; lia | reflexivity].
Qed.

(** [M[:, idx] = V] for a [V] of the shape of [M[:, idx]]: a column listed
    in [idx] is taken from [V], the others stay. *)
Lemma set_cols_values (M V : ndarray F) (idx : list nat) :
  (forall k, In k idx -> k < ncols M) ->
  nrows V = nrows M -> ncols V = length idx ->
  exists R,
    set_cols M idx V = Ok R /\ nrows R = nrows M /\ ncols R = ncols M /\
    forall i k, i < nrows M -> k < ncols M ->
      (~ In k idx -> at_ R i k = at_ M i k) /\
      (In k idx -> exists q, q < length idx /\ nth q idx 0 = k /\ at_ R i k = at_ V i q).
Proof.
  intros Hidx Hr Hc. unfold set_cols.
  replace (forallb (fun k => k <? ncols M) idx) with true.
  2:{ symmetry. apply forallb_forall. intros k Hk. apply Nat.ltb_lt, Hidx, Hk. }
  rewrite Hr, Hc, !Nat.eqb_refl. cbn [negb orb andb].
  eexists. split; [reflexivity | ]. cbn [nrows ncols tab].
  split; [reflexivity | split; [reflexivity | ]].
  intros i k Hi Hk. rewrite at_tab by assumption. split.
  - intros Hn. now rewrite last_pos_not_In.
  - intros Hin. destruct (last_pos_In k idx 0 Hin) as (q & E & Hq & Hn).
    rewrite E. cbn [Nat.add]. exists q. split; [exact Hq | split; [exact Hn | ]].
    rewrite !bidx_lt by lia. reflexivity.
Qed.

(** One round of the adjustment loop: the columns of the site get
    [(x - design_effect) / sqrt(delta_star[j])], the others stay. *)
Lemma adjust_site_values (site_design G D : ndarray F) (nps : list nat)
    (bayes : ndarray F) (j : nat) (idx : list nat) (p n k : nat) :
  nrows site_design = n -> ncols site_design = k ->
  nrows G = k -> ncols G = p -> nrows D = k -> ncols D = p ->
  nrows bayes = p -> ncols bayes = n ->
  j < k -> j < length nps -> nth j nps 0 = length idx ->
  (forall i, In i idx -> i < n) ->
  exists R,
    adjust_site site_design G D nps bayes j idx = Ok R /\
    nrows R = p /\ ncols R = n /\
    forall i c, i < p -> c < n ->
      (~ In c idx -> at_ R i c = at_ bayes i c) /\
      (In c idx ->
       at_ R i c = fdiv (fsub (at_ bayes i c) (design_effect site_design G c i))
                        (fsqrt (at_ D j i))).
Proof.
  intros Hsr Hsc HGr HGc HDr HDc Hbr Hbc Hj Hjn Hnj Hidx.
  unfold adjust_site.
  rewrite (index_lt _ (rows_of zero D) j []) by (rewrite length_rows_of; lia).
  cbn [obind].
  rewrite (index_lt _ nps j 0) by exact Hjn. cbn [obind].
  rewrite dot_column_ones. cbn [obind].
  rewrite take_cols_in_range by (intros i Hi; rewrite Hbc; now apply Hidx).
  cbn [obind].
  unfold take_rows.
  replace (forallb (fun i => i <? nrows site_design) idx) with true.
  2:{ symmetry. apply forallb_forall. intros i Hi. apply Nat.ltb_lt. rewrite Hsr.
      now apply Hidx. }
  cbn [obind]. unfold dot at 1. cbn [nrows ncols tab]. rewrite Hsc, HGr, Nat.eqb_refl.
  cbn [obind].
  rewrite ew2_same_shape by (cbn [nrows ncols transpose tab]; lia). cbn [obind].
  rewrite nth_rows_of by lia.
  rewrite ew2_same_shape
    by (cbn [nrows ncols transpose tab]; rewrite ?length_map, ?length_row_of; lia).
  cbn [obind nrows ncols tab].
  match goal with
  | |- context [set_cols bayes idx ?V] =>
      destruct (set_cols_values bayes V idx) as (R & ER & HRr & HRc & HR)
  end.
  { intros i Hi. rewrite Hbc. now apply Hidx. }
  { cbn [nrows tab]. lia. }
  { reflexivity. }
  exists R. split; [exact ER | ]. split; [lia | split; [lia | ]].
  intros i c Hi Hc. destruct (HR i c ltac:(lia) ltac:(lia)) as [Hout Hin].
  split; [exact Hout | ].
  intros Hcin. destruct (Hin Hcin) as (q & Hq & Hn & E). rewrite E.
  rewrite at_tab by lia. rewrite !at_tab by (cbn [nrows ncols transpose tab]; lia).
  unfold transpose. cbn [nrows ncols tab].
  change (get zero ?A ?x ?y) with (at_ A x y).
  rewrite !at_tab by lia. rewrite Hn.
  rewrite at_tab by (rewrite ?length_map, ?length_row_of; lia).
  rewrite vnth_map by (rewrite length_row_of; lia).
  unfold row_of at 1. rewrite vnth_map_seq by lia.
  change (get zero D j i) with (at_ D j i).
  f_equal. f_equal. unfold design_effect. rewrite Hsc. apply sum_n_ext.
  intros m Hm. rewrite at_tab by lia. now rewrite Hn.
Qed.


Lemma NoDup_app_disjoint (A : Type) (l1 l2 : list A) (a : A) :
  NoDup (l1 ++ l2) -> In a l1 -> ~ In a l2.
Proof.
  induction l1 as [| x l1 IH]; intros H Hin; [contradiction | ].
  cbn in H. apply NoDup_cons_iff in H as [Hx H].
  destruct Hin as [-> | Hin].
  - intros H2. apply Hx, in_or_app. now right.
  - now apply IH.
Qed.

Lemma In_concat_snd (A B : Type) (l : list (A * list B)) (j : A) (idx : list B) (c : B) :
  In (j, idx) l -> In c idx -> In c (concat (map snd l)).
Proof.
  intros Hl Hc. apply in_concat. exists idx. split; [ | exact Hc].
  apply in_map_iff. exists (j, idx). auto.
Qed.

(** The whole adjustment loop, when no column is listed for two sites: each
    column listed for a site gets that site's adjustment of its original
    value, once. *)
Lemma adjust_sites_values (site_design G D : ndarray F) (nps : list nat)
    (p n k : nat) (l : list (nat * list nat)) :
  nrows site_design = n -> ncols site_design = k ->
  nrows G = k -> ncols G = p -> nrows D = k -> ncols D = p ->
  (forall j idx, In (j, idx) l ->
     j < k /\ j < length nps /\ nth j nps 0 = length idx /\
     forall i, In i idx -> i < n) ->
  NoDup (concat (map snd l)) ->
  forall bayes, nrows bayes = p -> ncols bayes = n ->
  exists R,
    adjust_sites site_design G D nps bayes l = Ok R /\
    nrows R = p /\ ncols R = n /\
    forall i c, i < p -> c < n ->
      ((forall j idx, In (j, idx) l -> ~ In c idx) -> at_ R i c = at_ bayes i c) /\
      (forall j idx, In (j, idx) l -> In c idx ->
       at_ R i c = fdiv (fsub (at_ bayes i c) (design_effect site_design G c i))
                        (fsqrt (at_ D j i))).
Proof.
  intros Hsr Hsc HGr HGc HDr HDc.
  induction l as [| [j idx] l IH]; intros Hl Hnd bayes Hbr Hbc; cbn [adjust_sites].
  - exists bayes. split; [reflexivity | ]. split; [exact Hbr | split; [exact Hbc | ]].
    intros i c Hi Hc. split; [reflexivity | intros j idx []].
  - cbn [map snd concat] in Hnd.
    destruct (Hl j idx (or_introl eq_refl)) as (Hj & Hjn & Hnj & Hidx).
    destruct (adjust_site_values site_design G D nps bayes j idx p n k)
      as (bayes' & E & Hr' & Hc' & Hv); try assumption.
    rewrite E. cbn [obind].
    destruct (IH (fun j' idx' Hin => Hl j' idx' (or_intror Hin))
                (NoDup_app_remove_l _ _ Hnd) bayes' Hr' Hc')
      as (R & ER & HRr & HRc & HR).
    exists R. split; [exact ER | ]. split; [exact HRr | split; [exact HRc | ]].
    intros i c Hi Hc. destruct (HR i c Hi Hc) as [Hout Hin].
    destruct (Hv i c Hi Hc) as [Hvout Hvin]. split.
    + intros Hnone. rewrite Hout by (intros j' idx' H'; apply (Hnone j' idx'); now right).
      apply Hvout. apply (Hnone j idx). now left.
    + intros j' idx' [Eq | Hin'] Hcin.
      * injection Eq as <- <-.
        rewrite Hout; [now apply Hvin | ].
        intros j2 idx2 H2 Hc2.
        exact (NoDup_app_disjoint _ _ _ c Hnd Hcin (In_concat_snd _ _ _ _ _ _ H2 Hc2)).
      * rewrite (Hin j' idx' Hin' Hcin). rewrite (proj1 (Hv i c Hi Hc)); [reflexivity | ].
        intros Hc2.
        exact (NoDup_app_disjoint _ _ _ c Hnd Hc2 (In_concat_snd _ _ _ _ _ _ Hin' Hcin)).
Qed.


(** ** The positions of the sites *)

Lemma In_np_where_eq (sites : list Z) (x : Z) (c : nat) :
  In c (np_where_eq sites x) <-> c < length sites /\ nth c sites 0%Z = x.
Proof.
  unfold np_where_eq. rewrite filter_In, in_seq, Z.eqb_eq. intuition lia.
Qed.

Lemma map_snd_enumerate (A : Type) (xs : list A) : map snd (enumerate xs) = xs.
Proof.
  unfold enumerate. generalize 0. induction xs as [| x xs IH]; intros a; cbn.
  - reflexivity.
  - now rewrite IH.
Qed.

Lemma enumerate_In (A : Type) (xs : list A) (j : nat) (x : A) :
  nth_error xs j = Some x -> In (j, x) (enumerate xs).
Proof.
  unfold enumerate. intros H.
  assert (G : forall (a : nat) (ys : list A) (q : nat),
             nth_error ys q = Some x -> In (a + q, x) (combine (seq a (length ys)) ys)).
  { intros a ys. revert a. induction ys as [| y ys IHy]; intros a [| q] Hq; cbn in *;
      try discriminate.
    - injection Hq as ->. left. f_equal. lia.
    - right. replace (a + S q) with (S a + q) by lia. now apply IHy. }
  exact (G 0 xs j H).
Qed.

(** The positions of distinct labels do not overlap. *)
Lemma NoDup_positions (sites names : list Z) :
  NoDup names -> NoDup (concat (map (np_where_eq sites) names)).
Proof.
  induction 1 as [| x names Hx Hnd IH]; cbn [map concat]; [constructor | ].
  apply NoDup_app.
  - unfold np_where_eq. apply NoDup_filter, seq_NoDup.
  - exact IH.
  - intros c Hc Hc'. apply In_np_where_eq in Hc as [_ Hc].
    apply in_concat in Hc' as (l & Hl & Hcl).
    apply in_map_iff in Hl as (y & <- & Hy).
    apply In_np_where_eq in Hcl as [_ Hcl]. congruence.
Qed.

(** ** The steps of [transform], value by value *)

Lemma standardize_transform_values (s : self F) (names : list Z) (p w n : nat)
    (data design : ndarray F) (nps : list nat)
    (B : ndarray F) (gm : list F) (vp : ndarray F) :
  fitted_model s names p w ->
  beta_hat s = Some B -> grand_mean s = Some gm -> var_pooled s = Some vp ->
  nrows data = p -> ncols data = n -> nrows design = n -> ncols design = w ->
  exists std mean,
    _standardize_across_features data design n nps false s = (s, Ok (std, mean)) /\
    (nrows std = p /\ ncols std = n) /\ (nrows mean = p /\ ncols mean = n) /\
    forall i k, i < p -> k < n ->
      at_ mean i k
      = fadd (vnth gm i) (design_effect (zero_first_cols (length names) design) B k i) /\
      at_ std i k = fdiv (fsub (at_ data i k) (at_ mean i k)) (fsqrt (at_ vp i 0)).
Proof.
  intros [Hns _ (B' & HB' & HBr & HBc) (gm' & Hgm' & Hlg) (vp' & Hvp' & Hvr & Hvc) _ _ _]
         HB Hgm Hvp Hdr Hdc Hgr Hgc.
  assert (B' = B) by congruence. assert (gm' = gm) by congruence.
  assert (vp' = vp) by congruence. subst B' gm' vp'.
  unfold _standardize_across_features.
  rewrite bind_ret.
  rewrite (bind_getattr _ _ _ _ _ _ _ Hgm).
  rewrite dot_column_ones, bind_lift_Ok.
  rewrite (bind_getattr _ _ _ _ _ _ _ Hns).
  rewrite (bind_getattr _ _ _ _ _ _ _ HB).
  destruct (shaped_dot (zero_first_cols (length names) design) B)
    as (cov & Ecov & Hcr & Hcc).
  { cbn [ncols zero_first_cols tab]. lia. }
  rewrite Ecov, bind_lift_Ok. apply dot_Ok_inv in Ecov as [_ Ecov].
  destruct (shaped_iadd (tab (length gm) n (fun i _ => vnth gm i)) (transpose zero cov))
    as (mean & Emean & Hmr & Hmc).
  { cbn [nrows ncols transpose tab zero_first_cols] in *. lia. }
  { cbn [nrows ncols transpose tab zero_first_cols] in *. lia. }
  rewrite Emean, bind_lift_Ok. apply iadd_Ok_inv in Emean.
  cbn [nrows ncols tab] in Hmr, Hmc.
  rewrite (ew2_same_shape fsub data mean) by lia. rewrite bind_lift_Ok.
  rewrite (bind_getattr _ _ _ _ _ _ _ Hvp).
  rewrite dot_sqrt_ones by exact Hvc. rewrite bind_lift_Ok.
  rewrite ew2_same_shape by (cbn [nrows ncols tab]; lia). rewrite bind_lift_Ok.
  eexists. exists mean. split; [reflexivity | ]. cbn [nrows ncols tab].
  split; [split; lia | ]. split; [split; lia | ].
  intros i k Hi Hk. split.
  - rewrite Emean. cbn [nrows ncols transpose tab zero_first_cols] in *.
    rewrite at_tab by lia. rewrite at_tab by lia.
    rewrite !bidx_lt by lia.
    unfold transpose. cbn [nrows ncols tab].
    change (get zero ?A ?x ?y) with (at_ A x y).
    rewrite at_tab by lia. rewrite Ecov. cbn [nrows ncols zero_first_cols tab].
    rewrite at_tab by lia. reflexivity.
  - rewrite at_tab by lia. rewrite at_tab by lia. rewrite (at_tab _ _ _ i k) by lia.
    reflexivity.
Qed.


Lemma adjust_data_final_values (s : self F) (names : list Z) (p w n : nat)
    (std design mean : ndarray F) (sites : list Z)
    (vp G D : ndarray F) :
  fitted_model s names p w ->
  NoDup names ->
  var_pooled s = Some vp -> gamma_star s = Some G -> delta_star s = Some D ->
  nrows std = p -> ncols std = n -> nrows mean = p -> ncols mean = n ->
  nrows design = n -> ncols design = w -> length sites = n ->
  exists Y,
    _adjust_data_final std design mean (map (count_eq sites) names) n
      (map (np_where_eq sites) names) s = (s, Ok Y) /\
    nrows Y = p /\ ncols Y = n /\
    forall i k j, i < p -> k < n -> j < length names ->
      nth k sites 0%Z = nth j names 0%Z ->
      at_ Y i k
      = fadd (fmul (fdiv (fsub (at_ std i k)
                            (design_effect (first_cols (length names) design) G k i))
                         (fsqrt (at_ D j i)))
                   (fsqrt (at_ vp i 0)))
             (at_ mean i k).
Proof.
  intros [Hns _ _ _ (vp' & Hvp' & Hvr & Hvc) (G' & HG' & HGr & HGc)
            (D' & HD' & HDr & HDc) Hw]
         Hnd Hvp HG HD Hsr Hsc Hmr Hmc Hdr Hdc Hls.
  assert (vp' = vp) by congruence. assert (G' = G) by congruence.
  assert (D' = D) by congruence. subst vp' G' D'.
  unfold _adjust_data_final.
  rewrite (bind_getattr _ _ _ _ _ _ _ Hns).
  rewrite (bind_getattr _ _ _ _ _ _ _ Hvp).
  rewrite (bind_getattr _ _ _ _ _ _ _ HG).
  rewrite (bind_getattr _ _ _ _ _ _ _ HD).
  destruct (adjust_sites_values (first_cols (length names) design) G D
              (map (count_eq sites) names) p n (length names)
              (enumerate (map (np_where_eq sites) names)))
    with (bayes := std)
    as (bayes & Eb & Hbr & Hbc & Hb); try assumption.
  { cbn [ncols first_cols tab]. lia. }
  { intros j idx Hin. apply In_enumerate in Hin as (Hj & Hnth).
    rewrite length_map in Hj.
    rewrite nth_error_map in Hnth.
    destruct (nth_error names j) as [x | ] eqn:Ex; [ | discriminate].
    cbn in Hnth. injection Hnth as <-.
    split; [exact Hj | ]. split; [rewrite length_map; exact Hj | ]. split.
    - rewrite (nth_map_lt _ _ (count_eq sites) names 0%Z 0) by exact Hj.
      rewrite (nth_error_nth _ _ 0%Z Ex). symmetry. apply length_np_where_eq.
    - intros i Hi. rewrite <- Hls. eapply np_where_eq_in_range, Hi. }
  { rewrite map_snd_enumerate. now apply NoDup_positions. }
  rewrite Eb, bind_lift_Ok.
  rewrite dot_sqrt_ones by exact Hvc. rewrite bind_lift_Ok.
  rewrite ew2_same_shape by (cbn [nrows ncols tab]; lia). rewrite bind_lift_Ok.
  rewrite ew2_same_shape by (cbn [nrows ncols tab]; lia). rewrite bind_lift_Ok.
  eexists. split; [reflexivity | ]. cbn [nrows ncols tab].
  split; [lia | split; [lia | ]].
  intros i k j Hi Hk Hj Hsite.
  rewrite at_tab by lia. rewrite at_tab by lia. rewrite (at_tab _ _ _ i k) by lia.
  f_equal. f_equal.
  apply (proj2 (Hb i k Hi Hk) j (np_where_eq sites (nth j names 0%Z))).
  - apply enumerate_In. rewrite nth_error_map.
    rewrite (nth_error_nth' names 0%Z Hj). reflexivity.
  - apply In_np_where_eq. split; [lia | exact Hsite].
Qed.


(** ** [transform] *)

(** What [transform] computes for sample [k] (of site number [j]) and
    feature [i], from the stored parameters, the design matrix of the batch
    and the batch [X]: the value is standardized with the stored mean and
    pooled variance, the site's location [gamma_star] (picked by the site
    indicators of the design row) and scale [delta_star] are removed, and the
    mean and pooled variance are put back. *)
Definition harmonized_value (n_sites : nat) (B : ndarray F) (gm : list F)
    (vp G D design X : ndarray F) (j k i : nat) : F :=
  let mean := fadd (vnth gm i) (design_effect (zero_first_cols n_sites design) B k i) in
  let standardized := fdiv (fsub (at_ X k i) mean) (fsqrt (at_ vp i 0)) in
  let adjusted :=
    fdiv (fsub standardized (design_effect (first_cols n_sites design) G k i))
         (fsqrt (at_ D j i)) in
  fadd (fmul adjusted (fsqrt (at_ vp i 0))) mean.

Lemma transform_values (s : self F) (names : list Z) (p w : nat)
    (data : list (list F)) (sites : list Z)
    (dc : option (list (list Z))) (cc : option (list (list F)))
    (X : ndarray F) (dc' : option (ndarray Z)) (cc' : option (ndarray F))
    (design B : ndarray F) (gm : list F) (vp G D : ndarray F) :
  fitted_model s names p w ->
  NoDup names ->
  beta_hat s = Some B -> grand_mean s = Some gm -> var_pooled s = Some vp ->
  gamma_star s = Some G -> delta_star s = Some D ->
  check_array data = Ok X ->
  ncols X = p ->
  length sites = nrows X ->
  (forall x, In x sites -> In x names) ->
  discrete_validated s dc dc' ->
  continuous_validated s cc cc' ->
  snd (_make_design_matrix sites dc' cc' false s) = Ok design ->
  nrows design = nrows X ->
  ncols design = w ->
  exists Y,
    transform data sites dc cc s = (s, Ok Y) /\
    forall k i j, k < nrows X -> i < p -> j < length names ->
      nth k sites 0%Z = nth j names 0%Z ->
      at_ Y k i = harmonized_value (length names) B gm vp G D design X j k i.
Proof.
  intros Hfm Hnd HB Hgm Hvp HG HD HX Hp Hls Hseen Hdv Hcv Hdesign Hdr Hdc.
  pose proof Hfm as [Hk Hnames _ _ _ _ _ _].
  apply check_array_Ok_inv in HX as HXi. destruct HXi as (_ & HXr & HXc & HXl).
  unfold transform.
  rewrite (bind_Ok _ _ _ _ s s tt) by (unfold check_is_fitted, bind, hasattr; now rewrite Hk).
  rewrite HX, bind_lift_Ok.
  rewrite check_array_sites_Ok by (destruct sites; [cbn in Hls; lia | discriminate]).
  rewrite bind_lift_Ok.
  unfold check_consistent_length. rewrite Hls, Nat.eqb_refl, bind_lift_Ok.
  rewrite bind_hasattr.
  assert (Edc : (if present (discrete_covariates_used s)
                 then match dc with
                      | Some d => bind (lift (check_array_categorical d))
                                    (fun d0 => ret (Some d0))
                      | None => lift check_array_none
                      end
                 else ret (option_map (asarray 0%Z) dc)) s = (s, Ok dc')).
  { unfold discrete_validated in Hdv.
    destruct (discrete_covariates_used s); cbn [present].
    - destruct dc as [d | ]; [ | contradiction].
      destruct (check_array_categorical d); cbn in Hdv; inversion Hdv. reflexivity.
    - now subst. }
  rewrite (bind_Ok _ _ _ _ _ _ _ Edc).
  rewrite bind_hasattr.
  assert (Ecc : (if present (continuous_covariates_used s)
                 then match cc with
                      | Some c => bind (lift (check_array c)) (fun c0 => ret (Some c0))
                      | None => lift check_array_none
                      end
                 else ret (option_map (asarray zero) cc)) s = (s, Ok cc')).
  { unfold continuous_validated in Hcv.
    destruct (continuous_covariates_used s); cbn [present].
    - destruct cc as [c | ]; [ | contradiction].
      destruct (check_array c); cbn in Hcv; inversion Hcv. reflexivity.
    - now subst. }
  rewrite (bind_Ok _ _ _ _ _ _ _ Ecc).
  rewrite (bind_getattr _ _ _ _ _ _ _ Hnames).
  rewrite all_sites_seen_true by exact Hseen. cbn [negb].
  rewrite (bind_getattr _ _ _ _ _ _ _ Hnames).
  assert (Ed : _make_design_matrix sites dc' cc' false s = (s, Ok design)).
  { pose proof (read_only_make_design_matrix sites dc' cc' s) as Hro.
    destruct (_make_design_matrix sites dc' cc' false s) as [s1 o].
    cbn in Hro, Hdesign. now subst. }
  rewrite (bind_Ok _ _ _ _ _ _ _ Ed).
  destruct (standardize_transform_values s names p w (nrows X) (transpose zero X) design
              (map (count_eq sites) names) B gm vp Hfm HB Hgm Hvp)
    as (std & mean & Es & [Hsr Hsc] & [Hmr Hmc] & Hsv);
    [ cbn [nrows transpose tab]; lia | reflexivity | lia | lia | ].
  rewrite (bind_Ok _ _ _ _ _ _ _ Es).
  destruct (adjust_data_final_values s names p w (nrows X) std design mean sites vp G D
              Hfm Hnd Hvp HG HD)
    as (Y & EY & HYr & HYc & HYv); try lia.
  rewrite (bind_Ok _ _ _ _ _ _ _ EY).
  eexists. split; [reflexivity | ].
  intros k i j Hk' Hi Hj Hsite.
  unfold transpose at 1. rewrite at_tab by lia.
  change (get zero Y i k) with (at_ Y i k).
  rewrite (HYv i k j Hi Hk' Hj Hsite).
  destruct (Hsv i k Hi Hk') as [Em Est]. rewrite Est, Em.
  unfold harmonized_value, transpose. rewrite at_tab by lia. reflexivity.
Qed.

End HarmonizedValues.

(** X4.  The value [transform] returns, in exact arithmetic.  On a fitted
    model whose site names are distinct, with the covariate arguments valid
    for it, [transform] returns an array whose entry for sample [k] and
    feature [i] is [harmonized_value]: with [j] the number of the sample's
    site among the fit-time sites,
    [((x - mean) / sqrt(var_pooled[i]) - gamma) / sqrt(delta_star[j, i])
     * sqrt(var_pooled[i]) + mean],
    where [mean = grand_mean[i] + (design with the site columns zeroed) .
    beta_hat[:, i]] and [gamma = (site columns of the design row) .
    gamma_star[:, i]], the operations being those of the real numbers. *)
Theorem transform_harmonized_values
    (s : self R) (names : list Z) (p w : nat)
    (data : list (list R)) (sites : list Z)
    (dc : option (list (list Z))) (cc : option (list (list R)))
    (X : ndarray R) (dc' : option (ndarray Z)) (cc' : option (ndarray R))
    (design B : ndarray R) (gm : list R) (vp G D : ndarray R) :
  fitted_model s names p w ->
  NoDup names ->
  beta_hat s = Some B -> grand_mean s = Some gm -> var_pooled s = Some vp ->
  gamma_star s = Some G -> delta_star s = Some D ->
  check_array data = Ok X ->
  ncols X = p ->
  length sites = nrows X ->
  (forall x, In x sites -> In x names) ->
  discrete_validated s dc dc' ->
  continuous_validated s cc cc' ->
  snd (_make_design_matrix sites dc' cc' false s) = Ok design ->
  nrows design = nrows X ->
  ncols design = w ->
  exists Y,
    snd (transform data sites dc cc s) = Ok Y /\
    forall k i j, k < nrows X -> i < p -> j < length names ->
      nth k sites 0%Z = nth j names 0%Z ->
      at_ Y k i = harmonized_value (length names) B gm vp G D design X j k i.
Proof.
  intros Hfm Hnd HB Hgm Hvp HG HD HX Hp Hls Hseen Hdv Hcv Hdesign Hdr Hdc.
  destruct (transform_values s names p w data sites dc cc X dc' cc' design B gm vp G D)
    as (Y & E & HY); try assumption.
  exists Y. rewrite E. split; [reflexivity | exact HY].
Qed.

(** A model of two sites fitted with one discrete covariate of two
    categories, in real numbers, and a batch of two samples of site 2. *)
Module ValuesExample.

Definition B : ndarray R := NDArray 3 2 [[2; 5]; [4; 8]; [1; 1]]%R.
Definition gm : list R := [3; 7]%R.
Definition vp : ndarray R := NDArray 2 1 [[1]; [4]]%R.
Definition G : ndarray R := NDArray 2 2 [[-1; -2]; [1; 2]]%R.
Definition D : ndarray R := NDArray 2 2 [[1; 4]; [4; 1]]%R.

Definition fitted : self R :=
  Self true (Some 2) (Some [1; 2]%Z) (Some true) None
    (Some {| categories_ := [1; 2]%Z |}) (Some [{| categories_ := [0; 1]%Z |}])
    (Some B) (Some gm) (Some vp) (Some G) (Some D).

Definition batch : list (list R) := [[1; 2]; [3; 4]]%R.
Definition batch_sites : list Z := [2; 2]%Z.
Definition batch_covariate : list (list Z) := [[0]; [1]]%Z.
Definition design : ndarray R := NDArray 2 3 [[0; 1; 0]; [0; 1; 1]]%R.

End ValuesExample.

(** X4, witness: the two samples of site 2, with their covariate. *)
Lemma transform_harmonized_values_witness :
  exists Y,
    snd (transform ValuesExample.batch ValuesExample.batch_sites
           (Some ValuesExample.batch_covariate) None ValuesExample.fitted) = Ok Y /\
    forall k i j, k < 2 -> i < 2 -> j < 2 ->
      nth k ValuesExample.batch_sites 0%Z = nth j [1; 2]%Z 0%Z ->
      at_ Y k i
      = harmonized_value 2 ValuesExample.B ValuesExample.gm ValuesExample.vp
          ValuesExample.G ValuesExample.D ValuesExample.design
          (asarray zero ValuesExample.batch) j k i.
Proof.
  apply (transform_harmonized_values ValuesExample.fitted [1; 2]%Z 2 3
           ValuesExample.batch ValuesExample.batch_sites
           (Some ValuesExample.batch_covariate) None
           (asarray zero ValuesExample.batch)
           (Some (asarray 0%Z ValuesExample.batch_covariate)) None
           ValuesExample.design ValuesExample.B ValuesExample.gm ValuesExample.vp
           ValuesExample.G ValuesExample.D).
  - constructor; cbn; try reflexivity; try lia;
      eexists; repeat split; reflexivity.
  - repeat constructor; cbn; intuition discriminate.
  - reflexivity.
  - reflexivity.
  - reflexivity.
  - reflexivity.
  - reflexivity.
  - reflexivity.
  - reflexivity.
  - reflexivity.
  - intros x [<- | [<- | []]]; cbn; auto.
  - reflexivity.
  - reflexivity.
  - reflexivity.
  - reflexivity.
  - reflexivity.
Defined.

(* ================================================================== *)
(** * The harmonized values without covariates, in exact arithmetic *)

Section ExactValues.
Local Open Scope R_scope.

Lemma np_sum_all_zero (f : nat -> R) (l : list nat) :
  (forall m, In m l -> f m = 0) -> np_sum (map f l) = 0.
Proof.
  induction l as [| x l IH]; intros H.
  - reflexivity.
  - cbn [map]. rewrite np_sum_cons, IH by (intros m Hm; apply H; now right).
    rewrite (H x (or_introl eq_refl)). ring.
Qed.

Lemma np_sum_single (f : nat -> R) (l : list nat) (j : nat) :
  NoDup l -> In j l -> (forall m, In m l -> m <> j -> f m = 0) ->
  np_sum (map f l) = f j.
Proof.
  induction 1 as [| x l Hx Hnd IH]; intros Hj H; [contradiction | ].
  cbn [map]. rewrite np_sum_cons. destruct Hj as [-> | Hj].
  - rewrite np_sum_all_zero; [ring | ].
    intros m Hm. apply H; [now right | ]. intros ->. contradiction.
  - rewrite IH by (try assumption; intros m Hm; apply H; now right).
    rewrite (H x (or_introl eq_refl)); [ring | ]. intros ->. contradiction.
Qed.

Lemma sum_n_single (n j : nat) (f : nat -> R) :
  (j < n)%nat -> (forall m, (m < n)%nat -> m <> j -> f m = 0) -> sum_n n f = f j.
Proof.
  intros Hj H. unfold sum_n. apply np_sum_single.
  - apply seq_NoDup.
  - apply in_seq. lia.
  - intros m Hm. apply H. apply in_seq in Hm. lia.
Qed.

Lemma sum_n_all_zero (n : nat) (f : nat -> R) :
  (forall m, (m < n)%nat -> f m = 0) -> sum_n n f = 0.
Proof.
  intros H. unfold sum_n. apply np_sum_all_zero.
  intros m Hm. apply H. apply in_seq in Hm. lia.
Qed.

(** Distinct positions of a list without repeats hold distinct values. *)
Lemma NoDup_nth_Z (l : list Z) (i j : nat) :
  NoDup l -> (i < length l)%nat -> (j < length l)%nat ->
  nth i l 0%Z = nth j l 0%Z -> i = j.
Proof. intros H. apply (proj1 (NoDup_nth l 0%Z) H). Qed.

End ExactValues.

(** X5.  The harmonized value of a model without covariates, in exact
    arithmetic.  On a model fitted without covariates whose site names are
    distinct, [transform] returns for sample [k], of site number [j], and
    feature [i] the value
    [((x - grand_mean[i]) / sqrt(var_pooled[i]) - gamma_star[j, i])
     / sqrt(delta_star[j, i]) * sqrt(var_pooled[i]) + grand_mean[i]]. *)
Theorem transform_without_covariates_exact_values
    (s : self R) (names : list Z) (p : nat)
    (data : list (list R)) (sites : list Z) (X : ndarray R)
    (gm : list R) (vp G D : ndarray R) :
  fitted_model s names p (length names) ->
  NoDup names ->
  site_encoder s = Some {| categories_ := names |} ->
  discrete_covariates_used s = None ->
  continuous_covariates_used s = None ->
  grand_mean s = Some gm -> var_pooled s = Some vp ->
  gamma_star s = Some G -> delta_star s = Some D ->
  check_array data = Ok X ->
  ncols X = p ->
  length sites = nrows X ->
  (forall x, In x sites -> In x names) ->
  exists Y,
    snd (transform data sites None None s) = Ok Y /\
    forall k i j, k < nrows X -> i < p -> j < length names ->
      nth k sites 0%Z = nth j names 0%Z ->
      at_ Y k i
      = ((((at_ X k i - vnth gm i) / sqrt (at_ vp i 0) - at_ G j i)
          / sqrt (at_ D j i)) * sqrt (at_ vp i 0) + vnth gm i)%R.
Proof.
  intros Hfm Hnd Henc Hd Hc Hgm Hvp HG HD HX Hp Hls Hseen.
  destruct (fm_beta_hat _ _ _ _ Hfm) as (B & HB & _).
  destruct (transform_values s names p (length names) data sites None None X None None
              (tab (length sites) (length names)
                 (fun i j => if (nth i sites 0 =? nth j names 0)%Z then one else zero))
              B gm vp G D)
    as (Y & E & HY); try assumption.
  - unfold discrete_validated. now rewrite Hd.
  - unfold continuous_validated. now rewrite Hc.
  - now rewrite (make_design_matrix_sites_only s _ sites Henc Hseen).
  - reflexivity.
  - exists Y. rewrite E. split; [reflexivity | ].
    intros k i j Hk Hi Hj Hsite. rewrite (HY k i j Hk Hi Hj Hsite).
    unfold harmonized_value, design_effect, zero_first_cols, first_cols.
    cbn [nrows ncols tab]. rewrite Nat.min_id.
    assert (Hk' : k < length sites) by lia.
    rewrite sum_n_all_zero.
    2:{ intros m Hm. rewrite at_tab by lia.
        destruct (Nat.ltb_spec m (length names)); [ | lia]. real_ops. ring. }
    rewrite (sum_n_single (length names) j).
    2:{ exact Hj. }
    2:{ intros m Hm Hne. rewrite !at_tab by lia.
        destruct (Z.eqb_spec (nth k sites 0%Z) (nth m names 0%Z)) as [Eq | _].
        - exfalso. apply Hne. apply (NoDup_nth_Z names m j Hnd Hm Hj). congruence.
        - real_ops. ring. }
    rewrite !at_tab by lia. rewrite Hsite, Z.eqb_refl. real_ops.
    replace (vnth gm i + 0)%R with (vnth gm i) by ring.
    replace (1 * at_ G j i)%R with (at_ G j i) by ring. reflexivity.
Qed.

Module ExactExample.

Definition names : list Z := [1; 2]%Z.
Definition B : ndarray R := NDArray 2 1 [[1]; [2]]%R.
Definition gm : list R := [3]%R.
Definition vp : ndarray R := NDArray 1 1 [[4]]%R.
Definition G : ndarray R := NDArray 2 1 [[0]; [1]]%R.
Definition D : ndarray R := NDArray 2 1 [[1]; [4]]%R.

(** A model of one feature fitted on sites 1 and 2, without covariates. *)
Definition model : self R :=
  Self true (Some 2) (Some names) None None (Some {| categories_ := names |}) None
    (Some B) (Some gm) (Some vp) (Some G) (Some D).

Definition batch : list (list R) := [[5]]%R.
Definition batch_sites : list Z := [2]%Z.

End ExactExample.

(** X5, witness: one sample of site 2 on a model of one feature. *)
Lemma transform_without_covariates_exact_values_witness :
  exists Y,
    snd (transform ExactExample.batch ExactExample.batch_sites None None
           ExactExample.model) = Ok Y /\
    forall k i j, k < 1 -> i < 1 -> j < 2 ->
      nth k ExactExample.batch_sites 0%Z = nth j ExactExample.names 0%Z ->
      at_ Y k i
      = ((((at_ (asarray zero ExactExample.batch) k i - vnth ExactExample.gm i)
           / sqrt (at_ ExactExample.vp i 0) - at_ ExactExample.G j i)
          / sqrt (at_ ExactExample.D j i)) * sqrt (at_ ExactExample.vp i 0)
         + vnth ExactExample.gm i)%R.
Proof.
  apply (transform_without_covariates_exact_values ExactExample.model ExactExample.names 1
           ExactExample.batch ExactExample.batch_sites (asarray zero ExactExample.batch)
           ExactExample.gm ExactExample.vp ExactExample.G ExactExample.D).
  - constructor; cbn; try reflexivity; try lia; eexists; repeat split; reflexivity.
  - repeat constructor; cbn; intuition discriminate.
  - reflexivity.
  - reflexivity.
  - reflexivity.
  - reflexivity.
  - reflexivity.
  - reflexivity.
  - reflexivity.
  - reflexivity.
  - reflexivity.
  - reflexivity.
  - intros x [<- | []]; cbn; auto.
Defined.

(* ================================================================== *)
(** * The site names [fit] stores *)

Section SiteNames.

Lemma insert_sorted_sorted (x : Z) (l : list Z) :
  ForallOrdPairs Z.lt l -> ForallOrdPairs Z.lt (insert_sorted x l).
Proof.
  induction 1 as [| y l Hy Hl IH]; cbn [insert_sorted].
  - constructor; constructor.
  - destruct (Z.ltb_spec x y) as [Hxy | Hxy].
    + constructor; [ | now constructor].
      constructor; [exact Hxy | ].
      eapply Forall_impl; [ | exact Hy]. intros z Hz. lia.
    + destruct (Z.eqb_spec x y) as [-> | Hne]; [now constructor | ].
      constructor; [ | exact IH].
      apply Forall_forall. intros z Hz. apply In_insert_sorted in Hz as [-> | Hz].
      * lia.
      * rewrite Forall_forall in Hy. now apply Hy.
Qed.

(** [np.unique] returns its values in strictly increasing order. *)
Lemma np_unique_sorted (a : list Z) : ForallOrdPairs Z.lt (np_unique a).
Proof.
  induction a as [| x a IH]; cbn.
  - constructor.
  - apply insert_sorted_sorted, IH.
Qed.

Lemma sorted_NoDup (l : list Z) : ForallOrdPairs Z.lt l -> NoDup l.
Proof.
  induction 1 as [| y l Hy Hl IH]; constructor; [ | exact IH].
  intros Hin. rewrite Forall_forall in Hy. specialize (Hy y Hin). lia.
Qed.

Lemma NoDup_np_unique (a : list Z) : NoDup (np_unique a).
Proof. apply sorted_NoDup, np_unique_sorted. Qed.

End SiteNames.

(** X6.  The sites of a fitted model.  When [fit] returns, [sites_names]
    holds exactly the site values of the data, each once, in strictly
    increasing order, and [n_sites] is their number
    ([ForallOrdPairs Z.lt]: every value is below all that follow it); row [j] of
    [gamma_star] and of [delta_star] belongs to the [j]-th smallest site
    value. *)
Theorem fit_stores_sorted_distinct_sites {F : Type} {SF : Scalar F}
    (fuel : nat) (data : list (list F)) (sites : list Z)
    (dc : option (list (list Z))) (cc : option (list (list F))) (s : self F) :
  snd (fit fuel data sites dc cc s) = Ok tt ->
  exists names G D,
    sites_names (fst (fit fuel data sites dc cc s)) = Some names /\
    n_sites (fst (fit fuel data sites dc cc s)) = Some (length names) /\
    ForallOrdPairs Z.lt names /\
    NoDup names /\
    (forall x, In x names <-> In x sites) /\
    gamma_star (fst (fit fuel data sites dc cc s)) = Some G /\
    delta_star (fst (fit fuel data sites dc cc s)) = Some D /\
    nrows G = length names /\ nrows D = length names.
Proof.
  intros H. destruct (fit fuel data sites dc cc s) as [s' o] eqn:E.
  cbn [fst snd] in *. subst o.
  destruct (fit_Ok_fitted_model fuel data sites dc cc s s' tt E) as (w & Hfm & _ & _).
  destruct Hfm as [Hn Hs _ _ _ (G & HG & HGr & _) (D & HD & HDr & _) _].
  exists (np_unique sites), G, D.
  repeat split; try assumption.
  - apply np_unique_sorted.
  - apply NoDup_np_unique.
  - apply In_np_unique.
  - apply In_np_unique.
Qed.

(** X6, witness: the four-sample data set, sites 1, 1, 2, 2. *)
Lemma fit_stores_sorted_distinct_sites_witness :
  exists names G D,
    sites_names Example.fitted = Some names /\
    n_sites Example.fitted = Some (length names) /\
    ForallOrdPairs Z.lt names /\
    NoDup names /\
    (forall x, In x names <-> In x Example.sites) /\
    gamma_star Example.fitted = Some G /\
    delta_star Example.fitted = Some D /\
    nrows G = length names /\ nrows D = length names.
Proof.
  apply (fit_stores_sorted_distinct_sites 100 Example.data Example.sites None None
           Example.unfitted).
  vm_compute. reflexivity.
Defined.

(* ================================================================== *)
(** * The priors, in exact arithmetic *)

Section Priors.
Local Open Scope R_scope.

(** In the reals the two hyperparameters are [2 + m^2 / s2] and
    [m + m^3 / s2]. *)
Lemma prior_moments (m s2 : R) :
  0 < s2 -> m <> 0 ->
  let a := (2 * s2 + m * m) / s2 in
  let b := (m * s2 + m * m * m) / s2 in
  b / (a - 1) = m /\ b * b / ((a - 1) * (a - 1) * (a - 2)) = s2.
Proof.
  intros Hs Hm a b. subst a b.
  assert (Hs' : s2 <> 0) by lra.
  assert (Hsm : s2 + m * m <> 0) by nra.
  split; field; repeat split; try assumption; nra.
Qed.

End Priors.

(** X7.  The priors match the moments of [delta_hat].  In exact arithmetic,
    for every site whose [delta_hat] has mean [m <> 0] and sample variance
    [s2 > 0] across the features, the hyperparameters [a_prior] and [b_prior]
    that [_find_priors] returns for the site are those of the inverse gamma
    distribution of mean [m] and variance [s2]:
    [b / (a - 1) = m] and [b^2 / ((a - 1)^2 (a - 2)) = s2]. *)
Theorem find_priors_match_moments
    (gamma_hat : ndarray R) (delta_hat : list (list R)) (j : nat) (d : list R) :
  nth_error delta_hat j = Some d ->
  (0 < np_var_ddof1_f32 d)%R ->
  np_mean d <> 0%R ->
  let a := nth j (snd (fst (_find_priors gamma_hat delta_hat))) 0%R in
  let b := nth j (snd (_find_priors gamma_hat delta_hat)) 0%R in
  (b / (a - 1) = np_mean d /\
   b * b / ((a - 1) * (a - 1) * (a - 2)) = np_var_ddof1_f32 d)%R.
Proof.
  intros Hd Hs Hm. unfold _find_priors. cbn [fst snd].
  assert (Hj : j < length delta_hat) by (apply nth_error_Some; congruence).
  rewrite (nth_map_lt _ _ aprior_fn delta_hat [] 0%R) by exact Hj.
  rewrite (nth_map_lt _ _ bprior_fn delta_hat [] 0%R) by exact Hj.
  rewrite (nth_error_nth _ _ [] Hd).
  unfold aprior_fn, bprior_fn, square. real_ops.
  cbn [f32 Real.Scalar_R].
  exact (prior_moments (np_mean d) (np_var_ddof1_f32 d) Hs Hm).
Qed.

(** X7, witness: one site, whose [delta_hat] is 1 and 3 on two features
    (mean 2, variance 2). *)
Lemma find_priors_match_moments_witness :
  let a := nth 0 (snd (fst (_find_priors (NDArray 1 2 [[0; 0]]%R) [[1; 3]]%R))) 0%R in
  let b := nth 0 (snd (_find_priors (NDArray 1 2 [[0; 0]]%R) [[1; 3]]%R)) 0%R in
  (b / (a - 1) = np_mean [1; 3]%R /\
   b * b / ((a - 1) * (a - 1) * (a - 2)) = np_var_ddof1_f32 [1; 3]%R)%R.
Proof.
  apply (find_priors_match_moments (NDArray 1 2 [[0; 0]]%R) [[1; 3]]%R 0 [1; 3]%R).
  - reflexivity.
  - unfold np_var_ddof1_f32, np_sum32. cbn. lra.
  - unfold np_mean, np_sum. cbn. lra.
Defined.

(* ================================================================== *)
(** * What [fit] leaves, and [fit_transform] *)

Section FitState.
Context {F : Type} {SF : Scalar F}.

Tactic Notation "inv_lift" hyp(H) "as" ident(x) ident(E) :=
  let s1 := fresh "s" in
  apply bind_Ok_inv in H; destruct H as (s1 & x & E & H);
  apply lift_Ok_inv in E; destruct E as [-> E]; cbv beta iota zeta in H.

Tactic Notation "inv_getattr" hyp(H) "as" ident(x) ident(E) :=
  let s1 := fresh "s" in
  apply bind_Ok_inv in H; destruct H as (s1 & x & E & H);
  apply getattr_Ok_inv in E; destruct E as [-> E]; cbv beta iota zeta in H.

Tactic Notation "inv_setattr" hyp(H) :=
  let s1 := fresh "s" in let u := fresh "u" in let E := fresh "E" in
  apply bind_Ok_inv in H; destruct H as (s1 & u & E & H);
  apply setattr_Ok_inv in E; subst s1; cbv beta iota zeta in H.

(** ** [_reset] *)

Lemma delattr_Ok_inv (A : Type) (name : string) (proj : self F -> option A)
    (upd : option A -> self F -> self F) (s s' : self F) (u : unit) :
  delattr name proj upd s = (s', Ok u) -> s' = upd None s /\ proj s <> None.
Proof.
  unfold delattr. destruct (proj s); intros H; inversion H. split; congruence.
Qed.

(** When [_reset] returns, the object is the one given if it had no
    [n_sites], and an object without any fitted attribute otherwise. *)
Lemma reset_Ok_inv (s s' : self F) (u : unit) :
  _reset s = (s', Ok u) ->
  (n_sites s = None /\ s' = s) \/ (n_sites s <> None /\ s' = __init__ F (copy s)).
Proof.
  unfold _reset. rewrite bind_hasattr.
  destruct (n_sites s) as [k | ] eqn:Hk; cbn [present].
  - intros H. right. split; [discriminate | ].
    repeat (apply bind_Ok_inv in H as (? & ? & ?E & H);
            apply delattr_Ok_inv in E as [-> _]).
    apply delattr_Ok_inv in H as [-> _]. destruct s. reflexivity.
  - intros H. apply ret_inv in H as [-> _]. left. split; reflexivity.
Qed.

(** ** The design matrix *)

Lemma hstack_from_Ok_nrows (A M : ndarray F) (l : list (ndarray F)) :
  hstack_from A l = Ok M -> nrows M = nrows A.
Proof.
  revert A. induction l as [| B l IH]; intros A; cbn [hstack_from].
  - intros H. inversion H. reflexivity.
  - unfold hstack2. destruct (nrows A =? nrows B); cbn [obind]; [ | discriminate].
    intros H. apply IH in H. exact H.
Qed.

Lemma encoder_transform_Ok_nrows (enc : OneHotEncoder) (col : list Z) (M : ndarray F) :
  encoder_transform enc col = Ok M -> nrows M = length col.
Proof.
  unfold encoder_transform. destruct (filter _ _); intros H; inversion H. reflexivity.
Qed.

(** The loop that fits the encoders of the discrete covariates appends one
    encoder per column, fitted on that column. *)
Lemma fit_discrete_encoders (d : ndarray Z) (xs : list nat) :
  forall (acc : list OneHotEncoder) (s : self F),
  discrete_encoders s = Some acc ->
  for_each xs (fun i =>
      let discrete_encoder := encoder_fit (col_of 0%Z d i) in
      encs <- getattr "discrete_encoders" (@discrete_encoders F) ;;
      setattr set_discrete_encoders (encs ++ [discrete_encoder])) s
  = (set_discrete_encoders
       (Some (acc ++ map (fun i => encoder_fit (col_of 0%Z d i)) xs)) s, Ok tt).
Proof.
  induction xs as [| x xs IH]; intros acc s Hs; cbn [for_each map].
  - rewrite app_nil_r. destruct s. cbn in Hs. subst. reflexivity.
  - cbv zeta. unfold bind at 1. rewrite (bind_getattr _ _ _ _ _ _ _ Hs).
    unfold setattr at 1.
    rewrite (IH (acc ++ [encoder_fit (col_of 0%Z d x)])) by (now destruct s).
    rewrite <- app_assoc. destruct s. reflexivity.
Qed.

(** The loop that builds the blocks of the discrete covariates reads the
    encoders and nothing else: it extends the list of blocks, leaves the
    object alone, and does the same on any object with the same encoders. *)
Lemma discrete_blocks_agree (d : ndarray Z) (xs : list nat) :
  forall (acc dl : list (ndarray F)) (s1 s1' s2 : self F),
  discrete_encoders s2 = discrete_encoders s1 ->
  for_fold xs acc (fun design_list i =>
      encs <- getattr "discrete_encoders" (@discrete_encoders F) ;;
      discrete_encoder <- lift (index encs i) ;;
      discrete_covariate_one_hot <-
        lift (encoder_transform discrete_encoder (col_of 0%Z d i)) ;;
      let discrete_covariate_design := drop_first_col discrete_covariate_one_hot in
      ret (design_list ++ [discrete_covariate_design])) s1 = (s1', Ok dl) ->
  s1' = s1 /\
  (exists l, dl = acc ++ l) /\
  for_fold xs acc (fun design_list i =>
      encs <- getattr "discrete_encoders" (@discrete_encoders F) ;;
      discrete_encoder <- lift (index encs i) ;;
      discrete_covariate_one_hot <-
        lift (encoder_transform discrete_encoder (col_of 0%Z d i)) ;;
      let discrete_covariate_design := drop_first_col discrete_covariate_one_hot in
      ret (design_list ++ [discrete_covariate_design])) s2 = (s2, Ok dl).
Proof.
  induction xs as [| x xs IH]; intros acc dl s1 s1' s2 Hs; cbn [for_fold].
  - intros H. apply ret_inv in H as [-> <-]. split; [reflexivity | ].
    split; [exists []; now rewrite app_nil_r | reflexivity].
  - intros H. apply bind_Ok_inv in H as (s & acc' & E & H).
    inv_getattr E as encs Eencs. inv_lift E as enc Eenc. inv_lift E as oh Eoh.
    apply ret_inv in E as [-> <-].
    destruct (IH _ dl s1 s1' s2 Hs H) as (-> & (l & ->) & H2).
    split; [reflexivity | ]. split.
    + eexists. rewrite <- app_assoc. reflexivity.
    + unfold bind at 1. rewrite (bind_getattr _ _ _ _ _ _ encs) by congruence.
      rewrite Eenc, bind_lift_Ok, Eoh, bind_lift_Ok. cbv zeta. unfold ret at 1.
      exact H2.
Qed.

(** [_make_design_matrix(..., fitting=True)] stores the encoder of the
    sites and one encoder per discrete covariate, and returns a matrix with a
    row per sample; the same call with [fitting=False], on any object that
    holds these encoders, returns the same matrix. *)
Lemma make_design_matrix_fit_inv (sites : list Z) (dc : option (ndarray Z))
    (cc : option (ndarray F)) (s s1 : self F) (design : ndarray F) :
  _make_design_matrix sites dc cc true s = (s1, Ok design) ->
  s1 = match dc with
       | Some d =>
           set_discrete_encoders
             (Some (map (fun i => encoder_fit (col_of 0%Z d i)) (seq 0 (ncols d))))
             (set_site_encoder (Some (encoder_fit sites)) s)
       | None => set_site_encoder (Some (encoder_fit sites)) s
       end /\
  nrows design = length sites /\
  length (np_unique sites) <= ncols design /\
  forall s2 : self F,
    site_encoder s2 = site_encoder s1 ->
    discrete_encoders s2 = discrete_encoders s1 ->
    _make_design_matrix sites dc cc false s2 = (s2, Ok design).
Proof.
  intros H. unfold _make_design_matrix in H.
  inv_setattr H. inv_getattr H as enc Eenc.
  assert (enc = encoder_fit sites) by (destruct s; cbn in Eenc; congruence). subst enc.
  inv_lift H as sites_design Esd.
  apply bind_Ok_inv in H as (s3 & design_list & E & H).
  apply lift_Ok_inv in H as [-> H].
  assert (Hblocks :
    s3 = match dc with
         | Some d =>
             set_discrete_encoders
               (Some (map (fun i => encoder_fit (col_of 0%Z d i)) (seq 0 (ncols d))))
               (set_site_encoder (Some (encoder_fit sites)) s)
         | None => set_site_encoder (Some (encoder_fit sites)) s
         end /\
    (exists l, design_list = sites_design :: l) /\
    forall s2 : self F,
      discrete_encoders s2 = discrete_encoders s3 ->
      match dc with
      | Some discrete_covariates =>
          (ret tt ;;
           for_fold (seq 0 (ncols discrete_covariates)) [sites_design]
             (fun design_list i =>
                encs <- getattr "discrete_encoders" (@discrete_encoders F) ;;
                discrete_encoder <- lift (index encs i) ;;
                discrete_covariate_one_hot <-
                  lift (encoder_transform discrete_encoder
                          (col_of 0%Z discrete_covariates i)) ;;
                let discrete_covariate_design :=
                  drop_first_col discrete_covariate_one_hot in
                ret (design_list ++ [discrete_covariate_design])))
      | None => ret [sites_design]
      end s2 = (s2, Ok design_list)).
  { destruct dc as [d | ].
    - apply bind_Ok_inv in E as (s0 & v0 & E0 & E1).
      apply bind_Ok_inv in E0 as (s00 & u0 & E00 & E0).
      apply setattr_Ok_inv in E00. subst s00.
      rewrite (fit_discrete_encoders d (seq 0 (ncols d)) []) in E0
        by (now destruct s).
      cbn [app] in E0. inversion E0; subst s0 v0. clear E0.
      split; [ | split].
      + pose proof (discrete_blocks_agree d _ _ _ _ _ _ eq_refl E1) as (-> & _ & _).
        destruct s. reflexivity.
      + pose proof (discrete_blocks_agree d _ _ _ _ _ _ eq_refl E1) as (_ & (l & ->) & _).
        exists l. reflexivity.
      + intros s2 Hs2. rewrite bind_ret.
        pose proof (discrete_blocks_agree d _ _ _ _ _ _ eq_refl E1) as (-> & _ & _).
        exact (proj2 (proj2 (discrete_blocks_agree d _ _ _ _ _ s2 Hs2 E1))).
    - apply ret_inv in E as [-> <-]. split; [reflexivity | ]. split.
      + exists []. reflexivity.
      + intros s2 _. reflexivity. }
  destruct Hblocks as (Hs3 & (l & ->) & Hagain).
  split; [exact Hs3 | ].
  assert (Hshape : nrows design = length sites /\ length (np_unique sites) <= ncols design).
  { apply encoder_transform_Ok_nrows in Esd as Hr.
    apply encoder_transform_Ok_ncols in Esd as Hc. cbn [categories_ encoder_fit] in Hc.
    destruct cc as [c | ]; cbn [app hstack] in H;
      (split; [apply hstack_from_Ok_nrows in H | apply hstack_from_Ok_ncols in H]);
      congruence || lia. }
  split; [exact (proj1 Hshape) | ]. split; [exact (proj2 Hshape) | ].
  intros s2 Hse Hde. unfold _make_design_matrix.
  rewrite bind_ret.
  assert (Hse' : site_encoder s2 = Some (encoder_fit sites)).
  { rewrite Hse, Hs3. destruct dc, s; reflexivity. }
  rewrite (bind_getattr _ _ _ _ _ _ _ Hse').
  rewrite Esd, bind_lift_Ok. cbv zeta.
  rewrite (bind_Ok _ _ _ _ _ _ _ (Hagain s2 Hde)).
  unfold lift. now rewrite H.
Qed.

(** ** [fit] *)

(** The object [fit] leaves when it returns: every attribute it writes, and
    the covariate flags and encoders of the object it started from where it
    writes none. *)
Definition fit_state (sites : list Z) (dc : option (ndarray Z)) (cc : option (ndarray F))
    (B : ndarray F) (gm : list F) (vp G D : ndarray F) (s0 : self F) : self F :=
  Self (copy s0) (Some (length (np_unique sites))) (Some (np_unique sites))
    (match dc with Some _ => Some true | None => discrete_covariates_used s0 end)
    (match cc with Some _ => Some true | None => continuous_covariates_used s0 end)
    (Some (encoder_fit sites))
    (match dc with
     | Some d => Some (map (fun i => encoder_fit (col_of 0%Z d i)) (seq 0 (ncols d)))
     | None => discrete_encoders s0
     end)
    (Some B) (Some gm) (Some vp) (Some G) (Some D).

Lemma fit_Ok_inv (fuel : nat) (data : list (list F)) (sites : list Z)
    (dc : option (list (list Z))) (cc : option (list (list F)))
    (s s' : self F) (u : unit) :
  fit fuel data sites dc cc s = (s', Ok u) ->
  exists s0 X dc' cc' design B gm vp G D,
    ((n_sites s = None /\ s0 = s) \/ (n_sites s <> None /\ s0 = __init__ F (copy s))) /\
    check_array data = Ok X /\
    length sites = nrows X /\
    match dc with Some d => omap Some (check_array_categorical d) | None => Ok None end
      = Ok dc' /\
    match cc with Some c => omap Some (check_array c) | None => Ok None end = Ok cc' /\
    s' = fit_state sites dc' cc' B gm vp G D s0 /\
    _make_design_matrix sites dc' cc' false s' = (s', Ok design) /\
    nrows design = nrows X /\
    fitted_model s' (np_unique sites) (ncols X) (ncols design).
Proof.
  unfold fit. intros H.
  apply bind_Ok_inv in H as (s0 & u1 & Er & H). apply reset_Ok_inv in Er.
  inv_lift H as X EX. inv_lift H as sites' Esites. inv_lift H as u2 Ecl.
  apply bind_Ok_inv in H as (s2 & dc' & Edc & H).
  apply bind_Ok_inv in H as (s3 & cc' & Ecc & H).
  assert (Hdc : s2 = match dc' with
                     | Some _ => set_discrete_covariates_used (Some true) s0
                     | None => s0
                     end /\
                match dc with
                | Some d => omap Some (check_array_categorical d)
                | None => Ok None
                end = Ok dc').
  { destruct dc as [d | ].
    - inv_setattr Edc. inv_lift Edc as d' Ed'. apply ret_inv in Edc as [-> <-].
      rewrite Ed'. split; reflexivity.
    - apply ret_inv in Edc as [-> <-]. split; reflexivity. }
  destruct Hdc as [Hs2 Hdc].
  assert (Hcc : s3 = match cc' with
                     | Some _ => set_continuous_covariates_used (Some true) s2
                     | None => s2
                     end /\
                match cc with
                | Some c => omap Some (check_array c)
                | None => Ok None
                end = Ok cc').
  { destruct cc as [c | ].
    - inv_setattr Ecc. inv_lift Ecc as c' Ec'. apply ret_inv in Ecc as [-> <-].
      rewrite Ec'. split; reflexivity.
    - apply ret_inv in Ecc as [-> <-]. split; reflexivity. }
  destruct Hcc as [Hs3 Hcc].
  unfold np_unique_counts in H. cbv beta iota zeta in H.
  inv_setattr H. inv_setattr H.
  apply bind_Ok_inv in H as (s4 & design & Ed & H).
  apply make_design_matrix_fit_inv in Ed as (Hs4 & Hdn & Hdw & Hagain).
  apply bind_Ok_inv in H as (s5 & [sd sm] & Estd & H).
  apply standardize_fit_Ok in Estd as (B & gm & vp & -> & HB & Hgm & Hvp & Hsd).
  apply bind_Ok_inv in H as (s6 & [gamma_hat delta_hat] & Els & H).
  apply fit_ls_model_Ok in Els as (-> & Hgh & Hdh).
  destruct (_find_priors gamma_hat delta_hat) as [[[gamma_bar tau_2] a_prior] b_prior].
  apply bind_Ok_inv in H as (s7 & [G D] & Efp & H).
  apply lift_Ok_inv in Efp as [-> Efp].
  inv_setattr H. inv_setattr H. apply ret_inv in H as [-> _].
  apply check_array_Ok_inv in EX as HX. destruct HX as (HXeq & _ & Hp & _).
  assert (sites' = sites /\ sites <> []) as [-> Hne].
  { unfold check_array_sites in Esites. destruct sites; cbn in Esites;
      [discriminate | ]. inversion Esites. split; congruence. }
  assert (Hlen : length sites = nrows X).
  { unfold check_consistent_length in Ecl.
    destruct (Nat.eqb_spec (nrows X) (length sites)); [congruence | discriminate]. }
  apply fit_delta_hat_lengths in Hdh as [_ Hdh].
  cbn [nrows ncols transpose tab] in *.
  apply find_parametric_adjustments_shapes in Efp as [[HG1 HG2] [HD1 HD2]];
    [ | lia | | congruence | exact Hdh].
  2:{ intros E. apply map_eq_nil in E. now apply np_unique_nonempty in E. }
  rewrite length_map in HG1, HD1.
  assert (Hstate :
    set_delta_star (Some D) (set_gamma_star (Some G)
      (set_var_pooled (Some vp) (set_grand_mean (Some gm) (set_beta_hat (Some B) s4))))
    = fit_state sites dc' cc' B gm vp G D s0).
  { rewrite Hs4, Hs3, Hs2. destruct dc', cc', s0; reflexivity. }
  exists s0, X, dc', cc', design, B, gm, vp, G, D.
  split; [exact Er | ]. split; [exact EX | ]. split; [exact Hlen | ].
  split; [exact Hdc | ]. split; [exact Hcc | ]. split; [exact Hstate | ].
  split; [ | split; [congruence | ]].
  - apply Hagain; now destruct s4.
  - rewrite Hstate. constructor; cbn [fit_state n_sites sites_names beta_hat grand_mean
      var_pooled gamma_star delta_star]; try reflexivity; try exact Hdw;
      eexists; (split; [reflexivity | ]); repeat split; try tauto; congruence.
Qed.

End FitState.

(** X8.  [fit_transform] returns whenever [fit] does.  On an instance that
    carries no covariate flag from an earlier call (any instance that was
    never fitted, or one that is fitted), when [fit] returns on some data,
    sites and covariates, [fit_transform] on the same arguments returns an
    array with a row per sample and a column per feature, and leaves the
    object [fit] leaves: the encoders fitted on the covariates accept them
    again and rebuild the design matrix of the fit. *)
Theorem fit_transform_returns_when_fit_does {F : Type} {SF : Scalar F}
    (fuel : nat) (s : self F) (data : list (list F)) (sites : list Z)
    (dc : option (list (list Z))) (cc : option (list (list F))) :
  (n_sites s = None -> discrete_covariates_used s = None) ->
  (n_sites s = None -> continuous_covariates_used s = None) ->
  snd (fit fuel data sites dc cc s) = Ok tt ->
  exists Y,
    fit_transform fuel data sites dc cc s = (fst (fit fuel data sites dc cc s), Ok Y) /\
    nrows Y = length data /\ ncols Y = length (hd [] data).
Proof.
  intros Hd Hc Hfit.
  destruct (fit fuel data sites dc cc s) as [s' o] eqn:E.
  cbn [fst snd] in *. subst o.
  destruct (fit_Ok_inv fuel data sites dc cc s s' tt E)
    as (s0 & X & dc' & cc' & design & B & gm & vp & G & D &
        Hs0 & HX & Hlen & Hdc & Hcc & Hs' & Hdesign & Hrows & Hfm).
  assert (Hflags : discrete_covariates_used s0 = None /\
                   continuous_covariates_used s0 = None).
  { destruct Hs0 as [[Hn ->] | [_ ->]]; [auto | split; reflexivity]. }
  destruct Hflags as [Hd0 Hc0].
  destruct (transform_given_design s' (np_unique sites) (ncols X) (ncols design)
              data sites dc cc X dc' cc' design Hfm HX eq_refl Hlen)
    as (Y & EY & HYr & HYc).
  - intros x Hx. apply In_np_unique, Hx.
  - unfold discrete_validated. rewrite Hs'. cbn [fit_state discrete_covariates_used].
    destruct dc as [d | ].
    + destruct (check_array_categorical d); cbn in Hdc; inversion Hdc. reflexivity.
    + inversion Hdc. now rewrite Hd0.
  - unfold continuous_validated. rewrite Hs'. cbn [fit_state continuous_covariates_used].
    destruct cc as [c | ].
    + destruct (check_array c); cbn in Hcc; inversion Hcc. reflexivity.
    + inversion Hcc. now rewrite Hc0.
  - now rewrite Hdesign.
  - exact Hrows.
  - reflexivity.
  - exists Y. unfold fit_transform. rewrite (bind_Ok _ _ _ _ _ _ _ E).
    split; [exact EY | ].
    apply check_array_Ok_inv in HX as (-> & _ & _ & HXl).
    cbn [nrows ncols asarray tab] in *. lia.
Qed.

(** X8, witness: a fresh instance, the four samples and a discrete covariate. *)
Lemma fit_transform_returns_when_fit_does_witness :
  exists Y,
    fit_transform 100 Example.data Example.sites (Some SubsetExample.covariate) None
      Example.unfitted
    = (fst (fit 100 Example.data Example.sites (Some SubsetExample.covariate) None
              Example.unfitted), Ok Y) /\
    nrows Y = length Example.data /\ ncols Y = length (hd [] Example.data).
Proof.
  apply (fit_transform_returns_when_fit_does 100 Example.unfitted Example.data
           Example.sites (Some SubsetExample.covariate) None).
  - reflexivity.
  - reflexivity.
  - vm_compute. reflexivity.
Defined.

(** Six samples of two sites, with a discrete and a continuous covariate. *)
Module CovariatesExample.

Definition data : list (list float) :=
  [[1; 2]; [3; 6]; [5; 7]; [4; 9]; [2; 5]; [6; 4]]%float.
Definition sites : list Z := [1; 1; 1; 2; 2; 2]%Z.
Definition discrete : list (list Z) := [[0]; [1]; [0]; [1]; [0]; [1]]%Z.
Definition continuous : list (list float) := [[1]; [2]; [4]; [3]; [5]; [7]]%float.

End CovariatesExample.

(** X9.  A model fitted with both kinds of covariates can be fitted again.
    When [fit] returns on discrete and continuous covariates, the object
    holds all eleven attributes that [_reset] deletes, so any later [fit] on
    it runs exactly as on a new instance with the same [copy] parameter:
    the same outcome and the same object left. *)
Theorem refit_after_fit_with_both_covariates {F : Type} {SF : Scalar F}
    (fuel : nat) (s : self F) (data : list (list F)) (sites : list Z)
    (d : list (list Z)) (c : list (list F))
    (fuel' : nat) (data' : list (list F)) (sites' : list Z)
    (dc' : option (list (list Z))) (cc' : option (list (list F))) :
  snd (fit fuel data sites (Some d) (Some c) s) = Ok tt ->
  fit fuel' data' sites' dc' cc' (fst (fit fuel data sites (Some d) (Some c) s))
  = fit fuel' data' sites' dc' cc' (__init__ F (copy s)).
Proof.
  intros Hfit.
  destruct (fit fuel data sites (Some d) (Some c) s) as [s' o] eqn:E.
  cbn [fst snd] in *. subst o.
  destruct (fit_Ok_inv fuel data sites (Some d) (Some c) s s' tt E)
    as (s0 & X & dc0 & cc0 & design & B & gm & vp & G & D &
        Hs0 & _ & _ & Hdc & Hcc & Hs' & _).
  assert (Hcopy : copy s0 = copy s) by (destruct Hs0 as [[_ ->] | [_ ->]]; reflexivity).
  destruct (check_array_categorical d) as [d0 | | ]; cbn in Hdc; inversion Hdc; subst dc0.
  destruct (check_array c) as [c0 | | ]; cbn in Hcc; inversion Hcc; subst cc0.
  assert (R : _reset s' = (__init__ F (copy s), Ok tt)).
  { rewrite Hs', <- Hcopy. reflexivity. }
  unfold fit. rewrite (bind_Ok _ _ _ _ _ _ _ R).
  rewrite (bind_Ok _ _ _ _ _ _ _ (reset_unfitted (__init__ F (copy s)) eq_refl)).
  reflexivity.
Qed.

(** X9, witness: the model of the six samples, fitted again on the four. *)
Lemma refit_after_fit_with_both_covariates_witness :
  fit 100 Example.data Example.sites None None
    (fst (fit 100 CovariatesExample.data CovariatesExample.sites
            (Some CovariatesExample.discrete) (Some CovariatesExample.continuous)
            Example.unfitted))
  = fit 100 Example.data Example.sites None None (__init__ float (copy Example.unfitted)).
Proof.
  apply (refit_after_fit_with_both_covariates 100 Example.unfitted
           CovariatesExample.data CovariatesExample.sites
           CovariatesExample.discrete CovariatesExample.continuous
           100 Example.data Example.sites None None).
  vm_compute. reflexivity.
Defined.

(** X10.  A flag left by a failed [fit] breaks later transforms.  [fit] sets
    [discrete_covariates_used] before it validates the discrete covariates:
    on an unfitted instance, with valid data and sites and discrete
    covariates that [check_array] refuses, it raises the error of the
    validation and leaves the flag set.  No later [fit] without discrete
    covariates clears the flag, so on the model such a [fit] produces,
    [transform] without discrete covariates raises on every batch. *)
Theorem failed_fit_leaves_flag_that_breaks_transform {F : Type} {SF : Scalar F}
    (fuel : nat) (s : self F) (data : list (list F)) (sites : list Z)
    (d : list (list Z)) (cc : option (list (list F))) (X : ndarray F) (e : exn) :
  n_sites s = None ->
  check_array data = Ok X ->
  length sites = nrows X ->
  check_array_categorical d = Raise e ->
  snd (fit fuel data sites (Some d) cc s) = Raise e /\
  discrete_covariates_used (fst (fit fuel data sites (Some d) cc s)) = Some true /\
  forall (fuel' : nat) (data' : list (list F)) (sites' : list Z)
         (cc' : option (list (list F))),
    snd (fit fuel' data' sites' None cc' (fst (fit fuel data sites (Some d) cc s))) = Ok tt ->
    forall (batch : list (list F)) (batch_sites : list Z)
           (batch_cc : option (list (list F))),
    exists e',
      snd (transform batch batch_sites None batch_cc
             (fst (fit fuel' data' sites' None cc'
                     (fst (fit fuel data sites (Some d) cc s))))) = Raise e'.
Proof.
  intros Hn HX Hlen Hd.
  assert (E : fit fuel data sites (Some d) cc s
              = (set_discrete_covariates_used (Some true) s, Raise e)).
  { unfold fit. rewrite (bind_Ok _ _ _ _ _ _ _ (reset_unfitted s Hn)).
    rewrite HX, bind_lift_Ok.
    rewrite check_array_sites_Ok
      by (apply check_array_Ok_inv in HX as (_ & Hr & _); destruct sites;
          [cbn in Hlen; lia | discriminate]).
    rewrite bind_lift_Ok.
    unfold check_consistent_length. rewrite Hlen, Nat.eqb_refl, bind_lift_Ok.
    unfold bind, setattr, lift. rewrite Hd. reflexivity. }
  rewrite E. cbn [fst snd].
  split; [reflexivity | ]. split; [now destruct s | ].
  intros fuel' data' sites' cc' Hfit batch batch_sites batch_cc.
  destruct (fit fuel' data' sites' None cc' _) as [s' o] eqn:E'.
  cbn [fst snd] in *. subst o.
  destruct (fit_Ok_inv fuel' data' sites' None cc' _ s' tt E')
    as (s0 & X' & dc0 & cc0 & design & B & gm & vp & G & D &
        Hs0 & _ & _ & Hdc & _ & Hs' & _ & _ & Hfm).
  inversion Hdc; subst dc0.
  assert (Hflag : discrete_covariates_used s' = Some true).
  { rewrite Hs'. cbn [fit_state discrete_covariates_used].
    destruct Hs0 as [[_ ->] | [Hk _]]; [now destruct s | ].
    destruct s; cbn in Hn, Hk. congruence. }
  unfold transform.
  rewrite (bind_Ok _ _ _ _ s' s' tt)
    by (unfold check_is_fitted; rewrite bind_hasattr, (fm_n_sites _ _ _ _ Hfm); reflexivity).
  pose proof (halts_check_array batch) as Hh.
  destruct (check_array batch) as [Xb | eb | ]; [ | eexists; reflexivity | now elim Hh].
  rewrite bind_lift_Ok.
  destruct (check_array_sites batch_sites) as [sb | eb | ] eqn:Es;
    [ | eexists; reflexivity
      | unfold check_array_sites in Es; destruct (length batch_sites =? 0); discriminate].
  rewrite bind_lift_Ok.
  destruct (check_consistent_length (nrows Xb) (length sb)) as [[] | eb | ] eqn:Ec;
    [ | eexists; reflexivity
      | unfold check_consistent_length in Ec;
        destruct (nrows Xb =? length sb); discriminate].
  rewrite bind_lift_Ok, bind_hasattr, Hflag. cbn [present].
  eexists. reflexivity.
Qed.

(** X10, witness: a first [fit] with a ragged array of discrete covariates. *)
Lemma failed_fit_leaves_flag_that_breaks_transform_witness :
  snd (fit 100 Example.data Example.sites (Some [[0]; [1; 2]]%Z) None Example.unfitted)
  = Raise (ValueError "setting an array element with a sequence.") /\
  discrete_covariates_used
    (fst (fit 100 Example.data Example.sites (Some [[0]; [1; 2]]%Z) None Example.unfitted))
  = Some true /\
  forall (fuel' : nat) (data' : list (list float)) (sites' : list Z)
         (cc' : option (list (list float))),
    snd (fit fuel' data' sites' None cc'
           (fst (fit 100 Example.data Example.sites (Some [[0]; [1; 2]]%Z) None
                   Example.unfitted))) = Ok tt ->
    forall (batch : list (list float)) (batch_sites : list Z)
           (batch_cc : option (list (list float))),
    exists e',
      snd (transform batch batch_sites None batch_cc
             (fst (fit fuel' data' sites' None cc'
                     (fst (fit 100 Example.data Example.sites (Some [[0]; [1; 2]]%Z) None
                             Example.unfitted))))) = Raise e'.
Proof.
  apply (failed_fit_leaves_flag_that_breaks_transform 100 Example.unfitted Example.data
           Example.sites [[0]; [1; 2]]%Z None (asarray 0%float Example.data)
           (ValueError "setting an array element with a sequence.")).
  - reflexivity.
  - vm_compute. reflexivity.
  - reflexivity.
  - reflexivity.
Defined.

(* ================================================================== *)
(** * The number of features of a batch *)

(** [transform] never compares the number of features of the batch with the
    number the model was fitted on; the two meet in the elementwise
    operations, under NumPy's broadcasting. *)
Section FeatureCount.
Context {F : Type} {SF : Scalar F}.

Lemma shaped_ew2_rows (op : F -> F -> F) (A B : ndarray F) (q : nat) :
  bcast_dim (nrows A) (nrows B) = Some q -> ncols A = ncols B ->
  shaped (ew2 op A B) q (ncols A).
Proof.
  intros Hr Hc. unfold ew2. rewrite Hr, <- Hc, bcast_dim_same.
  eexists. split; [reflexivity | auto].
Qed.

Lemma bcast_dim_keeps_left (q p : nat) :
  bcast_dim q p = Some q <-> (p = q \/ p = 1).
Proof.
  unfold bcast_dim.
  destruct (Nat.eqb_spec q p); [split; auto | ].
  destruct (Nat.eqb_spec q 1).
  - split; [intros H; inversion H; lia | intros [H | H]; f_equal; lia].
  - destruct (Nat.eqb_spec p 1).
    + split; auto.
    + split; [discriminate | intros [H | H]; lia].
Qed.

Lemma bcast_dim_result (a p q : nat) :
  bcast_dim a p = Some q -> bcast_dim q p = Some q.
Proof.
  intros H. apply bcast_dim_keeps_left. unfold bcast_dim in H.
  destruct (Nat.eqb_spec a p); [inversion H; lia | ].
  destruct (Nat.eqb_spec a 1); [inversion H; lia | ].
  destruct (Nat.eqb_spec p 1); [inversion H; lia | discriminate].
Qed.

(** The standardization of a batch of [a] features on a model of [p]. *)
Lemma standardize_transform_bcast (s : self F) (names : list Z) (p w n : nat)
    (data design : ndarray F) (nps : list nat) :
  fitted_model s names p w ->
  ncols data = n -> nrows design = n -> ncols design = w ->
  match bcast_dim (nrows data) p with
  | Some q =>
      exists std mean,
        _standardize_across_features data design n nps false s = (s, Ok (std, mean)) /\
        nrows std = q /\ ncols std = n /\ nrows mean = p /\ ncols mean = n
  | None =>
      _standardize_across_features data design n nps false s = (s, Raise broadcast_error)
  end.
Proof.
  intros [Hk _ (B & HB & HBr & HBc) (gm & Hgm & Hlg) (vp & Hvp & Hvr & Hvc) _ _ _]
         Hdc Hgr Hgc.
  unfold _standardize_across_features.
  rewrite bind_ret.
  rewrite (bind_getattr _ _ _ _ _ _ _ Hgm).
  rewrite dot_column_ones, bind_lift_Ok.
  rewrite (bind_getattr _ _ _ _ _ _ _ Hk).
  rewrite (bind_getattr _ _ _ _ _ _ _ HB).
  destruct (shaped_dot (zero_first_cols (length names) design) B)
    as (cov & Ecov & Hcr & Hcc).
  { cbn [ncols zero_first_cols tab]. lia. }
  rewrite Ecov, bind_lift_Ok.
  destruct (shaped_iadd (tab (length gm) n (fun i _ => vnth gm i)) (transpose zero cov))
    as (mean & Emean & Hmr & Hmc).
  { cbn [nrows ncols transpose tab zero_first_cols] in *. lia. }
  { cbn [nrows ncols transpose tab zero_first_cols] in *. lia. }
  rewrite Emean, bind_lift_Ok. cbn [nrows ncols tab] in Hmr, Hmc.
  destruct (bcast_dim (nrows data) p) as [q | ] eqn:Hq.
  - destruct (shaped_ew2_rows fsub data mean q) as (cen & Ecen & Hcer & Hcec);
      [rewrite Hmr, Hlg; exact Hq | lia | ].
    rewrite Ecen, bind_lift_Ok.
    rewrite (bind_getattr _ _ _ _ _ _ _ Hvp).
    rewrite dot_sqrt_ones by exact Hvc. rewrite bind_lift_Ok.
    destruct (shaped_ew2_rows fdiv cen
                (tab (nrows vp) n (fun i _ => fsqrt (at_ vp i 0))) q)
      as (std & Estd & Hsr & Hsc).
    { cbn [nrows tab]. rewrite Hcer, Hvr. exact (bcast_dim_result _ _ _ Hq). }
    { cbn [ncols tab]. lia. }
    rewrite Estd, bind_lift_Ok.
    exists std, mean. split; [reflexivity | ]. repeat split; lia.
  - unfold ew2. rewrite Hmr, Hlg, Hq. reflexivity.
Qed.

Lemma adjust_site_bcast (site_design G D : ndarray F) (nps : list nat)
    (bayes : ndarray F) (j : nat) (idx : list nat) (p q n k : nat) :
  bcast_dim q p = Some q ->
  nrows site_design = n -> ncols site_design = k ->
  nrows G = k -> ncols G = p -> nrows D = k -> ncols D = p ->
  nrows bayes = q -> ncols bayes = n ->
  j < k -> j < length nps -> nth j nps 0 = length idx ->
  (forall i, In i idx -> i < n) ->
  shaped (adjust_site site_design G D nps bayes j idx) q n.
Proof.
  intros Hq Hsr Hsc HGr HGc HDr HDc Hbr Hbc Hj Hjn Hnj Hidx.
  unfold adjust_site.
  rewrite (index_lt _ (rows_of zero D) j []) by (rewrite length_rows_of; lia).
  cbn [obind].
  rewrite (index_lt _ nps j 0) by exact Hjn. cbn [obind].
  rewrite dot_column_ones. cbn [obind].
  destruct (shaped_take_cols bayes idx) as (X & EX & HXr & HXc).
  { intros i Hi. rewrite Hbc. now apply Hidx. }
  rewrite EX. cbn [obind].
  destruct (shaped_take_rows site_design idx) as (S & ES & HSr & HSc).
  { intros i Hi. rewrite Hsr. now apply Hidx. }
  rewrite ES. cbn [obind].
  destruct (shaped_dot S G) as (SG & ESG & HSGr & HSGc); [lia | ].
  rewrite ESG. cbn [obind].
  destruct (shaped_ew2_rows fsub X (transpose zero SG) q) as (num & Enum & Hnr & Hnc).
  { cbn [nrows transpose tab]. rewrite HXr, Hbr, HSGc, HGc. exact Hq. }
  { cbn [ncols transpose tab]. lia. }
  rewrite Enum. cbn [obind].
  rewrite nth_rows_of by lia.
  destruct (shaped_ew2_rows fdiv num
              (tab (length (map fsqrt (row_of zero D j))) (nth j nps 0)
                 (fun i _ => vnth (map fsqrt (row_of zero D j)) i)) q)
    as (V & EV & HVr & HVc).
  { cbn [nrows tab]. rewrite length_map, length_row_of, Hnr, HDc. exact Hq. }
  { cbn [ncols tab]. lia. }
  rewrite EV. cbn [obind].
  destruct (shaped_set_cols bayes idx V) as (R & ER & HRr & HRc).
  { intros i Hi. rewrite Hbc. now apply Hidx. }
  { lia. }
  { lia. }
  exists R. split; [exact ER | ]. split; lia.
Qed.

Lemma adjust_sites_bcast (site_design G D : ndarray F) (nps : list nat)
    (p q n k : nat) (l : list (nat * list nat)) (bayes : ndarray F) :
  bcast_dim q p = Some q ->
  nrows site_design = n -> ncols site_design = k ->
  nrows G = k -> ncols G = p -> nrows D = k -> ncols D = p ->
  nrows bayes = q -> ncols bayes = n ->
  (forall j idx, In (j, idx) l ->
     j < k /\ j < length nps /\ nth j nps 0 = length idx /\
     forall i, In i idx -> i < n) ->
  shaped (adjust_sites site_design G D nps bayes l) q n.
Proof.
  intros Hq Hsr Hsc HGr HGc HDr HDc Hbr Hbc Hl. revert bayes Hbr Hbc.
  induction l as [| [j idx] l IH]; intros bayes Hbr Hbc; cbn [adjust_sites].
  - exists bayes. auto.
  - destruct (Hl j idx (or_introl eq_refl)) as (Hj & Hjn & Hnj & Hidx).
    destruct (adjust_site_bcast site_design G D nps bayes j idx p q n k)
      as (bayes' & E & Hr & Hc); try assumption.
    rewrite E. cbn [obind]. apply IH; [ | assumption | assumption].
    intros j' idx' Hin. apply Hl. now right.
Qed.

Lemma adjust_data_final_bcast (s : self F) (names : list Z) (p q w n : nat)
    (std design mean : ndarray F) (sites : list Z) :
  fitted_model s names p w ->
  bcast_dim q p = Some q ->
  nrows std = q -> ncols std = n -> nrows mean = p -> ncols mean = n ->
  nrows design = n -> ncols design = w -> length sites = n ->
  exists Y,
    _adjust_data_final std design mean (map (count_eq sites) names) n
      (map (np_where_eq sites) names) s = (s, Ok Y) /\
    nrows Y = q /\ ncols Y = n.
Proof.
  intros [Hk _ _ _ (vp & Hvp & Hvr & Hvc) (G & HG & HGr & HGc) (D & HD & HDr & HDc) Hw]
         Hq Hsr Hsc Hmr Hmc Hdr Hdc Hls.
  unfold _adjust_data_final.
  rewrite (bind_getattr _ _ _ _ _ _ _ Hk).
  rewrite (bind_getattr _ _ _ _ _ _ _ Hvp).
  rewrite (bind_getattr _ _ _ _ _ _ _ HG).
  rewrite (bind_getattr _ _ _ _ _ _ _ HD).
  destruct (adjust_sites_bcast (first_cols (length names) design) G D
              (map (count_eq sites) names) p q n (length names)
              (enumerate (map (np_where_eq sites) names)) std)
    as (bayes & Eb & Hbr & Hbc); try assumption.
  { cbn [ncols first_cols tab]. lia. }
  { intros j idx Hin. apply In_enumerate in Hin as (Hj & Hnth).
    rewrite length_map in Hj.
    rewrite nth_error_map in Hnth.
    destruct (nth_error names j) as [x | ] eqn:Ex; [ | discriminate].
    cbn in Hnth. injection Hnth as <-.
    split; [exact Hj | ]. split; [rewrite length_map; exact Hj | ]. split.
    - rewrite (nth_map_lt _ _ (count_eq sites) names 0%Z 0) by exact Hj.
      rewrite (nth_error_nth _ _ 0%Z Ex). symmetry. apply length_np_where_eq.
    - intros i Hi. rewrite <- Hls. eapply np_where_eq_in_range, Hi. }
  rewrite Eb, bind_lift_Ok.
  rewrite dot_sqrt_ones by exact Hvc. rewrite bind_lift_Ok.
  destruct (shaped_ew2_rows fmul bayes
              (tab (nrows vp) n (fun i _ => fsqrt (at_ vp i 0))) q)
    as (scaled & Es & Hscr & Hscc).
  { cbn [nrows tab]. rewrite Hbr, Hvr. exact Hq. }
  { cbn [ncols tab]. lia. }
  rewrite Es, bind_lift_Ok.
  destruct (shaped_ew2_rows fadd scaled mean q) as (Y & EY & HYr & HYc);
    [rewrite Hscr, Hmr; exact Hq | lia | ].
  rewrite EY, bind_lift_Ok.
  exists Y. split; [reflexivity | split; lia].
Qed.

(** [transform] on a model fitted without covariates, for a batch of any
    number of features. *)
Lemma transform_any_feature_count (s : self F) (names : list Z) (p : nat)
    (data : list (list F)) (sites : list Z) (X : ndarray F) :
  fitted_model s names p (length names) ->
  site_encoder s = Some {| categories_ := names |} ->
  discrete_covariates_used s = None ->
  continuous_covariates_used s = None ->
  check_array data = Ok X ->
  length sites = nrows X ->
  (forall x, In x sites -> In x names) ->
  match bcast_dim (ncols X) p with
  | Some q =>
      exists Y, snd (transform data sites None None s) = Ok Y /\
                nrows Y = nrows X /\ ncols Y = q
  | None => snd (transform data sites None None s) = Raise broadcast_error
  end.
Proof.
  intros Hfm Henc Hd Hc HX Hls Hseen.
  pose proof Hfm as [Hk Hnames _ _ _ _ _ _].
  apply check_array_Ok_inv in HX as HXi. destruct HXi as (_ & HXr & HXc & HXl).
  assert (E : transform data sites None None s
            = (design <- _make_design_matrix sites None None false ;;
               '(standardized_data, standardized_mean) <-
                 _standardize_across_features (transpose zero X) design (length sites)
                   (map (count_eq sites) names) false ;;
               bayes_data <- _adjust_data_final standardized_data design standardized_mean
                               (map (count_eq sites) names) (length sites)
                               (map (np_where_eq sites) names) ;;
               ret (transpose zero bayes_data)) s).
  { unfold transform.
    rewrite (bind_Ok _ _ _ _ s s tt)
      by (unfold check_is_fitted, bind, hasattr; now rewrite Hk).
    rewrite HX, bind_lift_Ok.
    rewrite check_array_sites_Ok by (destruct sites; [cbn in Hls; lia | discriminate]).
    rewrite bind_lift_Ok.
    unfold check_consistent_length. rewrite Hls, Nat.eqb_refl, bind_lift_Ok.
    rewrite bind_hasattr, Hd. cbn [present option_map]. rewrite bind_ret.
    rewrite bind_hasattr, Hc. cbn [present option_map]. rewrite bind_ret.
    rewrite (bind_getattr _ _ _ _ _ _ _ Hnames).
    rewrite all_sites_seen_true by exact Hseen. cbn [negb].
    rewrite (bind_getattr _ _ _ _ _ _ _ Hnames). reflexivity. }
  rewrite E. clear E.
  rewrite (bind_Ok _ _ _ _ _ _ _ (make_design_matrix_sites_only s _ sites Henc Hseen)).
  cbn [categories_].
  pose proof (standardize_transform_bcast s names p (length names) (length sites)
                (transpose zero X)
                (tab (length sites) (length names)
                   (fun i j => if (nth i sites 0 =? nth j names 0)%Z then one else zero))
                (map (count_eq sites) names) Hfm) as Hstd.
  cbn [nrows ncols transpose tab] in Hstd.
  specialize (Hstd (eq_sym Hls) eq_refl eq_refl).
  destruct (bcast_dim (ncols X) p) as [q | ] eqn:Hq.
  - destruct Hstd as (std & mean & Es & Hsr & Hsc & Hmr & Hmc).
    rewrite (bind_Ok _ _ _ _ _ _ _ Es).
    destruct (adjust_data_final_bcast s names p q (length names) (length sites) std
                (tab (length sites) (length names)
                   (fun i j => if (nth i sites 0 =? nth j names 0)%Z then one else zero))
                mean sites Hfm (bcast_dim_result _ _ _ Hq))
      as (Y & EY & HYr & HYc); try assumption; try reflexivity.
    rewrite (bind_Ok _ _ _ _ _ _ _ EY).
    eexists. split; [reflexivity | ]. cbn [nrows ncols transpose tab]. lia.
  - unfold bind at 1. rewrite Hstd. reflexivity.
Qed.

End FeatureCount.

(** X11.  [transform] broadcasts over the number of features.  For a model
    fitted without covariates on [p] features, and a valid batch of its
    sites with another number of features: a batch of one feature is
    accepted and comes back with [p] columns; on a model of one feature a
    batch of any number of features is accepted and comes back with its own
    number of columns; and in every other case the call raises the
    [ValueError] of a failed broadcast. *)
Theorem transform_broadcasts_over_the_feature_count {F : Type} {SF : Scalar F}
    (fuel : nat) (s : self F) (data : list (list F)) (sites : list Z)
    (batch : list (list F)) (batch_sites : list Z) (X : ndarray F) :
  n_sites s = None ->
  discrete_covariates_used s = None ->
  continuous_covariates_used s = None ->
  snd (fit fuel data sites None None s) = Ok tt ->
  check_array batch = Ok X ->
  length batch_sites = nrows X ->
  (forall x, In x batch_sites -> In x sites) ->
  (ncols X = 1 ->
   exists Y,
     snd (transform batch batch_sites None None (fst (fit fuel data sites None None s)))
     = Ok Y /\
     nrows Y = nrows X /\ ncols Y = length (hd [] data)) /\
  (length (hd [] data) = 1 ->
   exists Y,
     snd (transform batch batch_sites None None (fst (fit fuel data sites None None s)))
     = Ok Y /\
     nrows Y = nrows X /\ ncols Y = ncols X) /\
  (ncols X <> length (hd [] data) -> ncols X <> 1 -> length (hd [] data) <> 1 ->
   snd (transform batch batch_sites None None (fst (fit fuel data sites None None s)))
   = Raise broadcast_error).
Proof.
  intros Hn Hd Hc Hfit HX Hls Hsub.
  destruct (fit fuel data sites None None s) as [s' o] eqn:E.
  cbn [fst snd] in *. subst o.
  destruct (fit_Ok_fitted_model fuel data sites None None s s' tt E)
    as (w & Hfm & Henc & Hw).
  specialize (Hw eq_refl eq_refl). subst w.
  assert (Hflags : (discrete_covariates_used s', continuous_covariates_used s')
                   = (discrete_covariates_used s, continuous_covariates_used s)).
  { unfold fit in E. apply bind_Ok_inv in E as (s1 & u & Er & E).
    rewrite (reset_unfitted s Hn) in Er. inversion Er; subst s1.
    refine (keeps_Ok (fun s => (discrete_covariates_used s, continuous_covariates_used s))
              _ _ _ _ _ _ E).
    keeps_tac. }
  injection Hflags as Hd' Hc'. rewrite Hd in Hd'. rewrite Hc in Hc'.
  pose proof (transform_any_feature_count s' (np_unique sites) (length (hd [] data))
                batch batch_sites X Hfm Henc Hd' Hc' HX Hls
                (fun x Hx => proj2 (In_np_unique x sites) (Hsub x Hx))) as H.
  unfold bcast_dim in H. split; [ | split].
  - intros H1. rewrite H1 in H.
    destruct (Nat.eqb_spec 1 (length (hd [] data))) as [<- | _]; exact H.
  - intros H1. rewrite H1 in H.
    destruct (Nat.eqb_spec (ncols X) 1) as [-> | _]; exact H.
  - intros H1 H2 H3.
    destruct (Nat.eqb_spec (ncols X) (length (hd [] data))); [contradiction | ].
    destruct (Nat.eqb_spec (ncols X) 1); [contradiction | ].
    destruct (Nat.eqb_spec (length (hd [] data)) 1); [contradiction | exact H].
Qed.

(** X11, witness: a batch of one feature on the model of two features. *)
Lemma transform_broadcasts_over_the_feature_count_witness :
  (ncols (asarray 0%float [[1]; [3]]%float) = 1 ->
   exists Y,
     snd (transform [[1]; [3]]%float [2; 2]%Z None None
            (fst (fit 100 Example.data Example.sites None None Example.unfitted)))
     = Ok Y /\
     nrows Y = nrows (asarray 0%float [[1]; [3]]%float) /\
     ncols Y = length (hd [] Example.data)) /\
  (length (hd [] Example.data) = 1 ->
   exists Y,
     snd (transform [[1]; [3]]%float [2; 2]%Z None None
            (fst (fit 100 Example.data Example.sites None None Example.unfitted)))
     = Ok Y /\
     nrows Y = nrows (asarray 0%float [[1]; [3]]%float) /\
     ncols Y = ncols (asarray 0%float [[1]; [3]]%float)) /\
  (ncols (asarray 0%float [[1]; [3]]%float) <> length (hd [] Example.data) ->
   ncols (asarray 0%float [[1]; [3]]%float) <> 1 ->
   length (hd [] Example.data) <> 1 ->
   snd (transform [[1]; [3]]%float [2; 2]%Z None None
          (fst (fit 100 Example.data Example.sites None None Example.unfitted)))
   = Raise broadcast_error).
Proof.
  apply (transform_broadcasts_over_the_feature_count 100 Example.unfitted Example.data
           Example.sites [[1]; [3]]%float [2; 2]%Z (asarray 0%float [[1]; [3]]%float)).
  - reflexivity.
  - reflexivity.
  - reflexivity.
  - vm_compute. reflexivity.
  - vm_compute. reflexivity.
  - reflexivity.
  - intros x [<- | [<- | []]]; cbn; auto.
Defined.

(* ================================================================== *)
(** * The layout of the design matrix *)

Section DesignLayout.
Context {F : Type} {SF : Scalar F}.

Tactic Notation "inv_lift" hyp(H) "as" ident(x) ident(E) :=
  let s1 := fresh "s" in
  apply bind_Ok_inv in H; destruct H as (s1 & x & E & H);
  apply lift_Ok_inv in E; destruct E as [-> E]; cbv beta iota zeta in H.

Tactic Notation "inv_getattr" hyp(H) "as" ident(x) ident(E) :=
  let s1 := fresh "s" in
  apply bind_Ok_inv in H; destruct H as (s1 & x & E & H);
  apply getattr_Ok_inv in E; destruct E as [-> E]; cbv beta iota zeta in H.

Tactic Notation "inv_setattr" hyp(H) :=
  let s1 := fresh "s" in let u := fresh "u" in let E := fresh "E" in
  apply bind_Ok_inv in H; destruct H as (s1 & u & E & H);
  apply setattr_Ok_inv in E; subst s1; cbv beta iota zeta in H.

(** [np.hstack] puts the blocks side by side: the widths add up and the
    first block keeps its place. *)
Lemma hstack_from_Ok_layout (l : list (ndarray F)) :
  forall A M : ndarray F,
  hstack_from A l = Ok M ->
  ncols M = ncols A + list_sum (map (@ncols F) l) /\
  forall i j, i < nrows A -> j < ncols A -> at_ M i j = at_ A i j.
Proof.
  induction l as [| B l IH]; intros A M; cbn [hstack_from map].
  - intros H. inversion H. cbn. split; [lia | reflexivity].
  - unfold hstack2. destruct (nrows A =? nrows B); cbn [obind]; [ | discriminate].
    intros H. apply IH in H as [Hc Hv]. cbn [nrows ncols tab] in Hc, Hv.
    split; [unfold list_sum in *; cbn [fold_right]; lia | ].
    intros i j Hi Hj. rewrite Hv by lia. rewrite at_tab by lia.
    destruct (Nat.ltb_spec j (ncols A)); [reflexivity | lia].
Qed.

Lemma index_map_seq (A : Type) (f : nat -> A) (n i : nat) :
  i < n -> index (map f (seq 0 n)) i = Ok (f i).
Proof.
  intros Hi. unfold index.
  rewrite nth_error_map, nth_error_seq.
  destruct (Nat.ltb_spec i n); [reflexivity | lia].
Qed.

(** The block of a discrete covariate has a column per category of the
    covariate but the first. *)
Lemma discrete_blocks_widths (d : ndarray Z) (xs : list nat) :
  forall (acc dl : list (ndarray F)) (s s' : self F),
  discrete_encoders s
  = Some (map (fun i => encoder_fit (col_of 0%Z d i)) (seq 0 (ncols d))) ->
  (forall x, In x xs -> x < ncols d) ->
  for_fold xs acc (fun design_list i =>
      encs <- getattr "discrete_encoders" (@discrete_encoders F) ;;
      discrete_encoder <- lift (index encs i) ;;
      discrete_covariate_one_hot <-
        lift (encoder_transform discrete_encoder (col_of 0%Z d i)) ;;
      let discrete_covariate_design := drop_first_col discrete_covariate_one_hot in
      ret (design_list ++ [discrete_covariate_design])) s = (s', Ok dl) ->
  map (@ncols F) dl
  = map (@ncols F) acc
    ++ map (fun i => length (np_unique (col_of 0%Z d i)) - 1) xs.
Proof.
  induction xs as [| x xs IH]; intros acc dl s s' Hs Hxs; cbn [for_fold map].
  - intros H. apply ret_inv in H as [_ <-]. now rewrite app_nil_r.
  - intros H. apply bind_Ok_inv in H as (s1 & acc' & E & H).
    inv_getattr E as encs Eencs. inv_lift E as enc Eenc. inv_lift E as oh Eoh.
    apply ret_inv in E as [-> <-].
    rewrite Hs in Eencs. injection Eencs as <-.
    rewrite index_map_seq in Eenc by (apply Hxs; now left).
    injection Eenc as <-.
    apply encoder_transform_Ok_ncols in Eoh. cbn [categories_ encoder_fit] in Eoh.
    rewrite (IH _ dl s s' Hs (fun y Hy => Hxs y (or_intror Hy)) H).
    rewrite map_app, <- app_assoc. cbn [map app ncols drop_first_col tab].
    now rewrite Eoh.
Qed.

Lemma make_design_matrix_layout (sites : list Z) (dc : option (ndarray Z))
    (cc : option (ndarray F)) (s s' : self F) (design : ndarray F) :
  _make_design_matrix sites dc cc true s = (s', Ok design) ->
  nrows design = length sites /\
  ncols design
  = length (np_unique sites)
    + match dc with
      | Some d =>
          list_sum (map (fun i => length (np_unique (col_of 0%Z d i)) - 1)
                      (seq 0 (ncols d)))
      | None => 0
      end
    + match cc with Some c => ncols c | None => 0 end /\
  forall k j, k < length sites -> j < length (np_unique sites) ->
    at_ design k j = if (nth k sites 0 =? nth j (np_unique sites) 0)%Z then one else zero.
Proof.
  intros H.
  pose proof (make_design_matrix_fit_inv sites dc cc s s' design H) as (_ & Hrows & _).
  split; [exact Hrows | ].
  unfold _make_design_matrix in H.
  inv_setattr H. inv_getattr H as enc Eenc.
  assert (enc = encoder_fit sites) by (destruct s; cbn in Eenc; congruence). subst enc.
  inv_lift H as sites_design Esd.
  rewrite encoder_transform_known in Esd by (intros x Hx; now apply In_np_unique).
  injection Esd as <-. cbn [categories_ encoder_fit] in H.
  apply bind_Ok_inv in H as (s3 & design_list & E & H).
  apply lift_Ok_inv in H as [-> H].
  set (sd := tab (length sites) (length (np_unique sites))
               (fun i j => if (nth i sites 0 =? nth j (np_unique sites) 0)%Z
                           then one else zero)) in *.
  assert (Hdl : exists l,
             design_list = sd :: l /\
             list_sum (map (@ncols F) l)
             = match dc with
               | Some d =>
                   list_sum (map (fun i => length (np_unique (col_of 0%Z d i)) - 1)
                               (seq 0 (ncols d)))
               | None => 0
               end).
  { destruct dc as [d | ].
    - apply bind_Ok_inv in E as (s0 & v0 & E0 & E1).
      apply bind_Ok_inv in E0 as (s00 & u0 & E00 & E0).
      apply setattr_Ok_inv in E00. subst s00.
      rewrite (fit_discrete_encoders d (seq 0 (ncols d)) []) in E0
        by (now destruct s).
      cbn [app] in E0. inversion E0; subst s0 v0. clear E0.
      pose proof (discrete_blocks_agree d _ _ _ _ _ _ eq_refl E1) as (_ & (l & ->) & _).
      apply discrete_blocks_widths in E1.
      + exists l. split; [reflexivity | ].
        cbn [map app] in E1. injection E1 as E1. now rewrite E1.
      + now destruct s.
      + intros x Hx. apply in_seq in Hx. lia.
    - apply ret_inv in E as [_ <-]. exists []. split; reflexivity. }
  destruct Hdl as (l & -> & Hl).
  assert (Hlay : ncols design
                 = ncols sd + (list_sum (map (@ncols F) l)
                               + match cc with Some c => ncols c | None => 0 end) /\
                 forall i j, i < nrows sd -> j < ncols sd -> at_ design i j = at_ sd i j).
  { destruct cc as [c | ]; cbn [app hstack] in H;
      apply hstack_from_Ok_layout in H as [Hc Hv]; (split; [ | exact Hv]);
      rewrite Hc, ?map_app, ?list_sum_app; unfold list_sum; cbn [map fold_right]; lia. }
  destruct Hlay as [Hc Hv]. cbn [nrows ncols sd tab] in Hc, Hv. split.
  - rewrite Hc, Hl. lia.
  - intros k j Hk Hj. rewrite Hv by assumption. unfold sd. now rewrite at_tab.
Qed.

End DesignLayout.

(** X12.  The layout of the design matrix.  The matrix that
    [_make_design_matrix] builds when fitting has a row per sample; its
    columns are one per site, then for each discrete covariate one per
    category but the first, then the continuous covariates; and the site
    columns are the indicators of the sites, in the order of the sorted site
    values: row [k] holds a one at the column of the site of sample [k] and
    zeros at the other site columns. *)
Theorem design_matrix_layout {F : Type} {SF : Scalar F}
    (sites : list Z) (dc : option (ndarray Z)) (cc : option (ndarray F))
    (s : self F) (design : ndarray F) :
  snd (_make_design_matrix sites dc cc true s) = Ok design ->
  nrows design = length sites /\
  ncols design
  = length (np_unique sites)
    + match dc with
      | Some d =>
          list_sum (map (fun i => length (np_unique (col_of 0%Z d i)) - 1)
                      (seq 0 (ncols d)))
      | None => 0
      end
    + match cc with Some c => ncols c | None => 0 end /\
  forall k j, k < length sites -> j < length (np_unique sites) ->
    at_ design k j = if (nth k sites 0 =? nth j (np_unique sites) 0)%Z then one else zero.
Proof.
  intros H. destruct (_make_design_matrix sites dc cc true s) as [s' o] eqn:E.
  cbn [snd] in H. subst o.
  exact (make_design_matrix_layout sites dc cc s s' design E).
Qed.

(** X12, witness: four samples of two sites, a discrete covariate of two
    categories and a continuous one. *)
Lemma design_matrix_layout_witness :
  let design : ndarray float :=
    NDArray 4 4 [[1; 0; 0; 5]; [1; 0; 1; 6]; [0; 1; 0; 7]; [0; 1; 1; 8]]%float in
  nrows design = length Example.sites /\
  ncols design
  = length (np_unique Example.sites)
    + list_sum (map (fun i => length (np_unique
                                        (col_of 0%Z (asarray 0%Z SubsetExample.covariate) i)) - 1)
                  (seq 0 (ncols (asarray 0%Z SubsetExample.covariate))))
    + ncols (asarray 0%float [[5]; [6]; [7]; [8]]%float) /\
  forall k j, k < length Example.sites -> j < length (np_unique Example.sites) ->
    at_ design k j
    = if (nth k Example.sites 0 =? nth j (np_unique Example.sites) 0)%Z
      then one else zero.
Proof.
  exact (design_matrix_layout Example.sites
           (Some (asarray 0%Z SubsetExample.covariate))
           (Some (asarray 0%float [[5]; [6]; [7]; [8]]%float))
           Example.unfitted
           (NDArray 4 4 [[1; 0; 0; 5]; [1; 0; 1; 6]; [0; 1; 0; 7]; [0; 1; 1; 8]]%float)
           eq_refl).
Defined.

(* ================================================================== *)
(** * The columns [CombatHarmonizer] sets aside *)

Section RecombineFacts.
Import Harmonizer.
Variables Series Value Array Estimator : Type.
Variable set_iter : list string -> list string.
Variable setitem_all : DataFrame Series -> Array -> result (DataFrame Series).

Lemma mem_true (c : string) (l : list string) : mem c l = true <-> In c l.
Proof.
  unfold mem. rewrite existsb_exists. split.
  - intros (x & Hx & E). apply String.eqb_eq in E. now subst.
  - intros H. exists c. split; [exact H | apply String.eqb_refl].
Qed.

Lemma mem_false (c : string) (l : list string) : mem c l = false <-> ~ In c l.
Proof.
  rewrite <- mem_true. destruct (mem c l); split; congruence.
Qed.

Lemma forallb_mem (check labels : list string) :
  forallb (fun c => mem c labels) check = true <->
  (forall c, In c check -> In c labels).
Proof.
  rewrite forallb_forall. split; intros H c Hc; apply mem_true, H, Hc.
Qed.

(** ** Positions of labels *)

Lemma get_loc_In (labels : list string) (c : string) :
  In c labels -> exists p, get_loc labels c = Some p.
Proof.
  induction labels as [| c' labels IH]; cbn; [contradiction | ].
  intros H. destruct (String.eqb_spec c' c) as [-> | Hne].
  - exists 0. reflexivity.
  - destruct H as [H | H]; [contradiction | ].
    destruct (IH H) as (p & ->). exists (S p). reflexivity.
Qed.

Lemma get_loc_nth_error (labels : list string) (c : string) (p : nat) :
  get_loc labels c = Some p -> nth_error labels p = Some c.
Proof.
  revert p. induction labels as [| c' labels IH]; intros p; cbn; [discriminate | ].
  destruct (String.eqb_spec c' c) as [-> | Hne].
  - intros H. injection H as <-. reflexivity.
  - destruct (get_loc labels c) as [q | ]; cbn; [ | discriminate].
    intros H. injection H as <-. cbn. now apply IH.
Qed.

Lemma get_loc_lt (labels : list string) (c : string) (p : nat) :
  get_loc labels c = Some p -> p < length labels.
Proof.
  intros H. apply get_loc_nth_error in H. apply nth_error_Some. congruence.
Qed.

(** In a list without repeats, a label sits at one position only. *)
Lemma NoDup_position (labels : list string) (c : string) (p q : nat) :
  NoDup labels ->
  nth_error labels p = Some c -> nth_error labels q = Some c -> p = q.
Proof.
  intros Hnd Hp Hq.
  apply (proj1 (NoDup_nth_error labels) Hnd).
  - apply nth_error_Some. congruence.
  - congruence.
Qed.

(** ** Inserting at a position *)

Definition insert_at {A : Type} (l : list A) (p : nat) (x : A) : list A :=
  firstn p l ++ x :: skipn p l.

Lemma length_insert_at (A : Type) (l : list A) (p : nat) (x : A) :
  length (insert_at l p x) = S (length l).
Proof.
  unfold insert_at. rewrite length_app. cbn [length].
  assert (E : length (firstn p l) + length (skipn p l) = length l)
    by (now rewrite <- length_app, firstn_skipn).
  lia.
Qed.

Lemma nth_error_insert_at (A : Type) (l : list A) (p : nat) (x : A) (i : nat) :
  p <= length l ->
  nth_error (insert_at l p x) i
  = if i <? p then nth_error l i
    else if i =? p then Some x
    else nth_error l (i - 1).
Proof.
  intros Hp. unfold insert_at.
  assert (Hl : length (firstn p l) = p) by (rewrite length_firstn; lia).
  destruct (Nat.ltb_spec i p).
  - rewrite nth_error_app1 by lia. now rewrite nth_error_firstn, (proj2 (Nat.ltb_lt i p)).
  - rewrite nth_error_app2 by lia. rewrite Hl.
    destruct (Nat.eqb_spec i p) as [-> | Hne].
    + now rewrite Nat.sub_diag.
    + destruct (i - p) as [| k] eqn:E; [lia | ]. cbn [nth_error].
      rewrite nth_error_skipn. f_equal. lia.
Qed.

Lemma columns_insert_at (X : DataFrame Series) (p : nat) (c : string) (v : Series) :
  columns (insert_at X p (c, v)) = insert_at (columns X) p c.
Proof.
  unfold columns, insert_at. now rewrite map_app, firstn_map, skipn_map.
Qed.

(** ** [pop] and [insert] *)

(** [X.pop(c)] takes out the column at [X.columns.get_loc(c)]. *)
Lemma pop_spec (X : DataFrame Series) (c : string) (p : nat) :
  get_loc (columns X) c = Some p ->
  exists v X',
    pop X c = Some (v, X') /\ X = insert_at X' p (c, v) /\ p <= length X'.
Proof.
  revert p. induction X as [| [c' v'] X IH]; intros p; [discriminate | ].
  change (columns ((c', v') :: X)) with (c' :: columns X). cbn [get_loc pop].
  destruct (String.eqb_spec c' c) as [-> | Hne].
  - intros H. injection H as <-. exists v', X. repeat split. lia.
  - destruct (get_loc (columns X) c) as [q | ] eqn:E; cbn; [ | discriminate].
    intros H. injection H as <-.
    destruct (IH q eq_refl) as (v & X' & -> & HX & Hq).
    exists v, ((c', v') :: X'). split; [reflexivity | ]. split.
    + unfold insert_at in *. cbn [firstn skipn app]. now rewrite <- HX.
    + cbn [length]. lia.
Qed.

Lemma NoDup_insert_at (labels : list string) (p : nat) (c : string) :
  NoDup (insert_at labels p c) -> NoDup labels /\ ~ In c labels.
Proof.
  unfold insert_at. intros H.
  pose proof (NoDup_remove _ _ _ H) as [H1 H2].
  now rewrite firstn_skipn in H1, H2.
Qed.

Lemma insert_Returns (X : DataFrame Series) (p : nat) (c : string) (v : Series) :
  ~ In c (columns X) -> p <= length X ->
  insert X p c v = Returns (insert_at X p (c, v)).
Proof.
  intros Hc Hp. unfold insert.
  rewrite (proj2 (mem_false c (columns X)) Hc).
  destruct (Nat.ltb_spec (length X) p); [lia | reflexivity].
Qed.

Lemma insert_out_of_bounds (X : DataFrame Series) (p : nat) (c : string) (v : Series) :
  ~ In c (columns X) -> length X < p ->
  insert X p c v = Raises (Other (IndexError "index is out of bounds")).
Proof.
  intros Hc Hp. unfold insert.
  rewrite (proj2 (mem_false c (columns X)) Hc).
  destruct (Nat.ltb_spec (length X) p); [reflexivity | lia].
Qed.

(** ** The check of the columns *)

Lemma check_columns_passes (self : CombatHarmonizer) (w : world Series Value Estimator) :
  (forall c, In c (dc self) -> In c (columns (frame w))) ->
  (forall c, In c (ex self) -> In c (columns (frame w))) ->
  check_columns set_iter self w = (w, Returns tt).
Proof.
  intros Hdc Hex. unfold check_columns. cbn [hfor_each].
  unfold hbind, get_frame, hret.
  repeat (rewrite (proj2 (forallb_mem _ _)) by assumption; cbn [negb]; cbv beta iota).
  reflexivity.
Qed.

(** ** Running the statements of [_recombine] *)

Lemma hbind_Returns (A B : Type) (m : H Series Value Estimator A)
    (k : A -> H Series Value Estimator B) (w w' : world Series Value Estimator) (a : A) :
  m w = (w', Returns a) -> hbind m k w = k a w'.
Proof. intros E. unfold hbind. now rewrite E. Qed.

Lemma hbind_Raises (A B : Type) (m : H Series Value Estimator A)
    (k : A -> H Series Value Estimator B) (w w' : world Series Value Estimator) (e : error) :
  m w = (w', Raises e) -> hbind m k w = (w', Raises e).
Proof. intros E. unfold hbind. now rewrite E. Qed.

Lemma hbind_hret (A B : Type) (a : A) (k : A -> H Series Value Estimator B)
    (w : world Series Value Estimator) :
  hbind (hret a) k w = k a w.
Proof. reflexivity. Qed.

Lemma hbind_get_frame (B : Type) (k : DataFrame Series -> H Series Value Estimator B)
    (w : world Series Value Estimator) :
  hbind (@get_frame Series Value Estimator) k w = k (frame w) w.
Proof. reflexivity. Qed.

Lemma hbind_set_frame (B : Type) (X : DataFrame Series)
    (k : unit -> H Series Value Estimator B) (w : world Series Value Estimator) :
  hbind (set_frame X) k w = k tt (World X (site2idx_map w) (transformer w) (stdout w)).
Proof. reflexivity. Qed.

Lemma hbind_hlift_Returns (A B : Type) (a : A) (k : A -> H Series Value Estimator B)
    (w : world Series Value Estimator) :
  hbind (hlift (Returns a)) k w = k a w.
Proof. reflexivity. Qed.

(** One column set aside, when it is in the frame. *)
Lemma set_aside_step (c : string) (rest : list string) (w : world Series Value Estimator)
    (p : nat) :
  get_loc (columns (frame w)) c = Some p ->
  exists v X',
    frame w = insert_at X' p (c, v) /\ p <= length X' /\
    set_aside (c :: rest) w
    = hbind (set_aside rest) (fun l => hret ((p, c, v) :: l))
        (World X' (site2idx_map w) (transformer w) (stdout w)).
Proof.
  intros Hp. destruct (pop_spec (frame w) c p Hp) as (v & X' & Epop & HX & Hle).
  exists v, X'. split; [exact HX | ]. split; [exact Hle | ].
  cbn [set_aside]. rewrite hbind_get_frame, Hp, Epop, hbind_set_frame. reflexivity.
Qed.

(** One column put back. *)
Lemma insert_all_step (p : nat) (c : string) (v : Series)
    (rest : list (nat * string * Series)) (w : world Series Value Estimator) :
  ~ In c (columns (frame w)) -> p <= length (frame w) ->
  insert_all ((p, c, v) :: rest) w
  = insert_all rest (World (insert_at (frame w) p (c, v)) (site2idx_map w) (transformer w) (stdout w)).
Proof.
  intros Hc Hp. unfold insert_all. cbn [hfor_each].
  rewrite (hbind_Returns _ _ _ _ w
             (World (insert_at (frame w) p (c, v)) (site2idx_map w) (transformer w) (stdout w)) tt).
  - reflexivity.
  - rewrite hbind_get_frame, insert_Returns, hbind_hlift_Returns by assumption.
    reflexivity.
Qed.

Lemma insert_all_out_of_bounds (p : nat) (c : string) (v : Series)
    (rest : list (nat * string * Series)) (w : world Series Value Estimator) :
  ~ In c (columns (frame w)) -> length (frame w) < p ->
  insert_all ((p, c, v) :: rest) w
  = (w, Raises (Other (IndexError "index is out of bounds"))).
Proof.
  intros Hc Hp. unfold insert_all. cbn [hfor_each].
  apply hbind_Raises.
  rewrite hbind_get_frame, insert_out_of_bounds by assumption. reflexivity.
Qed.

Lemma In_insert_at (A : Type) (l : list A) (p : nat) (x y : A) :
  In y (insert_at l p x) <-> y = x \/ In y l.
Proof.
  unfold insert_at. rewrite in_app_iff. cbn [In].
  assert (E : In y l <-> In y (firstn p l) \/ In y (skipn p l))
    by (now rewrite <- in_app_iff, firstn_skipn).
  rewrite E. intuition.
Qed.

(** ** One column set aside *)

(** X13.  With one column set aside, the frame comes back as it was.  For a
    harmonizer whose excluded columns are a single one (the sites, no
    covariates), a frame of distinct column labels that holds it, and a
    wrapped method that returns an estimator and leaves the frame it receives
    alone (as [fit] does), [_recombine] returns the harmonizer and the
    caller's frame is again the frame it was: the same columns in the same
    order. *)
Theorem recombine_restores_a_single_column (self : CombatHarmonizer)
    (method : H Series Value Estimator (output Array)) (w : world Series Value Estimator)
    (c : string) :
  ex self = [c] ->
  (forall c', In c' (dc self) -> In c' (ex self)) ->
  In c (columns (frame w)) ->
  NoDup (columns (frame w)) ->
  (forall w', snd (method w') = Returns IsEstimator /\
              frame (fst (method w')) = frame w') ->
  snd (_recombine set_iter setitem_all self method w) = Returns TheHarmonizer /\
  frame (fst (_recombine set_iter setitem_all self method w)) = frame w.
Proof.
  intros Hex Hdc Hc Hnd Hm.
  destruct (get_loc_In _ _ Hc) as (p & Hp).
  unfold _recombine.
  rewrite (hbind_Returns _ _ _ _ _ _ _ (check_columns_passes self w
             (fun c' H' => ltac:(apply Hdc in H'; rewrite Hex in H';
                                 destruct H' as [<- | []]; exact Hc))
             (fun c' H' => ltac:(rewrite Hex in H';
                                 destruct H' as [<- | []]; exact Hc)))).
  rewrite Hex.
  destruct (set_aside_step c [] w p Hp) as (v & X' & HX & Hle & E).
  rewrite (hbind_Returns _ _ _ _ _ _ _ E). clear E.
  set (w1 := World X' (site2idx_map w) (transformer w) (stdout w)).
  destruct (method w1) as [w2 r] eqn:Em.
  destruct (Hm w1) as [Hr Hf]. rewrite Em in Hr, Hf. cbn [fst snd] in Hr, Hf. subst r.
  rewrite (hbind_Returns _ _ _ _ _ _ _ Em). rewrite hbind_hret.
  assert (Hnc : ~ In c (columns (frame w2))).
  { rewrite Hf. cbn [frame w1]. rewrite HX, columns_insert_at in Hnd.
    now apply NoDup_insert_at in Hnd. }
  rewrite (hbind_Returns _ _ _ _ _ _ _ (insert_all_step p c v [] w2 Hnc
             ltac:(rewrite Hf; exact Hle))).
  cbn [fst snd frame hret]. split; [reflexivity | ].
  rewrite Hf. cbn [frame w1]. now rewrite HX.
Qed.

Lemma filter_insert_at_label (labels : list string) (p : nat) (c : string) :
  ~ In c labels ->
  filter (fun c' => negb (String.eqb c' c)) (insert_at labels p c) = labels.
Proof.
  intros Hc. unfold insert_at. rewrite filter_app. cbn [filter].
  rewrite String.eqb_refl. cbn [negb].
  rewrite <- filter_app, firstn_skipn.
  apply forallb_filter_id. apply forallb_forall. intros c' Hc'.
  destruct (String.eqb_spec c' c) as [-> | _]; [contradiction | reflexivity].
Qed.

(** With one column set aside, for a wrapped method that returns and leaves
    the frame alone, and an assignment of the output that keeps the labels:
    the column is put back in place after an estimator, and after any other
    output when [retain] asks for it. *)
Lemma recombine_one_column (self : CombatHarmonizer)
    (method : H Series Value Estimator (output Array)) (w : world Series Value Estimator)
    (c : string) :
  ex self = [c] ->
  (forall c', In c' (dc self) -> In c' (ex self)) ->
  In c (columns (frame w)) ->
  NoDup (columns (frame w)) ->
  (forall X a, exists X', setitem_all X a = Returns X' /\ columns X' = columns X) ->
  exists X',
    length X' < length (frame w) /\
    forall w2 out,
      method (World X' (site2idx_map w) (transformer w) (stdout w)) = (w2, Returns out) ->
      frame w2 = X' ->
      exists w3,
        _recombine set_iter setitem_all self method w
        = (w3, Returns match out with IsEstimator => TheHarmonizer | _ => TheFrame end) /\
        site2idx_map w3 = site2idx_map w2 /\
        transformer w3 = transformer w2 /\
        (out = IsEstimator -> frame w3 = frame w) /\
        columns (frame w3)
        = if match out with
             | IsEstimator => true
             | _ => match retain self with
                    | RetainTrue => true
                    | RetainList l => mem c l
                    | RetainOther => false
                    end
             end
          then columns (frame w)
          else filter (fun c' => negb (String.eqb c' c)) (columns (frame w)).
Proof.
  intros Hex Hdc Hc Hnd Hset.
  destruct (get_loc_In _ _ Hc) as (p & Hp).
  destruct (set_aside_step c [] w p Hp) as (v & X' & HX & Hle & E).
  exists X'. split; [rewrite HX, length_insert_at; lia | ].
  intros w2 out Em Hf.
  assert (Hcols : columns (frame w) = insert_at (columns X') p c)
    by (now rewrite HX, columns_insert_at).
  pose proof Hnd as Hnd0. rewrite Hcols in Hnd0. apply NoDup_insert_at in Hnd0 as [_ Hnc].
  unfold _recombine.
  rewrite (hbind_Returns _ _ _ _ _ _ _ (check_columns_passes self w
             (fun c' H' => ltac:(apply Hdc in H'; rewrite Hex in H';
                                 destruct H' as [<- | []]; exact Hc))
             (fun c' H' => ltac:(rewrite Hex in H';
                                 destruct H' as [<- | []]; exact Hc)))).
  rewrite Hex. rewrite (hbind_Returns _ _ _ _ _ _ _ E). clear E.
  rewrite (hbind_Returns _ _ _ _ _ _ _ Em).
  assert (Hback : forall wa : world Series Value Estimator,
             columns (frame wa) = columns X' ->
             insert_all [(p, c, v)] wa
             = (World (insert_at (frame wa) p (c, v)) (site2idx_map wa) (transformer wa)
                  (stdout wa), Returns tt)).
  { intros wa Ha. rewrite insert_all_step.
    - reflexivity.
    - now rewrite Ha.
    - apply (f_equal (@length string)) in Ha. unfold columns in Ha.
      rewrite !length_map in Ha. lia. }
  destruct out as [ | a | ].
  - rewrite hbind_hret.
    rewrite (hbind_Returns _ _ _ _ _ _ _ (Hback w2 ltac:(now rewrite Hf))).
    eexists. split; [reflexivity | ]. cbn [frame site2idx_map transformer].
    repeat split; try reflexivity.
    + intros _. now rewrite Hf, HX.
    + now rewrite Hf, <- HX.
  - destruct (Hset (frame w2) a) as (Xa & Ea & Hca).
    rewrite (hbind_Returns _ _ _ _ w2
               (World Xa (site2idx_map w2) (transformer w2) (stdout w2)) tt).
    2:{ rewrite hbind_get_frame, Ea, hbind_hlift_Returns. reflexivity. }
    set (wa := World Xa (site2idx_map w2) (transformer w2) (stdout w2)).
    assert (Ha : columns (frame wa) = columns X') by (cbn [frame wa]; now rewrite Hca, Hf).
    destruct (retain self) as [ | l | ].
    + rewrite (hbind_Returns _ _ _ _ _ _ _ (Hback wa Ha)).
      eexists. split; [reflexivity | ]. cbn [frame site2idx_map transformer wa].
      repeat split; try reflexivity; try discriminate.
      now rewrite columns_insert_at, Hca, Hf, Hcols.
    + cbn [filter fst snd]. destruct (mem c l).
      * rewrite (hbind_Returns _ _ _ _ _ _ _ (Hback wa Ha)).
        eexists. split; [reflexivity | ]. cbn [frame site2idx_map transformer wa].
        repeat split; try reflexivity; try discriminate.
        now rewrite columns_insert_at, Hca, Hf, Hcols.
      * eexists. split; [reflexivity | ]. cbn [frame site2idx_map transformer wa].
        repeat split; try reflexivity; try discriminate.
        now rewrite Hca, Hf, Hcols, filter_insert_at_label.
    + eexists. split; [reflexivity | ]. cbn [frame site2idx_map transformer wa].
      repeat split; try reflexivity; try discriminate.
      now rewrite Hca, Hf, Hcols, filter_insert_at_label.
  - rewrite hbind_hret.
    assert (Ha : columns (frame w2) = columns X') by (now rewrite Hf).
    destruct (retain self) as [ | l | ].
    + rewrite (hbind_Returns _ _ _ _ _ _ _ (Hback w2 Ha)).
      eexists. split; [reflexivity | ]. cbn [frame site2idx_map transformer].
      repeat split; try reflexivity; try discriminate.
      now rewrite columns_insert_at, Hf, Hcols.
    + cbn [filter fst snd]. destruct (mem c l).
      * rewrite (hbind_Returns _ _ _ _ _ _ _ (Hback w2 Ha)).
        eexists. split; [reflexivity | ]. cbn [frame site2idx_map transformer].
        repeat split; try reflexivity; try discriminate.
        now rewrite columns_insert_at, Hf, Hcols.
      * eexists. split; [reflexivity | ].
        repeat split; try reflexivity; try discriminate.
        now rewrite Hf, Hcols, filter_insert_at_label.
    + eexists. split; [reflexivity | ].
      repeat split; try reflexivity; try discriminate.
      now rewrite Hf, Hcols, filter_insert_at_label.
Qed.

(** ** Two columns set aside *)

Lemma NoDup_insert_at_intro (labels : list string) (p : nat) (c : string) :
  NoDup labels -> ~ In c labels -> NoDup (insert_at labels p c).
Proof.
  intros Hnd Hc. unfold insert_at.
  apply (NoDup_Add (Add_app c (firstn p labels) (skipn p labels))).
  rewrite firstn_skipn. split; assumption.
Qed.

Lemma filter_insert_at_out (X' : DataFrame Series) (p : nat) (c : string) (v : Series)
    (rest : list string) :
  ~ In c (columns X') ->
  filter (fun col => negb (mem (fst col) (c :: rest))) (insert_at X' p (c, v))
  = filter (fun col => negb (mem (fst col) rest)) X'.
Proof.
  intros Hc. unfold insert_at. rewrite filter_app. cbn [filter fst].
  unfold mem at 2. cbn [existsb]. rewrite String.eqb_refl. cbn [orb negb].
  rewrite <- filter_app, firstn_skipn.
  apply filter_ext_in. intros [c' v'] Hin. cbn [fst]. unfold mem. cbn [existsb].
  destruct (String.eqb_spec c' c) as [-> | _]; [ | reflexivity].
  exfalso. apply Hc. unfold columns. apply in_map_iff. exists (c, v'). auto.
Qed.

(** X14.  With two columns set aside, the frame never comes back as it was.
    The positions are taken while the columns are removed one after the
    other, and the columns are put back in the same order, not the reverse.
    For a harmonizer that sets two distinct columns aside (the sites and one
    covariate), a frame of distinct labels that holds both, and a wrapped
    method that returns an estimator and leaves the frame alone (as [fit]
    does): the labels of the caller's frame after [_recombine] are never
    the labels before, in their order.  The call raises [IndexError] exactly
    when the first of the two (the sites) is the last column of the frame,
    and the frame is then left without both columns; otherwise the call
    returns the harmonizer, and the frame holds the same labels as before,
    each once, in another order. *)
Theorem recombine_misplaces_two_columns (self : CombatHarmonizer)
    (method : H Series Value Estimator (output Array)) (w : world Series Value Estimator)
    (c1 c2 : string) :
  ex self = [c1; c2] ->
  (forall c', In c' (dc self) -> In c' (ex self)) ->
  c1 <> c2 ->
  In c1 (columns (frame w)) ->
  In c2 (columns (frame w)) ->
  NoDup (columns (frame w)) ->
  (forall w', snd (method w') = Returns IsEstimator /\
              frame (fst (method w')) = frame w') ->
  columns (frame (fst (_recombine set_iter setitem_all self method w)))
  <> columns (frame w) /\
  (snd (_recombine set_iter setitem_all self method w)
   = Raises (Other (IndexError "index is out of bounds")) <->
   get_loc (columns (frame w)) c1 = Some (length (frame w) - 1)) /\
  (get_loc (columns (frame w)) c1 = Some (length (frame w) - 1) ->
   frame (fst (_recombine set_iter setitem_all self method w))
   = filter (fun col => negb (mem (fst col) [c1; c2])) (frame w)) /\
  (get_loc (columns (frame w)) c1 <> Some (length (frame w) - 1) ->
   snd (_recombine set_iter setitem_all self method w) = Returns TheHarmonizer /\
   NoDup (columns (frame (fst (_recombine set_iter setitem_all self method w)))) /\
   forall c, In c (columns (frame (fst (_recombine set_iter setitem_all self method w))))
             <-> In c (columns (frame w))).
Proof.
  intros Hex Hdc Hne Hc1 Hc2 Hnd Hm.
  destruct (get_loc_In _ _ Hc1) as (p1 & Hp1).
  unfold _recombine.
  rewrite (hbind_Returns _ _ _ _ _ _ _ (check_columns_passes self w
             (fun c' H' => ltac:(apply Hdc in H'; rewrite Hex in H';
                                 destruct H' as [<- | [<- | []]]; assumption))
             (fun c' H' => ltac:(rewrite Hex in H';
                                 destruct H' as [<- | [<- | []]]; assumption)))).
  rewrite Hex.
  destruct (set_aside_step c1 [c2] w p1 Hp1) as (v1 & X1 & HX0 & Hle1 & E1).
  set (w1 := World X1 (site2idx_map w) (transformer w) (stdout w)) in *.
  assert (Hcols0 : columns (frame w) = insert_at (columns X1) p1 c1)
    by (now rewrite HX0, columns_insert_at).
  assert (Hc2' : In c2 (columns (frame w1))).
  { cbn [frame w1]. rewrite Hcols0 in Hc2. apply In_insert_at in Hc2 as [E | H];
      [congruence | exact H]. }
  destruct (get_loc_In _ _ Hc2') as (p2 & Hp2).
  destruct (set_aside_step c2 [] w1 p2 Hp2) as (v2 & R & HX1 & Hle2 & E2).
  cbn [frame site2idx_map transformer stdout w1] in HX1, E2.
  set (w2 := World R (site2idx_map w) (transformer w) (stdout w)) in *.
  assert (Easide : set_aside [c1; c2] w = (w2, Returns [(p1, c1, v1); (p2, c2, v2)])).
  { rewrite E1. rewrite (hbind_Returns _ _ _ _ _ _ _ E2). reflexivity. }
  rewrite (hbind_Returns _ _ _ _ _ _ _ Easide). clear E1 E2 Easide.
  destruct (method w2) as [w3 r] eqn:Em.
  destruct (Hm w2) as [Hr Hf]. rewrite Em in Hr, Hf. cbn [fst snd] in Hr, Hf. subst r.
  cbn [frame w2] in Hf.
  rewrite (hbind_Returns _ _ _ _ _ _ _ Em). rewrite hbind_hret.
  assert (Hcols1 : columns X1 = insert_at (columns R) p2 c2)
    by (now rewrite HX1, columns_insert_at).
  rewrite Hcols0 in Hnd. pose proof (NoDup_insert_at _ _ _ Hnd) as [Hnd1 Hn1].
  rewrite Hcols1 in Hnd1. pose proof (NoDup_insert_at _ _ _ Hnd1) as [HndR Hn2].
  assert (Hn1R : ~ In c1 (columns R)).
  { intros H. apply Hn1. rewrite Hcols1. apply In_insert_at. now right. }
  assert (Hlen1 : length X1 = S (length R))
    by (rewrite HX1; apply length_insert_at).
  assert (Hlen0 : length (frame w) = S (S (length R)))
    by (rewrite HX0, length_insert_at; congruence).
  assert (Hlc : length (columns (frame w)) = S (S (length R)))
    by (unfold columns; now rewrite length_map).
  assert (HlR : length (columns R) = length R) by (unfold columns; apply length_map).
  assert (Hl1 : length (columns X1) = S (length R))
    by (unfold columns; now rewrite length_map).
  rewrite <- Hcols0 in Hnd.
  destruct (Nat.le_gt_cases p1 (length R)) as [Hin | Hout].
  - (* the sites are not the last column: both columns are put back *)
    rewrite (hbind_Returns _ _ _ _ w3
               (World (insert_at (insert_at R p1 (c1, v1)) p2 (c2, v2))
                  (site2idx_map w3) (transformer w3) (stdout w3)) tt).
    2:{ rewrite insert_all_step by (rewrite Hf; assumption).
        rewrite insert_all_step.
        - cbn [frame site2idx_map transformer stdout]. rewrite Hf. reflexivity.
        - cbn [frame]. rewrite Hf, columns_insert_at, In_insert_at.
          intros [E | H]; [congruence | contradiction].
        - cbn [frame]. rewrite Hf, length_insert_at. lia. }
    cbn [fst snd frame hret]. split; [ | split; [ | split]].
    + rewrite !columns_insert_at. intros Heq.
      assert (H2 : nth_error (columns (frame w)) p2 = Some c2).
      { rewrite <- Heq, nth_error_insert_at by (rewrite length_insert_at; lia).
        now rewrite Nat.ltb_irrefl, Nat.eqb_refl. }
      assert (H2' : nth_error (columns (frame w)) (if p2 <? p1 then p2 else S p2)
                    = Some c2).
      { rewrite Hcols0, nth_error_insert_at by lia.
        apply get_loc_nth_error in Hp2. cbn [frame w1] in Hp2.
        destruct (Nat.ltb_spec p2 p1) as [Hlt | Hge].
        - now rewrite (proj2 (Nat.ltb_lt p2 p1) Hlt).
        - destruct (Nat.ltb_spec (S p2) p1); [lia | ].
          destruct (Nat.eqb_spec (S p2) p1); [lia | ].
          now rewrite Nat.sub_1_r. }
      pose proof (NoDup_position _ _ _ _ Hnd H2 H2') as Hpos.
      destruct (Nat.ltb_spec p2 p1) as [Hlt | Hge]; [ | lia].
      assert (H1 : nth_error (columns (frame w)) (S p1) = Some c1).
      { rewrite <- Heq, nth_error_insert_at by (rewrite length_insert_at; lia).
        destruct (Nat.ltb_spec (S p1) p2); [lia | ].
        destruct (Nat.eqb_spec (S p1) p2); [lia | ].
        rewrite nth_error_insert_at by lia. cbn [Nat.sub]. rewrite Nat.sub_0_r.
        now rewrite Nat.ltb_irrefl, Nat.eqb_refl. }
      pose proof (NoDup_position _ _ _ _ Hnd H1 (get_loc_nth_error _ _ _ Hp1)).
      lia.
    + split; [discriminate | ]. rewrite Hp1, Hlen0. intros H. injection H as H. lia.
    + rewrite Hp1, Hlen0. intros H. injection H as H. lia.
    + intros _. split; [reflexivity | ]. split.
      * rewrite !columns_insert_at.
        apply NoDup_insert_at_intro; [apply NoDup_insert_at_intro; assumption | ].
        rewrite In_insert_at. intros [E | Hc]; [congruence | contradiction].
      * intros c. rewrite !columns_insert_at, Hcols0, Hcols1, !In_insert_at. tauto.
  - (* the sites are the last column *)
    rewrite (hbind_Raises _ _ _ _ w3 w3 (Other (IndexError "index is out of bounds"))).
    2:{ apply insert_all_out_of_bounds; rewrite Hf; assumption. }
    cbn [fst snd]. split; [ | split; [ | split]].
    + rewrite Hf. intros Heq. apply (f_equal (@length string)) in Heq. lia.
    + split; [ | reflexivity]. intros _. rewrite Hp1, Hlen0. f_equal. lia.
    + intros _. rewrite Hf, HX0.
      rewrite filter_insert_at_out by exact Hn1.
      rewrite HX1, filter_insert_at_out by exact Hn2.
      symmetry. apply forallb_filter_id. apply forallb_forall. reflexivity.
    + intros H. exfalso. apply H. rewrite Hp1, Hlen0. f_equal. lia.
Qed.

(** ** Any number of columns set aside *)

(** The comprehension that sets the columns aside takes them all out of the
    frame, and leaves the other columns in their order. *)
Lemma set_aside_all (ex : list string) :
  forall w : world Series Value Estimator,
  NoDup ex ->
  (forall c, In c ex -> In c (columns (frame w))) ->
  NoDup (columns (frame w)) ->
  exists l,
    set_aside ex w
    = (World (filter (fun col => negb (mem (fst col) ex)) (frame w))
         (site2idx_map w) (transformer w) (stdout w), Returns l).
Proof.
  induction ex as [| c ex IH]; intros w Hex Hin Hnd.
  - exists []. cbn [set_aside]. unfold hret. destruct w as [X m T out]. cbn [frame site2idx_map transformer stdout].
    f_equal. f_equal. symmetry. apply forallb_filter_id.
    apply forallb_forall. reflexivity.
  - destruct (get_loc_In _ _ (Hin c (or_introl eq_refl))) as (p & Hp).
    destruct (set_aside_step c ex w p Hp) as (v & X' & HX & Hle & E).
    rewrite E. clear E.
    assert (Hcols : columns (frame w) = insert_at (columns X') p c)
      by (now rewrite HX, columns_insert_at).
    rewrite Hcols in Hnd. apply NoDup_insert_at in Hnd as [Hnd' Hc].
    inversion Hex as [ | c0 ex0 Hcex Hex']; subst.
    destruct (IH (World X' (site2idx_map w) (transformer w) (stdout w)) Hex') as (l & El).
    + intros c' Hc'. cbn [frame].
      pose proof (Hin c' (or_intror Hc')) as H. rewrite Hcols in H.
      apply In_insert_at in H as [-> | H]; [contradiction | exact H].
    + exact Hnd'.
    + exists ((p, c, v) :: l). rewrite (hbind_Returns _ _ _ _ _ _ _ El).
      cbn [frame site2idx_map transformer stdout hret]. rewrite HX.
      now rewrite filter_insert_at_out.
Qed.

(** X15.  When the wrapped method raises, the columns stay out.  For a
    harmonizer whose excluded columns are distinct and all in the frame (of
    distinct labels), and a wrapped method that raises an exception and
    leaves the frame it receives alone (as [fit] and [transform] do on
    invalid data): [_recombine] raises that exception, and the caller's
    frame is left without the excluded columns, the other columns in their
    order. *)
Theorem recombine_leaves_columns_out_when_method_raises (self : CombatHarmonizer)
    (method : H Series Value Estimator (output Array)) (w : world Series Value Estimator)
    (e : error) :
  NoDup (ex self) ->
  (forall c, In c (dc self) -> In c (ex self)) ->
  (forall c, In c (ex self) -> In c (columns (frame w))) ->
  NoDup (columns (frame w)) ->
  (forall w', snd (method w') = Raises e /\ frame (fst (method w')) = frame w') ->
  snd (_recombine set_iter setitem_all self method w) = Raises e /\
  frame (fst (_recombine set_iter setitem_all self method w))
  = filter (fun col => negb (mem (fst col) (ex self))) (frame w).
Proof.
  intros Hex Hdc Hin Hnd Hm.
  unfold _recombine.
  rewrite (hbind_Returns _ _ _ _ _ _ _
             (check_columns_passes self w (fun c H' => Hin c (Hdc c H')) Hin)).
  destruct (set_aside_all (ex self) w Hex Hin Hnd) as (l & El).
  rewrite (hbind_Returns _ _ _ _ _ _ _ El).
  set (w1 := World _ (site2idx_map w) (transformer w) (stdout w)).
  destruct (method w1) as [w2 r] eqn:Em.
  destruct (Hm w1) as [Hr Hf]. rewrite Em in Hr, Hf. cbn [fst snd] in Hr, Hf. subst r.
  rewrite (hbind_Raises _ _ _ _ _ _ _ Em).
  cbn [fst snd]. split; [reflexivity | exact Hf].
Qed.

(** ** Two columns or more are never put back in place *)

Lemma get_loc_insert_at_other (labels : list string) (p : nat) (c c' : string) :
  c' <> c -> p <= length labels ->
  get_loc (insert_at labels p c) c'
  = option_map (fun q => if p <=? q then S q else q) (get_loc labels c').
Proof.
  intros Hne. revert p. induction labels as [| y labels IH]; intros p Hp.
  - cbn in Hp. assert (p = 0) by lia. subst p. unfold insert_at. cbn.
    destruct (String.eqb_spec c c'); [congruence | reflexivity].
  - destruct p as [| p].
    + unfold insert_at. cbn [firstn skipn app get_loc].
      destruct (String.eqb_spec c c'); [congruence | ].
      destruct (String.eqb_spec y c'); [reflexivity | ].
      destruct (get_loc labels c'); reflexivity.
    + unfold insert_at in *. cbn [firstn skipn app get_loc].
      destruct (String.eqb_spec y c'); [reflexivity | ].
      cbn [length] in Hp. rewrite IH by lia.
      destruct (get_loc labels c') as [q | ]; cbn [option_map]; [ | reflexivity].
      f_equal. destruct (Nat.leb_spec p q), (Nat.leb_spec (S p) (S q)); lia.
Qed.

Lemma get_loc_insert_at_same (labels : list string) (p : nat) (c : string) :
  ~ In c labels -> p <= length labels -> get_loc (insert_at labels p c) c = Some p.
Proof.
  revert p. induction labels as [| y labels IH]; intros p Hc Hp.
  - cbn in Hp. assert (p = 0) by lia. subst p. unfold insert_at. cbn.
    now rewrite String.eqb_refl.
  - destruct p as [| p]; unfold insert_at in *; cbn [firstn skipn app get_loc].
    + now rewrite String.eqb_refl.
    + destruct (String.eqb_spec y c) as [-> | _]; [exfalso; apply Hc; now left | ].
      cbn [length] in Hp. rewrite IH; [reflexivity | | lia].
      intros H. apply Hc. now right.
Qed.

(** [l] is what setting columns aside of [X] collects, and [R] what it
    leaves: undoing the pops from the last to the first gives [X] back. *)
Fixpoint set_aside_of (X : DataFrame Series) (l : list (nat * string * Series))
    (R : DataFrame Series) : Prop :=
  match l with
  | [] => X = R
  | (p, c, v) :: l' =>
      exists X', X = insert_at X' p (c, v) /\ p <= length X' /\ set_aside_of X' l' R
  end.

Lemma set_aside_trace (ex : list string) :
  forall w : world Series Value Estimator,
  (forall c, In c ex -> In c (columns (frame w))) ->
  NoDup ex ->
  NoDup (columns (frame w)) ->
  exists l R,
    set_aside ex w = (World R (site2idx_map w) (transformer w) (stdout w), Returns l) /\
    set_aside_of (frame w) l R /\
    map (fun t => snd (fst t)) l = ex.
Proof.
  induction ex as [| c ex IH]; intros w Hin Hex Hnd.
  - exists [], (frame w). cbn [set_aside set_aside_of map]. unfold hret.
    destruct w. repeat split.
  - destruct (get_loc_In _ _ (Hin c (or_introl eq_refl))) as (p & Hp).
    destruct (set_aside_step c ex w p Hp) as (v & X' & HX & Hle & E).
    rewrite E. clear E.
    assert (Hcols : columns (frame w) = insert_at (columns X') p c)
      by (now rewrite HX, columns_insert_at).
    rewrite Hcols in Hnd. apply NoDup_insert_at in Hnd as [Hnd' Hc].
    inversion Hex as [ | c0 ex0 Hcex Hex']; subst.
    destruct (IH (World X' (site2idx_map w) (transformer w) (stdout w))) as (l & R & El & Hl & Hn).
    + intros c' Hc'. cbn [frame].
      pose proof (Hin c' (or_intror Hc')) as H. rewrite Hcols in H.
      apply In_insert_at in H as [-> | H]; [contradiction | exact H].
    + exact Hex'.
    + exact Hnd'.
    + exists ((p, c, v) :: l), R.
      rewrite (hbind_Returns _ _ _ _ _ _ _ El).
      cbn [frame site2idx_map transformer stdout hret set_aside_of map fst snd] in *.
      split; [reflexivity | ]. split; [ | now rewrite Hn].
      exists X'. auto.
Qed.

Lemma set_aside_of_length (l : list (nat * string * Series)) :
  forall X R, set_aside_of X l R -> length X = length R + length l.
Proof.
  induction l as [| [[p c] v] l IH]; intros X R; cbn [set_aside_of length].
  - intros ->. lia.
  - intros (X' & -> & _ & H). rewrite length_insert_at, (IH _ _ H). lia.
Qed.

Lemma set_aside_of_incl (l : list (nat * string * Series)) :
  forall X R, set_aside_of X l R ->
  forall c, In c (columns R) -> In c (columns X).
Proof.
  induction l as [| [[p c'] v] l IH]; intros X R; cbn [set_aside_of].
  - intros -> c H. exact H.
  - intros (X' & -> & _ & H) c Hc. rewrite columns_insert_at.
    apply In_insert_at. right. exact (IH _ _ H c Hc).
Qed.

(** The position recorded for the last column set aside is not after the
    position the column has in the frame. *)
Lemma set_aside_of_last (l : list (nat * string * Series)) :
  forall (X R : DataFrame Series) (q : nat) (c : string) (v : Series),
  set_aside_of X (l ++ [(q, c, v)]) R ->
  NoDup (columns X) ->
  exists r, get_loc (columns X) c = Some r /\ q <= r.
Proof.
  induction l as [| [[p' c'] v'] l IH]; intros X R q c v; cbn [app set_aside_of].
  - intros (X' & -> & Hq & ->) Hnd. rewrite columns_insert_at in *.
    apply NoDup_insert_at in Hnd as [_ Hc].
    exists q. split; [ | lia].
    apply get_loc_insert_at_same; [exact Hc | ]. unfold columns. now rewrite length_map.
  - intros (X' & -> & Hp & H) Hnd. rewrite columns_insert_at in *.
    apply NoDup_insert_at in Hnd as [Hnd' Hc'].
    destruct (IH X' R q c v H Hnd') as (r & Hr & Hqr).
    assert (Hne : c <> c').
    { intros ->. apply Hc'. apply get_loc_nth_error in Hr. eapply nth_error_In, Hr. }
    rewrite get_loc_insert_at_other, Hr by
      (try exact Hne; unfold columns; now rewrite length_map).
    cbn [option_map]. eexists. split; [reflexivity | ].
    destruct (p' <=? r); lia.
Qed.

(** Putting columns back, one after the other. *)
Lemma insert_all_cons (p : nat) (c : string) (v : Series)
    (rest : list (nat * string * Series)) (w : world Series Value Estimator) :
  insert_all ((p, c, v) :: rest) w
  = match insert (frame w) p c v with
    | Returns X' => insert_all rest (World X' (site2idx_map w) (transformer w) (stdout w))
    | Raises e => (w, Raises e)
    | Unfinished => (w, Unfinished)
    end.
Proof.
  unfold insert_all. cbn [hfor_each]. unfold hbind at 1.
  rewrite hbind_get_frame. unfold hbind, hlift, set_frame.
  destruct (insert (frame w) p c v); reflexivity.
Qed.

Lemma insert_Returns_inv (X X' : DataFrame Series) (p : nat) (c : string) (v : Series) :
  insert X p c v = Returns X' -> X' = insert_at X p (c, v) /\ p <= length X.
Proof.
  unfold insert. destruct (mem c (columns X)); [discriminate | ].
  destruct (Nat.ltb_spec (length X) p); [discriminate | ].
  intros H. injection H as <-. split; [reflexivity | lia].
Qed.

(** When a column is not put back, the frame stays short. *)
Lemma insert_all_short (l : list (nat * string * Series)) :
  forall w : world Series Value Estimator,
  snd (insert_all l w) <> Returns tt ->
  length (frame (fst (insert_all l w))) < length (frame w) + length l.
Proof.
  induction l as [| [[p c] v] l IH]; intros w.
  - unfold insert_all. cbn. congruence.
  - rewrite insert_all_cons. cbn [length].
    destruct (insert (frame w) p c v) as [X' | e | ] eqn:E; cbn [fst snd]; [ | lia ..].
    intros H. apply IH in H. cbn [frame] in H.
    apply insert_Returns_inv in E as [-> _]. rewrite length_insert_at in H. lia.
Qed.

(** Columns put back after a column [c] never move it to the left. *)
Lemma insert_all_position (l : list (nat * string * Series)) (c : string) :
  forall (w : world Series Value Estimator) (s : nat),
  ~ In c (map (fun t => snd (fst t)) l) ->
  get_loc (columns (frame w)) c = Some s ->
  snd (insert_all l w) = Returns tt ->
  exists s', get_loc (columns (frame (fst (insert_all l w)))) c = Some s' /\ s <= s'.
Proof.
  induction l as [| [[p c'] v] l IH]; intros w s Hc Hs.
  - intros _. exists s. split; [exact Hs | lia].
  - rewrite insert_all_cons.
    destruct (insert (frame w) p c' v) as [X' | e | ] eqn:E; cbn [fst snd];
      [ | discriminate ..].
    apply insert_Returns_inv in E as [-> Hp].
    intros H.
    cbn [map fst snd In] in Hc.
    destruct (IH (World (insert_at (frame w) p (c', v)) (site2idx_map w) (transformer w)
                    (stdout w))
                 (if p <=? s then S s else s)) as (s' & Hs' & Hle).
    + intros Hin. apply Hc. now right.
    + cbn [frame]. rewrite columns_insert_at, get_loc_insert_at_other, Hs.
      * reflexivity.
      * intros ->. apply Hc. now left.
      * unfold columns. now rewrite length_map.
    + exact H.
    + exists s'. split; [exact Hs' | ]. destruct (p <=? s); lia.
Qed.

Lemma insert_all_app (l1 l2 : list (nat * string * Series))
    (w : world Series Value Estimator) :
  insert_all (l1 ++ l2) w
  = match insert_all l1 w with
    | (w', Returns _) => insert_all l2 w'
    | (w', Raises e) => (w', Raises e)
    | (w', Unfinished) => (w', Unfinished)
    end.
Proof.
  revert w. induction l1 as [| [[p c] v] l1 IH]; intros w.
  - reflexivity.
  - cbn [app]. rewrite !insert_all_cons.
    destruct (insert (frame w) p c v); [apply IH | reflexivity ..].
Qed.

(** X19.  Two columns or more are never put back in place.  For a
    harmonizer that sets two or more distinct columns aside (the sites and
    at least one covariate or excluded column), all of them in a frame of
    distinct labels, and a wrapped method that returns an estimator and
    leaves the frame alone (as [fit] does): whatever the columns and their
    positions, the labels of the caller's frame after [_recombine] are not
    the labels before, in their order. *)
Theorem recombine_never_restores_two_or_more_columns (self : CombatHarmonizer)
    (method : H Series Value Estimator (output Array)) (w : world Series Value Estimator)
    (c1 c2 : string) (rest : list string) :
  ex self = c1 :: c2 :: rest ->
  (forall c, In c (dc self) -> In c (ex self)) ->
  NoDup (ex self) ->
  (forall c, In c (ex self) -> In c (columns (frame w))) ->
  NoDup (columns (frame w)) ->
  (forall w', snd (method w') = Returns IsEstimator /\
              frame (fst (method w')) = frame w') ->
  columns (frame (fst (_recombine set_iter setitem_all self method w)))
  <> columns (frame w).
Proof.
  intros Hex Hdc Hnex Hin Hnd Hm.
  unfold _recombine.
  rewrite (hbind_Returns _ _ _ _ _ _ _
             (check_columns_passes self w (fun c H' => Hin c (Hdc c H')) Hin)).
  destruct (set_aside_trace (ex self) w Hin Hnex Hnd) as (l & R & El & Hl & Hn).
  rewrite (hbind_Returns _ _ _ _ _ _ _ El). clear El.
  set (w1 := World R (site2idx_map w) (transformer w) (stdout w)).
  destruct (method w1) as [w2 r] eqn:Em.
  destruct (Hm w1) as [Hr Hf]. rewrite Em in Hr, Hf. cbn [fst snd] in Hr, Hf. subst r.
  cbn [frame w1] in Hf.
  rewrite (hbind_Returns _ _ _ _ _ _ _ Em). rewrite hbind_hret.
  pose proof (set_aside_of_length _ _ _ Hl) as Hlen.
  (* the first and the last column set aside *)
  rewrite Hex in Hn.
  destruct l as [| [[p1 c1'] v1] l']; [discriminate | ].
  cbn [map fst snd] in Hn. injection Hn as -> Hn.
  assert (Hl' : l' <> []) by (destruct l'; [discriminate | congruence]).
  destruct (exists_last Hl') as (l0 & [[qk ck] vk] & ->).
  cbn [set_aside_of] in Hl. destruct Hl as (X1 & HX0 & Hp1 & Hl).
  assert (Hcols0 : columns (frame w) = insert_at (columns X1) p1 c1)
    by (now rewrite HX0, columns_insert_at).
  assert (HlX1 : length (columns X1) = length X1)
    by (unfold columns; apply length_map).
  pose proof Hnd as Hnd0.
  rewrite Hcols0 in Hnd. apply NoDup_insert_at in Hnd as [Hnd1 Hc1].
  destruct (set_aside_of_last l0 X1 R qk ck vk Hl Hnd1) as (r & Hr & Hqr).
  assert (Hck1 : ck <> c1).
  { intros ->. apply Hc1. apply get_loc_nth_error in Hr. eapply nth_error_In, Hr. }
  assert (Hc1l : ~ In c1 (map (fun t => snd (fst t)) (l0 ++ [(qk, ck, vk)]))).
  { rewrite Hn. rewrite Hex in Hnex. inversion Hnex. assumption. }
  (* the outcome of putting the columns back *)
  unfold hbind at 1.
  destruct (insert_all ((p1, c1, v1) :: l0 ++ [(qk, ck, vk)]) w2) as [w3 res] eqn:Eins.
  assert (Hres : res = Returns tt \/ res <> Returns tt).
  { destruct res as [[] | e | ]; [now left | right; discriminate ..]. }
  destruct Hres as [-> | Hres].
  2:{ pose proof (insert_all_short ((p1, c1, v1) :: l0 ++ [(qk, ck, vk)]) w2) as Hs.
      rewrite Eins in Hs. cbn [fst snd] in Hs. specialize (Hs Hres).
      assert (Hfin : frame (fst (let (w', r0) := (w3, res) in
                                 match r0 with
                                 | Returns a => hret TheHarmonizer w'
                                 | Raises e => (w', Raises e)
                                 | Unfinished => (w', Unfinished)
                                 end)) = frame w3)
        by (destruct res; reflexivity).
      rewrite Hfin. intros Heq. apply (f_equal (@length string)) in Heq.
      unfold columns in Heq. rewrite !length_map in Heq. rewrite Hf in Hs. lia. }
  cbn [fst hret frame].
  rewrite insert_all_cons in Eins.
  destruct (insert (frame w2) p1 c1 v1) as [F1 | e | ] eqn:E1; [ | discriminate ..].
  apply insert_Returns_inv in E1 as [-> Hp1R].
  rewrite insert_all_app in Eins.
  set (wa := World (insert_at (frame w2) p1 (c1, v1)) (site2idx_map w2) (transformer w2)
               (stdout w2)) in *.
  destruct (insert_all l0 wa) as [wb rb] eqn:E0.
  destruct rb as [[] | e | ]; [ | discriminate ..].
  rewrite insert_all_cons in Eins.
  destruct (insert (frame wb) qk ck vk) as [Fk | e | ] eqn:Ek; [ | discriminate ..].
  apply insert_Returns_inv in Ek as [-> Hqk].
  unfold insert_all in Eins. cbn [hfor_each hret] in Eins. injection Eins as <-.
  cbn [frame]. rewrite columns_insert_at.
  (* where the first column is before the last one is put back *)
  destruct (insert_all_position l0 c1 wa p1) as (s & Hs & Hps).
  { intros H. apply Hc1l. rewrite map_app. apply in_or_app. now left. }
  { cbn [frame wa]. rewrite columns_insert_at. apply get_loc_insert_at_same.
    - rewrite Hf. intros H.
      apply Hc1. exact (set_aside_of_incl _ _ _ Hl c1 H).
    - unfold columns. now rewrite length_map. }
  { now rewrite E0. }
  rewrite E0 in Hs. cbn [fst] in Hs.
  assert (HlFb : length (columns (frame wb)) = length (frame wb))
    by (unfold columns; apply length_map).
  intros Heq.
  (* the last column is where it was recorded *)
  assert (Hk : nth_error (columns (frame w)) qk = Some ck).
  { rewrite <- Heq, nth_error_insert_at by lia.
    now rewrite Nat.ltb_irrefl, Nat.eqb_refl. }
  assert (Hk' : nth_error (columns (frame w)) (if p1 <=? r then S r else r) = Some ck).
  { apply get_loc_nth_error.
    rewrite Hcols0, get_loc_insert_at_other, Hr by (try exact Hck1; lia).
    reflexivity. }
  pose proof (NoDup_position _ _ _ _ Hnd0 Hk Hk') as Hpos.
  assert (Hlt : qk < p1) by (destruct (Nat.leb_spec p1 r); lia).
  (* so the first column has moved *)
  assert (H1 : nth_error (columns (frame w)) (S s) = Some c1).
  { apply get_loc_nth_error.
    rewrite <- Heq, get_loc_insert_at_other, Hs by (try (intros E; now apply Hck1); lia).
    cbn [option_map]. destruct (Nat.leb_spec qk s); [reflexivity | lia]. }
  assert (H1' : nth_error (columns (frame w)) p1 = Some c1).
  { rewrite Hcols0, nth_error_insert_at by lia.
    now rewrite Nat.ltb_irrefl, Nat.eqb_refl. }
  pose proof (NoDup_position _ _ _ _ Hnd0 H1 H1'). lia.
Qed.

(** ** A column that is not in the frame *)

Hypothesis set_iter_spec : forall l x, In x (set_iter l) <-> In x l.

Lemma first_missing (check labels : list string) :
  forallb (fun c => mem c labels) check = false ->
  In (hd EmptyString (set_iter (filter (fun c => negb (mem c labels)) check))) check /\
  ~ In (hd EmptyString (set_iter (filter (fun c => negb (mem c labels)) check))) labels.
Proof.
  intros H.
  set (l := filter (fun c => negb (mem c labels)) check).
  assert (Hl : exists x, In x (set_iter l)).
  { destruct (forallb (fun c => mem c labels) check) eqn:E; [discriminate | ].
    assert (Hex : exists x, In x check /\ mem x labels = false).
    { clear H. induction check as [| x check IH]; cbn in E; [discriminate | ].
      destruct (mem x labels) eqn:Ex.
      - destruct (IH E) as (y & Hy & Hm). exists y. split; [now right | exact Hm].
      - exists x. split; [now left | exact Ex]. }
    destruct Hex as (x & Hx & Hm). exists x. apply set_iter_spec.
    apply filter_In. split; [exact Hx | now rewrite Hm]. }
  assert (Hhd : In (hd EmptyString (set_iter l)) (set_iter l)).
  { destruct (set_iter l) as [| y ys]; [destruct Hl as (x & []) | now left]. }
  apply set_iter_spec, filter_In in Hhd as [H1 H2].
  split; [exact H1 | ]. apply mem_false. now destruct (mem _ labels).
Qed.

(** X16.  How a missing column is reported.  The check that runs before
    anything is set aside tests the discrete covariates twice and the
    continuous ones never, and its [raise] takes the whole conditional
    expression.  For a harmonizer as [__init__] builds it (the discrete
    covariates are among the excluded columns) and a frame that lacks one
    of the excluded columns: the message names a column that is asked for
    and missing, as a discrete covariate when a discrete covariate is
    missing and as an excluded one otherwise (also when it is a continuous
    covariate); without [warn] the call raises [KeyError] with this message;
    with [warn] it prints the message and raises [TypeError].  In both
    cases the frame is untouched and the wrapped method is not called. *)
Theorem recombine_reports_a_missing_column (self : CombatHarmonizer)
    (method : H Series Value Estimator (output Array)) (w : world Series Value Estimator) :
  (forall c, In c (dc self) -> In c (ex self)) ->
  forallb (fun c => mem c (columns (frame w))) (ex self) = false ->
  exists c,
    In c (ex self) /\ ~ In c (columns (frame w)) /\
    let discrete_missing := negb (forallb (fun c => mem c (columns (frame w))) (dc self)) in
    (discrete_missing = true -> In c (dc self)) /\
    let msg := ("A " ++ (if discrete_missing then "discrete" else "excluded")
                ++ "_covariate was not found in X: " ++ c)%string in
    _recombine set_iter setitem_all self method w
    = if warn self
      then (World (frame w) (site2idx_map w) (transformer w) (stdout w ++ [msg]),
            Raises (TypeError "exceptions must derive from BaseException"))
      else (w, Raises (KeyError msg)).
Proof.
  intros Hdc Hex.
  destruct (forallb (fun c => mem c (columns (frame w))) (dc self)) eqn:Ed.
  - destruct (first_missing (ex self) (columns (frame w)) Hex) as [H1 H2].
    eexists. split; [exact H1 | ]. split; [exact H2 | ]. cbn [negb].
    split; [discriminate | ]. cbv zeta.
    unfold _recombine, check_columns. cbn [hfor_each].
    unfold hbind at 1. unfold hbind at 1. unfold hbind at 1.
    unfold get_frame at 1. rewrite Ed. cbn [negb]. unfold hret at 1.
    unfold hbind at 1. unfold hbind at 1.
    unfold get_frame at 1. rewrite Ed. cbn [negb]. unfold hret at 1.
    unfold hbind at 1. unfold hbind at 1.
    unfold get_frame at 1. rewrite Hex. cbn [negb].
    destruct (warn self); reflexivity.
  - destruct (first_missing (dc self) (columns (frame w)) Ed) as [H1 H2].
    eexists. split; [exact (Hdc _ H1) | ]. split; [exact H2 | ]. cbn [negb].
    split; [intros _; exact H1 | ]. cbv zeta.
    unfold _recombine, check_columns. cbn [hfor_each].
    unfold hbind at 1. unfold hbind at 1. unfold hbind at 1.
    unfold get_frame at 1. rewrite Ed. cbn [negb].
    destruct (warn self); reflexivity.
Qed.

End RecombineFacts.

(** A frame of three columns, the sites in the middle, and wrapped methods
    that return an estimator or raise. *)
Module HarmonizerExample.

Definition X : Harmonizer.DataFrame (list Z) :=
  [("age"%string, [30; 40]%Z); ("site"%string, [1; 2]%Z); ("volume"%string, [7; 9]%Z)].

Definition w : Harmonizer.world (list Z) Z unit := Harmonizer.World X None tt [].

Definition set_iter (l : list string) : list string := l.

Definition setitem_all (X : Harmonizer.DataFrame (list Z)) (a : unit)
  : Harmonizer.result (Harmonizer.DataFrame (list Z)) := Harmonizer.Returns X.

Definition fits : Harmonizer.H (list Z) Z unit (Harmonizer.output unit) :=
  fun w => (w, Harmonizer.Returns Harmonizer.IsEstimator).

Definition fails : Harmonizer.H (list Z) Z unit (Harmonizer.output unit) :=
  fun w => (w, Harmonizer.Raises (Harmonizer.Other unseen_site_error)).

Definition sites_only : Harmonizer.CombatHarmonizer :=
  Harmonizer.__init__ "site" Harmonizer.NoNames Harmonizer.NoNames None
    Harmonizer.RetainOther false.

Definition sites_and_age : Harmonizer.CombatHarmonizer :=
  Harmonizer.__init__ "site" Harmonizer.NoNames (Harmonizer.OneName "age") None
    Harmonizer.RetainOther false.

Definition sites_age_and_volume : Harmonizer.CombatHarmonizer :=
  Harmonizer.__init__ "site" Harmonizer.NoNames (Harmonizer.OneName "age")
    (Some ["volume"%string]) Harmonizer.RetainOther false.

Definition sites_and_sex : Harmonizer.CombatHarmonizer :=
  Harmonizer.__init__ "site" Harmonizer.NoNames (Harmonizer.OneName "sex") None
    Harmonizer.RetainOther true.

End HarmonizerExample.

(** X13, witness: the sites set aside and put back. *)
Lemma recombine_restores_a_single_column_witness :
  snd (Harmonizer._recombine HarmonizerExample.set_iter HarmonizerExample.setitem_all
         HarmonizerExample.sites_only HarmonizerExample.fits HarmonizerExample.w)
  = Harmonizer.Returns Harmonizer.TheHarmonizer /\
  Harmonizer.frame
    (fst (Harmonizer._recombine HarmonizerExample.set_iter HarmonizerExample.setitem_all
            HarmonizerExample.sites_only HarmonizerExample.fits HarmonizerExample.w))
  = Harmonizer.frame HarmonizerExample.w.
Proof.
  apply (recombine_restores_a_single_column (list Z) Z unit unit
           HarmonizerExample.set_iter HarmonizerExample.setitem_all
           HarmonizerExample.sites_only HarmonizerExample.fits HarmonizerExample.w
           "site").
  - reflexivity.
  - intros c' [].
  - cbn. auto.
  - repeat constructor; cbn; intuition discriminate.
  - intros w'. split; reflexivity.
Defined.

(** X14, witness: the sites and the age set aside; the frame comes back with
    the sites before the age. *)
Lemma recombine_misplaces_two_columns_witness :
  Harmonizer.columns
    (Harmonizer.frame
       (fst (Harmonizer._recombine HarmonizerExample.set_iter HarmonizerExample.setitem_all
               HarmonizerExample.sites_and_age HarmonizerExample.fits HarmonizerExample.w)))
  <> Harmonizer.columns (Harmonizer.frame HarmonizerExample.w) /\
  (snd (Harmonizer._recombine HarmonizerExample.set_iter HarmonizerExample.setitem_all
          HarmonizerExample.sites_and_age HarmonizerExample.fits HarmonizerExample.w)
   = Harmonizer.Raises (Harmonizer.Other (IndexError "index is out of bounds")) <->
   Harmonizer.get_loc (Harmonizer.columns (Harmonizer.frame HarmonizerExample.w)) "site"
   = Some (length (Harmonizer.frame HarmonizerExample.w) - 1)) /\
  (Harmonizer.get_loc (Harmonizer.columns (Harmonizer.frame HarmonizerExample.w)) "site"
   = Some (length (Harmonizer.frame HarmonizerExample.w) - 1) ->
   Harmonizer.frame
     (fst (Harmonizer._recombine HarmonizerExample.set_iter HarmonizerExample.setitem_all
             HarmonizerExample.sites_and_age HarmonizerExample.fits HarmonizerExample.w))
   = filter (fun col => negb (Harmonizer.mem (fst col) ["site"; "age"]%string))
       (Harmonizer.frame HarmonizerExample.w)) /\
  (Harmonizer.get_loc (Harmonizer.columns (Harmonizer.frame HarmonizerExample.w)) "site"
   <> Some (length (Harmonizer.frame HarmonizerExample.w) - 1) ->
   snd (Harmonizer._recombine HarmonizerExample.set_iter HarmonizerExample.setitem_all
          HarmonizerExample.sites_and_age HarmonizerExample.fits HarmonizerExample.w)
   = Harmonizer.Returns Harmonizer.TheHarmonizer /\
   NoDup (Harmonizer.columns
            (Harmonizer.frame
               (fst (Harmonizer._recombine HarmonizerExample.set_iter
                       HarmonizerExample.setitem_all HarmonizerExample.sites_and_age
                       HarmonizerExample.fits HarmonizerExample.w)))) /\
   forall c,
     In c (Harmonizer.columns
             (Harmonizer.frame
                (fst (Harmonizer._recombine HarmonizerExample.set_iter
                        HarmonizerExample.setitem_all HarmonizerExample.sites_and_age
                        HarmonizerExample.fits HarmonizerExample.w))))
     <-> In c (Harmonizer.columns (Harmonizer.frame HarmonizerExample.w))).
Proof.
  apply (recombine_misplaces_two_columns (list Z) Z unit unit
           HarmonizerExample.set_iter HarmonizerExample.setitem_all
           HarmonizerExample.sites_and_age HarmonizerExample.fits HarmonizerExample.w
           "site" "age").
  - reflexivity.
  - intros c' [].
  - discriminate.
  - cbn. auto.
  - cbn. auto.
  - repeat constructor; cbn; intuition discriminate.
  - intros w'. split; reflexivity.
Defined.

(** X15, witness: the wrapped method raises; the frame is left with the
    volume only. *)
Lemma recombine_leaves_columns_out_when_method_raises_witness :
  snd (Harmonizer._recombine HarmonizerExample.set_iter HarmonizerExample.setitem_all
         HarmonizerExample.sites_and_age HarmonizerExample.fails HarmonizerExample.w)
  = Harmonizer.Raises (Harmonizer.Other unseen_site_error) /\
  Harmonizer.frame
    (fst (Harmonizer._recombine HarmonizerExample.set_iter HarmonizerExample.setitem_all
            HarmonizerExample.sites_and_age HarmonizerExample.fails HarmonizerExample.w))
  = filter (fun col => negb (Harmonizer.mem (fst col)
                               (Harmonizer.ex HarmonizerExample.sites_and_age)))
      (Harmonizer.frame HarmonizerExample.w).
Proof.
  apply (recombine_leaves_columns_out_when_method_raises (list Z) Z unit unit
           HarmonizerExample.set_iter HarmonizerExample.setitem_all
           HarmonizerExample.sites_and_age HarmonizerExample.fails HarmonizerExample.w
           (Harmonizer.Other unseen_site_error)).
  - repeat constructor; cbn; intuition discriminate.
  - intros c [].
  - intros c [<- | [<- | []]]; cbn; auto.
  - repeat constructor; cbn; intuition discriminate.
  - intros w'. split; reflexivity.
Defined.

(** X16, witness: a continuous covariate that the frame does not have, with
    [warn] set. *)
Lemma recombine_reports_a_missing_column_witness :
  exists c,
    In c (Harmonizer.ex HarmonizerExample.sites_and_sex) /\
    ~ In c (Harmonizer.columns (Harmonizer.frame HarmonizerExample.w)) /\
    let discrete_missing :=
      negb (forallb (fun c => Harmonizer.mem c
                                (Harmonizer.columns (Harmonizer.frame HarmonizerExample.w)))
              (Harmonizer.dc HarmonizerExample.sites_and_sex)) in
    (discrete_missing = true -> In c (Harmonizer.dc HarmonizerExample.sites_and_sex)) /\
    let msg := ("A " ++ (if discrete_missing then "discrete" else "excluded")
                ++ "_covariate was not found in X: " ++ c)%string in
    Harmonizer._recombine HarmonizerExample.set_iter HarmonizerExample.setitem_all
      HarmonizerExample.sites_and_sex HarmonizerExample.fits HarmonizerExample.w
    = if Harmonizer.warn HarmonizerExample.sites_and_sex
      then (Harmonizer.World (Harmonizer.frame HarmonizerExample.w)
              (Harmonizer.site2idx_map HarmonizerExample.w)
              (Harmonizer.transformer HarmonizerExample.w)
              (Harmonizer.stdout HarmonizerExample.w ++ [msg]),
            Harmonizer.Raises
              (Harmonizer.TypeError "exceptions must derive from BaseException"))
      else (HarmonizerExample.w, Harmonizer.Raises (Harmonizer.KeyError msg)).
Proof.
  apply (recombine_reports_a_missing_column (list Z) Z unit unit
           HarmonizerExample.set_iter HarmonizerExample.setitem_all
           (fun l x => conj (fun H => H) (fun H => H))
           HarmonizerExample.sites_and_sex HarmonizerExample.fits HarmonizerExample.w).
  - intros c [].
  - reflexivity.
Defined.

(** X19, witness: the three columns of the frame set aside. *)
Lemma recombine_never_restores_two_or_more_columns_witness :
  Harmonizer.columns
    (Harmonizer.frame
       (fst (Harmonizer._recombine HarmonizerExample.set_iter HarmonizerExample.setitem_all
               HarmonizerExample.sites_age_and_volume HarmonizerExample.fits
               HarmonizerExample.w)))
  <> Harmonizer.columns (Harmonizer.frame HarmonizerExample.w).
Proof.
  apply (recombine_never_restores_two_or_more_columns (list Z) Z unit unit
           HarmonizerExample.set_iter HarmonizerExample.setitem_all
           HarmonizerExample.sites_age_and_volume HarmonizerExample.fits
           HarmonizerExample.w "site" "age" ["volume"%string]).
  - reflexivity.
  - intros c [].
  - repeat constructor; cbn; intuition discriminate.
  - intros c [<- | [<- | [<- | []]]]; cbn; auto.
  - repeat constructor; cbn; intuition discriminate.
  - intros w'. split; reflexivity.
Defined.

(* ================================================================== *)
(** * The site indices of [CombatHarmonizer] *)

Section GetArgsFacts.
Import Harmonizer.
Variables Value Array Estimator : Type.
Variable value_eqb : Value -> Value -> bool.
Variable set_order : list Value -> list Value.
Variable str_of_list : list Value -> string.

(** The keys of a dict are compared by equality, and a set holds each value
    of the list it is built from once. *)
Hypothesis value_eqb_spec : forall a b, value_eqb a b = true <-> a = b.
Hypothesis set_order_spec :
  forall l, NoDup (set_order l) /\ forall x, In x (set_order l) <-> In x l.

Local Abbreviation world := (Harmonizer.world (list Value) Value Estimator).
Local Abbreviation H := (Harmonizer.H (list Value) Value Estimator).
Local Abbreviation hstep := (hbind_Returns (list Value) Value Estimator).

Lemma In_or_not (x : Value) (l : list Value) : In x l \/ ~ In x l.
Proof.
  induction l as [| y l IH]; [right; intros [] | ].
  destruct (value_eqb y x) eqn:E.
  - left. left. now apply value_eqb_spec.
  - destruct IH as [IH | IH]; [left; now right | ].
    right. intros [-> | H]; [ | contradiction].
    rewrite (proj2 (value_eqb_spec x x) eq_refl) in E. discriminate.
Qed.

(** ** The dict built by [_set_set2idx_map] *)

Definition site_dict (site_series : list Value) : list (Value * nat) :=
  map (fun entry => (snd entry, fst entry)) (enumerate (set_order site_series)).

Lemma dict_get_numbered (l : list Value) :
  forall (a : nat) (x : Value),
  NoDup l ->
  (forall i, nth_error l i = Some x ->
     dict_get value_eqb
       (map (fun entry => (snd entry, fst entry)) (combine (seq a (length l)) l)) x
     = Some (a + i)) /\
  (~ In x l ->
     dict_get value_eqb
       (map (fun entry => (snd entry, fst entry)) (combine (seq a (length l)) l)) x
     = None).
Proof.
  induction l as [| y l IH]; intros a x Hnd.
  - split; [intros [| i]; discriminate | reflexivity].
  - inversion Hnd as [| y' l' Hy Hnd']; subst.
    cbn [length seq combine map dict_get fst snd].
    destruct (value_eqb y x) eqn:E.
    + apply value_eqb_spec in E. subst y. split.
      * intros [| i] Hi; [f_equal; lia | ].
        cbn in Hi. apply nth_error_In in Hi. contradiction.
      * intros H. exfalso. apply H. now left.
    + assert (Hne : y <> x).
      { intros ->. rewrite (proj2 (value_eqb_spec x x) eq_refl) in E. discriminate. }
      destruct (IH (S a) x Hnd') as [IH1 IH2]. split.
      * intros [| i] Hi; [cbn in Hi; congruence | ].
        cbn in Hi. rewrite (IH1 i Hi). f_equal. lia.
      * intros H. apply IH2. intros Hin. apply H. now right.
Qed.

(** A site value that occurs in the series has an index, below the number
    of distinct values, and two values with the same index are the same. *)
Lemma site_dict_In (series : list Value) (x : Value) :
  In x series ->
  exists i, dict_get value_eqb (site_dict series) x = Some i /\
            nth_error (set_order series) i = Some x.
Proof.
  intros Hx. destruct (set_order_spec series) as [Hnd Hin].
  apply Hin, In_nth_error in Hx as (i & Hi).
  exists i. split; [ | exact Hi].
  unfold site_dict, enumerate.
  now rewrite (proj1 (dict_get_numbered (set_order series) 0 x Hnd) i Hi).
Qed.

Lemma site_dict_not_In (series : list Value) (x : Value) :
  ~ In x series -> dict_get value_eqb (site_dict series) x = None.
Proof.
  intros Hx. destruct (set_order_spec series) as [Hnd Hin].
  unfold site_dict, enumerate.
  apply (proj2 (dict_get_numbered (set_order series) 0 x Hnd)).
  intros H. apply Hx, Hin, H.
Qed.

Lemma site_dict_Some (series : list Value) (x : Value) (i : nat) :
  dict_get value_eqb (site_dict series) x = Some i ->
  nth_error (set_order series) i = Some x.
Proof.
  intros H. destruct (set_order_spec series) as [Hnd Hin].
  assert (Hx : In x series).
  { destruct (In_or_not x series) as [Hx | Hx]; [exact Hx | ].
    rewrite (site_dict_not_In series x Hx) in H. discriminate. }
  destruct (site_dict_In series x Hx) as (i' & E & Hi'). congruence.
Qed.

(** ** Reading the columns *)

Lemma getitem_In (X : DataFrame (list Value)) (c : string) :
  In c (columns X) -> exists v, getitem X c = Some v.
Proof.
  induction X as [| [c' v'] X IH]; cbn; [contradiction | ].
  intros [-> | H].
  - rewrite String.eqb_refl. eexists. reflexivity.
  - destruct (String.eqb c' c); [eexists; reflexivity | exact (IH H)].
Qed.

Lemma column_Returns (c : string) (w : world) (v : list Value) :
  getitem (frame w) c = Some v ->
  column (Estimator:=Estimator) c w = (w, Returns v).
Proof. intros E. unfold column, hbind, get_frame. now rewrite E. Qed.

Lemma columns_of_Returns (names : list string) (w : world) :
  (forall c, In c names -> In c (columns (frame w))) ->
  exists cols, columns_of (Estimator:=Estimator) names w = (w, Returns cols).
Proof.
  induction names as [| c names IH]; intros H; cbn [columns_of].
  - exists []. reflexivity.
  - destruct (getitem_In _ _ (H c (or_introl eq_refl))) as (v & Ev).
    destruct (IH (fun c' Hc' => H c' (or_intror Hc'))) as (cols & Ecols).
    exists (v :: cols).
    rewrite (hstep _ _ _ _ _ _ _ (column_Returns c w v Ev)).
    rewrite (hstep _ _ _ _ _ _ _ Ecols). reflexivity.
Qed.

Lemma covariates_Returns (names : list string) (w : world) :
  (forall c, In c names -> In c (columns (frame w))) ->
  exists r, covariates (Estimator:=Estimator) names w = (w, Returns r).
Proof.
  intros H. unfold covariates. destruct (any names).
  - destruct (columns_of_Returns names w H) as (cols & E).
    eexists. rewrite (hstep _ _ _ _ _ _ _ E). reflexivity.
  - eexists. reflexivity.
Qed.

(** The column of site indices, when every site value is a key. *)
Lemma site_indices_Some (m : list (Value * nat)) (series : list Value) :
  (forall x, In x series -> exists i, dict_get value_eqb m x = Some i) ->
  exists site_idx,
    site_indices value_eqb m series = Some site_idx /\
    length site_idx = length series /\
    forall j x, nth_error series j = Some x ->
      exists i, dict_get value_eqb m x = Some i /\ nth_error site_idx j = Some [i].
Proof.
  induction series as [| y series IH]; intros H; cbn [site_indices].
  - exists []. split; [reflexivity | ]. split; [reflexivity | ].
    intros [| j] x; discriminate.
  - destruct (H y (or_introl eq_refl)) as (i & Ei). rewrite Ei.
    destruct (IH (fun x Hx => H x (or_intror Hx))) as (rest & -> & Hlen & Hnth).
    exists ([i] :: rest). split; [reflexivity | ]. split; [cbn; congruence | ].
    intros [| j] x Hx; cbn in Hx |- *.
    + injection Hx as <-. exists i. auto.
    + exact (Hnth j x Hx).
Qed.

(** A site value that is not a key. *)
Lemma site_indices_None (m : list (Value * nat)) (series : list Value) (x : Value) :
  In x series -> dict_get value_eqb m x = None ->
  site_indices value_eqb m series = None.
Proof.
  induction series as [| y series IH]; intros Hx Hm; [contradiction | ].
  cbn [site_indices]. destruct Hx as [-> | Hx].
  - now rewrite Hm.
  - destruct (dict_get value_eqb m y); [ | reflexivity].
    now rewrite (IH Hx Hm).
Qed.

(** X17.  The site indices number the distinct sites.  On the first call
    ([site2idx_map] unset), for a frame that holds the site column and the
    covariate columns, [_get_args] returns, stores the map and leaves the
    frame alone; the column of site indices it hands to the transformer has
    an entry per row, each a single index below the number of distinct site
    values, and two rows get the same index exactly when they have the same
    site value, in whatever order Python iterates the set of values. *)
Theorem get_args_numbers_the_sites (self : CombatHarmonizer) (w : world)
    (series : list Value) :
  site2idx_map w = None ->
  getitem (frame w) (sites self) = Some series ->
  (forall c, In c (dc self) -> In c (columns (frame w))) ->
  (forall c, In c (cc self) -> In c (columns (frame w))) ->
  exists m site_idx disc_cov cont_cov,
    _get_args value_eqb set_order str_of_list self w
    = (World (frame w) (Some m) (transformer w) (stdout w),
       Returns (site_idx, disc_cov, cont_cov)) /\
    length site_idx = length series /\
    (forall j x, nth_error series j = Some x ->
       exists i, nth_error site_idx j = Some [i] /\ i < length (set_order series)) /\
    (forall j k x y, nth_error series j = Some x -> nth_error series k = Some y ->
       (nth_error site_idx j = nth_error site_idx k <-> x = y)).
Proof.
  intros Hm Hs Hdc Hcc.
  set (w1 := World (frame w) (Some (site_dict series)) (transformer w) (stdout w)).
  destruct (site_indices_Some (site_dict series) series
              (fun x Hx => ltac:(destruct (site_dict_In series x Hx) as (i & E & _);
                                 exists i; exact E)))
    as (site_idx & Eidx & Hlen & Hnth).
  destruct (covariates_Returns (dc self) w1 Hdc) as (disc_cov & Ed).
  destruct (covariates_Returns (cc self) w1 Hcc) as (cont_cov & Ec).
  exists (site_dict series), site_idx, disc_cov, cont_cov.
  split; [ | split; [exact Hlen | split]].
  - unfold _get_args.
    unfold hbind at 1. cbv beta iota. rewrite Hm.
    rewrite (hstep _ _ _ _ w w1 tt).
    2:{ rewrite (hstep _ _ _ _ _ _ _ (column_Returns _ w series Hs)).
        reflexivity. }
    rewrite (hstep _ _ _ _ _ _ _ (column_Returns _ w1 series Hs)).
    unfold hbind at 1. cbv beta iota. cbn [site2idx_map w1].
    rewrite Eidx. rewrite (hbind_hret (list Value) Value Estimator).
    rewrite (hstep _ _ _ _ _ _ _ Ed).
    rewrite (hstep _ _ _ _ _ _ _ Ec). reflexivity.
  - intros j x Hx. destruct (Hnth j x Hx) as (i & Ei & Hi).
    exists i. split; [exact Hi | ].
    apply site_dict_Some in Ei. apply nth_error_Some. congruence.
  - intros j k x y Hx Hy.
    destruct (Hnth j x Hx) as (i & Ei & Hi). destruct (Hnth k y Hy) as (i' & Ei' & Hi').
    rewrite Hi, Hi'. split.
    + intros E. injection E as <-.
      apply site_dict_Some in Ei, Ei'. congruence.
    + intros <-. congruence.
Qed.

(** ** The map is set once *)

Variable setitem_all : DataFrame (list Value) -> Array -> result (DataFrame (list Value)).
Variable set_iter : list string -> list string.
Variable transformer_transform :
  list (list nat) * option (list (list Value)) * option (list (list Value)) -> H Array.
Variable transformer_fit :
  list (list nat) * option (list (list Value)) * option (list (list Value)) -> H unit.

(** A statement that leaves [site2idx_map] as it is. *)
Definition keeps_map {A : Type} (m : H A) : Prop :=
  forall w, site2idx_map (fst (m w)) = site2idx_map w.

Lemma keeps_map_hbind (A B : Type) (m : H A) (k : A -> H B) :
  keeps_map m -> (forall a, keeps_map (k a)) -> keeps_map (hbind m k).
Proof.
  intros Hm Hk w. unfold hbind. specialize (Hm w).
  destruct (m w) as [w' [a | e | ]]; cbn [fst] in *; [ | exact Hm ..].
  now rewrite Hk.
Qed.

Lemma keeps_map_hfor_each (A : Type) (xs : list A) (body : A -> H unit) :
  (forall x, keeps_map (body x)) -> keeps_map (hfor_each xs body).
Proof.
  intros Hb. induction xs as [| x xs IH]; cbn [hfor_each].
  - intros w. reflexivity.
  - apply keeps_map_hbind; [apply Hb | intros _; exact IH].
Qed.

Lemma keeps_map_set_aside (ex : list string) :
  keeps_map (set_aside (Series:=list Value) (Value:=Value) (Estimator:=Estimator) ex).
Proof.
  induction ex as [| c ex IH]; cbn [set_aside].
  - intros w. reflexivity.
  - apply keeps_map_hbind; [intros w; reflexivity | intros X].
    destruct (get_loc (columns X) c); [ | intros w; reflexivity].
    destruct (pop X c) as [[v X'] | ]; [ | intros w; reflexivity].
    apply keeps_map_hbind; [intros w; reflexivity | intros _].
    apply keeps_map_hbind; [exact IH | intros rest]. intros w. reflexivity.
Qed.

Lemma keeps_map_insert_all (l : list (nat * string * list Value)) :
  keeps_map (insert_all (Value:=Value) (Estimator:=Estimator) l).
Proof.
  unfold insert_all. apply keeps_map_hfor_each. intros [[loc c] v].
  apply keeps_map_hbind; [intros w; reflexivity | intros X].
  apply keeps_map_hbind; [intros w; reflexivity | intros X'].
  intros w. reflexivity.
Qed.

Lemma keeps_map_recombine (self : CombatHarmonizer) (method : H (output Array)) :
  keeps_map method -> keeps_map (_recombine set_iter setitem_all self method).
Proof.
  intros Hm. unfold _recombine.
  apply keeps_map_hbind.
  { unfold check_columns. apply keeps_map_hfor_each. intros [name check].
    apply keeps_map_hbind; [intros w; reflexivity | intros X].
    destruct (negb _); [ | intros w; reflexivity].
    cbv zeta. destruct (negb (warn self)); [intros w; reflexivity | ].
    apply keeps_map_hbind; [intros w; reflexivity | intros _]. intros w. reflexivity. }
  intros _. apply keeps_map_hbind; [apply keeps_map_set_aside | intros excluded].
  apply keeps_map_hbind; [exact Hm | intros out].
  apply keeps_map_hbind.
  { destruct out as [ | a | ]; try (intros w; reflexivity).
    apply keeps_map_hbind; [intros w; reflexivity | intros X].
    apply keeps_map_hbind; [intros w; reflexivity | intros X'].
    intros w. reflexivity. }
  intros _. destruct out as [ | a | ].
  - apply keeps_map_hbind; [apply keeps_map_insert_all | intros _; intros w; reflexivity].
  - apply keeps_map_hbind; [ | intros _; intros w; reflexivity].
    destruct (retain self); try apply keeps_map_insert_all. intros w. reflexivity.
  - apply keeps_map_hbind; [ | intros _; intros w; reflexivity].
    destruct (retain self); try apply keeps_map_insert_all. intros w. reflexivity.
Qed.

Lemma keeps_map_column (c : string) : keeps_map (column (Estimator:=Estimator) c).
Proof.
  unfold column. apply keeps_map_hbind; [intros w; reflexivity | intros X].
  destruct (getitem X c); intros w; reflexivity.
Qed.

Lemma keeps_map_covariates (names : list string) :
  keeps_map (covariates (Estimator:=Estimator) names).
Proof.
  unfold covariates. destruct (any names); [ | intros w; reflexivity].
  apply keeps_map_hbind; [ | intros cols; intros w; reflexivity].
  induction names as [| c names IH]; cbn [columns_of]; [intros w; reflexivity | ].
  apply keeps_map_hbind; [apply keeps_map_column | intros col].
  apply keeps_map_hbind; [exact IH | intros cols; intros w; reflexivity].
Qed.

(** [_get_args] sets the map on the first call, also when it goes on to
    raise for a covariate that is not in the frame. *)
Lemma get_args_sets_the_map (self : CombatHarmonizer) (w : world) (series : list Value) :
  site2idx_map w = None ->
  getitem (frame w) (sites self) = Some series ->
  site2idx_map (fst (_get_args value_eqb set_order str_of_list self w))
  = Some (site_dict series).
Proof.
  intros Hm Hs. unfold _get_args.
  unfold hbind at 1. cbv beta iota. rewrite Hm.
  set (w1 := World (frame w) (Some (site_dict series)) (transformer w) (stdout w)).
  rewrite (hstep _ _ _ _ w w1 tt).
  2:{ rewrite (hstep _ _ _ _ _ _ _ (column_Returns _ w series Hs)). reflexivity. }
  match goal with
  | |- site2idx_map (fst (?m w1)) = _ =>
      assert (K : keeps_map m); [ | now rewrite K ]
  end.
  apply keeps_map_hbind; [apply keeps_map_column | intros s].
  apply keeps_map_hbind; [intros w'; reflexivity | intros m].
  cbv zeta.
  apply keeps_map_hbind.
  { destruct (site_indices _ _ _); intros w'; reflexivity. }
  intros idx.
  apply keeps_map_hbind; [apply keeps_map_covariates | intros d].
  apply keeps_map_hbind; [apply keeps_map_covariates | intros c].
  intros w'. reflexivity.
Qed.

(** X18.  The sites are fixed by the first call.  [fit] on a frame that
    holds the site column sets [site2idx_map] from the site values of that
    frame, whatever [fit] then does (the wrapped transformer does not touch
    the map).  After that, [transform] on a frame whose site column holds a
    value that the first frame did not have raises [KeyError] from
    [_get_args], naming the value among the unknown sites; it does so
    before any column is set aside and before the transformer is called, so
    the frame and the harmonizer are left as they were. *)
Theorem transform_rejects_a_site_unseen_by_fit (self : CombatHarmonizer) (w : world)
    (series : list Value) (X2 : DataFrame (list Value)) (series2 : list Value)
    (x : Value) :
  (forall args w', site2idx_map (fst (transformer_fit args w')) = site2idx_map w') ->
  site2idx_map w = None ->
  getitem (frame w) (sites self) = Some series ->
  getitem X2 (sites self) = Some series2 ->
  In x series2 ->
  ~ In x series ->
  exists unknown_sites,
    In x unknown_sites /\
    let w1 :=
      fst (fit value_eqb set_order str_of_list setitem_all set_iter transformer_fit
             self w) in
    let w2 := World X2 (site2idx_map w1) (transformer w1) (stdout w1) in
    transform value_eqb set_order str_of_list setitem_all set_iter transformer_transform
      self w2
    = (w2, Raises (KeyError
                     ("Encountered new site after sites indices were already set."
                      ++ newline ++ "Unknown sites: " ++ str_of_list unknown_sites))).
Proof.
  intros Hfit Hm Hs Hs2 Hx Hnx.
  exists (filter (fun i => match dict_get value_eqb (site_dict series) i with
                           | Some _ => false
                           | None => true
                           end) series2).
  split.
  { apply filter_In. split; [exact Hx | ]. now rewrite site_dict_not_In. }
  cbv zeta.
  assert (Hmap : site2idx_map
                   (fst (fit value_eqb set_order str_of_list setitem_all set_iter
                           transformer_fit self w))
                 = Some (site_dict series)).
  { unfold fit. unfold hbind at 1.
    pose proof (get_args_sets_the_map self w series Hm Hs) as Hg.
    destruct (_get_args value_eqb set_order str_of_list self w) as [w' [args | e | ]];
      cbn [fst] in Hg |- *; try exact Hg.
    rewrite keeps_map_recombine; [exact Hg | ].
    apply keeps_map_hbind; [exact (Hfit args) | intros _; intros w0; reflexivity]. }
  rewrite Hmap.
  set (w2 := World X2 (Some (site_dict series)) _ _).
  unfold transform. apply hbind_Raises.
  unfold _get_args.
  unfold hbind at 1. cbv beta iota. cbn [site2idx_map w2].
  rewrite (hbind_hret (list Value) Value Estimator).
  rewrite (hstep _ _ _ _ _ _ _ (column_Returns _ w2 series2 Hs2)).
  unfold hbind at 1. cbv beta iota. cbn [site2idx_map w2].
  rewrite (site_indices_None (site_dict series) series2 x Hx
             (site_dict_not_In series x Hnx)).
  reflexivity.
Qed.

(** ** [fit_transform] with the sites only *)

Lemma getitem_Some_In (X : DataFrame (list Value)) (c : string) (v : list Value) :
  getitem X c = Some v -> In c (columns X).
Proof.
  induction X as [| [c' v'] X IH]; cbn; [discriminate | ].
  destruct (String.eqb_spec c' c) as [-> | _]; [now left | ].
  intros H. right. exact (IH H).
Qed.

Lemma get_args_first_call (self : CombatHarmonizer) (w : world) (series : list Value) :
  site2idx_map w = None ->
  getitem (frame w) (sites self) = Some series ->
  dc self = [] -> cc self = [] ->
  exists args,
    _get_args value_eqb set_order str_of_list self w
    = (World (frame w) (Some (site_dict series)) (transformer w) (stdout w),
       Returns args).
Proof.
  intros Hm Hs Hdc Hcc.
  set (w1 := World (frame w) (Some (site_dict series)) (transformer w) (stdout w)).
  destruct (site_indices_Some (site_dict series) series
              (fun x Hx => ltac:(destruct (site_dict_In series x Hx) as (i & E & _);
                                 exists i; exact E)))
    as (site_idx & Eidx & _).
  exists (site_idx, None, None).
  unfold _get_args.
  unfold hbind at 1. cbv beta iota. rewrite Hm.
  rewrite (hstep _ _ _ _ w w1 tt).
  2:{ rewrite (hstep _ _ _ _ _ _ _ (column_Returns _ w series Hs)). reflexivity. }
  rewrite (hstep _ _ _ _ _ _ _ (column_Returns _ w1 series Hs)).
  unfold hbind at 1. cbv beta iota. cbn [site2idx_map w1].
  rewrite Eidx. rewrite (hbind_hret (list Value) Value Estimator).
  rewrite Hdc, Hcc. reflexivity.
Qed.

Lemma get_args_later_call (self : CombatHarmonizer) (w : world) (series : list Value) :
  site2idx_map w = Some (site_dict series) ->
  getitem (frame w) (sites self) = Some series ->
  dc self = [] -> cc self = [] ->
  exists args,
    _get_args value_eqb set_order str_of_list self w = (w, Returns args).
Proof.
  intros Hm Hs Hdc Hcc.
  destruct (site_indices_Some (site_dict series) series
              (fun x Hx => ltac:(destruct (site_dict_In series x Hx) as (i & E & _);
                                 exists i; exact E)))
    as (site_idx & Eidx & _).
  exists (site_idx, None, None).
  unfold _get_args.
  unfold hbind at 1. cbv beta iota. rewrite Hm.
  rewrite (hbind_hret (list Value) Value Estimator).
  rewrite (hstep _ _ _ _ _ _ _ (column_Returns _ w series Hs)).
  unfold hbind at 1. cbv beta iota. rewrite Hm.
  rewrite Eidx. rewrite (hbind_hret (list Value) Value Estimator).
  rewrite Hdc, Hcc. reflexivity.
Qed.

(** X20.  [fit_transform] with the sites only.  For a harmonizer that sets
    aside the site column and nothing else, a frame of distinct labels that
    holds it, a transformer whose [fit] and [transform] return and leave the
    frame and the map alone, and an assignment [X[:] = output] that
    succeeds and keeps the labels: [fit_transform] returns the caller's
    frame itself; its columns are the columns before, in their order, when
    [retain] is [True] or a list that names the site column, and the columns
    before without the site column otherwise. *)
Theorem fit_transform_with_sites_only (self : CombatHarmonizer) (w : world)
    (series : list Value) :
  ex self = [sites self] ->
  dc self = [] ->
  cc self = [] ->
  site2idx_map w = None ->
  getitem (frame w) (sites self) = Some series ->
  NoDup (columns (frame w)) ->
  (forall args w',
     snd (transformer_fit args w') = Returns tt /\
     frame (fst (transformer_fit args w')) = frame w' /\
     site2idx_map (fst (transformer_fit args w')) = site2idx_map w') ->
  (forall args w',
     (exists a, snd (transformer_transform args w') = Returns a) /\
     frame (fst (transformer_transform args w')) = frame w') ->
  (forall X a, exists X', setitem_all X a = Returns X' /\ columns X' = columns X) ->
  snd (fit_transform value_eqb set_order str_of_list setitem_all set_iter
         transformer_transform transformer_fit self w) = Returns TheFrame /\
  columns (frame (fst (fit_transform value_eqb set_order str_of_list setitem_all set_iter
                         transformer_transform transformer_fit self w)))
  = if match retain self with
       | RetainTrue => true
       | RetainList l => mem (sites self) l
       | RetainOther => false
       end
    then columns (frame w)
    else filter (fun c => negb (String.eqb c (sites self))) (columns (frame w)).
Proof.
  intros Hex Hdc Hcc Hm Hs Hnd Hfit Htr Hset.
  pose proof (getitem_Some_In _ _ _ Hs) as Hin.
  assert (Hdc' : forall c', In c' (dc self) -> In c' (ex self))
    by (rewrite Hdc; intros c' []).
  (* fit *)
  destruct (get_args_first_call self w series Hm Hs Hdc Hcc) as (args1 & E1).
  set (w1 := World (frame w) (Some (site_dict series)) (transformer w) (stdout w)) in *.
  destruct (recombine_one_column (list Value) Value Array Estimator set_iter setitem_all
              self (hbind (transformer_fit args1) (fun _ => hret IsEstimator)) w1
              (sites self) Hex Hdc' Hin Hnd Hset) as (X1 & _ & Hrec1).
  set (wp := World X1 (site2idx_map w1) (transformer w1) (stdout w1)) in *.
  destruct (transformer_fit args1 wp) as [w2 r2] eqn:Ef.
  destruct (Hfit args1 wp) as (Hr2 & Hf2 & Hm2). rewrite Ef in Hr2, Hf2, Hm2.
  cbn [fst snd] in Hr2, Hf2, Hm2. subst r2.
  destruct (Hrec1 w2 IsEstimator) as (w3 & Erec1 & Hm3 & _ & Hf3 & _).
  { unfold hbind. now rewrite Ef. }
  { exact Hf2. }
  specialize (Hf3 eq_refl). cbn [frame w1] in Hf3.
  assert (Efit : fit value_eqb set_order str_of_list setitem_all set_iter
                   transformer_fit self w = (w3, Returns TheHarmonizer)).
  { unfold fit. rewrite (hstep _ _ _ _ _ _ _ E1). exact Erec1. }
  (* transform *)
  assert (Hmap3 : site2idx_map w3 = Some (site_dict series))
    by (rewrite Hm3, Hm2; reflexivity).
  assert (Hs3 : getitem (frame w3) (sites self) = Some series) by (now rewrite Hf3).
  destruct (get_args_later_call self w3 series Hmap3 Hs3 Hdc Hcc) as (args2 & E2).
  destruct (recombine_one_column (list Value) Value Array Estimator set_iter setitem_all
              self (hbind (transformer_transform args2) (fun a => hret (IsArray a))) w3
              (sites self) Hex Hdc'
              ltac:(rewrite Hf3; exact Hin) ltac:(rewrite Hf3; exact Hnd) Hset)
    as (X3 & _ & Hrec2).
  set (wq := World X3 (site2idx_map w3) (transformer w3) (stdout w3)) in *.
  destruct (transformer_transform args2 wq) as [w4 r4] eqn:Et.
  destruct (Htr args2 wq) as ((a & Hr4) & Hf4). rewrite Et in Hr4, Hf4.
  cbn [fst snd] in Hr4, Hf4. subst r4.
  destruct (Hrec2 w4 (IsArray a)) as (w5 & Erec2 & _ & _ & _ & Hcols).
  { unfold hbind. now rewrite Et. }
  { exact Hf4. }
  unfold fit_transform. rewrite (hstep _ _ _ _ _ _ _ Efit).
  unfold transform. rewrite (hstep _ _ _ _ _ _ _ E2). rewrite Erec2.
  cbn [fst snd]. split; [reflexivity | ]. rewrite Hcols, Hf3. reflexivity.
Qed.

End GetArgsFacts.

(** Site values that are integers, a set that iterates in increasing order,
    and a transformer that does nothing. *)
Module SitesExample.

Definition str_of_list (l : list Z) : string := ("[" ++ string_of_Zs l ++ "]")%string.

Lemma np_unique_is_a_set (l : list Z) :
  NoDup (np_unique l) /\ (forall x, In x (np_unique l) <-> In x l).
Proof. split; [apply NoDup_np_unique | intros x; apply In_np_unique]. Qed.

Definition transformer_fit
    (args : list (list nat) * option (list (list Z)) * option (list (list Z)))
  : Harmonizer.H (list Z) Z unit unit :=
  fun w => (w, Harmonizer.Returns tt).

Definition transformer_transform
    (args : list (list nat) * option (list (list Z)) * option (list (list Z)))
  : Harmonizer.H (list Z) Z unit unit :=
  fun w => (w, Harmonizer.Returns tt).

(** A second frame, with a site that the first does not have. *)
Definition X2 : Harmonizer.DataFrame (list Z) :=
  [("site"%string, [1; 3]%Z); ("volume"%string, [5; 6]%Z)].

End SitesExample.

(** X17, witness: the frame of the sites 1 and 2, with the age as a
    continuous covariate. *)
Lemma get_args_numbers_the_sites_witness :
  exists m site_idx disc_cov cont_cov,
    Harmonizer._get_args Z.eqb np_unique SitesExample.str_of_list
      HarmonizerExample.sites_and_age HarmonizerExample.w
    = (Harmonizer.World (Harmonizer.frame HarmonizerExample.w) (Some m)
         (Harmonizer.transformer HarmonizerExample.w)
         (Harmonizer.stdout HarmonizerExample.w),
       Harmonizer.Returns (site_idx, disc_cov, cont_cov)) /\
    length site_idx = length [1; 2]%Z /\
    (forall j x, nth_error [1; 2]%Z j = Some x ->
       exists i, nth_error site_idx j = Some [i] /\ i < length (np_unique [1; 2]%Z)) /\
    (forall j k x y, nth_error [1; 2]%Z j = Some x -> nth_error [1; 2]%Z k = Some y ->
       (nth_error site_idx j = nth_error site_idx k <-> x = y)).
Proof.
  apply (get_args_numbers_the_sites Z unit Z.eqb np_unique SitesExample.str_of_list
           Z.eqb_eq SitesExample.np_unique_is_a_set
           HarmonizerExample.sites_and_age HarmonizerExample.w [1; 2]%Z).
  - reflexivity.
  - reflexivity.
  - intros c [].
  - intros c [<- | []]. cbn. auto.
Defined.

(** X18, witness: [fit] on the frame of the sites 1 and 2, then [transform]
    on a frame with the site 3. *)
Lemma transform_rejects_a_site_unseen_by_fit_witness :
  exists unknown_sites,
    In 3%Z unknown_sites /\
    let w1 :=
      fst (Harmonizer.fit Z.eqb np_unique SitesExample.str_of_list
             HarmonizerExample.setitem_all HarmonizerExample.set_iter
             SitesExample.transformer_fit HarmonizerExample.sites_only
             HarmonizerExample.w) in
    let w2 := Harmonizer.World SitesExample.X2 (Harmonizer.site2idx_map w1)
                (Harmonizer.transformer w1) (Harmonizer.stdout w1) in
    Harmonizer.transform Z.eqb np_unique SitesExample.str_of_list
      HarmonizerExample.setitem_all HarmonizerExample.set_iter
      SitesExample.transformer_transform HarmonizerExample.sites_only w2
    = (w2, Harmonizer.Raises
             (Harmonizer.KeyError
                ("Encountered new site after sites indices were already set."
                 ++ Harmonizer.newline ++ "Unknown sites: "
                 ++ SitesExample.str_of_list unknown_sites))).
Proof.
  apply (transform_rejects_a_site_unseen_by_fit Z unit unit Z.eqb np_unique
           SitesExample.str_of_list Z.eqb_eq SitesExample.np_unique_is_a_set
           HarmonizerExample.setitem_all HarmonizerExample.set_iter
           SitesExample.transformer_transform SitesExample.transformer_fit
           HarmonizerExample.sites_only HarmonizerExample.w
           [1; 2]%Z SitesExample.X2 [1; 3]%Z 3%Z).
  - intros args w'. reflexivity.
  - reflexivity.
  - reflexivity.
  - reflexivity.
  - cbn. auto.
  - cbn. intros [H | [H | []]]; discriminate.
Defined.

(** X20, witness: the sites only, [retain] left at its default. *)
Lemma fit_transform_with_sites_only_witness :
  snd (Harmonizer.fit_transform Z.eqb np_unique SitesExample.str_of_list
         HarmonizerExample.setitem_all HarmonizerExample.set_iter
         SitesExample.transformer_transform SitesExample.transformer_fit
         HarmonizerExample.sites_only HarmonizerExample.w)
  = Harmonizer.Returns Harmonizer.TheFrame /\
  Harmonizer.columns
    (Harmonizer.frame
       (fst (Harmonizer.fit_transform Z.eqb np_unique SitesExample.str_of_list
               HarmonizerExample.setitem_all HarmonizerExample.set_iter
               SitesExample.transformer_transform SitesExample.transformer_fit
               HarmonizerExample.sites_only HarmonizerExample.w)))
  = (if match Harmonizer.retain HarmonizerExample.sites_only with
        | Harmonizer.RetainTrue => true
        | Harmonizer.RetainList l =>
            Harmonizer.mem (Harmonizer.sites HarmonizerExample.sites_only) l
        | Harmonizer.RetainOther => false
        end
     then Harmonizer.columns (Harmonizer.frame HarmonizerExample.w)
     else filter
            (fun c => negb (String.eqb c (Harmonizer.sites HarmonizerExample.sites_only)))
            (Harmonizer.columns (Harmonizer.frame HarmonizerExample.w))).
Proof.
  apply (fit_transform_with_sites_only Z unit unit Z.eqb np_unique
           SitesExample.str_of_list Z.eqb_eq SitesExample.np_unique_is_a_set
           HarmonizerExample.setitem_all HarmonizerExample.set_iter
           SitesExample.transformer_transform SitesExample.transformer_fit
           HarmonizerExample.sites_only HarmonizerExample.w [1; 2]%Z).
  - reflexivity.
  - reflexivity.
  - reflexivity.
  - reflexivity.
  - reflexivity.
  - repeat constructor; cbn; intuition discriminate.
  - intros args w'. repeat split.
  - intros args w'. split; [exists tt | ]; reflexivity.
  - intros X a. exists X. split; reflexivity.
Defined.

(* ================================================================== *)
(** * The location estimates of [_fit_ls_model], in exact arithmetic *)

(** The inverse of a diagonal matrix.  With nonzero diagonal entries [d i]
    the elimination never swaps rows, divides row [m] by [d m] at step [m]
    and leaves the other rows as they are. *)
Section DiagonalInverse.
Local Open Scope R_scope.
Variable n : nat.
Variable d : nat -> R.
Hypothesis d_nonzero : forall i, (i < n)%nat -> d i <> 0.

Lemma is_zero_nonzero (x : R) : x <> 0 -> is_zero x = false.
Proof.
  intros Hx. unfold is_zero. cbn [fgt zero fisnan Real.Scalar_R]. unfold Real.gt.
  destruct (Rgt_dec x 0); [reflexivity | ].
  destruct (Rgt_dec 0 x); [reflexivity | ]. exfalso. lra.
Qed.

Lemma swap_rows_same (rows : list (list R)) (i : nat) : swap_rows rows i i = rows.
Proof.
  unfold swap_rows. apply (nth_ext _ _ [] []).
  - now rewrite length_map, length_seq.
  - intros k Hk. rewrite length_map, length_seq in Hk.
    rewrite (nth_map_seq _ [] _ (length rows) k Hk).
    now destruct (Nat.eqb_spec k i) as [-> | _].
Qed.

Lemma combine_map_seq (f g : nat -> R) (l : list nat) :
  combine (map f l) (map g l) = map (fun j => (f j, g j)) l.
Proof. induction l as [| x l IH]; cbn; [reflexivity | now rewrite IH]. Qed.

(** The augmented matrix after [m] steps: entry [j] of row [i]. *)
Definition reduced (m i j : nat) : R :=
  if (i <? m)%nat then
    if (j <? n)%nat then (if (j =? i)%nat then 1 else 0)
    else if (j - n =? i)%nat then 1 / d i else 0
  else
    if (j <? n)%nat then (if (j =? i)%nat then d i else 0)
    else if (j - n =? i)%nat then 1 else 0.

Definition reduced_rows (m : nat) : list (list R) :=
  map (fun i => map (fun j => reduced m i j) (seq 0 (2 * n))) (seq 0 n).

Lemma nth_reduced_rows (m i : nat) :
  (i < n)%nat ->
  nth i (reduced_rows m) [] = map (fun j => reduced m i j) (seq 0 (2 * n)).
Proof.
  intros Hi. unfold reduced_rows.
  exact (nth_map_seq _ [] (fun i => map (fun j => reduced m i j) (seq 0 (2 * n))) n i Hi).
Qed.

Lemma vnth_reduced_rows (m i j : nat) :
  (i < n)%nat -> (j < 2 * n)%nat ->
  vnth (nth i (reduced_rows m) []) j = reduced m i j.
Proof.
  intros Hi Hj. rewrite nth_reduced_rows by exact Hi. now apply vnth_map_seq.
Qed.

Lemma reduced_pivot (m : nat) : (m < n)%nat -> reduced m m m = d m.
Proof.
  intros Hm. unfold reduced.
  rewrite Nat.ltb_irrefl, (proj2 (Nat.ltb_lt m n) Hm), Nat.eqb_refl. reflexivity.
Qed.

Lemma reduced_off_pivot (m i : nat) : (m < n)%nat -> i <> m -> reduced m i m = 0.
Proof.
  intros Hm Hi. unfold reduced.
  rewrite (proj2 (Nat.ltb_lt m n) Hm).
  destruct (Nat.eqb_spec m i) as [E | _]; [congruence | ].
  now destruct (i <? m)%nat.
Qed.

Lemma pivot_row_reduced (m : nat) (cands : list nat) :
  (m < n)%nat -> (forall i, In i cands -> (m < i < n)%nat) ->
  pivot_row (reduced_rows m) m cands m = m.
Proof.
  intros Hm. induction cands as [| i cands IH]; intros H; [reflexivity | ].
  cbn [pivot_row].
  pose proof (H i (or_introl eq_refl)) as Hi.
  rewrite !vnth_reduced_rows by lia.
  rewrite reduced_pivot by exact Hm.
  rewrite reduced_off_pivot by lia.
  cbn [fgt fabs Real.Scalar_R]. unfold Real.gt.
  destruct (Rgt_dec (Rabs 0) (Rabs (d m))) as [Hgt | _].
  - exfalso. rewrite Rabs_R0 in Hgt.
    pose proof (Rabs_pos (d m)). lra.
  - apply IH. intros k Hk. apply H. now right.
Qed.

Lemma reduced_step_pivot (m j : nat) :
  (m < n)%nat -> reduced m m j / d m = reduced (S m) m j.
Proof.
  intros Hm. pose proof (d_nonzero m Hm) as Hd. unfold reduced.
  rewrite Nat.ltb_irrefl, (proj2 (Nat.ltb_lt m (S m)) (Nat.lt_succ_diag_r m)).
  destruct (j <? n)%nat.
  - destruct (j =? m)%nat; field; exact Hd.
  - destruct (j - n =? m)%nat; field; exact Hd.
Qed.

Lemma reduced_step_other (m i j : nat) :
  i <> m -> reduced m i j = reduced (S m) i j.
Proof.
  intros Hi. unfold reduced.
  replace (i <? S m)%nat with (i <? m)%nat; [reflexivity | ].
  destruct (Nat.ltb_spec i m), (Nat.ltb_spec i (S m)); try reflexivity; lia.
Qed.

Lemma eliminate_reduced (m : nat) :
  (m < n)%nat -> eliminate (reduced_rows m) m = Ok (reduced_rows (S m)).
Proof.
  intros Hm. unfold eliminate.
  assert (Hlen : length (reduced_rows m) = n)
    by (unfold reduced_rows; now rewrite length_map, length_seq).
  rewrite Hlen.
  rewrite pivot_row_reduced.
  2: exact Hm.
  2: { intros i Hi. apply in_seq in Hi. lia. }
  rewrite swap_rows_same.
  rewrite vnth_reduced_rows by lia.
  rewrite reduced_pivot by exact Hm.
  rewrite is_zero_nonzero by (apply d_nonzero; exact Hm).
  f_equal.
  change (reduced_rows (S m))
    with (map (fun i => map (fun j => reduced (S m) i j) (seq 0 (2 * n))) (seq 0 n)).
  apply map_seq_ext. intros i Hi.
  destruct (Nat.eqb_spec i m) as [-> | Hne].
  - rewrite nth_reduced_rows by exact Hm. rewrite map_map.
    apply map_seq_ext. intros j Hj.
    cbn [fdiv Real.Scalar_R]. now apply reduced_step_pivot.
  - rewrite vnth_reduced_rows by lia.
    rewrite reduced_off_pivot by assumption.
    rewrite !nth_reduced_rows by assumption.
    rewrite map_map, combine_map_seq, map_map.
    apply map_seq_ext. intros j Hj. cbn [fst snd fsub fmul fdiv Real.Scalar_R].
    rewrite <- (reduced_step_other m i j Hne). ring.
Qed.

Lemma gauss_jordan_reduced (c m : nat) :
  (m + c = n)%nat -> gauss_jordan (reduced_rows m) (seq m c) = Ok (reduced_rows n).
Proof.
  revert m. induction c as [| c IH]; intros m Hm; cbn [seq gauss_jordan].
  - now replace m with n by lia.
  - rewrite eliminate_reduced by lia. cbn [obind]. apply IH. lia.
Qed.

Lemma inv_diagonal (A : ndarray R) :
  nrows A = n -> ncols A = n ->
  (forall i j, (i < n)%nat -> (j < n)%nat ->
     at_ A i j = if (i =? j)%nat then d i else 0) ->
  inv A = Ok (tab n n (fun i j => if (i =? j)%nat then 1 / d i else 0)).
Proof.
  intros Hr Hc HA. unfold inv. rewrite Hr, Hc, Nat.eqb_refl. cbn [negb].
  replace (map _ (seq 0 n)) with (reduced_rows 0).
  2: { unfold reduced_rows. apply map_seq_ext. intros i Hi.
       apply map_seq_ext. intros j Hj. unfold reduced.
       change (i <? 0)%nat with false. cbv iota.
       destruct (Nat.ltb_spec j n) as [Hjn | Hjn].
       - rewrite HA by assumption. rewrite (Nat.eqb_sym j i). reflexivity.
       - reflexivity. }
  rewrite (gauss_jordan_reduced n 0) by lia. cbn [obind]. f_equal.
  apply tab_ext. intros i j Hi Hj.
  rewrite vnth_reduced_rows by lia. unfold reduced.
  rewrite (proj2 (Nat.ltb_lt i n) Hi).
  destruct (Nat.ltb_spec (n + j) n) as [Hlt | _]; [lia | ].
  replace (n + j - n)%nat with j by lia.
  rewrite (Nat.eqb_sym j i). reflexivity.
Qed.

End DiagonalInverse.

(** The least-squares fit on the site indicators.  [S] is a matrix of one
    row per sample and one column per site name, with a one where the
    sample belongs to the site. *)
Section SiteMeans.
Local Open Scope R_scope.

Lemma np_sum_filter (c : nat -> bool) (f : nat -> R) (l : list nat) :
  np_sum (map (fun s => if c s then f s else 0) l) = np_sum (map f (filter c l)).
Proof.
  induction l as [| x l IH]; [reflexivity | ].
  cbn [map filter]. rewrite np_sum_cons, IH.
  destruct (c x); [cbn [map]; now rewrite np_sum_cons | ring].
Qed.

Lemma np_sum_ones (l : list nat) : np_sum (map (fun _ => 1) l) = INR (length l).
Proof.
  induction l as [| x l IH]; [reflexivity | ].
  cbn [map]. rewrite np_sum_cons, IH.
  change (length (x :: l)) with (S (length l)). rewrite S_INR. ring.
Qed.

Lemma np_sum_add (f g : nat -> R) (l : list nat) :
  np_sum (map (fun x => f x + g x) l) = np_sum (map f l) + np_sum (map g l).
Proof.
  induction l as [| x l IH]; cbn [map].
  - cbn. ring.
  - rewrite !np_sum_cons, IH. ring.
Qed.

Lemma np_sum_swap (f : nat -> nat -> R) (l l' : list nat) :
  np_sum (map (fun a => np_sum (map (fun s => f a s) l')) l)
  = np_sum (map (fun s => np_sum (map (fun a => f a s) l)) l').
Proof.
  induction l as [| x l IH]; cbn [map].
  - cbn [np_sum]. symmetry. now apply np_sum_all_zero.
  - rewrite np_sum_cons, IH.
    rewrite <- np_sum_add. f_equal. apply map_ext. intros s.
    now rewrite np_sum_cons.
Qed.

Lemma sum_n_swap (k n : nat) (f : nat -> nat -> R) :
  sum_n k (fun a => sum_n n (fun s => f a s))
  = sum_n n (fun s => sum_n k (fun a => f a s)).
Proof. apply np_sum_swap. Qed.

Lemma dot_aligned (A B : ndarray R) :
  ncols A = nrows B ->
  dot A B = Ok (tab (nrows A) (ncols B)
                  (fun i j => sum_n (ncols A) (fun k => at_ A i k * at_ B k j)%sc)).
Proof. intros H. unfold dot. now rewrite H, Nat.eqb_refl. Qed.

Lemma at_transpose (M : ndarray R) (i j : nat) :
  (i < ncols M)%nat -> (j < nrows M)%nat -> at_ (transpose zero M) i j = at_ M j i.
Proof. intros Hi Hj. unfold transpose. now rewrite at_tab. Qed.

Variable sites : list Z.
Variable S : ndarray R.
Hypothesis S_rows : nrows S = length sites.
Hypothesis S_cols : ncols S = length (np_unique sites).
Hypothesis S_at :
  forall k j, (k < length sites)%nat -> (j < length (np_unique sites))%nat ->
    at_ S k j = if (nth k sites 0 =? nth j (np_unique sites) 0)%Z then 1 else 0.

(** The number of samples of the [a]-th site. *)
Definition site_size (a : nat) : nat :=
  length (np_where_eq sites (nth a (np_unique sites) 0%Z)).

Lemma site_size_nonzero (a : nat) :
  (a < length (np_unique sites))%nat -> INR (site_size a) <> 0.
Proof.
  intros Ha. apply not_0_INR. unfold site_size.
  assert (Hin : In (nth a (np_unique sites) 0%Z) sites)
    by (apply In_np_unique, nth_In, Ha).
  destruct (In_nth sites _ 0%Z Hin) as (s & Hs & Es).
  assert (Hw : In s (np_where_eq sites (nth a (np_unique sites) 0%Z)))
    by (apply In_np_where_eq; split; assumption).
  destruct (np_where_eq sites (nth a (np_unique sites) 0%Z)); [contradiction | discriminate].
Qed.

(** Every sample belongs to exactly one of the site names. *)
Lemma one_site_per_sample (s : nat) (x : R) :
  (s < length sites)%nat ->
  sum_n (length (np_unique sites))
    (fun a => if (nth s sites 0 =? nth a (np_unique sites) 0)%Z then x else 0) = x.
Proof.
  intros Hs.
  assert (Hin : In (nth s sites 0%Z) (np_unique sites))
    by (apply In_np_unique, nth_In, Hs).
  destruct (In_nth (np_unique sites) _ 0%Z Hin) as (a & Ha & Ea).
  rewrite (sum_n_single _ a).
  - now rewrite Ea, Z.eqb_refl.
  - exact Ha.
  - intros b Hb Hne.
    destruct (Z.eqb_spec (nth s sites 0%Z) (nth b (np_unique sites) 0%Z)) as [Eb | _];
      [ | reflexivity].
    exfalso. apply Hne.
    apply (NoDup_nth_Z (np_unique sites) b a (NoDup_np_unique sites) Hb Ha). congruence.
Qed.

Lemma site_gram :
  dot (transpose zero S) S
  = Ok (tab (length (np_unique sites)) (length (np_unique sites))
          (fun a b => if (a =? b)%nat then INR (site_size a) else 0)).
Proof.
  rewrite dot_aligned by (cbn [ncols transpose tab]; reflexivity).
  cbn [nrows ncols transpose tab]. rewrite S_rows, S_cols. f_equal.
  apply tab_ext. intros a b Ha Hb.
  destruct (Nat.eqb_spec a b) as [<- | Hab].
  - rewrite (sum_n_ext _ _
               (fun s => if (nth s sites 0 =? nth a (np_unique sites) 0)%Z then 1 else 0)).
    + unfold sum_n. rewrite (np_sum_filter _ (fun _ => 1)), np_sum_ones. reflexivity.
    + intros s Hs. rewrite at_transpose by (rewrite ?S_rows, ?S_cols; assumption).
      rewrite S_at by assumption. real_ops.
      destruct (nth s sites 0 =? nth a (np_unique sites) 0)%Z; ring.
  - apply sum_n_all_zero. intros s Hs.
    rewrite at_transpose by (rewrite ?S_rows, ?S_cols; assumption).
    rewrite !S_at by assumption. real_ops.
    destruct (Z.eqb_spec (nth s sites 0%Z) (nth a (np_unique sites) 0%Z)) as [Ea | _];
      [ | ring].
    destruct (Z.eqb_spec (nth s sites 0%Z) (nth b (np_unique sites) 0%Z)) as [Eb | _];
      [ | ring].
    exfalso. apply Hab.
    apply (NoDup_nth_Z (np_unique sites) a b (NoDup_np_unique sites) Ha Hb). congruence.
Qed.

Lemma site_gram_inverse :
  inv (tab (length (np_unique sites)) (length (np_unique sites))
         (fun a b => if (a =? b)%nat then INR (site_size a) else 0))
  = Ok (tab (length (np_unique sites)) (length (np_unique sites))
          (fun a b => if (a =? b)%nat then 1 / INR (site_size a) else 0)).
Proof.
  apply (inv_diagonal _ (fun a => INR (site_size a)) site_size_nonzero);
    try reflexivity.
  intros i j Hi Hj. now rewrite at_tab by assumption.
Qed.

Lemma site_projection :
  dot (tab (length (np_unique sites)) (length (np_unique sites))
         (fun a b => if (a =? b)%nat then 1 / INR (site_size a) else 0))
      (transpose zero S)
  = Ok (tab (length (np_unique sites)) (length sites)
          (fun a s => 1 / INR (site_size a)
                      * (if (nth s sites 0 =? nth a (np_unique sites) 0)%Z then 1 else 0))).
Proof.
  rewrite dot_aligned by (cbn [nrows ncols transpose tab]; now rewrite S_cols).
  cbn [nrows ncols transpose tab]. rewrite S_rows. f_equal.
  apply tab_ext. intros a s Ha Hs.
  rewrite (sum_n_single _ a) by first
    [ exact Ha
    | intros b Hb Hne; rewrite at_tab by assumption;
      destruct (Nat.eqb_spec a b) as [E | _]; [congruence | real_ops; ring] ].
  rewrite at_tab by assumption. rewrite Nat.eqb_refl.
  rewrite at_transpose by (rewrite ?S_rows, ?S_cols; assumption).
  now rewrite S_at by assumption.
Qed.

(** The mean of row [i] of [D] over the samples of site [x]. *)
Definition site_mean (D : ndarray R) (i : nat) (x : Z) : R :=
  np_mean (map (fun k => at_ D i k) (np_where_eq sites x)).

Lemma site_means (D : ndarray R) :
  ncols D = length sites ->
  dot (tab (length (np_unique sites)) (length sites)
         (fun a s => 1 / INR (site_size a)
                     * (if (nth s sites 0 =? nth a (np_unique sites) 0)%Z then 1 else 0)))
      (transpose zero D)
  = Ok (tab (length (np_unique sites)) (nrows D)
          (fun a i => site_mean D i (nth a (np_unique sites) 0%Z))).
Proof.
  intros HD.
  rewrite dot_aligned by (cbn [nrows ncols transpose tab]; now rewrite HD).
  cbn [nrows ncols transpose tab]. f_equal.
  apply tab_ext. intros a i Ha Hi.
  rewrite (sum_n_ext _ _
             (fun s => 1 / INR (site_size a)
                       * (if (nth s sites 0 =? nth a (np_unique sites) 0)%Z
                          then at_ D i s else 0))).
  - rewrite sum_n_scale. unfold sum_n.
    rewrite (np_sum_filter _ (fun s => at_ D i s)).
    unfold site_mean, np_mean. rewrite length_map. real_ops.
    unfold site_size, np_where_eq. field.
    apply (site_size_nonzero a Ha).
  - intros s Hs. rewrite at_tab by assumption.
    rewrite at_transpose by (rewrite ?HD; assumption). real_ops.
    destruct (nth s sites 0 =? nth a (np_unique sites) 0)%Z; ring.
Qed.

(** [np.dot(np.dot(la.inv(np.dot(S.T, S)), S.T), D.T)] *)
Lemma least_squares_on_sites (D : ndarray R) (B : Type)
    (k : ndarray R -> M (F:=R) B) (s : self R) :
  ncols D = length sites ->
  bind (lift (dot (transpose zero S) S)) (fun StS =>
  bind (lift (inv StS)) (fun StS_inv =>
  bind (lift (dot StS_inv (transpose zero S))) (fun P =>
  bind (lift (dot P (transpose zero D))) k))) s
  = k (tab (length (np_unique sites)) (nrows D)
         (fun a i => site_mean D i (nth a (np_unique sites) 0%Z))) s.
Proof.
  intros HD.
  rewrite site_gram, bind_lift_Ok.
  rewrite site_gram_inverse, bind_lift_Ok.
  rewrite site_projection, bind_lift_Ok.
  now rewrite (site_means D HD), bind_lift_Ok.
Qed.

End SiteMeans.

Section LocationEstimates.
Local Open Scope R_scope.
Variable sites : list Z.
Variables sd design : ndarray R.
Hypothesis design_rows : nrows design = length sites.
Hypothesis design_cols : (length (np_unique sites) <= ncols design)%nat.
Hypothesis design_sites :
  forall k j, (k < length sites)%nat -> (j < length (np_unique sites))%nat ->
    at_ design k j = if (nth k sites 0 =? nth j (np_unique sites) 0)%Z then 1 else 0.
Hypothesis sd_cols : ncols sd = length sites.

Lemma site_design_at (s a : nat) :
  (s < length sites)%nat -> (a < length (np_unique sites))%nat ->
  at_ (first_cols (length (np_unique sites)) design) s a
  = if (nth s sites 0 =? nth a (np_unique sites) 0)%Z then 1 else 0.
Proof.
  intros Hs Ha. unfold first_cols.
  rewrite at_tab; [now apply design_sites | now rewrite design_rows | ].
  now rewrite Nat.min_l by exact design_cols.
Qed.

Lemma fit_ls_model_site_means (s : self R) :
  n_sites s = Some (length (np_unique sites)) ->
  exists gamma_hat delta_hat,
    _fit_ls_model sd design (map (np_where_eq sites) (np_unique sites)) s
    = (s, Ok (gamma_hat, delta_hat)) /\
    nrows gamma_hat = length (np_unique sites) /\
    ncols gamma_hat = nrows sd /\
    forall a i, (a < length (np_unique sites))%nat -> (i < nrows sd)%nat ->
      at_ gamma_hat a i
      = np_mean (map (fun k => at_ sd i k)
                   (np_where_eq sites (nth a (np_unique sites) 0%Z))).
Proof.
  intros Hn.
  destruct (omapM_Ok _ _
              (fun site_idxs => let* X := take_cols sd site_idxs in
                                Ok (np_var_axis1_ddof1 X))
              (map (np_where_eq sites) (np_unique sites))) as (delta_hat & Ed & _).
  { intros idx Hin. apply in_map_iff in Hin as (x & <- & _).
    rewrite take_cols_in_range.
    - cbn [obind]. eauto.
    - intros c Hc. rewrite sd_cols. now apply np_where_eq_in_range in Hc. }
  eexists. exists delta_hat. split; [ | split; [ | split]].
  - unfold _fit_ls_model.
    rewrite (bind_getattr _ _ _ _ _ s _ Hn).
    rewrite (least_squares_on_sites sites
               (first_cols (length (np_unique sites)) design)).
    + unfold fit_delta_hat. rewrite Ed, bind_lift_Ok. reflexivity.
    + exact design_rows.
    + cbn [ncols first_cols tab]. now apply Nat.min_l.
    + exact site_design_at.
    + exact sd_cols.
  - reflexivity.
  - reflexivity.
  - intros a i Ha Hi. now rewrite at_tab by assumption.
Qed.

End LocationEstimates.

(** X21.  The location estimates are the site means.  In exact arithmetic, on
    the design matrix that [_make_design_matrix] builds while fitting (with
    or without covariates) and any standardized data with one column per
    sample, [_fit_ls_model] returns, and entry [(a, i)] of [gamma_hat] is the
    mean of standardized feature [i] over the samples of the [a]-th smallest
    site value: the regression uses the site columns of the design matrix
    alone, whose Gram matrix is diagonal with the site sizes on the diagonal,
    so the covariates have no part in [gamma_hat]. *)
Theorem location_estimates_are_site_means
    (sites : list Z) (dc : option (ndarray Z)) (cc : option (ndarray R))
    (s0 s : self R) (design sd : ndarray R) :
  _make_design_matrix sites dc cc true s0 = (s, Ok design) ->
  n_sites s = Some (length (np_unique sites)) ->
  ncols sd = length sites ->
  exists gamma_hat delta_hat,
    _fit_ls_model sd design (map (np_where_eq sites) (np_unique sites)) s
    = (s, Ok (gamma_hat, delta_hat)) /\
    nrows gamma_hat = length (np_unique sites) /\
    ncols gamma_hat = nrows sd /\
    forall a i, a < length (np_unique sites) -> i < nrows sd ->
      at_ gamma_hat a i
      = np_mean (map (fun k => at_ sd i k)
                   (np_where_eq sites (nth a (np_unique sites) 0%Z))).
Proof.
  intros Hd Hn Hsd.
  destruct (make_design_matrix_layout sites dc cc s0 s design Hd) as (Hr & Hc & Hat).
  apply (fit_ls_model_site_means sites sd design Hr); try assumption.
  rewrite Hc. lia.
Qed.

(** Four samples of two sites with a discrete covariate, and two
    standardized features. *)
Module SiteMeansExample.

Definition after_design : self R :=
  Self true (Some 2) None None None
    (Some {| categories_ := [1; 2]%Z |}) (Some [{| categories_ := [0; 1]%Z |}])
    None None None None None.

Definition design : ndarray R :=
  NDArray 4 3 [[1; 0; 0]; [1; 0; 1]; [0; 1; 0]; [0; 1; 1]]%R.

Definition standardized : ndarray R :=
  NDArray 2 4 [[1; 3; 5; 4]; [2; 6; 7; 9]]%R.

End SiteMeansExample.

(** X21, witness: the example above. *)
Lemma location_estimates_are_site_means_witness :
  exists gamma_hat delta_hat,
    _fit_ls_model SiteMeansExample.standardized SiteMeansExample.design
      (map (np_where_eq RealExample.sites) (np_unique RealExample.sites))
      SiteMeansExample.after_design
    = (SiteMeansExample.after_design, Ok (gamma_hat, delta_hat)) /\
    nrows gamma_hat = length (np_unique RealExample.sites) /\
    ncols gamma_hat = nrows SiteMeansExample.standardized /\
    forall a i, a < length (np_unique RealExample.sites) ->
      i < nrows SiteMeansExample.standardized ->
      at_ gamma_hat a i
      = np_mean (map (fun k => at_ SiteMeansExample.standardized i k)
                   (np_where_eq RealExample.sites
                      (nth a (np_unique RealExample.sites) 0%Z))).
Proof.
  apply (location_estimates_are_site_means RealExample.sites
           (Some (asarray 0%Z SubsetExample.covariate)) None
           (set_n_sites (Some 2) (__init__ R true))
           SiteMeansExample.after_design SiteMeansExample.design
           SiteMeansExample.standardized).
  - reflexivity.
  - reflexivity.
  - reflexivity.
Defined.

(** ** [_standardize_across_features] on the site indicators alone *)

Section StandardizationOnSites.
Local Open Scope R_scope.
Variable sites : list Z.
Variables data design : ndarray R.
Hypothesis design_rows : nrows design = length sites.
Hypothesis design_cols : ncols design = length (np_unique sites).
Hypothesis design_sites :
  forall k j, (k < length sites)%nat -> (j < length (np_unique sites))%nat ->
    at_ design k j = if (nth k sites 0 =? nth j (np_unique sites) 0)%Z then 1 else 0.
Hypothesis data_cols : ncols data = length sites.

(** What the body of [if fitting:] stores. *)
Definition site_beta_hat : ndarray R :=
  tab (length (np_unique sites)) (nrows data)
    (fun a i => site_mean sites data i (nth a (np_unique sites) 0%Z)).

Definition site_grand_mean : list R :=
  map (fun i =>
         sum_n (length (np_unique sites))
           (fun a => vnth (map (fun c => INR c / INR (length sites))
                             (snd (np_unique_counts sites))) a
                     * at_ (first_rows (length (np_unique sites)) site_beta_hat) a i))
      (seq 0 (nrows data)).

Definition site_var_pooled : ndarray R :=
  tab (nrows data) 1
    (fun i _ =>
       sum_n (length sites)
         (fun k => square (at_ data i k - site_mean sites data i (nth k sites 0%Z))
                   * (1 / INR (length sites)))).

Lemma site_grand_mean_at (i : nat) :
  (i < nrows data)%nat ->
  vnth site_grand_mean i = np_mean (row_of zero data i).
Proof.
  intros Hi. unfold site_grand_mean. rewrite vnth_map_seq by exact Hi.
  rewrite (sum_n_ext _ _
             (fun a => sum_n (length sites)
                         (fun s => if (nth s sites 0 =? nth a (np_unique sites) 0)%Z
                                   then at_ data i s * / INR (length sites) else 0))).
  - rewrite sum_n_swap.
    rewrite (sum_n_ext _ _ (fun s => / INR (length sites) * at_ data i s)).
    + rewrite sum_n_scale. unfold np_mean, row_of.
      rewrite length_map, length_seq, data_cols. real_ops.
      unfold sum_n, Rdiv. apply Rmult_comm.
    + intros s Hs. rewrite one_site_per_sample by exact Hs. ring.
  - intros a Ha.
    unfold vnth. cbn [snd np_unique_counts]. rewrite map_map.
    rewrite (nth_map_lt _ _ _ _ 0%Z) by exact Ha.
    unfold first_rows, site_beta_hat. cbn [nrows ncols tab].
    rewrite at_tab by (rewrite ?Nat.min_id; assumption).
    rewrite at_tab by assumption.
    unfold sum_n.
    rewrite (np_sum_filter (fun s => (nth s sites 0 =? nth a (np_unique sites) 0)%Z)
               (fun s => at_ data i s * / INR (length sites))).
    unfold site_mean, np_mean. rewrite length_map, length_np_where_eq.
    change (filter _ (seq 0 (length sites)))
      with (np_where_eq sites (nth a (np_unique sites) 0%Z)).
    rewrite (map_ext (fun s => at_ data i s * / INR (length sites))
                     (fun s => / INR (length sites) * at_ data i s))
      by (intros; ring).
    rewrite np_sum_scale. real_ops.
    pose proof (site_size_nonzero sites a Ha) as Hc.
    unfold site_size in Hc. rewrite length_np_where_eq in Hc.
    unfold Rdiv.
    transitivity (INR (count_eq sites (nth a (np_unique sites) 0%Z))
                  * / INR (count_eq sites (nth a (np_unique sites) 0%Z))
                  * (/ INR (length sites)
                     * np_sum (map (fun s => at_ data i s)
                                 (np_where_eq sites (nth a (np_unique sites) 0%Z)))));
      [ring | ].
    rewrite Rinv_r by exact Hc. apply Rmult_1_l.
Qed.

Lemma dot_shaped (A B : ndarray R) (r n c : nat) :
  nrows A = r -> ncols A = n -> nrows B = n -> ncols B = c ->
  dot A B = Ok (tab r c (fun i j => sum_n n (fun k => at_ A i k * at_ B k j)%sc)).
Proof. intros <- <- H <-. now apply dot_aligned. Qed.

Lemma vdot_site_weights :
  vdot (map (fun c => (of_nat c / of_nat (length sites))%sc) (snd (np_unique_counts sites)))
       (first_rows (length (np_unique sites)) site_beta_hat)
  = Ok site_grand_mean.
Proof.
  unfold vdot. cbn [snd np_unique_counts nrows ncols first_rows site_beta_hat tab].
  rewrite !length_map, Nat.min_id, Nat.eqb_refl. reflexivity.
Qed.

Lemma fitted_on_sites :
  dot design site_beta_hat
  = Ok (tab (length sites) (nrows data)
          (fun k i => site_mean sites data i (nth k sites 0%Z))).
Proof.
  rewrite (dot_shaped design site_beta_hat (length sites) (length (np_unique sites))
             (nrows data)) by (assumption || reflexivity).
  f_equal. apply tab_ext. intros k i Hk Hi.
  rewrite (sum_n_ext _ _
             (fun a => if (nth k sites 0 =? nth a (np_unique sites) 0)%Z
                       then site_mean sites data i (nth k sites 0%Z) else 0)).
  - now apply one_site_per_sample.
  - intros a Ha. rewrite design_sites by assumption.
    unfold site_beta_hat. rewrite at_tab by assumption. real_ops.
    destruct (Z.eqb_spec (nth k sites 0%Z) (nth a (np_unique sites) 0%Z)) as [E | _].
    + rewrite E. ring.
    + ring.
Qed.

Lemma residuals_on_sites :
  ew2 fsub data
    (transpose zero (tab (length sites) (nrows data)
                       (fun k i => site_mean sites data i (nth k sites 0%Z))))
  = Ok (tab (nrows data) (length sites)
          (fun i k => at_ data i k - site_mean sites data i (nth k sites 0%Z))).
Proof.
  rewrite ew2_same_shape by (cbn [nrows ncols transpose tab]; auto).
  rewrite data_cols. f_equal. apply tab_ext. intros i k Hi Hk.
  rewrite at_transpose by assumption. now rewrite at_tab by assumption.
Qed.

Lemma var_pooled_on_sites :
  dot (ew1 square (tab (nrows data) (length sites)
                     (fun i k => at_ data i k - site_mean sites data i (nth k sites 0%Z))))
      (ew1 (fun x => (x / of_nat (length sites))%sc) (ones (length sites) 1))
  = Ok site_var_pooled.
Proof.
  rewrite (dot_shaped _ _ (nrows data) (length sites) 1) by reflexivity.
  f_equal. unfold site_var_pooled.
  apply tab_ext. intros i j Hi Hj. apply sum_n_ext. intros k Hk.
  unfold ew1, ones. cbn [nrows ncols tab].
  rewrite !at_tab by assumption. reflexivity.
Qed.

Lemma bind_setattr (A B : Type) (upd : option A -> self R -> self R) (v : A)
    (k : unit -> M (F:=R) B) (s : self R) :
  bind (setattr upd v) k s = k tt (upd (Some v) s).
Proof. reflexivity. Qed.

Tactic Notation "getattr_by" uconstr(H) :=
  match goal with
  | |- bind (getattr ?n ?p) ?k ?s = _ => rewrite (bind_getattr _ _ n p k s _ H)
  end.

(** The object after the body of [if fitting:]. *)
Definition standardized_state (s : self R) : self R :=
  set_var_pooled (Some site_var_pooled)
    (set_grand_mean (Some site_grand_mean) (set_beta_hat (Some site_beta_hat) s)).

Lemma standardization_model_on_sites (s : self R) :
  n_sites s = Some (length (np_unique sites)) ->
  standardization_model data design (length sites) (snd (np_unique_counts sites)) s
  = (standardized_state s, Ok tt).
Proof.
  intros Hn. unfold standardization_model.
  rewrite (least_squares_on_sites sites design design_rows design_cols design_sites data)
    by exact data_cols.
  fold site_beta_hat.
  rewrite bind_setattr.
  getattr_by eq_refl. getattr_by Hn.
  rewrite vdot_site_weights, bind_lift_Ok.
  rewrite bind_setattr.
  getattr_by eq_refl.
  rewrite fitted_on_sites, bind_lift_Ok.
  rewrite residuals_on_sites, bind_lift_Ok.
  rewrite var_pooled_on_sites, bind_lift_Ok.
  reflexivity.
Qed.

Lemma site_columns_zeroed :
  dot (zero_first_cols (length (np_unique sites)) design) site_beta_hat
  = Ok (tab (length sites) (nrows data) (fun _ _ => 0)).
Proof.
  rewrite (dot_shaped _ _ (length sites) (length (np_unique sites)) (nrows data))
    by (assumption || reflexivity).
  f_equal. apply tab_ext. intros k i Hk Hi.
  apply sum_n_all_zero. intros a Ha.
  unfold zero_first_cols. rewrite at_tab by (rewrite ?design_rows, ?design_cols; assumption).
  rewrite (proj2 (Nat.ltb_lt _ _) Ha). real_ops. ring.
Qed.

Lemma standardize_on_sites (s : self R) :
  n_sites s = Some (length (np_unique sites)) ->
  exists sd sm,
    _standardize_across_features data design (length sites)
      (snd (np_unique_counts sites)) true s
    = (standardized_state s, Ok (sd, sm)) /\
    forall i k, (i < nrows data)%nat -> (k < length sites)%nat ->
      at_ sm i k = np_mean (row_of zero data i) /\
      at_ sd i k
      = (at_ data i k - np_mean (row_of zero data i))
        / sqrt (at_ site_var_pooled i 0).
Proof.
  intros Hn. eexists. eexists. split.
  unfold _standardize_across_features.
  rewrite (bind_Ok _ _ _ _ _ _ _ (standardization_model_on_sites s Hn)).
  getattr_by eq_refl.
  rewrite dot_column_ones, bind_lift_Ok.
  getattr_by Hn. getattr_by eq_refl.
  rewrite site_columns_zeroed, bind_lift_Ok.
  assert (Hlen : length site_grand_mean = nrows data)
    by (unfold site_grand_mean; now rewrite length_map, length_seq).
  unfold iadd. cbn [nrows ncols transpose tab]. rewrite Hlen, !Nat.eqb_refl.
  cbn [orb andb]. rewrite bind_lift_Ok.
  rewrite ew2_same_shape by (cbn [nrows ncols tab]; auto).
  rewrite bind_lift_Ok.
  getattr_by eq_refl.
  rewrite dot_sqrt_ones by reflexivity. rewrite bind_lift_Ok.
  rewrite ew2_same_shape by (cbn [nrows ncols tab site_var_pooled]; auto).
  rewrite bind_lift_Ok. cbn [nrows ncols tab site_var_pooled].
  reflexivity.
  intros i k Hi Hk.
  rewrite data_cols.
  repeat (rewrite at_tab by assumption).
  rewrite !bidx_lt by assumption.
  rewrite at_transpose by assumption.
  rewrite at_tab by assumption.
  rewrite site_grand_mean_at by exact Hi. real_ops.
  split; [ring | ].
  f_equal. ring.
Qed.

End StandardizationOnSites.

(** X22.  Standardization without covariates, in exact arithmetic.  On the
    design matrix that [_make_design_matrix] builds while fitting without
    covariates, [_standardize_across_features] returns and stores:
    in [beta_hat], for every site and feature, the mean of the feature over
    the samples of the site; in [grand_mean], the mean of each feature over
    all the samples; in [var_pooled], the mean over all the samples of the
    squared deviation of the feature from the mean of the sample's own
    site.  The standardized mean is the grand mean for every sample, and the
    standardized value is [(x - grand_mean) / sqrt(var_pooled)]. *)
Theorem standardization_without_covariates_uses_feature_means
    (sites : list Z) (s0 s : self R) (design data : ndarray R) :
  _make_design_matrix sites None None true s0 = (s, Ok design) ->
  n_sites s = Some (length (np_unique sites)) ->
  ncols data = length sites ->
  exists B gm vp sd sm,
    _standardize_across_features data design (length sites)
      (snd (np_unique_counts sites)) true s
    = (set_var_pooled (Some vp) (set_grand_mean (Some gm) (set_beta_hat (Some B) s)),
       Ok (sd, sm)) /\
    (forall a i, a < length (np_unique sites) -> i < nrows data ->
       at_ B a i
       = np_mean (map (fun k => at_ data i k)
                    (np_where_eq sites (nth a (np_unique sites) 0%Z)))) /\
    (forall i, i < nrows data -> vnth gm i = np_mean (row_of 0%R data i)) /\
    (forall i, i < nrows data ->
       at_ vp i 0
       = (sum_n (length sites)
            (fun k => square (at_ data i k
                              - np_mean (map (fun k' => at_ data i k')
                                           (np_where_eq sites (nth k sites 0%Z)))))
          / INR (length sites))%R) /\
    (forall i k, i < nrows data -> k < length sites ->
       at_ sm i k = vnth gm i /\
       at_ sd i k = ((at_ data i k - vnth gm i) / sqrt (at_ vp i 0))%R).
Proof.
  intros Hd Hn Hdata.
  destruct (make_design_matrix_layout sites None None s0 s design Hd) as (Hr & Hc & Hat).
  rewrite !Nat.add_0_r in Hc.
  destruct (standardize_on_sites sites data design Hr Hc Hat Hdata s Hn)
    as (sd & sm & E & Hv).
  exists (site_beta_hat sites data), (site_grand_mean sites data),
         (site_var_pooled sites data), sd, sm.
  split; [exact E | ]. split; [ | split; [ | split]].
  - intros a i Ha Hi. unfold site_beta_hat. now rewrite at_tab by assumption.
  - intros i Hi. exact (site_grand_mean_at sites data Hdata i Hi).
  - intros i Hi. unfold site_var_pooled. rewrite at_tab by (assumption || lia).
    rewrite (sum_n_ext _ _
               (fun k => (1 / INR (length sites)
                          * square (at_ data i k - site_mean sites data i (nth k sites 0%Z)))%R))
      by (intros k Hk; real_ops; ring).
    rewrite sum_n_scale. unfold Rdiv. rewrite Rmult_1_l. apply Rmult_comm.
  - intros i k Hi Hk. destruct (Hv i k Hi Hk) as [Hsm Hsd].
    rewrite (site_grand_mean_at sites data Hdata i Hi).
    split; assumption.
Qed.

(** Four samples of two sites and two features, one row per feature. *)
Module StandardizationExample.

Definition before : self R := set_n_sites (Some 2) (__init__ R true).

Definition after_design : self R :=
  Self true (Some 2) None None None (Some {| categories_ := [1; 2]%Z |}) None
    None None None None None.

Definition design : ndarray R := NDArray 4 2 [[1; 0]; [1; 0]; [0; 1]; [0; 1]]%R.

Definition features : ndarray R := NDArray 2 4 [[1; 3; 5; 4]; [2; 6; 7; 9]]%R.

End StandardizationExample.

(** X22, witness: the example above. *)
Lemma standardization_without_covariates_uses_feature_means_witness :
  exists B gm vp sd sm,
    _standardize_across_features StandardizationExample.features
      StandardizationExample.design (length RealExample.sites)
      (snd (np_unique_counts RealExample.sites)) true
      StandardizationExample.after_design
    = (set_var_pooled (Some vp)
         (set_grand_mean (Some gm)
            (set_beta_hat (Some B) StandardizationExample.after_design)),
       Ok (sd, sm)) /\
    (forall a i, a < length (np_unique RealExample.sites) ->
       i < nrows StandardizationExample.features ->
       at_ B a i
       = np_mean (map (fun k => at_ StandardizationExample.features i k)
                    (np_where_eq RealExample.sites
                       (nth a (np_unique RealExample.sites) 0%Z)))) /\
    (forall i, i < nrows StandardizationExample.features ->
       vnth gm i = np_mean (row_of 0%R StandardizationExample.features i)) /\
    (forall i, i < nrows StandardizationExample.features ->
       at_ vp i 0
       = (sum_n (length RealExample.sites)
            (fun k => square (at_ StandardizationExample.features i k
                              - np_mean (map (fun k' => at_ StandardizationExample.features i k')
                                           (np_where_eq RealExample.sites
                                              (nth k RealExample.sites 0%Z)))))
          / INR (length RealExample.sites))%R) /\
    (forall i k, i < nrows StandardizationExample.features ->
       k < length RealExample.sites ->
       at_ sm i k = vnth gm i /\
       at_ sd i k
       = ((at_ StandardizationExample.features i k - vnth gm i) / sqrt (at_ vp i 0))%R).
Proof.
  apply (standardization_without_covariates_uses_feature_means RealExample.sites
           StandardizationExample.before StandardizationExample.after_design
           StandardizationExample.design StandardizationExample.features).
  - reflexivity.
  - reflexivity.
  - reflexivity.
Defined.

(* ================================================================== *)
(** * A covariate category unseen by [fit] *)

Section Substrings.

Lemma prefixb_app (p s : string) : prefixb p (p ++ s) = true.
Proof.
  induction p as [| a p IH]; cbn.
  - now destruct s.
  - now rewrite Ascii.eqb_refl, IH.
Qed.

Lemma prefixb_app_l (p s t : string) :
  prefixb p s = true -> prefixb p (s ++ t) = true.
Proof.
  revert s. induction p as [| a p IH]; intros s H.
  - now destruct (s ++ t)%string.
  - destruct s as [| b s]; cbn in H |- *; [discriminate | ].
    apply andb_true_iff in H as [-> H]. cbn. now apply IH.
Qed.

Lemma str_contains_unfold (needle s : string) :
  str_contains needle s
  = prefixb needle s ||
    match s with
    | EmptyString => false
    | String _ s' => str_contains needle s'
    end.
Proof. now destruct s. Qed.

Lemma str_contains_prefix (p s : string) : str_contains p (p ++ s) = true.
Proof. rewrite str_contains_unfold, prefixb_app. reflexivity. Qed.

Lemma str_contains_app_r (needle t s : string) :
  str_contains needle s = true -> str_contains needle (t ++ s) = true.
Proof.
  intros H. induction t as [| a t IH]; [exact H | ].
  cbn [append]. rewrite str_contains_unfold, IH. apply orb_true_r.
Qed.

Lemma str_contains_app_l (needle s t : string) :
  str_contains needle s = true -> str_contains needle (s ++ t) = true.
Proof.
  induction s as [| a s IH]; intros H.
  - rewrite str_contains_unfold in H. rewrite orb_false_r in H.
    destruct needle; [ | discriminate].
    rewrite str_contains_unfold. now destruct (EmptyString ++ t)%string.
  - rewrite str_contains_unfold in H. apply orb_true_iff in H as [H | H].
    + rewrite str_contains_unfold.
      now rewrite (prefixb_app_l needle (String a s) t H).
    + cbn [append]. rewrite str_contains_unfold, (IH H). apply orb_true_r.
Qed.

Lemma append_empty_r (s : string) : (s ++ EmptyString)%string = s.
Proof. induction s as [| a s IH]; cbn; [reflexivity | now rewrite IH]. Qed.

(** The list of values printed in a message holds each of them. *)
Lemma string_of_Zs_contains (u : Z) (l : list Z) :
  In u l -> str_contains (string_of_Z u) (string_of_Zs l) = true.
Proof.
  induction l as [| z l IH]; intros H; [contradiction | ].
  destruct l as [| z' l].
  - destruct H as [-> | []]. cbn [string_of_Zs].
    rewrite <- (append_empty_r (string_of_Z u)) at 2. apply str_contains_prefix.
  - change (string_of_Zs (z :: z' :: l))
      with (string_of_Z z ++ ", " ++ string_of_Zs (z' :: l))%string.
    destruct H as [-> | H].
    + apply str_contains_prefix.
    + apply str_contains_app_r, str_contains_app_r, IH, H.
Qed.

Lemma unknown_categories_message_contains (u : Z) (unknown : list Z) :
  In u unknown ->
  str_contains (string_of_Z u) (unknown_categories_message unknown) = true.
Proof.
  intros H. unfold unknown_categories_message.
  apply str_contains_app_r, str_contains_app_l, string_of_Zs_contains, H.
Qed.

End Substrings.

Section UnknownCategory.
Context {F : Type} {SF : Scalar F}.

(** The values of a column that a fitted encoder does not know, sorted and
    without repeats. *)
Definition unknown_categories (enc : OneHotEncoder) (col : list Z) : list Z :=
  filter (fun v => negb (np_in v (categories_ enc))) (np_unique col).

Lemma In_unknown_categories (enc : OneHotEncoder) (col : list Z) (u : Z) :
  In u (unknown_categories enc col) <-> In u col /\ ~ In u (categories_ enc).
Proof.
  unfold unknown_categories. rewrite filter_In, In_np_unique, negb_true_iff.
  rewrite <- not_true_iff_false, np_in_true. reflexivity.
Qed.

Lemma encoder_transform_unknown (enc : OneHotEncoder) (col : list Z) (v : Z) :
  In v col -> ~ In v (categories_ enc) ->
  encoder_transform (F:=F) enc col
  = Raise (ValueError (unknown_categories_message (unknown_categories enc col))).
Proof.
  intros Hin Hnot.
  assert (Hu : In v (unknown_categories enc col))
    by (apply In_unknown_categories; split; assumption).
  unfold encoder_transform. fold (unknown_categories enc col).
  destruct (unknown_categories enc col); [contradiction | reflexivity].
Qed.

Variable s : self F.
Variable sites : list Z.
Variable D : ndarray Z.
Variable cc : option (ndarray F).
Variable encs : list OneHotEncoder.
Variable j : nat.
Variable v : Z.
Hypothesis Hencs : discrete_encoders s = Some encs.
Hypothesis Hj : j < ncols D.
Hypothesis Hjl : j < length encs.
Hypothesis Hbefore :
  forall i, i < j -> forall x, In x (col_of 0%Z D i) ->
    In x (categories_ (nth i encs {| categories_ := [] |})).
Hypothesis Hin : In v (col_of 0%Z D j).
Hypothesis Hnot : ~ In v (categories_ (nth j encs {| categories_ := [] |})).

(** The loop over the discrete covariates stops at the first column that
    holds an unknown category. *)
Lemma discrete_blocks_unknown (m a : nat) (acc : list (ndarray F)) :
  a <= j -> j < a + m ->
  for_fold (seq a m) acc (fun design_list i =>
    encs <- getattr "discrete_encoders" (@discrete_encoders F) ;;
    discrete_encoder <- lift (index encs i) ;;
    discrete_covariate_one_hot <-
      lift (encoder_transform discrete_encoder (col_of 0%Z D i)) ;;
    let discrete_covariate_design := drop_first_col discrete_covariate_one_hot in
    ret (design_list ++ [discrete_covariate_design])) s
  = (s, Raise (ValueError
                 (unknown_categories_message
                    (unknown_categories (nth j encs {| categories_ := [] |})
                       (col_of 0%Z D j))))).
Proof.
  revert a acc. induction m as [| m IH]; intros a acc Ha Hm; [lia | ].
  cbn [seq for_fold].
  destruct (Nat.eq_dec a j) as [-> | Hne].
  - unfold bind at 1.
    rewrite (bind_getattr _ _ _ _ _ _ _ Hencs).
    rewrite (index_lt _ encs j {| categories_ := [] |} Hjl), bind_lift_Ok.
    rewrite (encoder_transform_unknown _ _ v Hin Hnot). reflexivity.
  - unfold bind at 1.
    rewrite (bind_getattr _ _ _ _ _ _ _ Hencs).
    rewrite (index_lt _ encs a {| categories_ := [] |}) by lia.
    rewrite bind_lift_Ok.
    rewrite encoder_transform_known by (apply Hbefore; lia).
    rewrite bind_lift_Ok. cbv zeta. unfold ret at 1.
    apply IH; lia.
Qed.

Lemma make_design_matrix_unknown_category (enc : OneHotEncoder) :
  site_encoder s = Some enc ->
  (forall x, In x sites -> In x (categories_ enc)) ->
  _make_design_matrix sites (Some D) cc false s
  = (s, Raise (ValueError
                 (unknown_categories_message
                    (unknown_categories (nth j encs {| categories_ := [] |})
                       (col_of 0%Z D j))))).
Proof.
  intros Henc Hknown. unfold _make_design_matrix.
  rewrite bind_ret, (bind_getattr _ _ _ _ _ _ _ Henc).
  rewrite encoder_transform_known by exact Hknown.
  rewrite bind_lift_Ok. cbv zeta.
  unfold bind at 1. unfold bind at 1. unfold ret at 1.
  rewrite (discrete_blocks_unknown (ncols D) 0) by lia. reflexivity.
Qed.

End UnknownCategory.

Section UnknownCategoryTransform.
Context {F : Type} {SF : Scalar F}.

(** [transform] on a batch whose sites are known and whose discrete
    covariates hold an unknown category: the arguments pass the validation,
    the sites pass the test, and the design matrix raises. *)
Lemma transform_unknown_category (s : self F) (names : list Z)
    (data : list (list F)) (sites : list Z)
    (dc : option (list (list Z))) (cc : option (list (list F)))
    (X : ndarray F) (D : ndarray Z) (cc' : option (ndarray F))
    (enc : OneHotEncoder) (encs : list OneHotEncoder) (j : nat) (v : Z) :
  n_sites s <> None ->
  sites_names s = Some names ->
  check_array data = Ok X ->
  length sites = nrows X ->
  (forall x, In x sites -> In x names) ->
  discrete_validated s dc (Some D) ->
  continuous_validated s cc cc' ->
  site_encoder s = Some enc ->
  (forall x, In x sites -> In x (categories_ enc)) ->
  discrete_encoders s = Some encs ->
  j < ncols D -> j < length encs ->
  (forall i, i < j -> forall x, In x (col_of 0%Z D i) ->
     In x (categories_ (nth i encs {| categories_ := [] |}))) ->
  In v (col_of 0%Z D j) ->
  ~ In v (categories_ (nth j encs {| categories_ := [] |})) ->
  transform data sites dc cc s
  = (s, Raise (ValueError
                 (unknown_categories_message
                    (unknown_categories (nth j encs {| categories_ := [] |})
                       (col_of 0%Z D j))))).
Proof.
  intros Hk Hnames HX Hls Hseen Hdv Hcv Henc Hknown Hencs Hj Hjl Hbefore Hin Hnot.
  apply check_array_Ok_inv in HX as HXi. destruct HXi as (_ & HXr & HXc & HXl).
  unfold transform.
  rewrite (bind_Ok _ _ _ _ s s tt)
    by (unfold check_is_fitted, bind, hasattr; destruct (n_sites s); [reflexivity | congruence]).
  rewrite HX, bind_lift_Ok.
  rewrite check_array_sites_Ok by (destruct sites; [cbn in Hls; lia | discriminate]).
  rewrite bind_lift_Ok.
  unfold check_consistent_length. rewrite Hls, Nat.eqb_refl, bind_lift_Ok.
  rewrite bind_hasattr.
  assert (Edc : (if present (discrete_covariates_used s)
                 then match dc with
                      | Some d => bind (lift (check_array_categorical d))
                                    (fun d0 => ret (Some d0))
                      | None => lift check_array_none
                      end
                 else ret (option_map (asarray 0%Z) dc)) s = (s, Ok (Some D))).
  { unfold discrete_validated in Hdv.
    destruct (discrete_covariates_used s); cbn [present].
    - destruct dc as [d | ]; [ | contradiction].
      destruct (check_array_categorical d); cbn in Hdv; inversion Hdv. reflexivity.
    - now rewrite Hdv. }
  rewrite (bind_Ok _ _ _ _ _ _ _ Edc).
  rewrite bind_hasattr.
  assert (Ecc : (if present (continuous_covariates_used s)
                 then match cc with
                      | Some c => bind (lift (check_array c)) (fun c0 => ret (Some c0))
                      | None => lift check_array_none
                      end
                 else ret (option_map (asarray zero) cc)) s = (s, Ok cc')).
  { unfold continuous_validated in Hcv.
    destruct (continuous_covariates_used s); cbn [present].
    - destruct cc as [c | ]; [ | contradiction].
      destruct (check_array c); cbn in Hcv; inversion Hcv. reflexivity.
    - now subst. }
  rewrite (bind_Ok _ _ _ _ _ _ _ Ecc).
  rewrite (bind_getattr _ _ _ _ _ _ _ Hnames).
  rewrite all_sites_seen_true by exact Hseen. cbn [negb].
  rewrite (bind_getattr _ _ _ _ _ _ _ Hnames).
  unfold bind at 1.
  rewrite (make_design_matrix_unknown_category s sites D cc' encs j v
             Hencs Hj Hjl Hbefore Hin Hnot enc Henc Hknown).
  reflexivity.
Qed.

End UnknownCategoryTransform.

(** C3 (amended).  On an object that holds [sites_names], [transform] ends
    in an exception, and returns no array, when the batch holds a site value
    or a discrete-covariate category that [fit] did not see; the unseen
    value is never encoded as an all-zero row.

    For a site value that is not among [sites_names], the exception is,
    once the arguments pass the validation that comes first,
    [ValueError('There is a site unseen during the fit method in the
    data.')], whatever the unknown value is.

    For a batch whose sites are all known and whose arguments pass the
    validation, and a discrete covariate [j] (the first one of the kind)
    that holds a value [v] outside the categories of its fitted encoder,
    the exception is the [ValueError] of the encoder, ['Found unknown
    categories [...] in column 0 during transform'], and the object is left
    as it was.  The values the message lists are exactly the values of
    column [j] that the encoder does not know, and the decimal form of each
    is part of the message. *)
Theorem transform_unseen_value_raises {F : Type} {SF : Scalar F}
    (s : self F) (data : list (list F)) (sites : list Z)
    (discrete_covariates : option (list (list Z)))
    (continuous_covariates : option (list (list F)))
    (names : list Z) :
  sites_names s = Some names ->
  (forall x, In x sites -> ~ In x names ->
     exists e,
       snd (transform data sites discrete_covariates continuous_covariates s) = Raise e /\
       (arguments_accepted s data sites discrete_covariates continuous_covariates ->
        e = unseen_site_error)) /\
  (forall (X : ndarray F) (D : ndarray Z) (cc' : option (ndarray F))
          (enc : OneHotEncoder) (encs : list OneHotEncoder) (j : nat) (v : Z),
     n_sites s <> None ->
     check_array data = Ok X ->
     length sites = nrows X ->
     (forall x, In x sites -> In x names) ->
     discrete_validated s discrete_covariates (Some D) ->
     continuous_validated s continuous_covariates cc' ->
     site_encoder s = Some enc ->
     (forall x, In x sites -> In x (categories_ enc)) ->
     discrete_encoders s = Some encs ->
     j < ncols D -> j < length encs ->
     (forall i, i < j -> forall x, In x (col_of 0%Z D i) ->
        In x (categories_ (nth i encs {| categories_ := [] |}))) ->
     In v (col_of 0%Z D j) ->
     ~ In v (categories_ (nth j encs {| categories_ := [] |})) ->
     exists unknown,
       transform data sites discrete_covariates continuous_covariates s
       = (s, Raise (ValueError (unknown_categories_message unknown))) /\
       (forall u, In u unknown <->
                  In u (col_of 0%Z D j) /\
                  ~ In u (categories_ (nth j encs {| categories_ := [] |}))) /\
       (forall u, In u unknown ->
          str_contains (string_of_Z u) (unknown_categories_message unknown) = true)).
Proof.
  intros Hnames. split.
  - intros x Hin Hnot.
    pose proof (all_sites_seen_false sites names x Hin Hnot) as Hall.
    unfold transform, check_is_fitted, bind, hasattr, getattr, lift, raise, ret.
    destruct (n_sites s) as [k | ] eqn:En.
    2:{ eexists. split; [reflexivity | ]. intros (H & _). congruence. }
    destruct (check_array data) as [X | e | ] eqn:EX.
    2:{ eexists. split; [reflexivity | ]. intros (_ & (X' & HX & _) & _). congruence. }
    2:{ exfalso. exact (halts_check_array data EX). }
    destruct sites as [| site0 sites'] eqn:Esites.
    { eexists. split; [reflexivity | ]. intros (_ & _ & H & _). congruence. }
    rewrite <- Esites in *. rewrite (check_array_sites_Ok sites) by (subst; discriminate).
    unfold check_consistent_length.
    destruct (nrows X =? length sites) eqn:Elen.
    2:{ eexists. split; [reflexivity | ].
        intros (_ & (X' & HX & HL) & _). rewrite EX in HX. injection HX as <-.
        apply Nat.eqb_neq in Elen. contradiction. }
    destruct (discrete_covariates_used s) as [du | ] eqn:Edu;
      [ destruct discrete_covariates as [d | ];
        [ destruct (check_array_categorical d) as [D | e | ] eqn:Ed | ] | ];
      cbn;
      try (destruct (continuous_covariates_used s) as [cu | ] eqn:Ecu;
           [ destruct continuous_covariates as [c | ];
             [ destruct (check_array c) as [C | e' | ] eqn:Ec | ] | ];
           cbn);
      try (rewrite Hnames; cbn; rewrite Hall; cbn);
      first
        [ exfalso; eapply halts_check_array_categorical; eassumption
        | exfalso; eapply halts_check_array; eassumption
        | eexists; split; [reflexivity | ];
          intros (_ & _ & _ & [Hd | (d' & D' & Hd & HD)] & [Hc | (c' & C' & Hc & HC)]);
          first [ reflexivity | congruence ] ].
  - intros X D cc' enc encs j v Hk HX Hls Hseen Hdv Hcv Henc Hknown Hencs Hj Hjl
           Hbefore Hin Hnot.
    exists (unknown_categories (nth j encs {| categories_ := [] |}) (col_of 0%Z D j)).
    split; [ | split].
    + exact (transform_unknown_category s names data sites discrete_covariates
               continuous_covariates X D cc' enc encs j v Hk Hnames HX Hls Hseen Hdv
               Hcv Henc Hknown Hencs Hj Hjl Hbefore Hin Hnot).
    + intros u. apply In_unknown_categories.
    + intros u. apply unknown_categories_message_contains.
Qed.

(** C3, witness: on the model fitted on sites 1 and 2 with a covariate of
    categories 0 and 1, a batch of the unseen site 3, and a batch of site 2
    with the unseen category 2. *)
Lemma transform_unseen_value_raises_witness :
  (exists e,
     snd (transform [[1; 2]]%float [3%Z] (Some [[0%Z]]) None SubsetExample.fitted)
     = Raise e /\
     (arguments_accepted SubsetExample.fitted [[1; 2]]%float [3%Z] (Some [[0%Z]]) None ->
      e = unseen_site_error)) /\
  (exists unknown,
     transform [[1; 2]]%float [2%Z] (Some [[2%Z]]) None SubsetExample.fitted
     = (SubsetExample.fitted, Raise (ValueError (unknown_categories_message unknown))) /\
     (forall u, In u unknown <->
                In u (col_of 0%Z (asarray 0%Z [[2%Z]]) 0) /\
                ~ In u (categories_ (nth 0 [{| categories_ := [0; 1]%Z |}]
                                       {| categories_ := [] |}))) /\
     (forall u, In u unknown ->
        str_contains (string_of_Z u) (unknown_categories_message unknown) = true)).
Proof.
  split.
  - apply (proj1 (transform_unseen_value_raises SubsetExample.fitted [[1; 2]]%float
                    [3%Z] (Some [[0%Z]]) None [1; 2]%Z
                    ltac:(vm_compute; reflexivity)) 3%Z).
    + left. reflexivity.
    + intros [H | [H | []]]; discriminate.
  - apply (proj2 (transform_unseen_value_raises SubsetExample.fitted [[1; 2]]%float
                    [2%Z] (Some [[2%Z]]) None [1; 2]%Z
                    ltac:(vm_compute; reflexivity))
             (asarray 0%float [[1; 2]]%float) (asarray 0%Z [[2%Z]]) None
             {| categories_ := [1; 2]%Z |} [{| categories_ := [0; 1]%Z |}] 0 2%Z).
    + vm_compute. discriminate.
    + vm_compute. reflexivity.
    + reflexivity.
    + intros x [<- | []]. right. left. reflexivity.
    + vm_compute. reflexivity.
    + vm_compute. reflexivity.
    + vm_compute. reflexivity.
    + intros x [<- | []]. right. left. reflexivity.
    + vm_compute. reflexivity.
    + cbn. lia.
    + cbn. lia.
    + intros i Hi. lia.
    + left. reflexivity.
    + intros [H | [H | []]]; discriminate.
Defined.

(* ================================================================== *)
(** * [_fit_ls_model] and a site of one sample *)

(** C5 (amended).  [_fit_ls_model] has no error path for a site of one
    sample.  With the sample indices [fit] passes (for each sorted site
    value, the positions of its samples) and one column of standardized data
    per sample, the loop that fills [delta_hat] always returns, so that
    [_fit_ls_model] returns whenever its least-squares step for [gamma_hat]
    does, and leaves the object as it was.  For a site value held by exactly
    one sample, at position [k], the entry of [delta_hat] is, for every
    feature, the squared deviation of that one observation from its own mean
    divided by zero degrees of freedom ([0/0], NaN, in IEEE arithmetic). *)
Theorem fit_ls_model_with_single_sample_site {F : Type} {SF : Scalar F}
    (s : self F) (n_sites0 : nat) (sites : list Z)
    (standardized_data design : ndarray F) :
  n_sites s = Some n_sites0 ->
  ncols standardized_data = length sites ->
  exists delta_hat,
    _fit_ls_model standardized_data design
      (map (np_where_eq sites) (np_unique sites)) s
    = (s, omap (fun gamma_hat => (gamma_hat, delta_hat))
            (let site_design := first_cols n_sites0 design in
             let* StS := dot (transpose zero site_design) site_design in
             let* StS_inv := inv StS in
             let* P := dot StS_inv (transpose zero site_design) in
             dot P (transpose zero standardized_data))) /\
    length delta_hat = length (np_unique sites) /\
    forall j x, nth_error (np_unique sites) j = Some x ->
      count_eq sites x = 1 ->
      exists k, np_where_eq sites x = [k] /\
        forall i, i < nrows standardized_data ->
          vnth (nth j delta_hat []) i
          = let v := at_ standardized_data i k in
            let d := fsub v (fdiv v (of_nat 1)) in
            fdiv (fmul d d) (of_nat 0).
Proof.
  intros Hn Hcols.
  destruct (omapM_Ok _ _
              (fun site_idxs => let* X' := take_cols standardized_data site_idxs in
                                Ok (np_var_axis1_ddof1 X'))
              (map (np_where_eq sites) (np_unique sites))) as (ys & Eys & Lys & Hys).
  { intros idx Hin. apply in_map_iff in Hin as (x & <- & _).
    rewrite take_cols_in_range.
    - cbn [obind]. eauto.
    - intros c Hc. rewrite Hcols. now apply np_where_eq_in_range in Hc. }
  exists ys. split; [ | split].
  - unfold _fit_ls_model. rewrite (bind_getattr _ _ _ _ _ s _ Hn).
    cbv zeta. unfold fit_delta_hat. rewrite Eys.
    destruct (dot (transpose zero (first_cols n_sites0 design))
                  (first_cols n_sites0 design)) as [StS | e | ]; try reflexivity.
    cbn [obind]. rewrite bind_lift_Ok.
    destruct (inv StS) as [StS_inv | e | ]; try reflexivity.
    cbn [obind]. rewrite bind_lift_Ok.
    destruct (dot StS_inv (transpose zero (first_cols n_sites0 design)))
      as [P | e | ]; try reflexivity.
    cbn [obind]. rewrite bind_lift_Ok.
    destruct (dot P (transpose zero standardized_data)) as [G | e | ]; reflexivity.
  - now rewrite Lys, length_map.
  - intros j x Hj Hone.
    assert (Hlen : length (np_where_eq sites x) = 1)
      by (now rewrite length_np_where_eq).
    destruct (np_where_eq sites x) as [| k [| k' l]] eqn:Ew; try discriminate.
    exists k. split; [reflexivity | ]. intros i Hi.
    assert (Hj' : nth_error (map (np_where_eq sites) (np_unique sites)) j = Some [k])
      by (rewrite nth_error_map, Hj; cbn; now rewrite Ew).
    destruct (Hys j [k] Hj') as (y & Ey & Hy).
    rewrite (nth_error_nth _ _ _ Ey).
    rewrite take_cols_in_range in Hy.
    2:{ intros k0 [<- | []]. rewrite Hcols.
        apply (np_where_eq_in_range sites x). rewrite Ew. now left. }
    cbn [obind] in Hy. injection Hy as <-.
    unfold np_var_axis1_ddof1, rows_of. cbn [nrows tab length].
    rewrite map_map, vnth_map_seq by exact Hi.
    unfold row_of. cbn [ncols tab length seq map].
    change (get zero ?M i 0) with (at_ M i 0).
    rewrite at_tab by lia. reflexivity.
Qed.

(** C5, witness: three samples of two features, the first alone at its
    site. *)
Lemma fit_ls_model_with_single_sample_site_witness :
  exists delta_hat,
    _fit_ls_model (asarray 0%float [[1; 3; 5]; [2; 6; 7]]%float)
      (asarray 0%float [[1; 0]; [0; 1]; [0; 1]]%float)
      (map (np_where_eq [1; 2; 2]%Z) (np_unique [1; 2; 2]%Z))
      (set_n_sites (Some 2) Example.unfitted)
    = (set_n_sites (Some 2) Example.unfitted,
       omap (fun gamma_hat => (gamma_hat, delta_hat))
         (let site_design :=
            first_cols 2 (asarray 0%float [[1; 0]; [0; 1]; [0; 1]]%float) in
          let* StS := dot (transpose zero site_design) site_design in
          let* StS_inv := inv StS in
          let* P := dot StS_inv (transpose zero site_design) in
          dot P (transpose zero (asarray 0%float [[1; 3; 5]; [2; 6; 7]]%float)))) /\
    length delta_hat = length (np_unique [1; 2; 2]%Z) /\
    forall j x, nth_error (np_unique [1; 2; 2]%Z) j = Some x ->
      count_eq [1; 2; 2]%Z x = 1 ->
      exists k, np_where_eq [1; 2; 2]%Z x = [k] /\
        forall i, i < nrows (asarray 0%float [[1; 3; 5]; [2; 6; 7]]%float) ->
          vnth (nth j delta_hat []) i
          = let v := at_ (asarray 0%float [[1; 3; 5]; [2; 6; 7]]%float) i k in
            let d := fsub v (fdiv v (of_nat 1)) in
            fdiv (fmul d d) (of_nat 0).
Proof.
  apply (fit_ls_model_with_single_sample_site
           (set_n_sites (Some 2) Example.unfitted) 2 [1; 2; 2]%Z
           (asarray 0%float [[1; 3; 5]; [2; 6; 7]]%float)
           (asarray 0%float [[1; 0]; [0; 1]; [0; 1]]%float)).
  - reflexivity.
  - reflexivity.
Defined.

(* ================================================================== *)
(** * The standardization step returns *)

Section StandardizationReturns.
Context {F : Type} {SF : Scalar F}.
Local Open Scope scalar_scope.

Tactic Notation "getattr_by" uconstr(H) :=
  match goal with
  | |- bind (getattr ?n ?p) ?k ?s = _ => rewrite (bind_getattr _ _ n p k s _ H)
  end.

Lemma bind_setattr_step (A B : Type) (upd : option A -> self F -> self F) (v : A)
    (k : unit -> M (F:=F) B) (s : self F) :
  bind (setattr upd v) k s = k tt (upd (Some v) s).
Proof. reflexivity. Qed.

Lemma vdot_aligned (v : list F) (B : ndarray F) :
  length v = nrows B ->
  exists u, vdot v B = Ok u /\ length u = ncols B.
Proof.
  intros H. unfold vdot. rewrite H, Nat.eqb_refl.
  eexists. split; [reflexivity | ]. now rewrite length_map, length_seq.
Qed.

Variable s : self F.
Variables k n : nat.
Variables data design : ndarray F.
Variable nps : list nat.
Hypothesis Hk : n_sites s = Some k.
Hypothesis Hdr : nrows design = n.
Hypothesis Hdc : ncols data = n.

(** The part of [_standardize_across_features] after [if fitting:], on an
    object that holds [beta_hat], [grand_mean] and [var_pooled] of the shapes
    of the data and the design matrix. *)
Lemma standardize_with_stored_model (s1 : self F) (B : ndarray F) (gm : list F)
    (vp : ndarray F) :
  n_sites s1 = Some k ->
  beta_hat s1 = Some B -> nrows B = ncols design -> ncols B = nrows data ->
  grand_mean s1 = Some gm -> length gm = nrows data ->
  var_pooled s1 = Some vp -> nrows vp = nrows data -> ncols vp = 1 ->
  exists sd sm,
    _standardize_across_features data design n nps false s1 = (s1, Ok (sd, sm)) /\
    nrows sd = nrows data /\ ncols sd = n /\
    forall i j, i < nrows data -> j < n ->
      at_ sd i j = fdiv (fsub (at_ data i j) (at_ sm i j)) (fsqrt (at_ vp i 0)).
Proof.
  intros Hk1 HB HBr HBc Hgm Hlg Hvp Hvr Hvc.
  unfold _standardize_across_features.
  rewrite bind_ret.
  rewrite (bind_getattr _ _ _ _ _ _ _ Hgm).
  rewrite dot_column_ones, bind_lift_Ok.
  rewrite (bind_getattr _ _ _ _ _ _ _ Hk1).
  rewrite (bind_getattr _ _ _ _ _ _ _ HB).
  destruct (shaped_dot (zero_first_cols k design) B) as (cov & Ecov & Hcr & Hcc).
  { cbn [ncols zero_first_cols tab]. lia. }
  rewrite Ecov, bind_lift_Ok.
  destruct (shaped_iadd (tab (length gm) n (fun i _ => vnth gm i)) (transpose zero cov))
    as (mean & Emean & Hmr & Hmc).
  { cbn [nrows ncols transpose tab zero_first_cols] in *. lia. }
  { cbn [nrows ncols transpose tab zero_first_cols] in *. lia. }
  rewrite Emean, bind_lift_Ok.
  cbn [nrows ncols tab] in Hmr, Hmc.
  rewrite (ew2_same_shape fsub data mean) by lia. rewrite bind_lift_Ok.
  rewrite (bind_getattr _ _ _ _ _ _ _ Hvp).
  rewrite dot_sqrt_ones by exact Hvc. rewrite bind_lift_Ok.
  rewrite ew2_same_shape by (cbn [nrows ncols tab]; lia). rewrite bind_lift_Ok.
  eexists. exists mean. split; [reflexivity | ]. cbn [nrows ncols tab].
  split; [reflexivity | ]. split; [exact Hdc | ].
  intros i j Hi Hj.
  rewrite at_tab by lia. rewrite at_tab by lia. rewrite (at_tab _ _ _ i j) by lia.
  reflexivity.
Qed.

(** The body of [if fitting:] returns once [numpy.linalg.inv] has. *)
Lemma standardization_model_returns (DtD_inv : ndarray F) :
  length nps = k -> k <= ncols design ->
  (let* DtD := dot (transpose zero design) design in inv DtD) = Ok DtD_inv ->
  exists B gm vp,
    standardization_model data design n nps s
    = (set_var_pooled (Some vp) (set_grand_mean (Some gm) (set_beta_hat (Some B) s)),
       Ok tt) /\
    (nrows B = ncols design /\ ncols B = nrows data) /\
    length gm = nrows data /\
    (nrows vp = nrows data /\ ncols vp = 1).
Proof.
  intros Hnps Hkw Hinv.
  destruct (shaped_dot (transpose zero design) design) as (DtD & EDtD & HGr & HGc).
  { reflexivity. }
  rewrite EDtD in Hinv. cbn [obind] in Hinv.
  pose proof (inv_Ok_shape _ _ Hinv) as [HIr HIc].
  cbn [nrows ncols transpose tab] in HGr, HGc.
  destruct (shaped_dot DtD_inv (transpose zero design)) as (P & EP & HPr & HPc).
  { cbn [nrows ncols transpose tab]. lia. }
  cbn [nrows ncols transpose tab] in HPr, HPc.
  destruct (shaped_dot P (transpose zero data)) as (B & EB & HBr & HBc).
  { cbn [nrows ncols transpose tab]. lia. }
  cbn [nrows ncols transpose tab] in HBr, HBc.
  destruct (vdot_aligned (map (fun c => of_nat c / of_nat n) nps) (first_rows k B))
    as (gm & Egm & Hlg).
  { rewrite length_map. cbn [nrows first_rows tab]. lia. }
  cbn [ncols first_rows tab] in Hlg.
  destruct (shaped_dot design B) as (fitted & Ef & Hfr & Hfc).
  { lia. }
  destruct (shaped_ew2 fsub data (transpose zero fitted)) as (resid & Er & Hrr & Hrc).
  { cbn [nrows ncols transpose tab]. lia. }
  { cbn [nrows ncols transpose tab]. lia. }
  destruct (shaped_dot (ew1 square resid)
              (ew1 (fun x => x / of_nat n) (ones n 1))) as (vp & Evp & Hvr & Hvc).
  { cbn [nrows ncols ew1 ones tab]. lia. }
  cbn [nrows ncols ew1 ones tab] in Hvr, Hvc.
  exists B, gm, vp. split; [ | split; [ | split]].
  - unfold standardization_model.
    rewrite EDtD, bind_lift_Ok, Hinv, bind_lift_Ok, EP, bind_lift_Ok, EB, bind_lift_Ok.
    rewrite bind_setattr_step.
    getattr_by eq_refl. getattr_by Hk.
    rewrite Egm, bind_lift_Ok, bind_setattr_step.
    getattr_by eq_refl.
    rewrite Ef, bind_lift_Ok, Er, bind_lift_Ok, Evp, bind_lift_Ok.
    reflexivity.
  - split; lia.
  - lia.
  - split; lia.
Qed.

End StandardizationReturns.

(** C6 (amended).  The standardization step has no error path for a zero
    pooled variance.  On an object with [n_sites], a design matrix of one
    row per sample and data of one column per sample,
    [_standardize_across_features] returns in [fit] (one count per site, no
    more sites than columns of the design matrix) whenever
    [numpy.linalg.inv] returns on [design.T . design], the one call of the
    step that can raise; and it always returns in [transform], on an object
    that holds [beta_hat], [grand_mean] and [var_pooled] of the fitted
    shapes.  Either way the standardized value of feature [i] in sample [j]
    is [(data - standardized_mean) / sqrt(var_pooled[i])] whatever
    [var_pooled[i]] is: for a constant feature the centred values are
    divided by [sqrt(0)] and the quotient (NaN or an infinity in IEEE
    arithmetic) is passed on. *)
Theorem standardization_has_no_error_path_for_zero_variance {F : Type} {SF : Scalar F}
    (s : self F) (k n : nat) (data design : ndarray F) (nps : list nat) :
  n_sites s = Some k ->
  nrows design = n ->
  ncols data = n ->
  (length nps = k -> k <= ncols design ->
   forall DtD_inv,
     (let* DtD := dot (transpose zero design) design in inv DtD) = Ok DtD_inv ->
     exists B gm vp sd sm,
       _standardize_across_features data design n nps true s
       = (set_var_pooled (Some vp) (set_grand_mean (Some gm) (set_beta_hat (Some B) s)),
          Ok (sd, sm)) /\
       nrows vp = nrows data /\ ncols vp = 1 /\
       nrows sd = nrows data /\ ncols sd = n /\
       forall i j, i < nrows data -> j < n ->
         at_ sd i j = fdiv (fsub (at_ data i j) (at_ sm i j)) (fsqrt (at_ vp i 0))) /\
  (forall B gm vp,
     beta_hat s = Some B -> nrows B = ncols design -> ncols B = nrows data ->
     grand_mean s = Some gm -> length gm = nrows data ->
     var_pooled s = Some vp -> nrows vp = nrows data -> ncols vp = 1 ->
     exists sd sm,
       _standardize_across_features data design n nps false s = (s, Ok (sd, sm)) /\
       nrows sd = nrows data /\ ncols sd = n /\
       forall i j, i < nrows data -> j < n ->
         at_ sd i j = fdiv (fsub (at_ data i j) (at_ sm i j)) (fsqrt (at_ vp i 0))).
Proof.
  intros Hk Hdr Hdc. split.
  - intros Hnps Hkw DtD_inv Hinv.
    destruct (standardization_model_returns s k n data design nps Hk Hdr Hdc
                DtD_inv Hnps Hkw Hinv)
      as (B & gm & vp & Em & [HBr HBc] & Hlg & [Hvr Hvc]).
    destruct (standardize_with_stored_model k n data design nps Hdr Hdc
                (set_var_pooled (Some vp)
                   (set_grand_mean (Some gm) (set_beta_hat (Some B) s)))
                B gm vp Hk eq_refl HBr HBc eq_refl Hlg eq_refl Hvr Hvc)
      as (sd & sm & E & Hsr & Hsc & Hv).
    exists B, gm, vp, sd, sm. split; [ | now repeat split].
    unfold _standardize_across_features.
    rewrite (bind_Ok _ _ _ _ _ _ _ Em). exact E.
  - intros B gm vp HB HBr HBc Hgm Hlg Hvp Hvr Hvc.
    exact (standardize_with_stored_model k n data design nps Hdr Hdc s B gm vp
             Hk HB HBr HBc Hgm Hlg Hvp Hvr Hvc).
Qed.

(** C6, witness: the constant feature, at the fit-time standardization and
    again on the object it leaves. *)
Lemma standardization_has_no_error_path_for_zero_variance_witness :
  (exists B gm vp sd sm,
     _standardize_across_features ConstantFeature.features ConstantFeature.design 4
       [2; 2] true ConstantFeature.before
     = (set_var_pooled (Some vp)
          (set_grand_mean (Some gm) (set_beta_hat (Some B) ConstantFeature.before)),
        Ok (sd, sm)) /\
     nrows vp = nrows ConstantFeature.features /\ ncols vp = 1 /\
     nrows sd = nrows ConstantFeature.features /\ ncols sd = 4 /\
     forall i j, i < nrows ConstantFeature.features -> j < 4 ->
       at_ sd i j
       = fdiv (fsub (at_ ConstantFeature.features i j) (at_ sm i j))
              (fsqrt (at_ vp i 0))) /\
  (exists sd sm,
     _standardize_across_features ConstantFeature.features ConstantFeature.design 4
       [2; 2] false (fst ConstantFeature.call)
     = (fst ConstantFeature.call, Ok (sd, sm)) /\
     nrows sd = nrows ConstantFeature.features /\ ncols sd = 4 /\
     forall i j, i < nrows ConstantFeature.features -> j < 4 ->
       at_ sd i j
       = fdiv (fsub (at_ ConstantFeature.features i j) (at_ sm i j))
              (fsqrt (at_ ConstantFeature.var_pooled i 0))).
Proof.
  split.
  - apply (proj1 (standardization_has_no_error_path_for_zero_variance
                    ConstantFeature.before 2 4 ConstantFeature.features
                    ConstantFeature.design [2; 2] eq_refl eq_refl eq_refl)
             eq_refl ltac:(cbn; lia) (NDArray 2 2 [[0.5; 0]; [0; 0.5]]%float)).
    vm_compute. reflexivity.
  - apply (proj2 (standardization_has_no_error_path_for_zero_variance
                    (fst ConstantFeature.call) 2 4 ConstantFeature.features
                    ConstantFeature.design [2; 2] eq_refl eq_refl eq_refl)
             (NDArray 2 2 [[1; 6]; [1; 7]]%float) [1; 6.5]%float
             ConstantFeature.var_pooled); vm_compute; reflexivity.
Defined.
